(** * SentimentX: data resolution, derived indicators, ticker resolution
      and the sector-balanced portfolio builder

    A shallow embedding of the TypeScript sources

      - [src/lib/ragRetriever.ts]   (quick stats, caches, indicator maths)
      - [src/lib/technicals.ts]     (exported [sma] / [rsi])
      - [src/lib/tickerExtractor.ts] ([extractTickersRich])
      - [src/app/api/prices/route.ts] ([providerOrder], [resolvePrices])
      - [src/lib/portfolio.ts]      (screening, fallback, allocation)

    Conventions of the embedding.

    - A JavaScript string is the list of its UTF-16 code units.
    - A JavaScript number is an exact rational, extended with the three
      IEEE special values where the code can produce or test them
      ([jsnum]); rounding and overflow of binary64 are not modelled, and
      the sign of zero is ignored.
    - [undefined] / [null] are [None].
    - [Map] objects and plain objects used as dictionaries are [gmap]s;
      objects whose enumeration order matters are association lists.
    - Effects (clock, caches, HTTP) are threaded through an explicit
      world; exceptions are a result type. *)

From Stdlib Require Import ZArith NArith QArith Qround Qminmax Lia Lqa List Ascii String.
From stdpp Require Import gmap strings list sorting.

Set Default Proof Using "Type".
Local Open Scope Z_scope.

(* ===================================================================== *)
(** * JavaScript strings                                                  *)
(* ===================================================================== *)

Module Js.

(** UTF-16 code units. *)
Abbreviation jsstring := (list N).

(** A literal: every character of an ASCII string is one code unit. *)
Definition lit (s : string) : jsstring :=
  (fun a => N_of_ascii a) <$> list_ascii_of_string s.

Definition inRange (lo hi c : N) : bool := ((lo <=? c) && (c <=? hi))%N.

(** The class [\s] of ECMAScript regular expressions; it is also the set
    of code units removed by [String.prototype.trim]. *)
Definition isSpace (c : N) : bool :=
  inRange 9 13 c || (c =? 32)%N || (c =? 160)%N || (c =? 5760)%N
  || inRange 8192 8202 c || (c =? 8232)%N || (c =? 8233)%N
  || (c =? 8239)%N || (c =? 8287)%N || (c =? 12288)%N || (c =? 65279)%N.

Definition isUpperAZ (c : N) : bool := inRange 65 90 c.
Definition isLowerAZ (c : N) : bool := inRange 97 122 c.
Definition isDigit (c : N) : bool := inRange 48 57 c.

Fixpoint dropWhile {A} (p : A -> bool) (l : list A) : list A :=
  match l with
  | [] => []
  | x :: r => if p x then dropWhile p r else l
  end.

Definition dropWhileEnd {A} (p : A -> bool) (l : list A) : list A :=
  rev (dropWhile p (rev l)).

(** [s.trim()] *)
Definition trim (s : jsstring) : jsstring :=
  dropWhileEnd isSpace (dropWhile isSpace s).

(** ASCII case mappings.  [toUpperCase] / [toLowerCase] of the host are
    parameters of the sections below; these two agree with them on
    strings of ASCII code units and serve to run the model on such
    inputs. *)
Definition asciiUpper (s : jsstring) : jsstring :=
  (fun c => if isLowerAZ c then (c - 32)%N else c) <$> s.
Definition asciiLower (s : jsstring) : jsstring :=
  (fun c => if isUpperAZ c then (c + 32)%N else c) <$> s.

(** Truthiness of a string: [""] is falsy. *)
Definition truthy (s : jsstring) : bool :=
  match s with [] => false | _ => true end.

Definition eqb (a b : jsstring) : bool := bool_decide (a = b).

(** [hay.includes(needle)] *)
Fixpoint isPrefix (p s : jsstring) : bool :=
  match p, s with
  | [], _ => true
  | _ :: _, [] => false
  | a :: p', b :: s' => (a =? b)%N && isPrefix p' s'
  end.

Fixpoint includes (hay needle : jsstring) : bool :=
  isPrefix needle hay ||
  match hay with
  | [] => false
  | _ :: r => includes r needle
  end.

(** [s.split(sep)] for a one-character separator class, followed by
    [.filter(Boolean)]: the maximal runs of non-separator code units. *)
Fixpoint splitRuns (sep : N -> bool) (cur : jsstring) (s : jsstring)
  : list jsstring :=
  match s with
  | [] => match cur with [] => [] | _ => [rev cur] end
  | c :: r =>
      if sep c
      then match cur with
           | [] => splitRuns sep [] r
           | _ => rev cur :: splitRuns sep [] r
           end
      else splitRuns sep (c :: cur) r
  end.

(** [Array.from(new Set(xs))]: first occurrences, in order. *)
Fixpoint dedupe (seen xs : list jsstring) : list jsstring :=
  match xs with
  | [] => []
  | x :: r =>
      if bool_decide (x ∈ seen) then dedupe seen r
      else x :: dedupe (x :: seen) r
  end.

(** [parts.join(" ")] *)
Fixpoint joinSp (parts : list jsstring) : jsstring :=
  match parts with
  | [] => []
  | [p] => p
  | p :: r => p ++ 32%N :: joinSp r
  end.

End Js.

Import Js.

(* ===================================================================== *)
(** * JavaScript numbers                                                  *)
(* ===================================================================== *)

(** Exact rationals plus the IEEE specials. *)
Inductive jsnum : Type :=
| Fin (q : Q)
| PInf
| NInf
| NaN.

Module Num.

Definition Qltb (a b : Q) : bool :=
  match (a ?= b)%Q with Lt => true | _ => false end.
Definition Qleb (a b : Q) : bool :=
  match (a ?= b)%Q with Gt => false | _ => true end.
Definition Qeqb (a b : Q) : bool :=
  match (a ?= b)%Q with Eq => true | _ => false end.

(** [Number.isFinite] *)
Definition isFinite (x : jsnum) : bool :=
  match x with Fin _ => true | _ => false end.

(** The finite value of a number, [undefined] otherwise: the helper
    [num] of ragRetriever.ts on a value whose [typeof] is ["number"]. *)
Definition finite (x : jsnum) : option Q :=
  match x with Fin q => Some q | _ => None end.

Definition neg (x : jsnum) : jsnum :=
  match x with Fin q => Fin (- q) | PInf => NInf | NInf => PInf | NaN => NaN end.

Definition add (x y : jsnum) : jsnum :=
  match x, y with
  | NaN, _ | _, NaN => NaN
  | Fin a, Fin b => Fin (a + b)
  | PInf, NInf | NInf, PInf => NaN
  | PInf, _ | _, PInf => PInf
  | NInf, _ | _, NInf => NInf
  end.

Definition sub (x y : jsnum) : jsnum := add x (neg y).

(** The infinity with the sign of [q]; [NaN] when [q] is zero. *)
Definition signedInf (q : Q) (pos : bool) : jsnum :=
  if Qeqb q 0 then NaN
  else if Bool.eqb (Qltb 0 q) pos then PInf else NInf.

Definition mul (x y : jsnum) : jsnum :=
  match x, y with
  | NaN, _ | _, NaN => NaN
  | Fin a, Fin b => Fin (a * b)
  | Fin a, PInf | PInf, Fin a => signedInf a true
  | Fin a, NInf | NInf, Fin a => signedInf a false
  | PInf, PInf | NInf, NInf => PInf
  | PInf, NInf | NInf, PInf => NInf
  end.

Definition div (x y : jsnum) : jsnum :=
  match x, y with
  | NaN, _ | _, NaN => NaN
  | Fin a, Fin b => if Qeqb b 0 then signedInf a true else Fin (a / b)
  | Fin _, (PInf | NInf) => Fin 0
  | PInf, Fin b => if Qltb b 0 then NInf else PInf
  | NInf, Fin b => if Qltb b 0 then PInf else NInf
  | (PInf | NInf), (PInf | NInf) => NaN
  end.

(** [x < y] *)
Definition lt (x y : jsnum) : bool :=
  match x, y with
  | NaN, _ | _, NaN => false
  | Fin a, Fin b => Qltb a b
  | NInf, NInf | PInf, _ => false
  | NInf, _ => true
  | Fin _, PInf => true
  | Fin _, NInf => false
  end.

Definition gt (x y : jsnum) : bool := lt y x.

(** [x === y] *)
Definition eq (x y : jsnum) : bool :=
  match x, y with
  | Fin a, Fin b => Qeqb a b
  | PInf, PInf | NInf, NInf => true
  | _, _ => false
  end.

Definition le (x y : jsnum) : bool := lt x y || eq x y.
Definition ge (x y : jsnum) : bool := le y x.

Definition ofZ (z : Z) : jsnum := Fin (inject_Z z).
Definition ofNat (n : nat) : jsnum := Fin (inject_Z (Z.of_nat n)).

End Num.

Declare Scope jsnum_scope.
Delimit Scope jsnum_scope with js.
Bind Scope jsnum_scope with jsnum.
Infix "+" := Num.add : jsnum_scope.
Infix "-" := Num.sub : jsnum_scope.
Infix "*" := Num.mul : jsnum_scope.
Infix "/" := Num.div : jsnum_scope.

(** [a ?? b] *)
Definition nullish {A} (a b : option A) : option A :=
  match a with Some _ => a | None => b end.
Infix "??" := nullish (at level 61, left associativity).

(** [a ?? d] with a default that is never [undefined]. *)
Definition orElse {A} (a : option A) (d : A) : A :=
  match a with Some x => x | None => d end.
Infix "?:" := orElse (at level 61, left associativity).

(** [arr.slice(-k)] for [k >= 1]: the last [k] elements (all of them when
    there are fewer). *)
Definition lastN {A} (k : nat) (l : list A) : list A :=
  drop (length l - k)%nat l.

(** [arr.reduce((a, b) => a + b, 0)] on finite numbers. *)
Definition Qsum (l : list Q) : Q := fold_left Qplus l 0%Q.

(** [for (let i = lo; i < lo + count; i++) s = body(i, s)] *)
Fixpoint forRange {St : Type} (lo count : nat) (body : nat -> St -> St) (s : St) : St :=
  match count with
  | O => s
  | S k => forRange (S lo) k body (body lo s)
  end.

(** [arr[i]] on an array of finite numbers; every use below is guarded by
    a length test, so the value chosen out of range is never read. *)
Definition at_ (l : list Q) (i : nat) : Q := nth i l 0%Q.

(* ===================================================================== *)
(** * Indicator maths (ragRetriever.ts, technicals.ts)                    *)
(* ===================================================================== *)

Inductive MATrend : Type := up | down | flat.

Module Indicator.

(** [toAscending]: reversed once when the first close exceeds the last. *)
Definition toAscending (closes : list Q) : list Q :=
  if (2 <=? length closes)%nat && Num.Qltb (at_ closes (length closes - 1)) (at_ closes 0)
  then rev closes
  else closes.

(** [sma(values, n)] *)
Definition sma (values : list Q) (n : nat) : option jsnum :=
  if (length values <? n)%nat then None
  else
    let slice := drop (length values - n) values in
    let s := Qsum slice in
    Some (Fin s / Num.ofNat n)%js.

(** One iteration of the gain/loss loop of [rsiFromCloses]. *)
Definition rsiStep (closes : list Q) (i : nat) (gl : Q * Q) : Q * Q :=
  let diff := (at_ closes i - at_ closes (i - 1))%Q in
  if Num.Qltb 0 diff then ((gl.1 + diff)%Q, gl.2) else (gl.1, (gl.2 - diff)%Q).

(** [rsiFromCloses(values, n = 14)] *)
Definition rsiFromCloses (values : list Q) (n : nat) : option Q :=
  if (length values <=? n)%nat then None
  else
    let closes := lastN (1 + n) values in
    let gl := forRange 1 (length closes - 1) (rsiStep closes) (0%Q, 0%Q) in
    let avgGain := (Fin gl.1 / Num.ofNat n)%js in
    let avgLoss := (Fin gl.2 / Num.ofNat n)%js in
    if Num.eq avgLoss (Fin 0) then Some 100%Q
    else
      let rs := (avgGain / avgLoss)%js in
      let rsi := (Fin 100 - Fin 100 / (Fin 1 + rs))%js in
      Num.finite rsi.

(** [momentumPct(values, lookback = 15)] *)
Definition momentumPct (values : list Q) (lookback : nat) : option jsnum :=
  if (length values <? lookback + 1)%nat then None
  else
    let a := at_ values (length values - (lookback + 1)) in
    let b := at_ values (length values - 1) in
    if Num.Qeqb a 0 then None
    else Some ((Fin b / Fin a - Fin 1) * Fin 100)%js.

(** [trendFromMomentum(mom, pctVsMA50)] *)
Definition trendFromMomentum (mom pctVsMA50 : option jsnum) : MATrend :=
  let byPct :=
    match pctVsMA50 with
    | Some p =>
        if Num.gt p (Fin 0.5) then up
        else if Num.lt p (Fin (-0.5)) then down
        else flat
    | None => flat
    end in
  match mom with
  | Some m =>
      if Num.gt m (Fin 0.5) then up
      else if Num.lt m (Fin (-0.5)) then down
      else byPct
  | None => byPct
  end.

End Indicator.

Module Technicals.

(** [sma(values, period)] of technicals.ts *)
Definition sma (values : list Q) (period : nat) : option jsnum :=
  if (length values <? period)%nat then None
  else
    let sum := forRange (length values - period) period
                 (fun i sum => (sum + at_ values i)%Q) 0%Q in
    Some (Fin sum / Num.ofNat period)%js.

Definition rsiStep (values : list Q) (i : nat) (gl : Q * Q) : Q * Q :=
  let diff := (at_ values i - at_ values (i - 1))%Q in
  if Num.Qleb 0 diff then ((gl.1 + diff)%Q, gl.2) else (gl.1, (gl.2 - diff)%Q).

(** [rsi(values, period = 14)] of technicals.ts; no finiteness guard on
    the result. *)
Definition rsi (values : list Q) (period : nat) : option jsnum :=
  if (length values <? period + 1)%nat then None
  else
    let gl := forRange (length values - period) period (rsiStep values) (0%Q, 0%Q) in
    let avgG := (Fin gl.1 / Num.ofNat period)%js in
    let avgL := (Fin gl.2 / Num.ofNat period)%js in
    if Num.eq avgL (Fin 0) then Some (Fin 100)
    else
      let rs := (avgG / avgL)%js in
      Some (Fin 100 - Fin 100 / (Fin 1 + rs))%js.

End Technicals.

(** Every delta among the last [n + 1] points of [values] is
    non-negative. *)
Definition windowNonDecreasing (values : list Q) (n : nat) : Prop :=
  forall i : nat, (length values - n <= i < length values)%nat ->
    (at_ values (i - 1) <= at_ values i)%Q.

(* ===================================================================== *)
(** * JSON values and the host environment                                *)
(* ===================================================================== *)

(** The result of [JSON.parse] (finite numbers only).  An object is the
    list of its own properties, each key once. *)
#[warnings="-register-all"]
Inductive json : Type :=
| JNull
| JBool (b : bool)
| JNum (q : Q)
| JStr (s : jsstring)
| JArr (items : list json)
| JObj (fields : list (jsstring * json)).

(** What the host provides and the sources rely on without defining it. *)
Class Host : Type := {
  (** [String.prototype.toUpperCase] / [toLowerCase] (full Unicode) *)
  toUpperCase : jsstring -> jsstring;
  toLowerCase : jsstring -> jsstring;
  (** [a.localeCompare(b)] *)
  localeCompare : jsstring -> jsstring -> comparison;
  (** [Number(v)] on a string, an array or an object *)
  coerceToNumber : json -> jsnum;
  (** [x.toFixed(digits)] *)
  toFixed : Q -> nat -> jsstring;
}.

(** A host for ASCII data: used to run the model on concrete inputs. *)
Fixpoint asciiCompare (a b : jsstring) : comparison :=
  match a, b with
  | [], [] => Eq
  | [], _ :: _ => Lt
  | _ :: _, [] => Gt
  | x :: a', y :: b' =>
      match (x ?= y)%N with
      | Eq => asciiCompare a' b'
      | c => c
      end
  end.

Definition asciiHost : Host := {|
  toUpperCase := asciiUpper;
  toLowerCase := asciiLower;
  localeCompare := asciiCompare;
  coerceToNumber := fun _ => NaN;
  toFixed := fun _ _ => [];
|}.

Module Json.

(** [v?.k]: [undefined] on [null], [undefined], and on values that have
    no such own property. *)
Definition prop (k : string) (v : option json) : option json :=
  match v with
  | Some (JObj fields) => snd <$> List.find (fun kv => Js.eqb kv.1 (lit k)) fields
  | _ => None
  end.

(** [v == null] *)
Definition isNullish (v : option json) : bool :=
  match v with None | Some JNull => true | _ => false end.

(** [a ?? b] on values *)
Definition coalesce (a b : option json) : option json :=
  if isNullish a then b else a.

(** Truthiness. *)
Definition truthy (v : option json) : bool :=
  match v with
  | None | Some JNull => false
  | Some (JBool b) => b
  | Some (JNum q) => negb (Num.Qeqb q 0)
  | Some (JStr s) => Js.truthy s
  | Some (JArr _) | Some (JObj _) => true
  end.

(** [Number(v)] *)
Definition Number `{Host} (v : option json) : jsnum :=
  match v with
  | None => NaN
  | Some JNull => Fin 0
  | Some (JBool b) => Fin (if b then 1 else 0)
  | Some (JNum q) => Fin q
  | Some other => coerceToNumber other
  end.

(** [typeof v === "number" && Number.isFinite(v) ? v : undefined]: the
    helper [num] of ragRetriever.ts. *)
Definition num (v : option json) : option Q :=
  match v with Some (JNum q) => Some q | _ => None end.

(** [Array.isArray(v) && v.length], as the items of the array. *)
Definition nonEmptyArray (v : option json) : option (list json) :=
  match v with
  | Some (JArr (x :: r)) => Some (x :: r)
  | _ => None
  end.

End Json.

Infix "???" := Json.coalesce (at level 61, left associativity).

(** Exceptions. *)
Inductive Result (A : Type) : Type :=
| Ok (a : A)
| Throw.
Arguments Ok {A} a.
Arguments Throw {A}.

(* ===================================================================== *)
(** * ragRetriever.ts: rows, caches, loaders                              *)
(* ===================================================================== *)

Record QuickStats : Type := {
  qs_price : option Q;
  qs_high52 : option Q;
  qs_rsi : option Q;
  qs_ma50 : option Q;
  qs_pctVsMA50 : option Q;
  qs_maTrend : option MATrend;
}.

(** A normalised dataset row ([IndicatorRow]); it has no [close] field. *)
Record IndicatorRow : Type := {
  ir_ticker : jsstring;
  ir_price : option Q;
  ir_high52 : option Q;
  ir_rsi : option Q;
  ir_ma50 : option Q;
  ir_pctVsMA50 : option Q;
  ir_company : option json;
  ir_sector : option json;
  ir_historical : option (list Q);
}.

Module Rag.

Definition TTL_QUOTE : Z := 60 * 1000.
Definition TTL_METRIC : Z := 6 * 60 * 60 * 1000.
Definition TTL_CANDLE : Z := 2 * 60 * 60 * 1000.
Definition TTL_DATASET : Z := 10 * 60 * 1000.

(** [norm]: [(t || "").trim().toUpperCase()] *)
Definition norm `{Host} (t : jsstring) : jsstring := toUpperCase (trim t).

(** [.filter(Number.isFinite)] on already-converted numbers. *)
Definition finites (l : list jsnum) : list Q := omap Num.finite l.

(** [normalizeRow(raw)].  [norm] is applied to [raw?.ticker || ""]: a
    truthy ticker that is not a string has no [trim] method, and [raw.ma50]
    on [null] is a property access on [null]; both raise a TypeError. *)
Definition normalizeRow `{Host} (raw : json) : Result IndicatorRow :=
  let r := Some raw in
  let tk := Json.prop "ticker" r in
  let t : Result jsstring :=
    if Json.truthy tk then
      match tk with
      | Some (JStr s) => Ok (norm s)
      | _ => Throw
      end
    else Ok (norm []) in
  match t with
  | Throw => Throw
  | Ok t =>
      let histArr : list Q :=
        match Json.nonEmptyArray (Json.prop "historical" r) with
        | Some (first :: rest) =>
            match first with
            | JNum _ =>
                Indicator.toAscending (omap (fun h => Json.num (Some h)) (first :: rest))
            | _ =>
                Indicator.toAscending
                  (finites ((fun h => Json.Number (Json.prop "close" (Some h)))
                              <$> (first :: rest)))
            end
        | _ =>
            match Json.nonEmptyArray (Json.prop "close" (Json.prop "ohlc" r)) with
            | Some closes =>
                Indicator.toAscending (finites ((fun c => Json.Number (Some c)) <$> closes))
            | None => []
            end
        end in
      match raw with
      | JNull => Throw
      | _ =>
          let ma50 := Json.num (Json.prop "ma50" r ??? Json.prop "ma_50" r) in
          let price := Json.num (Json.prop "price" r ??? Json.prop "close" r) in
          let rsi := Json.num (Json.prop "rsi" r) in
          let pctVsMA50 := Json.num (Json.prop "pctVsMA50" r ??? Json.prop "pct_vs_ma50" r) in
          Ok {| ir_ticker := t;
                ir_price := price;
                ir_high52 := Json.num (Json.prop "high52" r);
                ir_rsi := rsi;
                ir_ma50 := ma50;
                ir_pctVsMA50 := pctVsMA50;
                ir_company := Json.prop "company" r;
                ir_sector := Json.prop "sector" r;
                ir_historical := Some histArr |}
      end
  end.

(** [arr.map(normalizeRow)]: the first exception aborts the map. *)
Fixpoint mapNormalize `{Host} (arr : list json) : Result (list IndicatorRow) :=
  match arr with
  | [] => Ok []
  | raw :: rest =>
      match normalizeRow raw with
      | Throw => Throw
      | Ok row =>
          match mapNormalize rest with
          | Throw => Throw
          | Ok rows => Ok (row :: rows)
          end
      end
  end.

(** ** The world: clock, caches, HTTP log *)

Inductive Request : Type :=
| FinnhubQuote (symbol token : jsstring)
| FinnhubMetric (symbol token : jsstring)
| FinnhubCandle (symbol : jsstring) (fromSec toSec : Z) (token : jsstring)
| DatasetJson.

(** [fetch] rejects ([NetworkError]) or resolves to a response with its
    [ok] flag and a body; [body = None] is a body that is not JSON, on
    which [res.json()] rejects. *)
Inductive Response : Type :=
| NetworkError
| Http (ok : bool) (body : option json).

Class Env : Type := {
  FINNHUB_KEY : jsstring;
  (** The response to a request issued at a given time, and the number of
      milliseconds that pass until it arrives. *)
  network : Request -> Z -> Response * N;
  (** [await import("@/data/sp500_indicators")]: [None] when the import
      rejects, else the value of the export [SP500_INDICATORS]
      ([undefined] for the module of this repository, which exports only
      [loadIndicatorsFor]). *)
  datasetModule : option (option json);
}.

Record World : Type := {
  clock : Z;                                         (* Date.now() *)
  quoteCache : gmap jsstring (Z * option Q);         (* { t, data: { price? } } *)
  metricCache : gmap jsstring (Z * option Q);        (* { t, data: { high52? } } *)
  candleCache : gmap jsstring (Z * list Q);          (* { t, data } *)
  datasetCache : gmap jsstring (Z * list IndicatorRow); (* { t, rows } *)
  httpLog : list Request;                            (* requests sent, oldest first *)
}.

Definition setClock (c : Z) (w : World) : World :=
  {| clock := c; quoteCache := quoteCache w; metricCache := metricCache w;
     candleCache := candleCache w; datasetCache := datasetCache w;
     httpLog := httpLog w |}.
Definition setQuoteCache (m : gmap jsstring (Z * option Q)) (w : World) : World :=
  {| clock := clock w; quoteCache := m; metricCache := metricCache w;
     candleCache := candleCache w; datasetCache := datasetCache w;
     httpLog := httpLog w |}.
Definition setMetricCache (m : gmap jsstring (Z * option Q)) (w : World) : World :=
  {| clock := clock w; quoteCache := quoteCache w; metricCache := m;
     candleCache := candleCache w; datasetCache := datasetCache w;
     httpLog := httpLog w |}.
Definition setCandleCache (m : gmap jsstring (Z * list Q)) (w : World) : World :=
  {| clock := clock w; quoteCache := quoteCache w; metricCache := metricCache w;
     candleCache := m; datasetCache := datasetCache w;
     httpLog := httpLog w |}.
Definition setDatasetCache (m : gmap jsstring (Z * list IndicatorRow)) (w : World) : World :=
  {| clock := clock w; quoteCache := quoteCache w; metricCache := metricCache w;
     candleCache := candleCache w; datasetCache := m;
     httpLog := httpLog w |}.
Definition logRequest (r : Request) (w : World) : World :=
  {| clock := clock w; quoteCache := quoteCache w; metricCache := metricCache w;
     candleCache := candleCache w; datasetCache := datasetCache w;
     httpLog := httpLog w ++ [r] |}.

(** Computations that read and write the world and may throw. *)
Definition M (A : Type) : Type := World -> Result A * World.

Definition ret {A} (a : A) : M A := fun w => (Ok a, w).
Definition throw {A} : M A := fun w => (Throw, w).
Definition bind {A B} (m : M A) (k : A -> M B) : M B :=
  fun w => match m w with
           | (Ok a, w') => k a w'
           | (Throw, w') => (Throw, w')
           end.
(** [try { m } catch { h }] *)
Definition tryCatch {A} (m h : M A) : M A :=
  fun w => match m w with
           | (Ok a, w') => (Ok a, w')
           | (Throw, w') => h w'
           end.

Notation "'let*' x ':=' m 'in' k" := (bind m (fun x => k))
  (at level 10, x pattern, m at level 200, k at level 200).

(** [hit && now() - hit.t < TTL ? hit.data : (miss)] *)
Definition fresh {A} (hit : option (Z * A)) (t ttl : Z) : option A :=
  match hit with
  | Some (ht, data) => if t - ht <? ttl then Some data else None
  | None => None
  end.

(** [now()] *)
Definition now : M Z := fun w => (Ok (clock w), w).
Definition modify (f : World -> World) : M unit := fun w => (Ok tt, f w).
Definition gets {A} (f : World -> A) : M A := fun w => (Ok (f w), w).

(** [await fetch(req)] *)
Definition fetch `{Env} (req : Request) : M (bool * option json) :=
  fun w =>
    let '(resp, latency) := network req (clock w) in
    let w' := setClock (clock w + Z.of_N latency) (logRequest req w) in
    match resp with
    | NetworkError => (Throw, w')
    | Http ok body => (Ok (ok, body), w')
    end.

(** [await res.json()] *)
Definition resJson (body : option json) : M json :=
  match body with
  | Some j => ret j
  | None => throw
  end.

(** [Promise.all([a, b, c])] for tasks that each await at most one
    request and write disjoint parts of the world: every task starts at
    the same instant, and the join resumes when the last one is done. *)
Definition promiseAll3 {A B C} (a : M A) (b : M B) (c : M C) : M (A * B * C) :=
  fun w =>
    let t0 := clock w in
    let '(ra, w1) := a w in
    let '(rb, w2) := b (setClock t0 w1) in
    let '(rc, w3) := c (setClock t0 w2) in
    let w' := setClock (Z.max (Z.max (clock w1) (clock w2)) (clock w3)) w3 in
    match ra, rb, rc with
    | Ok x, Ok y, Ok z => (Ok (x, y, z), w')
    | _, _, _ => (Throw, w')
    end.

(** ** Local dataset loaders *)

(** [loadDatasetModule()] *)
Definition loadDatasetModule `{Host} `{Env} : M (option (list IndicatorRow)) :=
  tryCatch
    (match datasetModule with
     | None => throw
     | Some arr =>
         match Json.nonEmptyArray arr with
         | Some items =>
             match mapNormalize items with
             | Ok rows => ret (Some rows)
             | Throw => throw
             end
         | None => ret None
         end
     end)
    (ret None).

Definition datasetKey : jsstring := lit "public_json".

(** [loadDatasetJson()] *)
Definition loadDatasetJson `{Host} `{Env} : M (option (list IndicatorRow)) :=
  let key := datasetKey in
  let* hit := gets (fun w => datasetCache w !! key) in
  let* t := now in
  match fresh hit t TTL_DATASET with
  | Some rows => ret (Some rows)
  | None =>
      tryCatch
        (let* res := fetch DatasetJson in
         if negb res.1 then ret None else
         let* arr := resJson res.2 in
         match (match arr with JArr items => mapNormalize items | _ => Ok [] end) with
         | Throw => throw
         | Ok rows =>
             let* t' := now in
             let* _ := modify (fun w => setDatasetCache (<[key := (t', rows)]> (datasetCache w)) w) in
             ret (Some rows)
         end)
        (ret None)
  end.

(** [rows.find((r) => r.ticker === T)] when [rows] is a non-empty array. *)
Definition findRow (rows : option (list IndicatorRow)) (T : jsstring) : option IndicatorRow :=
  match rows with
  | Some rs => List.find (fun r => Js.eqb (ir_ticker r) T) rs
  | None => None
  end.

(** [loadRow(ticker)] *)
Definition loadRow `{Host} `{Env} (ticker : jsstring) : M (option IndicatorRow) :=
  let T := norm ticker in
  let* modRows := loadDatasetModule in
  match findRow modRows T with
  | Some hit => ret (Some hit)
  | None =>
      let* jsonRows := loadDatasetJson in
      match findRow jsonRows T with
      | Some hit => ret (Some hit)
      | None => ret None
      end
  end.

(** ** Finnhub helpers *)

(** [finnhubGet(url)]; the request is the URL without its token. *)
Definition finnhubGet `{Env} (url : jsstring -> Request) : M (option json) :=
  if negb (Js.truthy FINNHUB_KEY) then ret None else
  tryCatch
    (let* res := fetch (url FINNHUB_KEY) in
     if negb res.1 then ret None else
     let* json := resJson res.2 in
     match json with
     | JObj _ =>
         match Json.prop "s" (Some json) with
         | Some (JStr s) => if Js.eqb s (lit "no_data") then ret None else ret (Some json)
         | _ => ret (Some json)
         end
     | _ => ret (Some json)
     end)
    (ret None).

(** [getLiveQuote(ticker)]; the result is the [price] field of the
    returned object. *)
Definition getLiveQuote `{Host} `{Env} (ticker : jsstring) : M (option Q) :=
  let t := norm ticker in
  let* hit := gets (fun w => quoteCache w !! t) in
  let* t0 := now in
  match fresh hit t0 TTL_QUOTE with
  | Some data => ret data
  | None =>
      let* q := finnhubGet (FinnhubQuote t) in
      let c := Json.prop "c" q in
      let data := if Json.truthy c then Json.num c else None in
      let* t1 := now in
      let* _ := modify (fun w => setQuoteCache (<[t := (t1, data)]> (quoteCache w)) w) in
      ret data
  end.

(** [getLiveMetrics(ticker)]; the result is the [high52] field. *)
Definition getLiveMetrics `{Host} `{Env} (ticker : jsstring) : M (option Q) :=
  let t := norm ticker in
  let* hit := gets (fun w => metricCache w !! t) in
  let* t0 := now in
  match fresh hit t0 TTL_METRIC with
  | Some data => ret data
  | None =>
      let* m := finnhubGet (FinnhubMetric t) in
      let high52 := Json.prop "52WeekHigh" (Json.prop "metric" m) in
      let data := Json.num high52 in
      let* t1 := now in
      let* _ := modify (fun w => setMetricCache (<[t := (t1, data)]> (metricCache w)) w) in
      ret data
  end.

(** [getLiveCloses(ticker)] *)
Definition getLiveCloses `{Host} `{Env} (ticker : jsstring) : M (option (list Q)) :=
  let t := norm ticker in
  let* hit := gets (fun w => candleCache w !! t) in
  let* t0 := now in
  match fresh hit t0 TTL_CANDLE with
  | Some data => ret (Some data)
  | None =>
      let* ms := now in
      let toSec := ms `div` 1000 in
      let fromSec := toSec - 400 * 24 * 60 * 60 in
      let* c := finnhubGet (FinnhubCandle t fromSec toSec) in
      match Json.nonEmptyArray (Json.prop "c" c) with
      | None => ret None
      | Some cs =>
          let closes := finites ((fun x => Json.Number (Some x)) <$> cs) in
          let last252 := lastN 252 closes in
          let* t1 := now in
          let* _ := modify (fun w => setCandleCache (<[t := (t1, last252)]> (candleCache w)) w) in
          ret (Some last252)
      end
  end.

(** ** Public API *)

(** The synchronous part of [getQuickStats], after all awaits. *)
Definition assemble (row : option IndicatorRow) (liveQ liveM : option Q)
    (liveCloses : option (list Q)) : QuickStats :=
  let closes : list Q :=
    match liveCloses with
    | Some (x :: r) => x :: r
    | _ => (row ≫= ir_historical) ?: []
    end in
  let derivedMA50 : option jsnum :=
    (Fin <$> (row ≫= ir_ma50))
      ?? (if (50 <=? length closes)%nat then Indicator.sma closes 50 else None) in
  let derivedRSI : option Q :=
    (row ≫= ir_rsi)
      ?? (if (15 <=? length closes)%nat then Indicator.rsiFromCloses closes 14 else None) in
  let price : option Q := liveQ ?? (row ≫= ir_price) ?? None in
  let high52 : option Q := liveM ?? (row ≫= ir_high52) in
  let pctVsMA50 : option jsnum :=
    match price, derivedMA50 with
    | Some p, Some m =>
        if negb (Num.eq m (Fin 0))
        then Some ((Fin p / m - Fin 1) * Fin 100)%js
        else Fin <$> (row ≫= ir_pctVsMA50)
    | _, _ => Fin <$> (row ≫= ir_pctVsMA50)
    end in
  let mom := Indicator.momentumPct closes 15 in
  let maTrend := Indicator.trendFromMomentum mom pctVsMA50 in
  {| qs_price := price;
     qs_high52 := high52;
     qs_rsi := derivedRSI;
     qs_ma50 := derivedMA50 ≫= Num.finite;
     qs_pctVsMA50 := pctVsMA50 ≫= Num.finite;
     qs_maTrend := Some maTrend |}.

(** [getQuickStats(ticker)] *)
Definition getQuickStats `{Host} `{Env} (ticker : jsstring) : M QuickStats :=
  let t := norm ticker in
  let* row := loadRow t in
  let* live := promiseAll3 (getLiveQuote t) (getLiveMetrics t) (getLiveCloses t) in
  let '(liveQ, liveM, liveCloses) := live in
  ret (assemble row liveQ liveM liveCloses).

(** [getRecentCloses(ticker)] *)
Definition getRecentCloses `{Host} `{Env} (ticker : jsstring) : M (list Q) :=
  let t := norm ticker in
  let* live := getLiveCloses t in
  match live with
  | Some (x :: r) => ret (x :: r)
  | _ =>
      let* row := loadRow t in
      match row with
      | None => ret []
      | Some row =>
          match ir_historical row with
          | Some (x :: r) => ret (lastN 252 (x :: r))
          | _ =>
              match ir_price row with
              | Some p => ret [p]
              | None => ret []
              end
          end
      end
  end.

End Rag.

(* ===================================================================== *)
(** * tickerExtractor.ts                                                  *)
(* ===================================================================== *)

Inductive MatchedBy : Type := bySymbol | byCompany | byAlias | byCookie | byClientHint.

Record ExtractResult : Type := {
  bestTicker : option jsstring;
  allTickers : list jsstring;
  matchedBy : option MatchedBy;
  confidence : Q;
  reason : jsstring;
}.

Record ExtractOpts : Type := {
  lastCookieTicker : option jsstring;
  lastClientTicker : option jsstring;
  preferLatest : option bool;
}.

(** The tables built when the module is loaded.  [SP500_COMPANIES] lives
    in a data file that is not part of the sources at hand: its keys and
    the name table derived from it (and from [MANUAL_ALIASES]) are
    parameters.  [NAME_TO_TICKER] is a [Map], kept in insertion order. *)
Class TickerData : Type := {
  SP500_TICKERS : list jsstring;
  NAME_TO_TICKER : list (jsstring * list jsstring);
}.

Module Extractor.

Definition EXTRA_TICKERS : list jsstring := [lit "SPY"; lit "QQQ"; lit "DIA"].

Definition TICKERS_SET `{TickerData} : gset jsstring :=
  list_to_set (SP500_TICKERS ++ EXTRA_TICKERS).

(** [TICKERS_SET.has(t)] *)
Definition isTicker `{TickerData} (t : jsstring) : bool := bool_decide (t ∈ TICKERS_SET).

(** [.replace(/&/g, " and ")] *)
Definition expandAmp (s : jsstring) : jsstring :=
  s ≫= (fun c => if (c =? 38)%N then lit " and " else [c]).

(** [.replace(/\s+/g, " ")] *)
Fixpoint collapseRuns (inRun : bool) (s : jsstring) : jsstring :=
  match s with
  | [] => []
  | c :: r =>
      if isSpace c
      then (if inRun then collapseRuns true r else 32%N :: collapseRuns true r)
      else c :: collapseRuns false r
  end.
Definition collapseSpaces (s : jsstring) : jsstring := collapseRuns false s.

(** [norm(s)] of the extractor. *)
Definition norm `{Host} (s : jsstring) : jsstring :=
  let lower := toLowerCase s in
  let anded := expandAmp lower in
  let kept :=
    (fun c => if isLowerAZ c || isDigit c || isSpace c || (c =? 46)%N then c else 32%N)
      <$> anded in
  trim (collapseSpaces kept).

(** [tokenize(text)] *)
Definition isZeroWidth (c : N) : bool := inRange 8203 8205 c || (c =? 65279)%N.
Definition isCurlyQuote (c : N) : bool :=
  (c =? 8220)%N || (c =? 8221)%N || (c =? 8216)%N || (c =? 8217)%N.
Definition isTokenSep (c : N) : bool :=
  isSpace c || (c =? 44)%N || (c =? 59)%N || (c =? 58)%N || (c =? 47)%N
  || (c =? 40)%N || (c =? 41)%N || (c =? 91)%N || (c =? 93)%N
  || (c =? 123)%N || (c =? 125)%N || (c =? 124)%N.

Definition tokenize (text : jsstring) : list jsstring :=
  let cleaned :=
    (fun c => if isCurlyQuote c then 39%N else c)
      <$> List.filter (fun c => negb (isZeroWidth c)) text in
  splitRuns isTokenSep [] cleaned.

(** [raw.replace(/^[\$#]/, "").replace(/[?!\.,]+$/g, "")] *)
Definition isTrailingPunct (c : N) : bool :=
  (c =? 63)%N || (c =? 33)%N || (c =? 46)%N || (c =? 44)%N.
Definition coreOf (raw : jsstring) : jsstring :=
  let noSigil :=
    match raw with
    | c :: r => if (c =? 36)%N || (c =? 35)%N then r else raw
    | [] => raw
    end in
  dropWhileEnd isTrailingPunct noSigil.

(** [/^[A-Z]{1,5}(\.[A-Z])?$/.test(core)] *)
Definition symbolShape (core : jsstring) : bool :=
  let head := dropWhile isUpperAZ core in
  let n := (length core - length head)%nat in
  (1 <=? n)%nat && (n <=? 5)%nat &&
  match head with
  | [] => true
  | [dot; cls] => (dot =? 46)%N && isUpperAZ cls
  | _ => false
  end.

(** The explicit symbols of the text, in order of occurrence. *)
Definition symbolsOf `{Host} `{TickerData} (text : jsstring) : list jsstring :=
  omap (fun raw =>
          let core := coreOf raw in
          if symbolShape core then
            let up := toUpperCase core in
            if isTicker up then Some up else None
          else None)
       (tokenize text).

(** [new Set(s.split(" ").filter(Boolean))] *)
Definition wordSet (s : jsstring) : list jsstring :=
  dedupe [] (splitRuns (fun c => (c =? 32)%N) [] s).

(** [fuzzyCompanyScore(q, name)] *)
Definition fuzzyCompanyScore (q name : jsstring) : Q :=
  if Js.eqb q name then 1
  else if includes name q then 0.85
  else if includes q name then 0.75
  else
    let qa := wordSet q in
    let na := wordSet name in
    let hit := length (List.filter (fun w => bool_decide (w ∈ na)) qa) in
    let denom := Nat.max 1 (Nat.min (length qa) (length na)) in
    ((inject_Z (Z.of_nat hit) / inject_Z (Z.of_nat denom)) * 0.7)%Q.

Record Mention : Type := {
  m_name : jsstring;
  m_tickers : list jsstring;
  m_score : Q;
}.

(** [NAME_TO_TICKER.get(phrase)] *)
Definition nameLookup `{TickerData} (phrase : jsstring) : option (list jsstring) :=
  snd <$> List.find (fun kv => Js.eqb kv.1 phrase) NAME_TO_TICKER.

(** The body of the inner loop: the mention contributed by one phrase. *)
Definition mentionOf `{TickerData} (phrase : jsstring) : option Mention :=
  if (length phrase <? 3)%nat then None
  else
    match nameLookup phrase with
    | Some (t :: ts) => Some {| m_name := phrase; m_tickers := t :: ts; m_score := 0.9 |}
    | _ =>
        match List.find (fun kv => Num.Qleb 0.82 (fuzzyCompanyScore phrase kv.1))
                        NAME_TO_TICKER with
        | Some (name, list) =>
            Some {| m_name := phrase; m_tickers := list;
                    m_score := fuzzyCompanyScore phrase name |}
        | None => None
        end
    end.

(** All phrases of [span] consecutive words, left to right. *)
Definition phrasesOf (words : list jsstring) (span : nat) : list jsstring :=
  (fun i => trim (joinSp (take span (drop i words))))
    <$> seq 0 (length words + 1 - span).

(** Spans [min(5, words.length)] down to [1]. *)
Definition mentionsOf `{TickerData} (words : list jsstring) : list Mention :=
  rev (seq 1 (Nat.min 5 (length words))) ≫=
    (fun span => omap mentionOf (phrasesOf words span)).

(** [mentions.sort((a, b) => b.score - a.score)]: a stable sort, highest
    score first. *)
Fixpoint insertMention (x : Mention) (l : list Mention) : list Mention :=
  match l with
  | [] => [x]
  | y :: r =>
      if Num.Qltb (m_score x) (m_score y) then y :: insertMention x r
      else x :: l
  end.
Definition sortMentions (l : list Mention) : list Mention :=
  foldr insertMention [] l.

Definition curly (name : jsstring) : jsstring :=
  lit "Resolved company " ++ 8220%N :: name ++ 8221%N :: lit ".".

(** The company-name stage: its result when it returns one. *)
Definition companyStage `{Host} `{TickerData} (text : jsstring) : option ExtractResult :=
  let low := norm text in
  let words := splitRuns (fun c => (c =? 32)%N) [] low in
  match sortMentions (mentionsOf words) with
  | [] => None
  | best :: _ =>
      match List.filter isTicker (m_tickers best) with
      | [] => None
      | t :: ts =>
          Some {| bestTicker := Some t;
                  allTickers := t :: ts;
                  matchedBy := Some byCompany;
                  confidence := if Num.Qleb 0.9 (m_score best) then 0.75 else 0.5;
                  reason := curly (m_name best) |}
      end
  end.

(** [[cookie?.toUpperCase(), client?.toUpperCase()].filter(Boolean)
      .find((t) => TICKERS_SET.has(t))] *)
Definition fallbackOf `{Host} `{TickerData} (opts : option ExtractOpts) : option jsstring :=
  let cookie := toUpperCase <$> (opts ≫= lastCookieTicker) in
  let client := toUpperCase <$> (opts ≫= lastClientTicker) in
  List.find isTicker (List.filter Js.truthy (omap id [cookie; client])).

(** [extractTickersRich(text, opts)] *)
Definition extractTickersRich `{Host} `{TickerData}
    (text : jsstring) (opts : option ExtractOpts) : ExtractResult :=
  let preferLatest := negb (bool_decide ((opts ≫= preferLatest) = Some false)) in
  let symbols := symbolsOf text in
  let ordered := if preferLatest then symbols else rev symbols in
  let uniqSymbols := dedupe [] ordered in
  match uniqSymbols with
  | _ :: _ =>
      let best := if preferLatest then last uniqSymbols else head uniqSymbols in
      {| bestTicker := best; allTickers := uniqSymbols; matchedBy := Some bySymbol;
         confidence := 1; reason := lit "Explicit ticker in text." |}
  | [] =>
      match companyStage text with
      | Some r => r
      | None =>
          match fallbackOf opts with
          | Some fb =>
              {| bestTicker := Some fb; allTickers := [fb];
                 matchedBy :=
                   if bool_decide ((toUpperCase <$> (opts ≫= lastCookieTicker)) = Some fb)
                   then Some byCookie else Some byClientHint;
                 confidence := 0.25; reason := lit "Fallback to prior context." |}
          | None =>
              {| bestTicker := None; allTickers := []; matchedBy := None;
                 confidence := 0; reason := lit "No ticker found." |}
          end
      end
  end.

End Extractor.

(* ===================================================================== *)
(** * app/api/prices/route.ts                                             *)
(* ===================================================================== *)

Module Prices.

Inductive Provider : Type := polygon | iex | finnhub | alphavantage.

#[global] Instance Provider_eq_dec : EqDecision Provider.
Proof. solve_decision. Defined.

Definition providerName (p : Provider) : jsstring :=
  match p with
  | polygon => lit "polygon"
  | iex => lit "iex"
  | finnhub => lit "finnhub"
  | alphavantage => lit "alphavantage"
  end.

(** [process.env], each variable defaulted to [""]. *)
Class Config : Type := {
  PRICES_PROVIDER : jsstring;
  POLYGON_API_KEY : jsstring;
  IEX_CLOUD_API_KEY : jsstring;
  FINNHUB_API_KEY : jsstring;
  ALPHA_VANTAGE_API_KEY : jsstring;
}.

(** What an upstream service answers for one ticker: a price, or the note
    that the fetcher files under [errors] for it. *)
Inductive Quote : Type :=
| Priced (p : Q)
| Unpriced (note : jsstring).

(** The upstream services, as seen during one call of [resolvePrices]
    (which asks each service at most once per ticker).  The answer of the
    IEX batch endpoint may depend on the whole batch. *)
Class Upstream : Type := {
  polygonLastTrade : jsstring -> Quote;
  polygonPrevClose : jsstring -> Quote;
  iexBatch : list jsstring -> jsstring -> Quote;
  finnhubQuote : jsstring -> Quote;
  alphaVantageQuote : jsstring -> Quote;
}.

Definition PREFERRED `{Host} `{Config} : jsstring := toLowerCase PRICES_PROVIDER.

Definition hasProvider `{Config} (p : Provider) : bool :=
  match p with
  | polygon => Js.truthy POLYGON_API_KEY
  | iex => Js.truthy IEX_CLOUD_API_KEY
  | finnhub => Js.truthy FINNHUB_API_KEY
  | alphavantage => Js.truthy ALPHA_VANTAGE_API_KEY
  end.

Definition ORDER : list Provider := [polygon; iex; finnhub; alphavantage].

(** [providerOrder()] *)
Definition providerOrder `{Host} `{Config} : list Provider :=
  let prefer :=
    match List.find (fun p => Js.eqb (providerName p) PREFERRED) ORDER with
    | Some p => [p]
    | None => []
    end in
  let rest := List.filter (fun p => negb (Js.eqb (providerName p) PREFERRED)) ORDER in
  List.filter hasProvider (prefer ++ rest).

(** [normTicker(t)] *)
Definition normTicker `{Host} (t : jsstring) : jsstring := toUpperCase (trim t).

Record Fetched : Type := {
  f_prices : gmap jsstring Q;
  f_errors : gmap jsstring jsstring;
}.

(** One per-ticker request: [out[t] = p] or [errs[t] = note]. *)
Definition record (ask : jsstring -> Quote) (acc : Fetched) (t : jsstring) : Fetched :=
  match ask t with
  | Priced p => {| f_prices := <[t := p]> (f_prices acc); f_errors := f_errors acc |}
  | Unpriced note => {| f_prices := f_prices acc; f_errors := <[t := note]> (f_errors acc) |}
  end.

(** The second Polygon request: a price also clears the ticker's note. *)
Definition recordPrev (ask : jsstring -> Quote) (acc : Fetched) (t : jsstring) : Fetched :=
  match ask t with
  | Priced p => {| f_prices := <[t := p]> (f_prices acc); f_errors := delete t (f_errors acc) |}
  | Unpriced note => {| f_prices := f_prices acc; f_errors := <[t := note]> (f_errors acc) |}
  end.

Definition noneYet : Fetched := {| f_prices := ∅; f_errors := ∅ |}.

(** [fetchPolygon(tickers)]: last trade, then previous close for the
    tickers still missing. *)
Definition fetchPolygon `{Upstream} (tickers : list jsstring) : Fetched :=
  let first := fold_left (record polygonLastTrade) tickers noneYet in
  let missing := List.filter (fun t => bool_decide (f_prices first !! t = None)) tickers in
  fold_left (recordPrev polygonPrevClose) missing first.

Definition fetchIEX `{Upstream} (tickers : list jsstring) : Fetched :=
  fold_left (record (iexBatch tickers)) tickers noneYet.

Definition fetchFinnhub `{Upstream} (tickers : list jsstring) : Fetched :=
  fold_left (record finnhubQuote) tickers noneYet.

Definition fetchAlphaVantage `{Upstream} (tickers : list jsstring) : Fetched :=
  fold_left (record alphaVantageQuote) tickers noneYet.

Definition fetchFrom `{Upstream} (provider : Provider) (remaining : list jsstring) : Fetched :=
  match provider with
  | polygon => fetchPolygon remaining
  | iex => fetchIEX remaining
  | finnhub => fetchFinnhub remaining
  | alphavantage => fetchAlphaVantage remaining
  end.

(** The state of the loop of [resolvePrices]; [calls] is a ghost log of
    the batches handed to the providers, oldest first. *)
Record Resolving : Type := {
  prices : gmap jsstring Q;
  errors : gmap jsstring jsstring;
  calls : list (Provider * list jsstring);
}.

(** [tickers.filter((t) => prices[t] === undefined)] *)
Definition unpriced (prices : gmap jsstring Q) (tickers : list jsstring) : list jsstring :=
  List.filter (fun t => bool_decide (prices !! t = None)) tickers.

(** [for (const provider of chain) { ... }] *)
Fixpoint resolveLoop `{Upstream} (chain : list Provider) (tickers : list jsstring)
    (st : Resolving) : Resolving :=
  match chain with
  | [] => st
  | provider :: rest =>
      match unpriced (prices st) tickers with
      | [] => st                                            (* break *)
      | remaining =>
          let res := fetchFrom provider remaining in
          resolveLoop rest tickers
            {| prices := f_prices res ∪ prices st;         (* Object.assign *)
               errors := f_errors res ∪ errors st;
               calls := calls st ++ [(provider, remaining)] |}
      end
  end.

Record Resolved : Type := {
  r_prices : gmap jsstring Q;
  r_source : Provider;
  r_filled : nat;
  r_errors : gmap jsstring jsstring;
  r_calls : list (Provider * list jsstring);
}.

(** [resolvePrices(tickersRaw)]; [Throw] is the error raised when no
    provider is configured. *)
Definition resolvePrices `{Host} `{Config} `{Upstream} (tickersRaw : list jsstring)
  : Result Resolved :=
  let tickers := dedupe [] (List.filter Js.truthy (normTicker <$> tickersRaw)) in
  let chain := providerOrder in
  match chain with
  | [] => Throw
  | source :: _ =>
      let st := resolveLoop chain tickers {| prices := ∅; errors := ∅; calls := [] |} in
      Ok {| r_prices := prices st;
            r_source := source;
            r_filled := size (prices st);
            r_errors := errors st;
            r_calls := calls st |}
  end.

End Prices.

(* ===================================================================== *)
(** * lib/portfolio.ts                                                    *)
(* ===================================================================== *)

Module Portfolio.

(** [DatasetRow]; the fields [rsi], [high52] and ["52w_high"], which no
    function of the module reads, are left out. *)
Record DatasetRow : Type := {
  ticker : jsstring;
  sector : option jsstring;
  close : option Q;
  price : option Q;
  last : option Q;
  dividend_yield : option Q;
  dividendYield : option Q;
  dy : option Q;
  market_cap : option Q;
  marketCap : option Q;
  market_capitalization : option Q;
}.

Inductive Tilt : Type := dividend | growth | balanced.

Record BuildOpts : Type := {
  amount : Q;
  n : Z;
  tilt : option Tilt;
  minDividendYield : option Q;
  minMarketCap : option Q;
  minPrice : option Q;
  include : option (list jsstring);
  exclude : option (list jsstring);
  relaxYieldTo : option Q;
  relaxYieldStep : option Q;
  relaxCapTo : option Q;
  relaxCapFactor : option Q;
}.

(** [Record<string, number>], as its entries in enumeration order. *)
Abbreviation SectorWeights := (list (jsstring * Q)).

Record Allocation : Type := {
  a_ticker : jsstring;
  a_dollars : Q;
  a_estShares : option Q;
  a_notes : option jsstring;
  a_sector : option jsstring;
}.

(** [Screen & FallbackTuning] *)
Record Screen : Type := {
  minYield : option Q;
  minMktCap : option Q;
  s_minPrice : option Q;
  s_include : option (list jsstring);
  s_exclude : option (list jsstring);
  s_relaxYieldTo : option Q;
  s_relaxYieldStep : option Q;
  s_relaxCapTo : option Q;
  s_relaxCapFactor : option Q;
}.

(** [{ ...sc, minYield: y }] and [{ ...sc, minYield: y, minMktCap: c }] *)
Definition withYield (sc : Screen) (y : Q) : Screen :=
  {| minYield := Some y; minMktCap := minMktCap sc; s_minPrice := s_minPrice sc;
     s_include := s_include sc; s_exclude := s_exclude sc;
     s_relaxYieldTo := s_relaxYieldTo sc; s_relaxYieldStep := s_relaxYieldStep sc;
     s_relaxCapTo := s_relaxCapTo sc; s_relaxCapFactor := s_relaxCapFactor sc |}.
Definition withYieldCap (sc : Screen) (y c : Q) : Screen :=
  {| minYield := Some y; minMktCap := Some c; s_minPrice := s_minPrice sc;
     s_include := s_include sc; s_exclude := s_exclude sc;
     s_relaxYieldTo := s_relaxYieldTo sc; s_relaxYieldStep := s_relaxYieldStep sc;
     s_relaxCapTo := s_relaxCapTo sc; s_relaxCapFactor := s_relaxCapFactor sc |}.

(** ** utils *)

(** [cleanTicker(t)]: [(t || "").toUpperCase().trim()] *)
Definition cleanTicker `{Host} (t : jsstring) : jsstring := trim (toUpperCase t).

(** [getPrice], [getYield], [getMktCap]: the first field that is set. *)
Definition getPrice (r : DatasetRow) : option Q := close r ?? price r ?? last r.
Definition getYield (r : DatasetRow) : option Q :=
  dividend_yield r ?? dividendYield r ?? dy r.
Definition getMktCap (r : DatasetRow) : option Q :=
  market_cap r ?? marketCap r ?? market_capitalization r.

Definition setTicker (r : DatasetRow) (t : jsstring) : DatasetRow :=
  {| ticker := t; sector := sector r; close := close r; price := price r; last := last r;
     dividend_yield := dividend_yield r; dividendYield := dividendYield r; dy := dy r;
     market_cap := market_cap r; marketCap := marketCap r;
     market_capitalization := market_capitalization r |}.

(** [uniqByTicker(arr)] *)
Fixpoint uniqFrom `{Host} (seen : list jsstring) (arr : list DatasetRow) : list DatasetRow :=
  match arr with
  | [] => []
  | x :: rest =>
      let t := cleanTicker (ticker x) in
      if negb (Js.truthy t) || bool_decide (t ∈ seen) then uniqFrom seen rest
      else setTicker x t :: uniqFrom (t :: seen) rest
  end.
Definition uniqByTicker `{Host} (arr : list DatasetRow) : list DatasetRow := uniqFrom [] arr.

(** [sectorOf(r)]: [(r.sector || "Unknown").trim()] *)
Definition sectorOf (r : DatasetRow) : jsstring :=
  trim (match sector r with
        | Some s => if Js.truthy s then s else lit "Unknown"
        | None => lit "Unknown"
        end).

(** [+(x).toFixed(4)]: the nearest multiple of [1/10000], ties away from
    zero ([toFixed] rounds the absolute value, ties upwards). *)
Definition round4 (x : Q) : Q :=
  let halfUp (y : Q) : Q := (inject_Z (Qfloor (y * 10000 + (1 # 2))) / 10000)%Q in
  if Num.Qltb x 0 then (- halfUp (- x))%Q else halfUp x.

(** [sharesFrom(dollars, price)] *)
Definition sharesFrom (dollars price : Q) : option Q :=
  if Num.Qeqb dollars 0 || Num.Qeqb price 0 || Num.Qleb price 0 then None
  else Some (round4 (dollars / price)).

(** [formatCap(v)] *)
Definition formatCap `{Host} (v : Q) : jsstring :=
  if Num.Qleb 1000000000000 v then toFixed (v / 1000000000000)%Q 2 ++ lit "T"
  else if Num.Qleb 1000000000 v then toFixed (v / 1000000000)%Q 2 ++ lit "B"
  else if Num.Qleb 1000000 v then toFixed (v / 1000000)%Q 2 ++ lit "M"
  else toFixed v 0.

Fixpoint joinComma (parts : list jsstring) : jsstring :=
  match parts with
  | [] => []
  | [p] => p
  | p :: r => p ++ lit ", " ++ joinComma r
  end.

(** [yieldNote(r)] *)
Definition yieldNote `{Host} (r : DatasetRow) : option jsstring :=
  let parts :=
    omap id [ (fun y => lit "Yield " ++ toFixed y 2 ++ lit "%") <$> getYield r;
              (fun m => lit "MktCap $" ++ formatCap m) <$> getMktCap r ] in
  match parts with
  | [] => None
  | _ => Some (joinComma parts)
  end.

(** ** screeners and rankers *)

(** [new Set((list || []).map(cleanTicker)).has(t)] *)
Definition inList `{Host} (l : option (list jsstring)) (t : jsstring) : bool :=
  bool_decide (t ∈ cleanTicker <$> (l ?: [])).

(** The price guard shared by [screenRows] and the last resort. *)
Definition priceOk (minP : Q) (r : DatasetRow) : bool :=
  match getPrice r with
  | None => false
  | Some px => negb (Num.Qleb px 0 || Num.Qltb px minP)
  end.

(** The predicate of [rows.filter] in [screenRows]. *)
Definition passes `{Host} (sc : Screen) (r : DatasetRow) : bool :=
  let minY : jsnum := (Fin <$> minYield sc) ?: NInf in
  let minC : jsnum := (Fin <$> minMktCap sc) ?: NInf in
  let minP : Q := s_minPrice sc ?: 0%Q in
  let t := cleanTicker (ticker r) in
  if negb (Js.truthy t) || inList (s_exclude sc) t then false
  else if negb (priceOk minP r) then false
  else
    let y := getYield r in
    let mc := getMktCap r in
    if match y with Some y => Num.lt (Fin y) minY | None => false end then false
    else if match mc with Some mc => Num.lt (Fin mc) minC | None => false end then false
    else true.

(** [screenRows(rows, sc)] *)
Definition screenRows `{Host} (rows : list DatasetRow) (sc : Screen) : list DatasetRow :=
  List.filter (passes sc) rows.

(** [rankForDividend(a, b)] *)
Definition rankForDividend (a b : DatasetRow) : jsnum :=
  let ay := (Fin <$> getYield a) ?: NInf in
  let by_ := (Fin <$> getYield b) ?: NInf in
  if negb (Num.eq by_ ay) then (by_ - ay)%js
  else
    let am := (Fin <$> getMktCap a) ?: NInf in
    let bm := (Fin <$> getMktCap b) ?: NInf in
    if negb (Num.eq bm am) then (bm - am)%js
    else
      let ap := (Fin <$> getPrice a) ?: PInf in
      let bp := (Fin <$> getPrice b) ?: PInf in
      (ap - bp)%js.

(** [arr.sort(cmp)]: a stable sort; [x] stays before [y] unless
    [cmp(x, y) > 0]. *)
Fixpoint insertBy {A} (cmp : A -> A -> jsnum) (x : A) (l : list A) : list A :=
  match l with
  | [] => [x]
  | y :: r => if Num.gt (cmp x y) (Fin 0) then y :: insertBy cmp x r else x :: l
  end.
Definition sortBy {A} (cmp : A -> A -> jsnum) (l : list A) : list A :=
  foldr (insertBy cmp) [] l.

(** [arr.slice(0, k)] for an integer [k]; a negative [k] counts from the
    end. *)
Definition slice0 {A} (l : list A) (k : Z) : list A :=
  if k <? 0 then take (Z.to_nat (Z.of_nat (length l) + k)) l
  else take (Z.to_nat k) l.

(** [pool.length >= targetN] *)
Definition enough {A} (pool : list A) (targetN : Z) : bool :=
  targetN <=? Z.of_nat (length pool).

(** ** progressive fallback for a sector *)

(** How a [while] loop containing a [return] ends: the function has
    returned, or the loop has run to its end with the given state. *)
Inductive Loop (St : Type) : Type :=
| Returned (rows : list DatasetRow)
| Fell (s : St).
Arguments Returned {St} rows.
Arguments Fell {St} s.

(** [while (pool.length < targetN && minY > relaxYieldTo) { ... }];
    [None] when the fuel does not suffice. *)
Fixpoint relaxYieldLoop `{Host} (fuel : nat) (sectorRows : list DatasetRow)
    (strict : Screen) (targetN : Z) (relaxYieldTo relaxYieldStep : Q)
    (pool : list DatasetRow) (minY : Q) : option (Loop (list DatasetRow * Q)) :=
  if negb (enough pool targetN) && Num.Qltb relaxYieldTo minY then
    match fuel with
    | O => None
    | S fuel' =>
        let minY := Qmax relaxYieldTo (minY - relaxYieldStep) in
        let pool := sortBy rankForDividend (screenRows sectorRows (withYield strict minY)) in
        if enough pool targetN then Some (Returned (slice0 pool targetN))
        else relaxYieldLoop fuel' sectorRows strict targetN relaxYieldTo relaxYieldStep
               pool minY
    end
  else Some (Fell (pool, minY)).

(** [while (pool.length < targetN && minC > relaxCapTo) { ... }] *)
Fixpoint relaxCapLoop `{Host} (fuel : nat) (sectorRows : list DatasetRow)
    (strict : Screen) (targetN : Z) (relaxCapTo relaxCapFactor : Q) (minY : Q)
    (pool : list DatasetRow) (minC : Q) : option (Loop (list DatasetRow * Q)) :=
  if negb (enough pool targetN) && Num.Qltb relaxCapTo minC then
    match fuel with
    | O => None
    | S fuel' =>
        let minC := Qmax relaxCapTo (inject_Z (Qfloor (minC * relaxCapFactor))) in
        let pool :=
          sortBy rankForDividend (screenRows sectorRows (withYieldCap strict minY minC)) in
        if enough pool targetN then Some (Returned (slice0 pool targetN))
        else relaxCapLoop fuel' sectorRows strict targetN relaxCapTo relaxCapFactor minY
               pool minC
    end
  else Some (Fell (pool, minC)).

(** The pool of the last resort: the price guard alone. *)
Definition lastResort (sectorRows : list DatasetRow) (strict : Screen) : list DatasetRow :=
  sortBy rankForDividend (List.filter (priceOk (s_minPrice strict ?: 0%Q)) sectorRows).

(** [fillSectorWithFallback(sectorRows, strict, targetN)] *)
Definition fillSectorWithFallback `{Host} (fuel : nat) (sectorRows : list DatasetRow)
    (strict : Screen) (targetN : Z) : option (list DatasetRow) :=
  let relaxYieldTo := s_relaxYieldTo strict ?: 2%Q in
  let relaxYieldStep := s_relaxYieldStep strict ?: 0.5%Q in
  let relaxCapTo := s_relaxCapTo strict ?: 5000000000%Q in
  let relaxCapFactor := s_relaxCapFactor strict ?: 0.8%Q in
  (* 1) strict *)
  let pool := sortBy rankForDividend (screenRows sectorRows strict) in
  if enough pool targetN then Some (slice0 pool targetN) else
  (* 2) relax yield floor gradually *)
  let minY := minYield strict ?: 0%Q in
  match relaxYieldLoop fuel sectorRows strict targetN relaxYieldTo relaxYieldStep pool minY with
  | None => None
  | Some (Returned rows) => Some rows
  | Some (Fell (pool, minY)) =>
      (* 3) relax market cap floor gradually *)
      let minC := minMktCap strict ?: 0%Q in
      match relaxCapLoop fuel sectorRows strict targetN relaxCapTo relaxCapFactor minY
              pool minC with
      | None => None
      | Some (Returned rows) => Some rows
      | Some (Fell _) =>
          (* 4) last resort *)
          let pool := lastResort sectorRows strict in
          Some (slice0 pool (Z.min targetN (Z.of_nat (length pool))))
      end
  end.

(** ** public APIs *)

Definition strictOf (opts : BuildOpts) (tuning : bool) : Screen :=
  {| minYield := minDividendYield opts;
     minMktCap := minMarketCap opts;
     s_minPrice := Some (minPrice opts ?: 0%Q);
     s_include := include opts;
     s_exclude := exclude opts;
     s_relaxYieldTo := if tuning then relaxYieldTo opts else None;
     s_relaxYieldStep := if tuning then relaxYieldStep opts else None;
     s_relaxCapTo := if tuning then relaxCapTo opts else None;
     s_relaxCapFactor := if tuning then relaxCapFactor opts else None |}.

Definition allocate `{Host} (sec : option jsstring) (perName : Q) (r : DatasetRow) : Allocation :=
  let px := getPrice r ?: 0%Q in
  {| a_ticker := ticker r;
     a_sector := sec;
     a_dollars := perName;
     a_estShares := sharesFrom perName px;
     a_notes := yieldNote r |}.

(** [buildPortfolio(rows, opts)]: legacy equal weight. *)
Definition buildPortfolio `{Host} (rows : list DatasetRow) (opts : BuildOpts) : list Allocation :=
  let strict := strictOf opts false in
  let pool := sortBy rankForDividend (screenRows (uniqByTicker rows) strict) in
  let picks := slice0 pool (Z.min (n opts) (Z.of_nat (length pool))) in
  match picks with
  | [] => []
  | _ =>
      let perName := (amount opts / inject_Z (Z.of_nat (length picks)))%Q in
      (fun r => allocate (sector r) perName r) <$> picks
  end.

(** [normalizeWeights(w)] *)
Definition normalizeWeights (w : SectorWeights) : SectorWeights :=
  let sum := fold_left (fun s kv => (s + kv.2)%Q) w 0%Q in
  if Num.Qleb sum 0 then w
  else (fun kv => (kv.1, (kv.2 / sum)%Q)) <$> w.

Record FloorSlot : Type := {
  fs_sector : jsstring;
  fs_slots : Z;
  fs_frac : Q;
}.

(** [(a, b) => b.frac - a.frac || a.sector.localeCompare(b.sector)] *)
Definition byRemainder `{Host} (a b : FloorSlot) : jsnum :=
  let d := (fs_frac b - fs_frac a)%Q in
  if negb (Num.Qeqb d 0) then Fin d
  else match localeCompare (fs_sector a) (fs_sector b) with
       | Lt => Fin (-1)
       | Eq => Fin 0
       | Gt => Fin 1
       end.

(** [for (let i = 0; used < totalSlots && i < floorSlots.length; i++, used++)
      floorSlots[i].slots++] *)
Fixpoint distribute (floorSlots : list FloorSlot) (used totalSlots : Z) : list FloorSlot :=
  match floorSlots with
  | [] => []
  | x :: rest =>
      if used <? totalSlots
      then {| fs_sector := fs_sector x; fs_slots := fs_slots x + 1; fs_frac := fs_frac x |}
             :: distribute rest (used + 1) totalSlots
      else floorSlots
  end.

(** The slot split of [buildPortfolioSectorBalanced]. *)
Definition slotSplit `{Host} (sectors : SectorWeights) (totalSlots : Z) : list FloorSlot :=
  let desired := (fun sw => (sw.1, (inject_Z totalSlots * sw.2)%Q)) <$> sectors in
  let floorSlots :=
    (fun d => {| fs_sector := d.1;
                 fs_slots := Qfloor d.2;
                 fs_frac := (d.2 - inject_Z (Qfloor d.2))%Q |}) <$> desired in
  let used := fold_left (fun s x => s + fs_slots x) floorSlots 0 in
  distribute (sortBy byRemainder floorSlots) used totalSlots.

(** [for (const { sector, slots } of floorSlots) { ... chosen.push(...fill) }] *)
Fixpoint chooseLoop `{Host} (fuel : nat) (floorSlots : list FloorSlot)
    (base : list DatasetRow) (strict : Screen) (chosen : list DatasetRow)
  : option (list DatasetRow) :=
  match floorSlots with
  | [] => Some chosen
  | fs :: rest =>
      if fs_slots fs <=? 0 then chooseLoop fuel rest base strict chosen
      else
        let sectorRows := List.filter (fun r => Js.eqb (sectorOf r) (fs_sector fs)) base in
        match fillSectorWithFallback fuel sectorRows strict (fs_slots fs) with
        | None => None
        | Some fill => chooseLoop fuel rest base strict (chosen ++ fill)
        end
  end.

(** [weights[sector] ?? 0] *)
Definition weightOf (weights : SectorWeights) (sec : jsstring) : Q :=
  (snd <$> List.find (fun kv => Js.eqb kv.1 sec) weights) ?: 0%Q.

(** The bucket of one sector in the allocation loop. *)
Definition bucket `{Host} (opts : BuildOpts) (weights : SectorWeights)
    (chosen : list DatasetRow) (fs : FloorSlot) : list Allocation :=
  if fs_slots fs <=? 0 then []
  else
    let names :=
      slice0 (List.filter (fun r => Js.eqb (sectorOf r) (fs_sector fs)) chosen) (fs_slots fs) in
    match names with
    | [] => []
    | _ =>
        let sectorDollars := (amount opts * weightOf weights (fs_sector fs))%Q in
        let perName := (sectorDollars / inject_Z (Z.of_nat (length names)))%Q in
        allocate (Some (fs_sector fs)) perName <$> names
    end.

(** [for (const r of remaining) { if (allocations.length >= totalSlots) break; ... }] *)
Fixpoint padLoop `{Host} (remaining : list DatasetRow) (perName : Q) (totalSlots : Z)
    (allocations : list Allocation) : list Allocation :=
  match remaining with
  | [] => allocations
  | r :: rest =>
      if enough allocations totalSlots then allocations
      else padLoop rest perName totalSlots
             (allocations ++ [allocate (Some (sectorOf r)) perName r])
  end.

(** [buildPortfolioSectorBalanced(rows, opts, sectorWeights)]; [None] when
    the fuel of a relaxation loop does not suffice. *)
Definition buildPortfolioSectorBalanced `{Host} (fuel : nat) (rows : list DatasetRow)
    (opts : BuildOpts) (sectorWeights : SectorWeights) : option (list Allocation) :=
  let weights := normalizeWeights sectorWeights in
  let base := uniqByTicker rows in
  let sectors := List.filter (fun sw => Num.Qltb 0 sw.2) weights in
  match sectors with
  | [] => Some []
  | _ =>
      let totalSlots := Z.max 1 (n opts) in
      let floorSlots := slotSplit sectors totalSlots in
      let strict := strictOf opts true in
      match chooseLoop fuel floorSlots base strict [] with
      | None => None
      | Some chosen =>
          (* Backfill if short *)
          let deficit := totalSlots - Z.of_nat (length chosen) in
          let chosen :=
            if 0 <? deficit then
              let chosenTickers := ticker <$> chosen in
              let rest :=
                slice0
                  (sortBy rankForDividend
                     (screenRows
                        (List.filter (fun r => negb (bool_decide (ticker r ∈ chosenTickers))) base)
                        strict))
                  deficit in
              chosen ++ rest
            else chosen in
          match chosen with
          | [] => Some []
          | _ =>
              let allocations := floorSlots ≫= bucket opts weights chosen in
              (* Pad if still short *)
              let allocations :=
                if negb (enough allocations totalSlots) then
                  let chosenTickers := a_ticker <$> allocations in
                  let remaining :=
                    List.filter (fun r => negb (bool_decide (ticker r ∈ chosenTickers))) chosen in
                  let perName := (amount opts / inject_Z totalSlots)%Q in
                  padLoop remaining perName totalSlots allocations
                else allocations in
              Some (slice0 allocations totalSlots)
          end
      end
  end.

(** [allocations.reduce((s, x) => s + (x.dollars || 0), 0)] *)
Definition totalDollars (allocations : list Allocation) : Q :=
  fold_left (fun s x => (s + a_dollars x)%Q) allocations 0%Q.

End Portfolio.

(* ===================================================================== *)
(** * Strings: joining and scanning                                       *)
(* ===================================================================== *)

Module Text.

(** [parts.join(sep)] *)
Fixpoint joinWith (sep : jsstring) (parts : list jsstring) : jsstring :=
  match parts with
  | [] => []
  | [p] => p
  | p :: r => p ++ sep ++ joinWith sep r
  end.

(** The longest prefix of code units in a class. *)
Fixpoint takeWhile {A} (p : A -> bool) (l : list A) : list A :=
  match l with
  | [] => []
  | x :: r => if p x then x :: takeWhile p r else []
  end.

(** [Number(ds)] for a string of decimal digits: the number they spell.
    (The code holds it in a binary64, which is exact up to [2^53] and
    rounds a longer number.) *)
Definition digitsValue (ds : jsstring) : Z :=
  fold_left (fun acc d => 10 * acc + Z.of_N (d - 48)) ds 0.

(** [/(\d+)\s*unit/] anchored at the head of [s]: the value of the
    captured digits.  The digits and the white space are taken greedily;
    giving some of them back cannot help, since the code unit that
    follows would be a digit or a space. *)
Definition matchAt (unit : jsstring) (s : jsstring) : option Z :=
  match takeWhile isDigit s with
  | [] => None
  | ds =>
      if isPrefix unit (dropWhile isSpace (dropWhile isDigit s))
      then Some (digitsValue ds) else None
  end.

(** [s.match(/(\d+)\s*unit/)]: the leftmost match, as [Number(m[1])]. *)
Fixpoint firstMatch (unit : jsstring) (s : jsstring) : option Z :=
  match matchAt unit s with
  | Some v => Some v
  | None =>
      match s with
      | [] => None
      | _ :: r => firstMatch unit r
      end
  end.

(** [a.sort()] on strings: ascending by UTF-16 code units. *)
Fixpoint insertString (x : jsstring) (l : list jsstring) : list jsstring :=
  match l with
  | [] => [x]
  | y :: r =>
      match asciiCompare x y with
      | Gt => y :: insertString x r
      | _ => x :: l
      end
  end.
Definition sortStrings (l : list jsstring) : list jsstring := foldr insertString [] l.

End Text.

(* ===================================================================== *)
(** * ragRetriever.ts: the one-line summary                               *)
(* ===================================================================== *)

Module Features.
Import Rag Text.

(** [qs.maTrend], a string *)
Definition trendName (t : MATrend) : jsstring :=
  match t with
  | up => lit "up"
  | down => lit "down"
  | flat => lit "flat"
  end.

(** [to2(n)]: [n.toFixed(2)] of a finite number, else [undefined] *)
Definition to2 `{Host} (n : option Q) : option jsstring :=
  (fun q => toFixed q 2) <$> n.

(** [const p = to2(n); if (p) parts.push(`label ${p}`)] *)
Definition pushFeature `{Host} (label : string) (n : option Q) (parts : list jsstring)
  : list jsstring :=
  match to2 n with
  | Some p => if Js.truthy p then parts ++ [lit label ++ p] else parts
  | None => parts
  end.

(** The parts collected from the statistics. *)
Definition featureParts `{Host} (qs : QuickStats) : list jsstring :=
  let parts := [] in
  let parts := pushFeature "price " (qs_price qs) parts in
  let parts := pushFeature "52wHigh " (qs_high52 qs) parts in
  let parts := pushFeature "RSI " (qs_rsi qs) parts in
  let parts := pushFeature "MA50 " (qs_ma50 qs) parts in
  let parts := pushFeature "%vsMA50 " (qs_pctVsMA50 qs) parts in
  match qs_maTrend qs with
  | Some t => parts ++ [lit "trend " ++ trendName t]
  | None => parts
  end.

Definition noFeatures : jsstring := lit "No technical features available.".

(** [retrievePriceFeatures(ticker)] *)
Definition retrievePriceFeatures `{Host} `{Env} (ticker : jsstring) : M jsstring :=
  let* qs := getQuickStats ticker in
  match featureParts qs with
  | [] => ret noFeatures
  | parts => ret (joinWith (lit ", ") parts)
  end.

End Features.

(* ===================================================================== *)
(** * lib/forecast.ts                                                     *)
(* ===================================================================== *)

Module Forecast.
Import Text.

(** [parseHorizonDays(text)] *)
Definition parseHorizonDays `{Host} (text : jsstring) : Z :=
  let t := toLowerCase text in
  match firstMatch (lit "week") t with
  | Some w => Z.max 1 (w * 5)
  | None =>
      match firstMatch (lit "month") t with
      | Some m => Z.max 1 (m * 21)
      | None =>
          match firstMatch (lit "day") t with
          | Some d => Z.max 1 d
          | None => 10
          end
      end
  end.

(** [vals[i]] in arithmetic: [undefined] there is [NaN]. *)
Definition item (vals : list Q) (i : Z) : jsnum :=
  if i <? 0 then NaN
  else match vals !! Z.to_nat i with
       | Some v => Fin v
       | None => NaN
       end.

(** [percentile(vals, p)]; [None] is the [undefined] that [vals[lo]]
    yields outside the array. *)
Definition percentile (vals : list Q) (p : Q) : option jsnum :=
  match vals with
  | [] => Some NaN
  | _ =>
      let i := (inject_Z (Z.of_nat (length vals) - 1) * p)%Q in
      let lo := Qfloor i in
      let hi := Qceiling i in
      if lo =? hi then
        (if lo <? 0 then None else Fin <$> vals !! Z.to_nat lo)
      else
        Some (item vals lo * Fin (inject_Z hi - i) + item vals hi * Fin (i - inject_Z lo))%js
  end.

End Forecast.

(* ===================================================================== *)
(** * app/api/prices/route.ts: rounding and the response cache            *)
(* ===================================================================== *)

(** [String(v)] of a truthy value that is not a string.  On a value read
    from JSON the conversion raises a TypeError when it meets an object
    with an own property "toString" (no JSON value can be called, and
    [Object.prototype.valueOf] returns the object): [stringOf] is [Throw]
    then, and [conversionMessage] is the [message] of that error. *)
Class Stringify : Type := {
  stringOf : json -> Result jsstring;
  conversionMessage : json -> jsstring;
}.

Module PricesRoute.
Import Prices Text.

(** [round2(n)]: [Math.round] rounds halves upwards. *)
Definition round2 (n : option jsnum) : option Q :=
  match n with
  | Some (Fin q) => Some (inject_Z (Qfloor (q * 100 + (1 # 2))) / 100)%Q
  | _ => None
  end.

Definition TTL_MS : Z := 4000.

Record Payload : Type := {
  p_prices : gmap jsstring Q;
  p_source : Provider;
  p_filled : nat;
  p_errors : gmap jsstring jsstring;
}.

Record CacheEntry : Type := {
  ce_key : jsstring;
  ce_asOf : Z;
  ce_exp : Z;
  ce_payload : Payload;
}.

(** The responses of [POST]: status 400, status 200 with the payload and
    [asOf], status 500 with the message of the error. *)
Inductive Reply : Type :=
| BadRequest
| Prices (payload : Payload) (asOf : Z)
| Failed (message : jsstring).

Definition noProvider : jsstring :=
  lit "No price provider configured. Set PRICES_PROVIDER and the matching API key in .env.local".

(** [String(t || "")] *)
Definition rawTicker `{Stringify} (t : json) : Result jsstring :=
  if Json.truthy (Some t) then
    match t with
    | JStr s => Ok s
    | other => stringOf other
    end
  else Ok [].

(** [Array.isArray(body?.tickers) ? body.tickers : []] *)
Definition tickersOf (body : option json) : list json :=
  match Json.prop "tickers" body with
  | Some (JArr items) => items
  | _ => []
  end.

(** The string conversions of [tickers.map(normTicker)], in the order of
    the array: the strings [String(t || "")], or the message of the first
    conversion that raises. *)
Inductive Converted : Type :=
| Strings (raw : list jsstring)
| Raised (message : jsstring).

Fixpoint rawTickers `{Stringify} (tickers : list json) : Converted :=
  match tickers with
  | [] => Strings []
  | t :: rest =>
      match rawTicker t with
      | Throw => Raised (conversionMessage t)
      | Ok s =>
          match rawTickers rest with
          | Strings raw => Strings (s :: raw)
          | Raised m => Raised m
          end
      end
  end.

(** [Array.from(new Set(tickers.map(normTicker))).sort().join(",")], on
    the converted strings. *)
Definition cacheKey `{Host} (raw : list jsstring) : jsstring :=
  joinWith (lit ",") (sortStrings (dedupe [] (normTicker <$> raw))).

(** [e?.message || "prices_failed"] *)
Definition failureMessage (message : jsstring) : jsstring :=
  if Js.truthy message then message else lit "prices_failed".

(** [POST(req)] at time [now], on the cache [G.__PRICE_CACHE__]; [body]
    is what [req.json()] resolves to, [None] when it rejects.  The key is
    computed before the cache is read, so a conversion that raises is
    caught before anything else happens; [resolvePrices] converts the
    same values again, with the same result. *)
Definition POST `{Host} `{Config} `{Upstream} `{Stringify}
    (body : option json) (now : Z) (cache : gmap jsstring CacheEntry)
  : Reply * gmap jsstring CacheEntry :=
  let tickers := tickersOf (match body with Some b => Some b | None => Some (JObj []) end) in
  match tickers with
  | [] => (BadRequest, cache)
  | _ =>
      match rawTickers tickers with
      | Raised m => (Failed (failureMessage m), cache)
      | Strings raw =>
          let key := cacheKey raw in
          let miss :=
            match resolvePrices raw with
            | Throw => (Failed (failureMessage noProvider), cache)
            | Ok r =>
                let payload := {| p_prices := r_prices r; p_source := r_source r;
                                  p_filled := r_filled r; p_errors := r_errors r |} in
                let entry := {| ce_key := key; ce_asOf := now; ce_exp := now + TTL_MS;
                                ce_payload := payload |} in
                (Prices payload now, <[key := entry]> cache)
            end in
          match cache !! key with
          | Some cached =>
              if now <? ce_exp cached
              then (Prices (ce_payload cached) (ce_asOf cached), cache)
              else miss
          | None => miss
          end
      end
  end.

End PricesRoute.

(* ===================================================================== *)
(* ===================================================================== *)
(** * Verification                                                        *)
(* ===================================================================== *)
(* ===================================================================== *)

Arguments Json.prop : simpl never.
Arguments lit : simpl never.
Arguments Js.eqb : simpl never.
Arguments Js.truthy : simpl never.
Arguments Extractor.isTicker : simpl never.

(* ===================================================================== *)
(** * Facts about numbers                                                 *)
(* ===================================================================== *)

Section NumFacts.

Lemma Qltb_lt a b : Num.Qltb a b = true <-> (a < b)%Q.
Proof. unfold Num.Qltb, Qlt, Qcompare. destruct (_ ?= _)%Z eqn:E; split; congruence. Qed.

Lemma Qleb_le a b : Num.Qleb a b = true <-> (a <= b)%Q.
Proof. unfold Num.Qleb, Qle, Qcompare, Z.le. destruct (_ ?= _)%Z eqn:E; split; congruence. Qed.

Lemma Qeqb_eq a b : Num.Qeqb a b = true <-> (a == b)%Q.
Proof. unfold Num.Qeqb. rewrite Qeq_alt. destruct (a ?= b)%Q; split; congruence. Qed.

Lemma Qltb_ge a b : Num.Qltb a b = false <-> (b <= a)%Q.
Proof.
  rewrite <- not_true_iff_false, Qltb_lt. split; [apply Qnot_lt_le | apply Qle_not_lt].
Qed.

Lemma Qleb_gt a b : Num.Qleb a b = false <-> (b < a)%Q.
Proof.
  rewrite <- not_true_iff_false, Qleb_le. split; [apply Qnot_le_lt | apply Qlt_not_le].
Qed.

Lemma Qeqb_neq a b : Num.Qeqb a b = false <-> ~ (a == b)%Q.
Proof. rewrite <- not_true_iff_false, Qeqb_eq. tauto. Qed.

Lemma ofNat_pos (n : nat) : (0 < n)%nat -> (0 < inject_Z (Z.of_nat n))%Q.
Proof. intros Hn. change 0%Q with (inject_Z 0). rewrite <- Zlt_Qlt. lia. Qed.

Lemma Qdiv_nonneg a b : (0 <= a)%Q -> (0 < b)%Q -> (0 <= a / b)%Q.
Proof. intros Ha Hb. apply Qle_shift_div_l; [assumption | lra]. Qed.

Lemma Qdiv_pos a b : (0 < a)%Q -> (0 < b)%Q -> (0 < a / b)%Q.
Proof. intros Ha Hb. apply Qlt_shift_div_l; [assumption | lra]. Qed.

Lemma Qdiv_zero_iff a b : (0 < b)%Q -> (a / b == 0 <-> a == 0)%Q.
Proof.
  intros Hb. split; intros E.
  - assert (a == a / b * b)%Q as -> by (field; lra). rewrite E. ring.
  - rewrite E. field. lra.
Qed.

End NumFacts.

(* ===================================================================== *)
(** * Indicator maths                                                     *)
(* ===================================================================== *)

Section GainLoss.

(** The loop invariant shared by the two RSI implementations: gains and
    losses stay non-negative, and the losses stay zero exactly as long as
    no close falls below its predecessor. *)
Variable vals : list Q.
Variable step : nat -> Q * Q -> Q * Q.
Hypothesis step_ok : forall i g l, (0 <= g)%Q -> (0 <= l)%Q ->
  (0 <= (step i (g, l)).1)%Q /\ (0 <= (step i (g, l)).2)%Q /\
  ((step i (g, l)).2 == 0 <-> l == 0 /\ at_ vals (i - 1) <= at_ vals i)%Q.

Lemma forRange_gainLoss count : forall lo g l, (0 <= g)%Q -> (0 <= l)%Q ->
  let r := forRange lo count step (g, l) in
  (0 <= r.1)%Q /\ (0 <= r.2)%Q /\
  ((r.2 == 0)%Q <->
   (l == 0)%Q /\
   forall i : nat, (lo <= i < lo + count)%nat -> (at_ vals (i - 1) <= at_ vals i)%Q).
Proof using step_ok.
  induction count as [|k IH]; intros lo g l Hg Hl; simpl.
  - repeat split; auto; try tauto. intros i Hi. lia.
  - destruct (step_ok lo g l Hg Hl) as (Hg' & Hl' & Hz).
    destruct (step lo (g, l)) as [g' l'] eqn:E. simpl in *.
    destruct (IH (S lo) g' l' Hg' Hl') as (H1 & H2 & H3).
    split; [exact H1|]. split; [exact H2|].
    rewrite H3, Hz. split.
    + intros [[Hl0 Hlo] Hrest]. split; [exact Hl0|].
      intros i Hi. destruct (decide (i = lo)) as [->|Hne]; [exact Hlo|].
      apply Hrest. lia.
    + intros [Hl0 Hall]. split; [split; [exact Hl0|]|].
      * apply Hall. lia.
      * intros i Hi. apply Hall. lia.
Qed.

End GainLoss.

Lemma Indicator_rsiStep_ok vals i g l : (0 <= g)%Q -> (0 <= l)%Q ->
  (0 <= (Indicator.rsiStep vals i (g, l)).1)%Q /\
  (0 <= (Indicator.rsiStep vals i (g, l)).2)%Q /\
  ((Indicator.rsiStep vals i (g, l)).2 == 0 <->
   l == 0 /\ at_ vals (i - 1) <= at_ vals i)%Q.
Proof.
  intros Hg Hl. unfold Indicator.rsiStep. simpl.
  destruct (Num.Qltb 0 _) eqn:E; simpl.
  - apply Qltb_lt in E. repeat split; intros; try lra. all: try tauto.
  - apply Qltb_ge in E. repeat split; intros; try lra. all: destruct H; lra.
Qed.

Lemma Technicals_rsiStep_ok vals i g l : (0 <= g)%Q -> (0 <= l)%Q ->
  (0 <= (Technicals.rsiStep vals i (g, l)).1)%Q /\
  (0 <= (Technicals.rsiStep vals i (g, l)).2)%Q /\
  ((Technicals.rsiStep vals i (g, l)).2 == 0 <->
   l == 0 /\ at_ vals (i - 1) <= at_ vals i)%Q.
Proof.
  intros Hg Hl. unfold Technicals.rsiStep. simpl.
  destruct (Num.Qleb 0 _) eqn:E; simpl.
  - apply Qleb_le in E. repeat split; intros; try lra. all: try tauto.
  - apply Qleb_gt in E. repeat split; intros; try lra. all: destruct H; lra.
Qed.

(** The closing arithmetic of both implementations, for a positive
    window: [100] when there is no loss, else a value in [[0, 100)]. *)
Lemma rsi_closing (g l : Q) (n : nat) : (0 < n)%nat -> (0 <= g)%Q -> (0 <= l)%Q ->
  let avgGain := (Fin g / Num.ofNat n)%js in
  let avgLoss := (Fin l / Num.ofNat n)%js in
  (Num.eq avgLoss (Fin 0) = true <-> (l == 0)%Q) /\
  (~ (l == 0)%Q ->
   exists r : Q,
     (Fin 100 - Fin 100 / (Fin 1 + avgGain / avgLoss))%js = Fin r /\
     (0 <= r)%Q /\ (r < 100)%Q).
Proof.
  intros Hn Hg Hl. pose proof (ofNat_pos n Hn) as Hq.
  set (q := inject_Z (Z.of_nat n)) in *.
  assert (Hq0 : Num.Qeqb q 0 = false) by (apply Qeqb_neq; lra).
  cbn zeta. unfold Num.ofNat. fold q. simpl. rewrite Hq0. simpl.
  split.
  - rewrite Qeqb_eq. apply Qdiv_zero_iff. exact Hq.
  - intros Hl0.
    assert (Hlq : (0 < l / q)%Q) by (apply Qdiv_pos; [lra | exact Hq]).
    assert (Hgq : (0 <= g / q)%Q) by (apply Qdiv_nonneg; [exact Hg | exact Hq]).
    assert (E1 : Num.Qeqb (l / q) 0 = false) by (apply Qeqb_neq; lra).
    rewrite E1.
    set (rs := (g / q / (l / q))%Q).
    assert (Hrs : (0 <= rs)%Q) by (apply Qdiv_nonneg; assumption).
    assert (E2 : Num.Qeqb (1 + rs) 0 = false) by (apply Qeqb_neq; lra).
    rewrite E2. eexists. split; [reflexivity|].
    assert (Hx : (0 < 100 / (1 + rs))%Q) by (apply Qdiv_pos; lra).
    assert (Hy : (100 / (1 + rs) <= 100)%Q) by (apply Qle_shift_div_r; lra).
    split; lra.
Qed.

Lemma at_lastN (values : list Q) (k i : nat) : (k <= length values)%nat ->
  at_ (lastN k values) i = at_ values (length values - k + i).
Proof. intros Hk. unfold at_, lastN. apply nth_skipn. Qed.

Lemma length_lastN {A} (l : list A) (k : nat) : (k <= length l)%nat -> length (lastN k l) = k.
Proof. intros Hk. unfold lastN. rewrite length_drop. lia. Qed.

(** [rsiFromCloses] on a positive window. *)
Lemma rsiFromCloses_spec (values : list Q) (n : nat) :
  (0 < n)%nat -> (n < length values)%nat ->
  exists r : Q,
    Indicator.rsiFromCloses values n = Some r /\
    (0 <= r)%Q /\ (r <= 100)%Q /\ ((r == 100)%Q <-> windowNonDecreasing values n).
Proof.
  intros Hn Hlen. unfold Indicator.rsiFromCloses.
  destruct (length values <=? n)%nat eqn:E; [apply Nat.leb_le in E; lia|]. clear E.
  cbn zeta. set (closes := lastN (1 + n) values).
  assert (Hlc : length closes = (1 + n)%nat) by (apply length_lastN; lia).
  rewrite Hlc. replace (1 + n - 1)%nat with n by lia.
  pose proof (forRange_gainLoss closes (Indicator.rsiStep closes)
                (Indicator_rsiStep_ok closes) n 1 0%Q 0%Q) as Hinv.
  cbn zeta in Hinv.
  destruct Hinv as (Hg & Hl & Hz); [lra | lra |].
  destruct (forRange 1 n (Indicator.rsiStep closes) (0%Q, 0%Q)) as [g l] eqn:Eg.
  simpl fst in *; simpl snd in *.
  assert (Hwin : (l == 0)%Q <-> windowNonDecreasing values n).
  { rewrite Hz. unfold windowNonDecreasing. split.
    - intros [_ H] i Hi.
      specialize (H (i - (length values - (1 + n)))%nat).
      unfold closes in H. rewrite !at_lastN in H by lia.
      replace (length values - (1 + n) + (i - (length values - (1 + n)) - 1))%nat
        with (i - 1)%nat in H by lia.
      replace (length values - (1 + n) + (i - (length values - (1 + n))))%nat
        with i in H by lia.
      apply H. lia.
    - intros H. split; [reflexivity|]. intros i Hi.
      unfold closes. rewrite !at_lastN by lia.
      specialize (H (length values - (1 + n) + i)%nat).
      replace (length values - (1 + n) + i - 1)%nat
        with (length values - (1 + n) + (i - 1))%nat in H by lia.
      apply H. lia. }
  destruct (rsi_closing g l n Hn Hg Hl) as [Heq Hne]. cbn zeta in Heq, Hne.
  destruct (Num.eq _ (Fin 0)) eqn:E.
  - exists 100%Q. split; [reflexivity|]. split; [lra|]. split; [lra|].
    rewrite <- Hwin. split; intros _; [apply Heq; reflexivity | reflexivity].
  - assert (Hl0 : ~ (l == 0)%Q) by (intros H; apply Heq in H; congruence).
    destruct (Hne Hl0) as (r & Er & Hr0 & Hr1).
    exists r. rewrite Er. simpl. split; [reflexivity|]. split; [exact Hr0|].
    split; [lra|]. rewrite <- Hwin. split; intros H; [lra | contradiction].
Qed.

(** [rsi] of technicals.ts on a positive window. *)
Lemma Technicals_rsi_spec (values : list Q) (n : nat) :
  (0 < n)%nat -> (n < length values)%nat ->
  exists r : Q,
    Technicals.rsi values n = Some (Fin r) /\
    (0 <= r)%Q /\ (r <= 100)%Q /\ ((r == 100)%Q <-> windowNonDecreasing values n).
Proof.
  intros Hn Hlen. unfold Technicals.rsi.
  destruct (length values <? n + 1)%nat eqn:E; [apply Nat.ltb_lt in E; lia|]. clear E.
  cbn zeta.
  pose proof (forRange_gainLoss values (Technicals.rsiStep values)
                (Technicals_rsiStep_ok values) n (length values - n) 0%Q 0%Q) as Hinv.
  cbn zeta in Hinv.
  destruct Hinv as (Hg & Hl & Hz); [lra | lra |].
  destruct (forRange (length values - n) n (Technicals.rsiStep values) (0%Q, 0%Q))
    as [g l] eqn:Eg.
  simpl fst in *; simpl snd in *.
  assert (Hwin : (l == 0)%Q <-> windowNonDecreasing values n).
  { rewrite Hz. unfold windowNonDecreasing.
    replace (length values - n + n)%nat with (length values) by lia.
    split; [intros [_ H]; exact H | intros H; split; [reflexivity | exact H]]. }
  destruct (rsi_closing g l n Hn Hg Hl) as [Heq Hne]. cbn zeta in Heq, Hne.
  destruct (Num.eq _ (Fin 0)) eqn:E.
  - exists 100%Q. split; [reflexivity|]. split; [lra|]. split; [lra|].
    rewrite <- Hwin. split; intros _; [apply Heq; reflexivity | reflexivity].
  - assert (Hl0 : ~ (l == 0)%Q) by (intros H; apply Heq in H; congruence).
    destruct (Hne Hl0) as (r & Er & Hr0 & Hr1).
    exists r. rewrite Er. split; [reflexivity|]. split; [exact Hr0|].
    split; [lra|]. rewrite <- Hwin. split; intros H; [lra | contradiction].
Qed.

(** C4, as amended: in exact arithmetic, for a window [n >= 1] and a
    series of more than [n] closes, both RSI implementations return a
    value in [[0, 100]], and that value is 100 exactly when no close of
    the last [n + 1] is below its predecessor.  (The closes and the
    averages are exact rationals here; the code computes in binary64,
    where [100 - 100 / (1 + rs)] rounds to 100 once [rs] is large
    enough, also with a falling close in the window.) *)
Theorem rsi_bounds_on_positive_window (values : list Q) (n : nat) :
  (0 < n)%nat -> (n < length values)%nat ->
  (exists r : Q,
     Indicator.rsiFromCloses values n = Some r /\
     (0 <= r)%Q /\ (r <= 100)%Q /\ ((r == 100)%Q <-> windowNonDecreasing values n)) /\
  (exists r : Q,
     Technicals.rsi values n = Some (Fin r) /\
     (0 <= r)%Q /\ (r <= 100)%Q /\ ((r == 100)%Q <-> windowNonDecreasing values n)).
Proof.
  intros Hn Hlen. split.
  - apply rsiFromCloses_spec; assumption.
  - apply Technicals_rsi_spec; assumption.
Qed.

Lemma rsi_bounds_on_positive_window_witness :
  (0 < 3)%nat /\ (3 < length [1; 2; 1; 3]%Q)%nat /\
  exists r : Q,
    Indicator.rsiFromCloses [1; 2; 1; 3]%Q 3 = Some r /\ (0 <= r)%Q /\ (r <= 100)%Q.
Proof.
  split; [lia|]. split; [simpl; lia|].
  destruct (rsi_bounds_on_positive_window [1; 2; 1; 3]%Q 3) as [(r & E & H0 & H1 & _) _];
    [lia | simpl; lia |].
  exists r. auto.
Defined.

(** With a window of zero points the series is longer than the window,
    yet [rsiFromCloses] is undefined and [rsi] of technicals.ts is NaN:
    the averages are 0/0. *)
Lemma rsi_undefined_on_zero_window :
  (0 < length [5%Q])%nat /\
  Indicator.rsiFromCloses [5%Q] 0 = None /\
  Technicals.rsi [5%Q] 0 = Some NaN /\
  ~ (exists r : Q, Indicator.rsiFromCloses [5%Q] 0 = Some r /\ (0 <= r)%Q /\ (r <= 100)%Q).
Proof.
  split; [simpl; lia|]. split; [reflexivity|]. split; [reflexivity|].
  intros (r & E & _). discriminate E.
Qed.

Example sma_of_five :
  exists m, Indicator.sma [10; 20; 30; 40; 50]%Q 5 = Some (Fin m) /\ (m == 30)%Q.
Proof. eexists. split; [reflexivity | reflexivity]. Qed.

Example sma_undefined_when_short : Indicator.sma [10; 20; 30]%Q 5 = None.
Proof. reflexivity. Qed.

Example rsi_all_gains : Indicator.rsiFromCloses [1; 2; 2; 5]%Q 3 = Some 100%Q.
Proof. reflexivity. Qed.

Example rsi_mixed :
  exists r, Indicator.rsiFromCloses [1; 2; 1; 3]%Q 3 = Some r /\ (r == 75)%Q.
Proof. eexists. split; [reflexivity | reflexivity]. Qed.

(* ===================================================================== *)
(** * ragRetriever.ts: running the loaders                                *)
(* ===================================================================== *)

Section RagFacts.
Import Rag.
Context `{Host} `{Env}.

(** A computation that never throws. *)
Definition safe {A} (m : M A) : Prop := forall w, exists a w', m w = (Ok a, w').

Lemma safe_ret {A} (a : A) : safe (ret a).
Proof. intros w. eexists _, _. reflexivity. Qed.

Lemma safe_bind {A B} (m : M A) (k : A -> M B) :
  safe m -> (forall a, safe (k a)) -> safe (bind m k).
Proof.
  intros Hm Hk w. destruct (Hm w) as (a & w1 & E). destruct (Hk a w1) as (b & w2 & E2).
  exists b, w2. unfold bind. rewrite E. exact E2.
Qed.

Lemma safe_tryCatch {A} (m h : M A) : safe h -> safe (tryCatch m h).
Proof.
  intros Hh w. unfold tryCatch. destruct (m w) as [[a|] w1].
  - eexists _, _. reflexivity.
  - apply Hh.
Qed.

(** The world after [fetch(req)], whatever the response. *)
Definition afterFetch (req : Request) (w : World) : World :=
  setClock (clock w + Z.of_N (network req (clock w)).2) (logRequest req w).

Lemma fetch_world req w : (fetch req w).2 = afterFetch req w.
Proof.
  unfold fetch, afterFetch. destruct (network req (clock w)) as [resp lat].
  destruct resp; reflexivity.
Qed.

(** The world after [finnhubGet(url)]: without a key nothing happens;
    with a key exactly one request is sent. *)
Definition afterFinnhub (url : jsstring -> Request) (w : World) : World :=
  if Js.truthy FINNHUB_KEY then afterFetch (url FINNHUB_KEY) w else w.

Lemma finnhubGet_run url w : exists a, finnhubGet url w = (Ok a, afterFinnhub url w).
Proof.
  unfold finnhubGet, afterFinnhub. destruct (Js.truthy FINNHUB_KEY); simpl.
  2: { eexists. reflexivity. }
  unfold tryCatch, bind. pose proof (fetch_world (url FINNHUB_KEY) w) as Hw.
  destruct (fetch (url FINNHUB_KEY) w) as [[[ok body]|] w1]; simpl in Hw; subst w1.
  2: { eexists. reflexivity. }
  simpl. destruct ok; simpl.
  2: { eexists. reflexivity. }
  destruct body as [j|]; simpl.
  2: { eexists. reflexivity. }
  destruct j; try (eexists; reflexivity).
  destruct (Json.prop "s" _) as [[| | |s| |]|]; try (eexists; reflexivity).
  destruct (Js.eqb s _); eexists; reflexivity.
Qed.

Lemma finnhubGet_keyless url w :
  Js.truthy FINNHUB_KEY = false -> finnhubGet url w = (Ok None, w).
Proof. intros E. unfold finnhubGet. rewrite E. reflexivity. Qed.

Lemma afterFinnhub_quoteCache url w : quoteCache (afterFinnhub url w) = quoteCache w.
Proof. unfold afterFinnhub. destruct (Js.truthy _); reflexivity. Qed.
Lemma afterFinnhub_metricCache url w : metricCache (afterFinnhub url w) = metricCache w.
Proof. unfold afterFinnhub. destruct (Js.truthy _); reflexivity. Qed.
Lemma afterFinnhub_candleCache url w : candleCache (afterFinnhub url w) = candleCache w.
Proof. unfold afterFinnhub. destruct (Js.truthy _); reflexivity. Qed.
Lemma afterFinnhub_datasetCache url w : datasetCache (afterFinnhub url w) = datasetCache w.
Proof. unfold afterFinnhub. destruct (Js.truthy _); reflexivity. Qed.

Lemma afterFinnhub_log url w :
  httpLog (afterFinnhub url w) =
  httpLog w ++ (if Js.truthy FINNHUB_KEY then [url FINNHUB_KEY] else []).
Proof.
  unfold afterFinnhub. destruct (Js.truthy _); simpl; [reflexivity|].
  symmetry. apply app_nil_r.
Qed.

(** ** Cache entries and their age *)

(** An entry that a read at time [t] may not use: none, or one stored at
    [T] with [T + ttl <= t]. *)
Definition stale {A} (hit : option (Z * A)) (t ttl : Z) : Prop :=
  match hit with
  | None => True
  | Some (T, _) => T + ttl <= t
  end.

Lemma fresh_hit {A} (hit : option (Z * A)) t ttl T v :
  hit = Some (T, v) -> t < T + ttl -> fresh hit t ttl = Some v.
Proof.
  intros -> Ht. simpl. destruct (t - T <? ttl) eqn:E; [reflexivity|].
  apply Z.ltb_ge in E. lia.
Qed.

Lemma fresh_stale {A} (hit : option (Z * A)) t ttl :
  stale hit t ttl -> fresh hit t ttl = None.
Proof.
  destruct hit as [[T v]|]; simpl; [|reflexivity]. intros Ht.
  destruct (t - T <? ttl) eqn:E; [|reflexivity]. apply Z.ltb_lt in E. lia.
Qed.

Lemma fresh_or_stale {A} (hit : option (Z * A)) t ttl :
  (exists T v, hit = Some (T, v) /\ t < T + ttl) \/ stale hit t ttl.
Proof.
  destruct hit as [[T v]|]; simpl; [|right; exact I].
  destruct (Z_lt_le_dec t (T + ttl)); [left; eauto | right; assumption].
Qed.

(** ** The quote cache *)

Definition quoteData (q : option json) : option Q :=
  let c := Json.prop "c" q in if Json.truthy c then Json.num c else None.

Lemma getLiveQuote_hit ticker w T v :
  quoteCache w !! norm ticker = Some (T, v) ->
  clock w < T + TTL_QUOTE ->
  getLiveQuote ticker w = (Ok v, w).
Proof.
  intros Hhit Ht. unfold getLiveQuote, bind, gets, now.
  rewrite (fresh_hit _ _ _ _ _ Hhit Ht). reflexivity.
Qed.

Lemma getLiveQuote_miss ticker w :
  stale (quoteCache w !! norm ticker) (clock w) TTL_QUOTE ->
  exists q,
    let w1 := afterFinnhub (FinnhubQuote (norm ticker)) w in
    finnhubGet (FinnhubQuote (norm ticker)) w = (Ok q, w1) /\
    getLiveQuote ticker w =
      (Ok (quoteData q),
       setQuoteCache (<[norm ticker := (clock w1, quoteData q)]> (quoteCache w1)) w1).
Proof.
  intros Hmiss. apply fresh_stale in Hmiss.
  destruct (finnhubGet_run (FinnhubQuote (norm ticker)) w) as [q Eq].
  exists q. cbn zeta. split; [exact Eq|].
  unfold getLiveQuote, bind, gets, now. rewrite Hmiss, Eq. reflexivity.
Qed.

(** ** The metric cache *)

Definition metricData (m : option json) : option Q :=
  Json.num (Json.prop "52WeekHigh" (Json.prop "metric" m)).

Lemma getLiveMetrics_hit ticker w T v :
  metricCache w !! norm ticker = Some (T, v) ->
  clock w < T + TTL_METRIC ->
  getLiveMetrics ticker w = (Ok v, w).
Proof.
  intros Hhit Ht. unfold getLiveMetrics, bind, gets, now.
  rewrite (fresh_hit _ _ _ _ _ Hhit Ht). reflexivity.
Qed.

Lemma getLiveMetrics_miss ticker w :
  stale (metricCache w !! norm ticker) (clock w) TTL_METRIC ->
  exists m,
    let w1 := afterFinnhub (FinnhubMetric (norm ticker)) w in
    finnhubGet (FinnhubMetric (norm ticker)) w = (Ok m, w1) /\
    getLiveMetrics ticker w =
      (Ok (metricData m),
       setMetricCache (<[norm ticker := (clock w1, metricData m)]> (metricCache w1)) w1).
Proof.
  intros Hmiss. apply fresh_stale in Hmiss.
  destruct (finnhubGet_run (FinnhubMetric (norm ticker)) w) as [m Em].
  exists m. cbn zeta. split; [exact Em|].
  unfold getLiveMetrics, bind, gets, now. rewrite Hmiss, Em. reflexivity.
Qed.

(** ** The candle cache *)

Definition candleRequest (ticker : jsstring) (w : World) : jsstring -> Request :=
  let toSec := clock w `div` 1000 in
  FinnhubCandle (norm ticker) (toSec - 400 * 24 * 60 * 60) toSec.

Definition candleData (c : option json) : option (list Q) :=
  match Json.nonEmptyArray (Json.prop "c" c) with
  | None => None
  | Some cs => Some (lastN 252 (finites ((fun x => Json.Number (Some x)) <$> cs)))
  end.

Lemma getLiveCloses_hit ticker w T v :
  candleCache w !! norm ticker = Some (T, v) ->
  clock w < T + TTL_CANDLE ->
  getLiveCloses ticker w = (Ok (Some v), w).
Proof.
  intros Hhit Ht. unfold getLiveCloses, bind, gets, now.
  rewrite (fresh_hit _ _ _ _ _ Hhit Ht). reflexivity.
Qed.

(** A miss stores the closes only when the provider returned some. *)
Definition storeCandles (ticker : jsstring) (data : option (list Q)) (w1 : World) : World :=
  match data with
  | Some closes => setCandleCache (<[norm ticker := (clock w1, closes)]> (candleCache w1)) w1
  | None => w1
  end.

Lemma getLiveCloses_miss ticker w :
  stale (candleCache w !! norm ticker) (clock w) TTL_CANDLE ->
  exists c,
    let w1 := afterFinnhub (candleRequest ticker w) w in
    finnhubGet (candleRequest ticker w) w = (Ok c, w1) /\
    getLiveCloses ticker w = (Ok (candleData c), storeCandles ticker (candleData c) w1).
Proof.
  intros Hmiss. apply fresh_stale in Hmiss.
  destruct (finnhubGet_run (candleRequest ticker w) w) as [c Ec].
  exists c. cbn zeta. split; [exact Ec|].
  unfold getLiveCloses, bind, gets, now. rewrite Hmiss.
  unfold candleRequest in Ec. rewrite Ec. unfold candleData, storeCandles.
  destruct (Json.nonEmptyArray _); reflexivity.
Qed.

(** ** The dataset cache *)

Lemma loadDatasetJson_hit w T rows :
  datasetCache w !! datasetKey = Some (T, rows) ->
  clock w < T + TTL_DATASET ->
  loadDatasetJson w = (Ok (Some rows), w).
Proof.
  intros Hhit Ht. unfold loadDatasetJson, bind, gets, now.
  rewrite (fresh_hit _ _ _ _ _ Hhit Ht). reflexivity.
Qed.

(** What a completed download leaves in the world: the rows are stored
    only when the response was a success with well-formed content. *)
Definition storeRows (rows : option (list IndicatorRow)) (w1 : World) : World :=
  match rows with
  | Some rs => setDatasetCache (<[datasetKey := (clock w1, rs)]> (datasetCache w1)) w1
  | None => w1
  end.

Lemma loadDatasetJson_miss w :
  stale (datasetCache w !! datasetKey) (clock w) TTL_DATASET ->
  exists rows,
    loadDatasetJson w = (Ok rows, storeRows rows (afterFetch DatasetJson w)).
Proof.
  intros Hmiss. apply fresh_stale in Hmiss.
  unfold loadDatasetJson, bind, gets, now. rewrite Hmiss.
  unfold tryCatch, bind. pose proof (fetch_world DatasetJson w) as Hw.
  destruct (fetch DatasetJson w) as [[[ok body]|] w1]; simpl in Hw; subst w1.
  2: { exists None. reflexivity. }
  simpl. destruct ok; simpl.
  2: { exists None. reflexivity. }
  destruct body as [j|]; simpl.
  2: { exists None. reflexivity. }
  destruct (match j with JArr items => mapNormalize items | _ => Ok [] end) as [rows|].
  - exists (Some rows). reflexivity.
  - exists None. reflexivity.
Qed.

Lemma loadDatasetJson_run w :
  exists rows w1, loadDatasetJson w = (Ok rows, w1) /\
    quoteCache w1 = quoteCache w /\ metricCache w1 = metricCache w /\
    candleCache w1 = candleCache w.
Proof.
  destruct (fresh_or_stale (datasetCache w !! datasetKey) (clock w) TTL_DATASET)
    as [(T & rows & E & Hlt) | Hst].
  - exists (Some rows), w. split; [eapply loadDatasetJson_hit; eauto|]. auto.
  - destruct (loadDatasetJson_miss w Hst) as [r Er].
    eexists _, _. split; [exact Er|]. destruct r; auto.
Qed.

Lemma loadDatasetModule_run w : exists rows, loadDatasetModule w = (Ok rows, w).
Proof.
  unfold loadDatasetModule, tryCatch. destruct datasetModule as [arr|]; simpl.
  2: { eexists. reflexivity. }
  destruct (Json.nonEmptyArray arr) as [items|]; simpl.
  2: { eexists. reflexivity. }
  destruct (mapNormalize items); eexists; reflexivity.
Qed.

Lemma loadRow_run ticker w :
  exists row w1, loadRow ticker w = (Ok row, w1) /\
    quoteCache w1 = quoteCache w /\ metricCache w1 = metricCache w /\
    candleCache w1 = candleCache w.
Proof.
  unfold loadRow, bind. destruct (loadDatasetModule_run w) as [modRows ->].
  destruct (findRow modRows _) as [hit|].
  { eexists _, _. split; [reflexivity|]. auto. }
  destruct (loadDatasetJson_run w) as (rows & w1 & -> & Hc).
  destruct (findRow rows _); eexists _, _; (split; [reflexivity | exact Hc]).
Qed.

(** ** Each live helper returns *)

Lemma getLiveQuote_run ticker w : exists v w1, getLiveQuote ticker w = (Ok v, w1).
Proof.
  destruct (fresh_or_stale (quoteCache w !! norm ticker) (clock w) TTL_QUOTE)
    as [(T & v & E & Hlt) | Hst].
  - eexists _, _. eapply getLiveQuote_hit; eauto.
  - destruct (getLiveQuote_miss ticker w Hst) as (q & _ & Eq). eauto.
Qed.

Lemma getLiveMetrics_run ticker w : exists v w1, getLiveMetrics ticker w = (Ok v, w1).
Proof.
  destruct (fresh_or_stale (metricCache w !! norm ticker) (clock w) TTL_METRIC)
    as [(T & v & E & Hlt) | Hst].
  - eexists _, _. eapply getLiveMetrics_hit; eauto.
  - destruct (getLiveMetrics_miss ticker w Hst) as (q & _ & Eq). eauto.
Qed.

Lemma getLiveCloses_run ticker w : exists v w1, getLiveCloses ticker w = (Ok v, w1).
Proof.
  destruct (fresh_or_stale (candleCache w !! norm ticker) (clock w) TTL_CANDLE)
    as [(T & v & E & Hlt) | Hst].
  - eexists _, _. eapply getLiveCloses_hit; eauto.
  - destruct (getLiveCloses_miss ticker w Hst) as (q & _ & Eq). eauto.
Qed.

Lemma promiseAll3_run {A B C} (a : M A) (b : M B) (c : M C) :
  safe a -> safe b -> safe c -> safe (promiseAll3 a b c).
Proof.
  intros Ha Hb Hc w. unfold promiseAll3.
  destruct (Ha w) as (x & w1 & ->).
  destruct (Hb (setClock (clock w) w1)) as (y & w2 & ->).
  destruct (Hc (setClock (clock w) w2)) as (z & w3 & ->).
  eexists _, _. reflexivity.
Qed.

(** [getQuickStats] returns the assembly of what its four sources gave. *)
Lemma getQuickStats_run ticker w :
  exists row w1 liveQ liveM liveCloses w',
    loadRow (norm ticker) w = (Ok row, w1) /\
    promiseAll3 (getLiveQuote (norm ticker)) (getLiveMetrics (norm ticker))
      (getLiveCloses (norm ticker)) w1 = (Ok (liveQ, liveM, liveCloses), w') /\
    getQuickStats ticker w = (Ok (assemble row liveQ liveM liveCloses), w').
Proof.
  destruct (loadRow_run (norm ticker) w) as (row & w1 & Er & _).
  destruct (promiseAll3_run (getLiveQuote (norm ticker)) (getLiveMetrics (norm ticker))
              (getLiveCloses (norm ticker))) with (w := w1) as ([[q m] c] & w' & Ep).
  { intros ?. apply getLiveQuote_run. }
  { intros ?. apply getLiveMetrics_run. }
  { intros ?. apply getLiveCloses_run. }
  exists row, w1, q, m, c, w'. split; [exact Er|]. split; [exact Ep|].
  unfold getQuickStats, bind. rewrite Er, Ep. reflexivity.
Qed.

(** ** The assembly *)

Lemma sma_finite (closes : list Q) (n : nat) :
  (0 < n)%nat -> (n <= length closes)%nat ->
  exists q, Indicator.sma closes n = Some (Fin q).
Proof.
  intros Hn Hlen. unfold Indicator.sma.
  destruct (length closes <? n)%nat eqn:E; [apply Nat.ltb_lt in E; lia|].
  pose proof (ofNat_pos n Hn) as Hq.
  unfold Num.ofNat. simpl.
  destruct (Num.Qeqb (inject_Z (Z.of_nat n)) 0) eqn:E0.
  - apply Qeqb_eq in E0. lra.
  - eexists. reflexivity.
Qed.

(** The closes from which [getQuickStats] derives: live candles when
    there are some, else the history of the dataset row. *)
Definition workingCloses (row : option IndicatorRow) (liveCloses : option (list Q)) : list Q :=
  match liveCloses with
  | Some (x :: r) => x :: r
  | _ => (row ≫= ir_historical) ?: []
  end.

(** The resolved MA50: the dataset value, else the SMA of 50 closes. *)
Definition resolvedMA50 (row : option IndicatorRow) (closes : list Q) : option jsnum :=
  (Fin <$> (row ≫= ir_ma50))
    ?? (if (50 <=? length closes)%nat then Indicator.sma closes 50 else None).

Lemma resolvedMA50_finite row closes :
  resolvedMA50 row closes = None \/ exists m, resolvedMA50 row closes = Some (Fin m).
Proof.
  unfold resolvedMA50. destruct (row ≫= ir_ma50) as [m|].
  - right. exists m. reflexivity.
  - cbv beta iota delta [nullish fmap option_fmap option_map].
    destruct (50 <=? length closes)%nat eqn:E; [|left; reflexivity].
    apply Nat.leb_le in E. right. apply sma_finite; lia.
Qed.

Lemma assemble_price row liveQ liveM liveCloses :
  qs_price (assemble row liveQ liveM liveCloses) = liveQ ?? (row ≫= ir_price).
Proof. unfold assemble. simpl. destruct liveQ; [reflexivity|]. destruct (row ≫= ir_price); reflexivity. Qed.



Lemma assemble_maTrend row liveQ liveM liveCloses :
  qs_maTrend (assemble row liveQ liveM liveCloses) =
  Some (Indicator.trendFromMomentum
          (Indicator.momentumPct (workingCloses row liveCloses) 15)
          (Fin <$> qs_pctVsMA50 (assemble row liveQ liveM liveCloses))).
Proof.
  unfold assemble. cbn [qs_maTrend qs_pctVsMA50].
  fold (workingCloses row liveCloses).
  fold (resolvedMA50 row (workingCloses row liveCloses)).
  f_equal. f_equal.
  assert (Hs : forall o : option Q, Fin <$> o = Fin <$> ((Fin <$> o) ≫= Num.finite))
    by (intros [?|]; reflexivity).
  destruct (liveQ ?? (row ≫= ir_price) ?? None) as [p|]; [|apply Hs].
  destruct (resolvedMA50_finite row (workingCloses row liveCloses)) as [E | [m E]];
    rewrite E; simpl; [apply Hs|].
  destruct (Num.Qeqb m 0) eqn:E0; simpl; [apply Hs|]. reflexivity.
Qed.

(** The statistics of a ticker about which nothing is known. *)
Definition noData : QuickStats :=
  {| qs_price := None; qs_high52 := None; qs_rsi := None; qs_ma50 := None;
     qs_pctVsMA50 := None; qs_maTrend := Some flat |}.

Lemma assemble_noData : assemble None None None None = noData.
Proof. reflexivity. Qed.

(** ** Running without an API key *)

(** What the caches can hold when no key was ever configured: entries
    without a price or a high, and no candles. *)
Definition keylessCaches (w : World) : Prop :=
  (forall k T v, quoteCache w !! k = Some (T, v) -> v = None) /\
  (forall k T v, metricCache w !! k = Some (T, v) -> v = None) /\
  candleCache w = ∅.

(** Storing an entry without data keeps a cache free of data. *)
Lemma insert_dataless (m : gmap jsstring (Z * option Q)) (k : jsstring) (t : Z) :
  (forall k' T v, m !! k' = Some (T, v) -> v = None) ->
  forall k' T v, <[k := (t, None)]> m !! k' = Some (T, v) -> v = None.
Proof.
  intros Hm k' T v Hl. destruct (decide (k' = k)) as [->|Hne].
  - rewrite lookup_insert_eq in Hl. congruence.
  - rewrite lookup_insert_ne in Hl by congruence. eauto.
Qed.

Lemma getLiveQuote_keyless ticker w :
  Js.truthy FINNHUB_KEY = false -> keylessCaches w ->
  exists w1, getLiveQuote ticker w = (Ok None, w1) /\ keylessCaches w1 /\ clock w1 = clock w.
Proof.
  intros Hk (Hq & Hm & Hc).
  destruct (fresh_or_stale (quoteCache w !! norm ticker) (clock w) TTL_QUOTE)
    as [(T & v & E & Hlt) | Hst].
  - exists w. rewrite (getLiveQuote_hit ticker w T v E Hlt), (Hq _ _ _ E).
    repeat split; auto.
  - destruct (getLiveQuote_miss ticker w Hst) as (q & Eq & Er).
    cbn zeta in *. rewrite finnhubGet_keyless in Eq by exact Hk.
    injection Eq as <- Ew. rewrite <- Ew in Er. eexists. split; [exact Er|].
    split; [|reflexivity]. split; [|split; [exact Hm | exact Hc]].
    apply insert_dataless. exact Hq.
Qed.

Lemma getLiveMetrics_keyless ticker w :
  Js.truthy FINNHUB_KEY = false -> keylessCaches w ->
  exists w1, getLiveMetrics ticker w = (Ok None, w1) /\ keylessCaches w1 /\ clock w1 = clock w.
Proof.
  intros Hk (Hq & Hm & Hc).
  destruct (fresh_or_stale (metricCache w !! norm ticker) (clock w) TTL_METRIC)
    as [(T & v & E & Hlt) | Hst].
  - exists w. rewrite (getLiveMetrics_hit ticker w T v E Hlt), (Hm _ _ _ E).
    repeat split; auto.
  - destruct (getLiveMetrics_miss ticker w Hst) as (q & Eq & Er).
    cbn zeta in *. rewrite finnhubGet_keyless in Eq by exact Hk.
    injection Eq as <- Ew. rewrite <- Ew in Er. eexists. split; [exact Er|].
    split; [|reflexivity]. split; [exact Hq | split; [|exact Hc]].
    apply insert_dataless. exact Hm.
Qed.

Lemma getLiveCloses_keyless ticker w :
  Js.truthy FINNHUB_KEY = false -> keylessCaches w ->
  getLiveCloses ticker w = (Ok None, w).
Proof.
  intros Hk (Hq & Hm & Hc).
  destruct (getLiveCloses_miss ticker w) as (c & Ec & Er).
  { rewrite Hc, lookup_empty. exact I. }
  cbn zeta in *. rewrite finnhubGet_keyless in Ec by exact Hk.
  injection Ec as <- Ew. rewrite <- Ew in Er. exact Er.
Qed.

Lemma keylessCaches_setClock c w : keylessCaches w -> keylessCaches (setClock c w).
Proof. intros H1. exact H1. Qed.

Lemma getQuickStats_keyless ticker w :
  Js.truthy FINNHUB_KEY = false -> keylessCaches w ->
  exists row w1 w',
    loadRow (norm ticker) w = (Ok row, w1) /\
    getQuickStats ticker w = (Ok (assemble row None None None), w') /\
    keylessCaches w'.
Proof.
  intros Hk Hinv.
  destruct (loadRow_run (norm ticker) w) as (row & w1 & Er & Eq & Em & Ec).
  assert (Hinv1 : keylessCaches w1).
  { destruct Hinv as (Hq & Hm & Hc). unfold keylessCaches. rewrite Eq, Em, Ec. auto. }
  destruct (getLiveQuote_keyless (norm ticker) w1 Hk Hinv1) as (w2 & E2 & Hinv2 & Hc2).
  destruct (getLiveMetrics_keyless (norm ticker) (setClock (clock w1) w2) Hk)
    as (w3 & E3 & Hinv3 & Hc3); [exact Hinv2|].
  pose proof (getLiveCloses_keyless (norm ticker) (setClock (clock w1) w3) Hk Hinv3) as E4.
  exists row, w1. eexists. split; [exact Er|].
  unfold getQuickStats, bind. rewrite Er. unfold promiseAll3. rewrite E2, E3, E4.
  split; [reflexivity|]. exact Hinv3.
Qed.

End RagFacts.

(** Concrete environments *)
Definition emptyWorld : Rag.World :=
  {| Rag.clock := 0; Rag.quoteCache := ∅; Rag.metricCache := ∅; Rag.candleCache := ∅;
     Rag.datasetCache := ∅; Rag.httpLog := [] |}.

(** No API key, no network, and the dataset module of the repository. *)
Definition offlineEnv : Rag.Env :=
  {| Rag.FINNHUB_KEY := [];
     Rag.network := fun _ _ => (Rag.NetworkError, 0%N);
     Rag.datasetModule := Some None |}.

(** A key, and a Finnhub that quotes 150 after 5 ms. *)
Definition liveEnv : Rag.Env :=
  {| Rag.FINNHUB_KEY := lit "k";
     Rag.network := fun req _ =>
       match req with
       | Rag.FinnhubQuote _ _ => (Rag.Http true (Some (JObj [(lit "c", JNum 150)])), 5%N)
       | _ => (Rag.NetworkError, 0%N)
       end;
     Rag.datasetModule := Some None |}.

(** A world whose quote cache holds 149 for AAPL, stored at [T]. *)
Definition quotedAt (T now : Z) : Rag.World :=
  {| Rag.clock := now;
     Rag.quoteCache := {[ lit "AAPL" := (T, Some 149%Q) ]};
     Rag.metricCache := ∅; Rag.candleCache := ∅;
     Rag.datasetCache := ∅; Rag.httpLog := [] |}.

Section RagClaims.
Import Rag.
Context `{Host} `{Env}.


(** C10: the [maTrend] of the statistics returned by [getQuickStats] is
    always present and is one of up, down, flat.  It is the
    classification of the momentum of the working closes (the live
    candles that the lookup returned when there are some, else the
    history of the dataset row that was loaded) and of the returned
    [pctVsMA50]; in particular it is flat when neither the momentum nor
    the [pctVsMA50] is available. *)
Theorem getQuickStats_maTrend_present (ticker : jsstring) (w : World) :
  exists row w1 liveQ liveM liveCloses w' t,
    loadRow (norm ticker) w = (Ok row, w1) /\
    promiseAll3 (getLiveQuote (norm ticker)) (getLiveMetrics (norm ticker))
      (getLiveCloses (norm ticker)) w1 = (Ok (liveQ, liveM, liveCloses), w') /\
    let qs := assemble row liveQ liveM liveCloses in
    let closes := workingCloses row liveCloses in
    getQuickStats ticker w = (Ok qs, w') /\
    qs_maTrend qs = Some t /\
    (t = up \/ t = down \/ t = flat) /\
    t = Indicator.trendFromMomentum (Indicator.momentumPct closes 15)
          (Fin <$> qs_pctVsMA50 qs) /\
    (Indicator.momentumPct closes 15 = None -> qs_pctVsMA50 qs = None -> t = flat).
Proof.
  destruct (getQuickStats_run ticker w) as (row & w1 & q & m & c & w' & Er & Ep & Eg).
  exists row, w1, q, m, c, w'. eexists.
  split; [exact Er|]. split; [exact Ep|]. cbn zeta.
  split; [exact Eg|]. split; [apply assemble_maTrend|].
  split; [destruct (Indicator.trendFromMomentum _ _); auto|].
  split; [reflexivity|].
  intros Hm Hp. rewrite Hm, Hp. reflexivity.
Qed.

(** The responses on which [finnhubGet] gives up: a rejected fetch, a
    status that is not 2xx, a body that is not JSON, and the no-data
    sentinel. *)
Definition failedResponse (resp : Response) : Prop :=
  match resp with
  | NetworkError => True
  | Http false _ => True
  | Http true None => True
  | Http true (Some (JObj fields)) =>
      Json.prop "s" (Some (JObj fields)) = Some (JStr (lit "no_data"))
  | Http true (Some _) => False
  end.

Lemma finnhubGet_failure url w :
  Js.truthy FINNHUB_KEY = false \/
  failedResponse (network (url FINNHUB_KEY) (clock w)).1 ->
  finnhubGet url w = (Ok None, afterFinnhub url w).
Proof.
  intros [Hk | Hf].
  - rewrite finnhubGet_keyless by exact Hk. unfold afterFinnhub. rewrite Hk. reflexivity.
  - unfold finnhubGet, afterFinnhub. destruct (Js.truthy FINNHUB_KEY); [|reflexivity].
    cbn [negb]. unfold tryCatch, bind, fetch, afterFetch.
    destruct (network (url FINNHUB_KEY) (clock w)) as [resp lat]. simpl in Hf.
    destruct resp as [|[|] [j|]]; simpl in *; try reflexivity; try contradiction.
    destruct j; try contradiction.
    rewrite Hf. unfold Js.eqb. rewrite bool_decide_eq_true_2 by reflexivity. reflexivity.
Qed.

(** A lookup whose provider gives nothing: no key, or a response on
    which [finnhubGet] gives up. *)
Definition providerFails (url : jsstring -> Request) (w : World) : Prop :=
  Js.truthy FINNHUB_KEY = false \/
  failedResponse (network (url FINNHUB_KEY) (clock w)).1.

(** The dataset download fails: a rejected fetch, a status that is not
    2xx, or a body that is not JSON. *)
Definition failedDownload (resp : Response) : Prop :=
  match resp with
  | NetworkError => True
  | Http false _ => True
  | Http true None => True
  | Http true (Some _) => False
  end.

(** The module of the dataset gives no rows: the import rejects, or the
    export is not a non-empty array. *)
Definition moduleWithoutRows : Prop :=
  forall arr, datasetModule = Some arr -> Json.nonEmptyArray arr = None.

Lemma getLiveQuote_fails t w :
  stale (quoteCache w !! norm t) (clock w) TTL_QUOTE ->
  providerFails (FinnhubQuote (norm t)) w ->
  (getLiveQuote t w).1 = Ok None.
Proof.
  intros Hst Hf. destruct (getLiveQuote_miss t w Hst) as (q & Eq & Er). cbn zeta in Eq, Er.
  rewrite (finnhubGet_failure _ w Hf) in Eq. injection Eq as <-.
  rewrite Er. reflexivity.
Qed.

Lemma getLiveMetrics_fails t w :
  stale (metricCache w !! norm t) (clock w) TTL_METRIC ->
  providerFails (FinnhubMetric (norm t)) w ->
  (getLiveMetrics t w).1 = Ok None.
Proof.
  intros Hst Hf. destruct (getLiveMetrics_miss t w Hst) as (q & Eq & Er). cbn zeta in Eq, Er.
  rewrite (finnhubGet_failure _ w Hf) in Eq. injection Eq as <-.
  rewrite Er. reflexivity.
Qed.

Lemma getLiveCloses_fails t w :
  stale (candleCache w !! norm t) (clock w) TTL_CANDLE ->
  providerFails (candleRequest t w) w ->
  (getLiveCloses t w).1 = Ok None.
Proof.
  intros Hst Hf. destruct (getLiveCloses_miss t w Hst) as (q & Eq & Er). cbn zeta in Eq, Er.
  rewrite (finnhubGet_failure _ w Hf) in Eq. injection Eq as <-.
  rewrite Er. reflexivity.
Qed.

(** A quote lookup leaves the other caches alone, and so does a metric
    lookup. *)
Lemma getLiveQuote_frame t w :
  metricCache (getLiveQuote t w).2 = metricCache w /\
  candleCache (getLiveQuote t w).2 = candleCache w.
Proof.
  destruct (fresh_or_stale (quoteCache w !! norm t) (clock w) TTL_QUOTE)
    as [(T & v & E & Hlt) | Hst].
  - rewrite (getLiveQuote_hit t w T v E Hlt). split; reflexivity.
  - destruct (getLiveQuote_miss t w Hst) as (q & _ & Er). cbn zeta in Er. rewrite Er.
    cbn [snd setQuoteCache metricCache candleCache].
    rewrite afterFinnhub_metricCache, afterFinnhub_candleCache. split; reflexivity.
Qed.

Lemma getLiveMetrics_frame t w : candleCache (getLiveMetrics t w).2 = candleCache w.
Proof.
  destruct (fresh_or_stale (metricCache w !! norm t) (clock w) TTL_METRIC)
    as [(T & v & E & Hlt) | Hst].
  - rewrite (getLiveMetrics_hit t w T v E Hlt). reflexivity.
  - destruct (getLiveMetrics_miss t w Hst) as (q & _ & Er). cbn zeta in Er. rewrite Er.
    cbn [snd setMetricCache candleCache]. apply afterFinnhub_candleCache.
Qed.

Lemma loadDatasetModule_without_rows w :
  moduleWithoutRows -> loadDatasetModule w = (Ok None, w).
Proof.
  intros Hm. unfold loadDatasetModule, tryCatch.
  destruct datasetModule as [arr|] eqn:E; [|reflexivity].
  rewrite (Hm arr E). reflexivity.
Qed.

Lemma loadDatasetJson_fails w :
  stale (datasetCache w !! datasetKey) (clock w) TTL_DATASET ->
  failedDownload (network DatasetJson (clock w)).1 ->
  (loadDatasetJson w).1 = Ok None.
Proof.
  intros Hst Hf. apply fresh_stale in Hst.
  unfold loadDatasetJson, bind, gets, now. rewrite Hst.
  unfold tryCatch, bind, fetch.
  destruct (network DatasetJson (clock w)) as [resp lat]. simpl in Hf.
  destruct resp as [|[|] [j|]]; simpl in *; try reflexivity; contradiction.
Qed.

Lemma loadRow_fails t w :
  moduleWithoutRows ->
  stale (datasetCache w !! datasetKey) (clock w) TTL_DATASET ->
  failedDownload (network DatasetJson (clock w)).1 ->
  (loadRow t w).1 = Ok None.
Proof.
  intros Hm Hst Hf. unfold loadRow, bind.
  rewrite (loadDatasetModule_without_rows w Hm). cbn [findRow].
  pose proof (loadDatasetJson_fails w Hst Hf) as E.
  destruct (loadDatasetJson_run w) as (rows & w1 & Er & _). rewrite Er in E |- *.
  injection E as ->. reflexivity.
Qed.

(** The RSI that [getQuickStats] resolves: the dataset value, else the
    RSI of the working closes when there are 15 of them. *)
Definition resolvedRSI (row : option IndicatorRow) (closes : list Q) : option Q :=
  (row ≫= ir_rsi)
    ?? (if (15 <=? length closes)%nat then Indicator.rsiFromCloses closes 14 else None).

(** C6, as amended: [getQuickStats] never throws and always returns the
    statistics assembled from the dataset row and the three live
    lookups.  Each field is fed by its own sources: [price] by the quote
    and the row, [high52] by the metrics and the row, [rsi] and [ma50]
    by the row and the working closes.  A lookup whose provider fails
    (no key, a rejected fetch, a status that is not 2xx, a body that is
    not JSON, the no-data sentinel) returns nothing, so that its fields
    fall back to the row; a dataset that fails to load leaves no row, so
    that the fields come from the live lookups alone.  When everything
    fails, and when there is no key and no row, every numeric field is
    undefined and [maTrend] is flat.  (The conversion [Number(x)] is a
    total function of the host here.  The code applies it to the candle
    closes outside any [try]; a close that is an object with an own
    property [toString] makes it raise, which this statement does not
    cover.) *)
Theorem getQuickStats_never_throws (ticker : jsstring) (w : World) :
  let T := norm ticker in
  exists row w1 liveQ liveM liveCloses w',
    let qs := assemble row liveQ liveM liveCloses in
    let closes := workingCloses row liveCloses in
    loadRow T w = (Ok row, w1) /\
    getQuickStats ticker w = (Ok qs, w') /\
    (* the sources of each field *)
    (qs_price qs = liveQ ?? (row ≫= ir_price) /\
     qs_high52 qs = liveM ?? (row ≫= ir_high52) /\
     qs_rsi qs = resolvedRSI row closes /\
     qs_ma50 qs = resolvedMA50 row closes ≫= Num.finite) /\
    (* a failed provider *)
    (stale (quoteCache w1 !! norm T) (clock w1) TTL_QUOTE ->
     providerFails (FinnhubQuote (norm T)) w1 ->
     liveQ = None /\ qs_price qs = row ≫= ir_price) /\
    (stale (metricCache w1 !! norm T) (clock w1) TTL_METRIC ->
     providerFails (FinnhubMetric (norm T)) w1 ->
     liveM = None /\ qs_high52 qs = row ≫= ir_high52) /\
    (stale (candleCache w1 !! norm T) (clock w1) TTL_CANDLE ->
     providerFails (candleRequest T w1) w1 ->
     liveCloses = None /\ closes = (row ≫= ir_historical) ?: []) /\
    (* a failed dataset *)
    (moduleWithoutRows ->
     stale (datasetCache w !! datasetKey) (clock w) TTL_DATASET ->
     failedDownload (network DatasetJson (clock w)).1 ->
     row = None /\ qs_price qs = liveQ /\ qs_high52 qs = liveM) /\
    (* no data at all *)
    (row = None -> liveQ = None -> liveM = None -> liveCloses = None -> qs = noData) /\
    (* no key *)
    (Js.truthy FINNHUB_KEY = false -> keylessCaches w ->
     liveQ = None /\ liveM = None /\ liveCloses = None /\ keylessCaches w').
Proof.
  cbn zeta. set (T := norm ticker).
  destruct (loadRow_run T w) as (row & w1 & Er & Eqc & Emc & Ecc).
  destruct (getLiveQuote_run T w1) as (q & wq & Eq).
  destruct (getLiveMetrics_run T (setClock (clock w1) wq)) as (m & wm & Em).
  destruct (getLiveCloses_run T (setClock (clock w1) wm)) as (c & wc & Ec).
  pose proof (getLiveQuote_frame T w1) as [Fqm Fqc]. rewrite Eq in Fqm, Fqc. cbn [snd] in Fqm, Fqc.
  pose proof (getLiveMetrics_frame T (setClock (clock w1) wq)) as Fmc.
  rewrite Em in Fmc. cbn [snd] in Fmc.
  exists row, w1, q, m, c. eexists.
  split; [exact Er|]. split.
  { unfold getQuickStats, bind. fold T. rewrite Er. unfold promiseAll3.
    rewrite Eq, Em, Ec. reflexivity. }
  split.
  { split; [apply assemble_price|]. repeat split. }
  split.
  { intros Hst Hf. pose proof (getLiveQuote_fails T w1 Hst Hf) as E.
    rewrite Eq in E. injection E as ->. split; [reflexivity|].
    rewrite assemble_price. reflexivity. }
  split.
  { intros Hst Hf.
    pose proof (getLiveMetrics_fails T (setClock (clock w1) wq)) as E.
    rewrite Em in E. cbn [fst] in E.
    assert (Hm : m = None).
    { assert (E' : Ok m = Ok None); [|congruence].
      apply E.
      - change (metricCache (setClock (clock w1) wq)) with (metricCache wq).
        rewrite Fqm. exact Hst.
      - exact Hf. }
    subst m. split; reflexivity. }
  split.
  { intros Hst Hf.
    pose proof (getLiveCloses_fails T (setClock (clock w1) wm)) as E.
    rewrite Ec in E. cbn [fst] in E.
    assert (Hc : c = None).
    { assert (E' : Ok c = Ok None); [|congruence].
      apply E.
      - change (candleCache (setClock (clock w1) wm)) with (candleCache wm).
        rewrite Fmc. change (candleCache (setClock (clock w1) wq)) with (candleCache wq).
        rewrite Fqc. exact Hst.
      - exact Hf. }
    subst c. split; reflexivity. }
  split.
  { intros Hm Hst Hf. pose proof (loadRow_fails T w Hm Hst Hf) as E.
    rewrite Er in E. injection E as ->. rewrite assemble_price.
    split; [reflexivity|]. split; [destruct q; reflexivity | destruct m; reflexivity]. }
  split.
  { intros -> -> -> ->. reflexivity. }
  intros Hk Hinv.
  assert (Hinv1 : keylessCaches w1).
  { destruct Hinv as (Hq & Hm & Hc). unfold keylessCaches. rewrite Eqc, Emc, Ecc. auto. }
  destruct (getLiveQuote_keyless T w1 Hk Hinv1) as (w2 & E2 & Hinv2 & Hc2).
  rewrite Eq in E2. injection E2 as -> <-.
  destruct (getLiveMetrics_keyless T (setClock (clock w1) wq) Hk)
    as (w3 & E3 & Hinv3 & Hc3); [exact Hinv2|].
  rewrite Em in E3. injection E3 as -> <-.
  pose proof (getLiveCloses_keyless T (setClock (clock w1) wm) Hk Hinv3) as E4.
  rewrite Ec in E4. injection E4 as -> ->.
  split; [reflexivity|]. split; [reflexivity|]. split; [reflexivity|]. exact Hinv3.
Qed.

(** C7: each cache serves a stored value to every read strictly before
    its time of storage plus the TTL, leaving the world (and so the HTTP
    log) untouched; a read at or after that instant, or without an
    entry, runs the loader again and stores what it returned under the
    time of completion. *)
Theorem caches_respect_ttl (ticker : jsstring) (w : World) :
  (* quotes *)
  (forall T v, quoteCache w !! norm ticker = Some (T, v) ->
     clock w < T + TTL_QUOTE -> getLiveQuote ticker w = (Ok v, w)) /\
  (stale (quoteCache w !! norm ticker) (clock w) TTL_QUOTE ->
     exists q,
       let w1 := afterFinnhub (FinnhubQuote (norm ticker)) w in
       finnhubGet (FinnhubQuote (norm ticker)) w = (Ok q, w1) /\
       httpLog w1 = httpLog w ++
         (if Js.truthy FINNHUB_KEY then [FinnhubQuote (norm ticker) FINNHUB_KEY] else []) /\
       getLiveQuote ticker w =
         (Ok (quoteData q),
          setQuoteCache (<[norm ticker := (clock w1, quoteData q)]> (quoteCache w1)) w1)) /\
  (* metrics *)
  (forall T v, metricCache w !! norm ticker = Some (T, v) ->
     clock w < T + TTL_METRIC -> getLiveMetrics ticker w = (Ok v, w)) /\
  (stale (metricCache w !! norm ticker) (clock w) TTL_METRIC ->
     exists m,
       let w1 := afterFinnhub (FinnhubMetric (norm ticker)) w in
       finnhubGet (FinnhubMetric (norm ticker)) w = (Ok m, w1) /\
       httpLog w1 = httpLog w ++
         (if Js.truthy FINNHUB_KEY then [FinnhubMetric (norm ticker) FINNHUB_KEY] else []) /\
       getLiveMetrics ticker w =
         (Ok (metricData m),
          setMetricCache (<[norm ticker := (clock w1, metricData m)]> (metricCache w1)) w1)) /\
  (* candles *)
  (forall T v, candleCache w !! norm ticker = Some (T, v) ->
     clock w < T + TTL_CANDLE -> getLiveCloses ticker w = (Ok (Some v), w)) /\
  (stale (candleCache w !! norm ticker) (clock w) TTL_CANDLE ->
     exists c,
       let w1 := afterFinnhub (candleRequest ticker w) w in
       finnhubGet (candleRequest ticker w) w = (Ok c, w1) /\
       httpLog w1 = httpLog w ++
         (if Js.truthy FINNHUB_KEY then [candleRequest ticker w FINNHUB_KEY] else []) /\
       getLiveCloses ticker w = (Ok (candleData c), storeCandles ticker (candleData c) w1)) /\
  (* dataset *)
  (forall T rows, datasetCache w !! datasetKey = Some (T, rows) ->
     clock w < T + TTL_DATASET -> loadDatasetJson w = (Ok (Some rows), w)) /\
  (stale (datasetCache w !! datasetKey) (clock w) TTL_DATASET ->
     exists rows,
       let w1 := afterFetch DatasetJson w in
       httpLog w1 = httpLog w ++ [DatasetJson] /\
       loadDatasetJson w = (Ok rows, storeRows rows w1)).
Proof.
  repeat split.
  - intros T v. apply getLiveQuote_hit.
  - intros Hm. destruct (getLiveQuote_miss ticker w Hm) as (q & E1 & E2).
    exists q. cbn zeta. split; [exact E1|]. split; [apply afterFinnhub_log | exact E2].
  - intros T v. apply getLiveMetrics_hit.
  - intros Hm. destruct (getLiveMetrics_miss ticker w Hm) as (q & E1 & E2).
    exists q. cbn zeta. split; [exact E1|]. split; [apply afterFinnhub_log | exact E2].
  - intros T v. apply getLiveCloses_hit.
  - intros Hm. destruct (getLiveCloses_miss ticker w Hm) as (q & E1 & E2).
    exists q. cbn zeta. split; [exact E1|]. split; [apply afterFinnhub_log | exact E2].
  - intros T rows. apply loadDatasetJson_hit.
  - intros Hm. destruct (loadDatasetJson_miss w Hm) as (rows & E).
    exists rows. cbn zeta. split; [reflexivity | exact E].
Qed.

End RagClaims.

(** The statistics of a ticker without any data carry a trend. *)
Lemma getQuickStats_noData_has_maTrend :
  (Rag.getQuickStats (H := asciiHost) (H0 := offlineEnv) (lit "AAPL") emptyWorld).1
    = Ok noData /\
  qs_maTrend noData = Some flat /\
  qs_maTrend noData <> None.
Proof. split; [vm_compute; reflexivity|]. split; [reflexivity | discriminate]. Qed.

(** A key, and a network on which every request fails. *)
Definition failingEnv : Rag.Env :=
  {| Rag.FINNHUB_KEY := lit "k";
     Rag.network := fun req _ =>
       match req with
       | Rag.FinnhubQuote _ _ => (Rag.NetworkError, 2%N)
       | Rag.FinnhubMetric _ _ => (Rag.Http false None, 3%N)
       | Rag.FinnhubCandle _ _ _ _ =>
           (Rag.Http true (Some (JObj [(lit "s", JStr (lit "no_data"))])), 4%N)
       | Rag.DatasetJson => (Rag.Http true None, 1%N)
       end;
     Rag.datasetModule := Some None |}.

Lemma getQuickStats_never_throws_witness :
  (Rag.getQuickStats (H := asciiHost) (H0 := failingEnv) (lit "AAPL") emptyWorld).1
  = Ok noData.
Proof.
  destruct (getQuickStats_never_throws (H := asciiHost) (H0 := failingEnv)
              (lit "AAPL") emptyWorld)
    as (row & w1 & q & m & c & w' & Er & Eg & _ & Hq & Hm & Hc & Hd & Hnone & _).
  cbn zeta in *.
  assert (Ew1 : w1 = (Rag.loadRow (H := asciiHost) (H0 := failingEnv)
                        (Rag.norm (H := asciiHost) (lit "AAPL")) emptyWorld).2)
    by (rewrite Er; reflexivity).
  assert (Erow : row = None).
  { apply Hd; [intros arr [= <-]; reflexivity | exact I | exact I]. }
  assert (Eq : q = None).
  { apply Hq; [rewrite Ew1; exact I | right; rewrite Ew1; exact I]. }
  assert (Em : m = None).
  { apply Hm; [rewrite Ew1; exact I | right; rewrite Ew1; exact I]. }
  assert (Ec : c = None).
  { apply Hc; [rewrite Ew1; exact I | right; rewrite Ew1; vm_compute; reflexivity]. }
  rewrite Eg. cbn [fst]. f_equal. apply Hnone; assumption.
Defined.

Lemma caches_respect_ttl_witness :
  Rag.getLiveQuote (H := asciiHost) (H0 := liveEnv) (lit "aapl") (quotedAt 1000 60999)
    = (Ok (Some 149%Q), quotedAt 1000 60999) /\
  exists q,
    Rag.getLiveQuote (H := asciiHost) (H0 := liveEnv) (lit "aapl") (quotedAt 1000 61000)
      = (Ok (quoteData q),
         Rag.setQuoteCache
           (<[lit "AAPL" := (61005, quoteData q)]> {[ lit "AAPL" := (1000, Some 149%Q) ]})
           (afterFinnhub (H0 := liveEnv) (Rag.FinnhubQuote (lit "AAPL")) (quotedAt 1000 61000))).
Proof.
  split.
  - destruct (caches_respect_ttl (H := asciiHost) (H0 := liveEnv)
                (lit "aapl") (quotedAt 1000 60999)) as (Hhit & _).
    apply (Hhit 1000 (Some 149%Q)); [reflexivity | reflexivity].
  - destruct (caches_respect_ttl (H := asciiHost) (H0 := liveEnv)
                (lit "aapl") (quotedAt 1000 61000)) as (_ & Hmiss & _).
    destruct Hmiss as (q & _ & _ & E).
    + vm_compute. discriminate.
    + exists q. exact E.
Defined.

(** The end-to-end scenario of the specification: no live provider, and
    a dataset row for AAPL with closes 100, 101, ..., 150 and a stored
    price, but no stored MA50 or RSI. *)
Definition aaplDataset : json :=
  JArr [JObj [(lit "ticker", JStr (lit "AAPL"));
              (lit "price", JNum 150);
              (lit "historical", JArr ((fun z => JNum (inject_Z z)) <$> seqZ 100 51))]].

Definition datasetEnv : Rag.Env :=
  {| Rag.FINNHUB_KEY := [];
     Rag.network := fun req _ =>
       match req with
       | Rag.DatasetJson => (Rag.Http true (Some aaplDataset), 3%N)
       | _ => (Rag.NetworkError, 0%N)
       end;
     Rag.datasetModule := Some None |}.

Example getQuickStats_from_dataset :
  exists qs ma50 pct,
    (Rag.getQuickStats (H := asciiHost) (H0 := datasetEnv) (lit "aapl") emptyWorld).1 = Ok qs /\
    qs_price qs = Some 150%Q /\
    qs_high52 qs = None /\
    qs_rsi qs = Some 100%Q /\
    qs_ma50 qs = Some ma50 /\ (ma50 == 125.5)%Q /\
    qs_pctVsMA50 qs = Some pct /\ (pct == (150 / 125.5 - 1) * 100)%Q /\
    qs_maTrend qs = Some up.
Proof.
  eexists _, _, _. split; [vm_compute; reflexivity|].
  repeat split; vm_compute; reflexivity.
Qed.

(** Concrete data *)
Definition tinyData : TickerData :=
  {| SP500_TICKERS := [lit "AAPL"; lit "TSLA"; lit "AMZN"];
     NAME_TO_TICKER := [(lit "amazon", [lit "AMZN"]); (lit "tesla", [lit "TSLA"])] |}.

Section ExtractorFacts.
Import Extractor.
Context `{Host} `{TickerData}.

Lemma isTicker_true t : isTicker t = true <-> t ∈ TICKERS_SET.
Proof. unfold isTicker. apply bool_decide_eq_true. Qed.

Lemma isTicker_extra t : t ∈ EXTRA_TICKERS -> isTicker t = true.
Proof.
  intros Ht. apply isTicker_true. unfold TICKERS_SET.
  rewrite elem_of_list_to_set, elem_of_app. right. exact Ht.
Qed.

(** The no-match result. *)
Definition noMatch : ExtractResult :=
  {| bestTicker := None; allTickers := []; matchedBy := None;
     confidence := 0; reason := lit "No ticker found." |}.

(** With an explicit symbol in the text the symbol stage answers, and the
    later stages are not consulted. *)
Lemma extract_symbol_stage text opts :
  symbolsOf text <> [] ->
  (opts ≫= preferLatest) <> Some false ->
  let r := extractTickersRich text opts in
  matchedBy r = Some bySymbol /\ confidence r = 1%Q /\
  allTickers r = dedupe [] (symbolsOf text) /\
  bestTicker r = last (dedupe [] (symbolsOf text)).
Proof.
  intros Hne Hpref. cbn zeta. unfold extractTickersRich.
  rewrite bool_decide_eq_false_2 by exact Hpref. cbn [negb].
  destruct (symbolsOf text) as [|s rest] eqn:E; [congruence|].
  cbn [dedupe]. rewrite bool_decide_eq_false_2 by apply not_elem_of_nil.
  repeat split.
Qed.

(** The stages after the symbol stage. *)
Lemma extract_without_symbols text opts :
  symbolsOf text = [] -> companyStage text = None ->
  extractTickersRich text opts =
    match fallbackOf opts with
    | Some fb =>
        {| bestTicker := Some fb; allTickers := [fb];
           matchedBy :=
             if bool_decide ((toUpperCase <$> (opts ≫= lastCookieTicker)) = Some fb)
             then Some byCookie else Some byClientHint;
           confidence := 0.25; reason := lit "Fallback to prior context." |}
    | None => noMatch
    end.
Proof.
  intros Hs Hc. unfold extractTickersRich. rewrite Hs, Hc.
  destruct (negb _); reflexivity.
Qed.

(** [fallbackOf], case by case. *)
Lemma fallbackOf_cases opts :
  let cookie := toUpperCase <$> (opts ≫= lastCookieTicker) in
  let client := toUpperCase <$> (opts ≫= lastClientTicker) in
  let valid (o : option jsstring) : bool :=
    match o with Some t => Js.truthy t && isTicker t | None => false end in
  fallbackOf opts =
    if valid cookie then cookie else if valid client then client else None.
Proof.
  cbn zeta. unfold fallbackOf.
  destruct (toUpperCase <$> (opts ≫= lastCookieTicker)) as [c|];
    destruct (toUpperCase <$> (opts ≫= lastClientTicker)) as [d|]; simpl.
  - destruct (Js.truthy c) eqn:Ec; destruct (Js.truthy d) eqn:Ed; simpl; rewrite ?Ec, ?Ed; simpl.
    + destruct (isTicker c); [reflexivity|]. destruct (isTicker d); reflexivity.
    + destruct (isTicker c); reflexivity.
    + destruct (isTicker d); reflexivity.
    + reflexivity.
  - destruct (Js.truthy c) eqn:Ec; simpl; rewrite ?Ec; simpl; [|reflexivity].
    destruct (isTicker c); reflexivity.
  - destruct (Js.truthy d) eqn:Ed; simpl; rewrite ?Ed; simpl; [|reflexivity].
    destruct (isTicker d); reflexivity.
  - reflexivity.
Qed.

End ExtractorFacts.

Section ExtractorClaims.
Import Extractor.

Lemma dedupe_fresh (seen xs : list jsstring) :
  NoDup xs -> (forall x, x ∈ xs -> x ∉ seen) -> dedupe seen xs = xs.
Proof.
  revert seen. induction xs as [|x r IH]; intros seen Hnd Hdis; [reflexivity|].
  simpl. inversion Hnd as [|? ? Hx Hr]; subst.
  rewrite bool_decide_eq_false_2 by (apply Hdis; left).
  f_equal. apply IH; [exact Hr|].
  intros y Hy Hin. apply elem_of_cons in Hin as [->|Hin]; [contradiction|].
  apply (Hdis y); [right; exact Hy | exact Hin].
Qed.

(** When no symbol is repeated, the best ticker is the last symbol. *)
Lemma extract_latest_without_repeats `{Host} `{TickerData} text opts :
  symbolsOf text <> [] -> NoDup (symbolsOf text) ->
  (opts ≫= preferLatest) <> Some false ->
  bestTicker (extractTickersRich text opts) = last (symbolsOf text).
Proof.
  intros Hne Hnd Hp.
  destruct (extract_symbol_stage text opts Hne Hp) as (_ & _ & _ & ->).
  rewrite dedupe_fresh; [reflexivity | exact Hnd |].
  intros x _. apply not_elem_of_nil.
Qed.

(** C2, on the failing input: in "SPY QQQ SPY" the last explicit symbol
    is SPY, the symbol stage answers with confidence 1, and the best
    ticker it returns is QQQ.  (SPY and QQQ are in the universe whatever
    the S&P 500 table holds.) *)
Theorem extract_repeated_symbol_loses_latest `{TickerData} :
  let text := lit "SPY QQQ SPY" in
  let r := extractTickersRich (H := asciiHost) text None in
  symbolsOf (H := asciiHost) text = [lit "SPY"; lit "QQQ"; lit "SPY"] /\
  last (symbolsOf (H := asciiHost) text) = Some (lit "SPY") /\
  matchedBy r = Some bySymbol /\ confidence r = 1%Q /\
  allTickers r = [lit "SPY"; lit "QQQ"] /\
  bestTicker r = Some (lit "QQQ").
Proof.
  cbn zeta.
  assert (Hs : symbolsOf (H := asciiHost) (lit "SPY QQQ SPY")
               = [lit "SPY"; lit "QQQ"; lit "SPY"]).
  { unfold symbolsOf.
    replace (tokenize (lit "SPY QQQ SPY")) with [lit "SPY"; lit "QQQ"; lit "SPY"]
      by (vm_compute; reflexivity).
    assert (Hspy : isTicker (lit "SPY") = true)
      by (apply isTicker_extra; vm_compute; set_solver).
    assert (Hqqq : isTicker (lit "QQQ") = true)
      by (apply isTicker_extra; vm_compute; set_solver).
    cbn [omap list_omap].
    replace (coreOf (lit "SPY")) with (lit "SPY") by (vm_compute; reflexivity).
    replace (coreOf (lit "QQQ")) with (lit "QQQ") by (vm_compute; reflexivity).
    replace (symbolShape (lit "SPY")) with true by (vm_compute; reflexivity).
    replace (symbolShape (lit "QQQ")) with true by (vm_compute; reflexivity).
    replace (toUpperCase (lit "SPY")) with (lit "SPY") by (vm_compute; reflexivity).
    replace (toUpperCase (lit "QQQ")) with (lit "QQQ") by (vm_compute; reflexivity).
    rewrite Hspy, Hqqq. reflexivity. }
  split; [exact Hs|]. split; [rewrite Hs; reflexivity|].
  unfold extractTickersRich. rewrite Hs.
  vm_compute. repeat split.
Qed.

Context `{Host} `{TickerData}.

(** C9: when neither an explicit symbol nor a company name matches, the
    result is a contextual fallback only for an upper-cased cookie or
    client ticker that belongs to the universe; with no such ticker the
    result is the no-match result; and a valid cookie ticker is preferred
    to a valid client hint. *)
Theorem extract_contextual_fallback (text : jsstring) (opts : option ExtractOpts) :
  symbolsOf text = [] -> companyStage text = None ->
  let cookie := toUpperCase <$> (opts ≫= lastCookieTicker) in
  let client := toUpperCase <$> (opts ≫= lastClientTicker) in
  let r := extractTickersRich text opts in
  (forall fb, bestTicker r = Some fb ->
     fb ∈ TICKERS_SET /\ (cookie = Some fb \/ client = Some fb) /\
     allTickers r = [fb] /\ confidence r = 0.25%Q /\
     (matchedBy r = Some byCookie \/ matchedBy r = Some byClientHint)) /\
  ((forall c, cookie = Some c -> c ∉ TICKERS_SET) ->
   (forall c, client = Some c -> c ∉ TICKERS_SET) ->
   r = noMatch) /\
  (forall c, cookie = Some c -> c ∈ TICKERS_SET -> c <> [] ->
     bestTicker r = Some c /\ matchedBy r = Some byCookie) /\
  (forall c, (forall k, cookie = Some k -> k ∉ TICKERS_SET) ->
     client = Some c -> c ∈ TICKERS_SET -> c <> [] ->
     bestTicker r = Some c /\ matchedBy r = Some byClientHint).
Proof.
  intros Hs Hc. cbn zeta. rewrite (extract_without_symbols text opts Hs Hc).
  pose proof (fallbackOf_cases opts) as Hfb. cbn zeta in Hfb. rewrite Hfb. clear Hfb.
  set (cookie := toUpperCase <$> (opts ≫= lastCookieTicker)).
  set (client := toUpperCase <$> (opts ≫= lastClientTicker)).
  assert (Htr : forall t : jsstring, Js.truthy t = true <-> t <> []).
  { intros [|? ?]; unfold Js.truthy; split; congruence. }
  destruct cookie as [c|]; destruct client as [d|].
  - destruct (Js.truthy c && isTicker c) eqn:Ec.
    + apply andb_true_iff in Ec as [Ec1 Ec2]. apply isTicker_true in Ec2.
      rewrite bool_decide_eq_true_2 by reflexivity.
      split; [|split; [|split]].
      * intros fb [= <-]. repeat split; auto.
      * intros Hn _. exfalso. apply (Hn c); auto.
      * intros ? [= <-] _ _. auto.
      * intros ? Hn _ _ _. exfalso. apply (Hn c); auto.
    + destruct (Js.truthy d && isTicker d) eqn:Ed.
      * apply andb_true_iff in Ed as [Ed1 Ed2]. apply isTicker_true in Ed2.
        assert (Hcd : Some c <> Some d).
        { intros [= ->]. rewrite Ed1 in Ec. simpl in Ec.
          apply not_true_iff_false in Ec. apply Ec. apply isTicker_true. exact Ed2. }
        rewrite bool_decide_eq_false_2 by exact Hcd.
        split; [|split; [|split]].
        -- intros fb [= <-]. repeat split; auto.
        -- intros _ Hn. exfalso. apply (Hn d); auto.
        -- intros ? [= <-] Hin Hne. apply Htr in Hne. apply isTicker_true in Hin.
           rewrite Hne, Hin in Ec. discriminate.
        -- intros ? _ [= <-] _ _. auto.
      * split; [|split; [|split]].
        -- intros fb [=].
        -- reflexivity.
        -- intros ? [= <-] Hin Hne. apply Htr in Hne. apply isTicker_true in Hin.
           rewrite Hne, Hin in Ec. discriminate.
        -- intros ? _ [= <-] Hin Hne. apply Htr in Hne. apply isTicker_true in Hin.
           rewrite Hne, Hin in Ed. discriminate.
  - destruct (Js.truthy c && isTicker c) eqn:Ec.
    + apply andb_true_iff in Ec as [Ec1 Ec2]. apply isTicker_true in Ec2.
      rewrite bool_decide_eq_true_2 by reflexivity.
      split; [|split; [|split]].
      * intros fb [= <-]. repeat split; auto.
      * intros Hn _. exfalso. apply (Hn c); auto.
      * intros ? [= <-] _ _. auto.
      * intros ? _ [=].
    + split; [|split; [|split]].
      * intros fb [=].
      * reflexivity.
      * intros ? [= <-] Hin Hne. apply Htr in Hne. apply isTicker_true in Hin.
        rewrite Hne, Hin in Ec. discriminate.
      * intros ? _ [=].
  - destruct (Js.truthy d && isTicker d) eqn:Ed.
    + apply andb_true_iff in Ed as [Ed1 Ed2]. apply isTicker_true in Ed2.
      rewrite bool_decide_eq_false_2 by discriminate.
      split; [|split; [|split]].
      * intros fb [= <-]. repeat split; auto.
      * intros _ Hn. exfalso. apply (Hn d); auto.
      * intros ? [=].
      * intros ? _ [= <-] _ _. auto.
    + split; [|split; [|split]].
      * intros fb [=].
      * reflexivity.
      * intros ? [=].
      * intros ? _ [= <-] Hin Hne. apply Htr in Hne. apply isTicker_true in Hin.
        rewrite Hne, Hin in Ed. discriminate.
  - split; [|split; [|split]].
    + intros fb [=].
    + reflexivity.
    + intros ? [=].
    + intros ? _ [=].
Qed.

End ExtractorClaims.

Lemma extract_contextual_fallback_witness :
  let opts := Some {| lastCookieTicker := Some (lit "spy");
                      lastClientTicker := Some (lit "aapl");
                      preferLatest := None |} in
  let r := Extractor.extractTickersRich (H := asciiHost) (H0 := tinyData)
             (lit "what should i buy today?") opts in
  bestTicker r = Some (lit "SPY") /\ matchedBy r = Some byCookie.
Proof.
  cbn zeta.
  destruct (extract_contextual_fallback (H := asciiHost) (H0 := tinyData)
              (lit "what should i buy today?")
              (Some {| lastCookieTicker := Some (lit "spy");
                       lastClientTicker := Some (lit "aapl");
                       preferLatest := None |}))
    as (_ & _ & Hcookie & _).
  - vm_compute. reflexivity.
  - vm_compute. reflexivity.
  - apply (Hcookie (lit "SPY")).
    + reflexivity.
    + vm_compute. set_solver.
    + discriminate.
Defined.

(** The scenario of the specification: an explicit ticker beats the
    mention of another company. *)
Example extract_explicit_beats_company :
  let r := Extractor.extractTickersRich (H := asciiHost) (H0 := tinyData)
             (lit "I love Amazon but buy 10 TSLA") None in
  bestTicker r = Some (lit "TSLA") /\ matchedBy r = Some bySymbol /\ confidence r = 1%Q.
Proof. vm_compute. repeat split. Qed.

Example extract_company_name :
  let r := Extractor.extractTickersRich (H := asciiHost) (H0 := tinyData)
             (lit "I love Amazon") None in
  bestTicker r = Some (lit "AMZN") /\ matchedBy r = Some byCompany /\ confidence r = 0.75%Q.
Proof. vm_compute. repeat split. Qed.

Example extract_no_match :
  Extractor.extractTickersRich (H := asciiHost) (H0 := tinyData)
    (lit "what should i buy today?") None
  = noMatch.
Proof. vm_compute. reflexivity. Qed.

Module PricesSpec.
Import Prices.

(** [Object.assign] of the prices fetched for each logged batch, in
    order, onto [m]. *)
Definition applyCalls `{Upstream} (calls : list (Provider * list jsstring))
    (m : gmap jsstring Q) : gmap jsstring Q :=
  fold_left (fun m c => f_prices (fetchFrom c.1 c.2) ∪ m) calls m.

(** Every logged batch is exactly the tickers without a price at that
    point, and is not empty. *)
Fixpoint callsOk `{Upstream} (tickers : list jsstring) (m : gmap jsstring Q)
    (calls : list (Provider * list jsstring)) : Prop :=
  match calls with
  | [] => True
  | (p, batch) :: rest =>
      batch = unpriced m tickers /\ batch <> [] /\
      callsOk tickers (f_prices (fetchFrom p batch) ∪ m) rest
  end.

End PricesSpec.

Section PricesFacts.
Import Prices PricesSpec.
Context `{Host} `{Config} `{Upstream}.

Lemma elem_of_unpriced (m : gmap jsstring Q) tickers t :
  t ∈ unpriced m tickers <-> t ∈ tickers /\ m !! t = None.
Proof.
  unfold unpriced. rewrite !list_elem_of_In, filter_In, bool_decide_eq_true. reflexivity.
Qed.

Lemma record_dom ask ts : forall acc t v,
  f_prices (fold_left (record ask) ts acc) !! t = Some v ->
  f_prices acc !! t = Some v \/ t ∈ ts.
Proof.
  induction ts as [|x r IH]; intros acc t v Hl; simpl in Hl; [left; exact Hl|].
  apply IH in Hl as [Hl|Hl]; [|right; right; exact Hl].
  unfold record in Hl. destruct (ask x); simpl in Hl; [|left; exact Hl].
  destruct (decide (x = t)) as [->|Hne]; [right; left|].
  rewrite lookup_insert_ne in Hl by exact Hne. left. exact Hl.
Qed.

Lemma recordPrev_dom ask ts : forall acc t v,
  f_prices (fold_left (recordPrev ask) ts acc) !! t = Some v ->
  f_prices acc !! t = Some v \/ t ∈ ts.
Proof.
  induction ts as [|x r IH]; intros acc t v Hl; simpl in Hl; [left; exact Hl|].
  apply IH in Hl as [Hl|Hl]; [|right; right; exact Hl].
  unfold recordPrev in Hl. destruct (ask x); simpl in Hl; [|left; exact Hl].
  destruct (decide (x = t)) as [->|Hne]; [right; left|].
  rewrite lookup_insert_ne in Hl by exact Hne. left. exact Hl.
Qed.

(** A fetcher only prices tickers of the batch it was given. *)
Lemma fetchFrom_dom p batch t v :
  f_prices (fetchFrom p batch) !! t = Some v -> t ∈ batch.
Proof.
  destruct p; simpl; unfold fetchPolygon, fetchIEX, fetchFinnhub, fetchAlphaVantage; intros Hl.
  - apply recordPrev_dom in Hl as [Hl|Hl].
    + apply record_dom in Hl as [Hl|Hl]; [|exact Hl].
      simpl in Hl. rewrite lookup_empty in Hl. discriminate.
    + apply list_elem_of_In, filter_In in Hl as [Hl _]. apply list_elem_of_In. exact Hl.
  - apply record_dom in Hl as [Hl|Hl]; [|exact Hl].
    simpl in Hl. rewrite lookup_empty in Hl. discriminate.
  - apply record_dom in Hl as [Hl|Hl]; [|exact Hl].
    simpl in Hl. rewrite lookup_empty in Hl. discriminate.
  - apply record_dom in Hl as [Hl|Hl]; [|exact Hl].
    simpl in Hl. rewrite lookup_empty in Hl. discriminate.
Qed.

(** Progressive fill: assigning a fetched batch keeps what was priced. *)
Lemma assign_keeps (p : Provider) (m : gmap jsstring Q) (tickers : list jsstring) :
  m ⊆ f_prices (fetchFrom p (unpriced m tickers)) ∪ m.
Proof.
  apply map_union_subseteq_r. apply map_disjoint_spec. intros t v1 v2 Hnew Hold.
  apply fetchFrom_dom, elem_of_unpriced in Hnew as [_ Hnew]. congruence.
Qed.

Lemma applyCalls_keeps (tickers : list jsstring) calls : forall m : gmap jsstring Q,
  callsOk tickers m calls -> m ⊆ applyCalls calls m.
Proof.
  induction calls as [|[p batch] rest IH]; intros m Hok; [reflexivity|].
  simpl in *. destruct Hok as (-> & _ & Hok).
  etransitivity; [apply (assign_keeps p m tickers)|]. apply IH. exact Hok.
Qed.

Lemma applyCalls_app calls1 calls2 m :
  applyCalls (calls1 ++ calls2) m = applyCalls calls2 (applyCalls calls1 m).
Proof. unfold applyCalls. apply fold_left_app. Qed.

Lemma callsOk_app tickers calls1 calls2 m :
  callsOk tickers m (calls1 ++ calls2) <->
  callsOk tickers m calls1 /\ callsOk tickers (applyCalls calls1 m) calls2.
Proof.
  revert m. induction calls1 as [|[p batch] rest IH]; intros m; simpl; [tauto|].
  rewrite IH. tauto.
Qed.

(** The loop of [resolvePrices]. *)
Lemma resolveLoop_spec chain tickers : forall st,
  exists new,
    calls (resolveLoop chain tickers st) = calls st ++ new /\
    fst <$> new `prefix_of` chain /\
    callsOk tickers (prices st) new /\
    prices (resolveLoop chain tickers st) = applyCalls new (prices st) /\
    (unpriced (prices (resolveLoop chain tickers st)) tickers = [] \/ fst <$> new = chain).
Proof.
  induction chain as [|p rest IH]; intros st.
  - exists []. simpl. rewrite app_nil_r. repeat split; auto. 
  - simpl. destruct (unpriced (prices st) tickers) as [|t ts] eqn:E.
    + exists []. rewrite app_nil_r. simpl. repeat split; auto. apply prefix_nil.
    + destruct (IH {| prices := f_prices (fetchFrom p (t :: ts)) ∪ prices st;
                      errors := f_errors (fetchFrom p (t :: ts)) ∪ errors st;
                      calls := calls st ++ [(p, t :: ts)] |})
        as (new & Hc & Hp & Hok & Hpr & Hstop).
      simpl in *. exists ((p, t :: ts) :: new).
      split; [rewrite Hc, <- app_assoc; reflexivity|].
      split; [simpl; apply prefix_cons; exact Hp|].
      split; [simpl; rewrite E; repeat split; [discriminate | exact Hok]|].
      split; [exact Hpr|].
      destruct Hstop as [Hs|Hs]; [left; exact Hs | right; simpl; f_equal; exact Hs].
Qed.

Lemma providerName_inj p q : providerName p = providerName q -> p = q.
Proof. destruct p, q; intros E; try reflexivity; vm_compute in E; discriminate. Qed.

(** [providerOrder]: the preferred provider first, when its name is one. *)
Lemma providerOrder_preferred p :
  providerName p = PREFERRED ->
  providerOrder = List.filter hasProvider (p :: List.filter (fun q => negb (bool_decide (q = p))) ORDER).
Proof.
  intros E. unfold providerOrder. rewrite <- E.
  destruct p; vm_compute; reflexivity.
Qed.

Lemma providerOrder_default :
  (forall p, providerName p <> PREFERRED) ->
  providerOrder = List.filter hasProvider ORDER.
Proof.
  intros Hn. unfold providerOrder.
  assert (He : forall p, Js.eqb (providerName p) PREFERRED = false).
  { intros p. unfold Js.eqb. apply bool_decide_eq_false_2, Hn. }
  unfold ORDER. cbn [List.find List.filter]. rewrite !He. reflexivity.
Qed.

End PricesFacts.

(** Concrete configuration: IEX preferred; keys for IEX and Finnhub
    only; IEX knows AAPL, Finnhub knows TSLA. *)
Definition demoConfig : Prices.Config :=
  {| Prices.PRICES_PROVIDER := lit "IEX";
     Prices.POLYGON_API_KEY := [];
     Prices.IEX_CLOUD_API_KEY := lit "k1";
     Prices.FINNHUB_API_KEY := lit "k2";
     Prices.ALPHA_VANTAGE_API_KEY := [] |}.

Definition demoUpstream : Prices.Upstream :=
  {| Prices.polygonLastTrade := fun _ => Prices.Unpriced (lit "polygon: 403");
     Prices.polygonPrevClose := fun _ => Prices.Unpriced (lit "polygon prev: 403");
     Prices.iexBatch := fun _ t =>
       if Js.eqb t (lit "AAPL") then Prices.Priced 10 else Prices.Unpriced (lit "iex: no price");
     Prices.finnhubQuote := fun t =>
       if Js.eqb t (lit "TSLA") then Prices.Priced 20
       else Prices.Unpriced (lit "finnhub: no price");
     Prices.alphaVantageQuote := fun _ => Prices.Unpriced (lit "alphavantage: no price") |}.

Section PricesClaims.
Import Prices PricesSpec.
Context `{Host} `{Config} `{Upstream}.

(** C5: the chain of providers is the preferred provider (when its name
    is one of the four and it is configured) followed by the other
    configured providers in the order polygon, iex, finnhub,
    alphavantage; [resolvePrices] walks a prefix of that chain, hands
    each provider exactly the tickers still without a price, keeps every
    price already resolved, and stops when no ticker is left or the
    chain is exhausted. *)
Theorem resolvePrices_progressive_fill (tickersRaw : list jsstring) :
  let tickers := dedupe [] (List.filter Js.truthy (normTicker <$> tickersRaw)) in
  (forall p, providerName p = PREFERRED ->
     providerOrder =
       List.filter hasProvider (p :: List.filter (fun q => negb (bool_decide (q = p))) ORDER)) /\
  ((forall p, providerName p <> PREFERRED) ->
     providerOrder = List.filter hasProvider ORDER) /\
  match resolvePrices tickersRaw with
  | Throw => providerOrder = []
  | Ok r =>
      Some (r_source r) = head providerOrder /\
      fst <$> r_calls r `prefix_of` providerOrder /\
      callsOk tickers ∅ (r_calls r) /\
      r_prices r = applyCalls (r_calls r) ∅ /\
      (forall k, applyCalls (take k (r_calls r)) ∅ ⊆ r_prices r) /\
      (unpriced (r_prices r) tickers = [] \/ fst <$> r_calls r = providerOrder)
  end.
Proof.
  cbn zeta. split; [apply providerOrder_preferred|]. split; [apply providerOrder_default|].
  unfold resolvePrices. destruct providerOrder as [|source rest] eqn:Echain; [reflexivity|].
  set (tickers := dedupe [] (List.filter Js.truthy (normTicker <$> tickersRaw))).
  destruct (resolveLoop_spec (source :: rest) tickers
              {| prices := ∅; errors := ∅; calls := [] |})
    as (new & Hc & Hp & Hok & Hpr & Hstop).
  cbn [r_source r_calls r_prices]. cbn [calls prices errors app] in Hc, Hok, Hpr.
  rewrite Hc.
  split; [reflexivity|]. split; [exact Hp|]. split; [exact Hok|]. split; [exact Hpr|].
  split; [|exact Hstop].
  intros k. rewrite Hpr. rewrite <- (take_drop k new) at 2.
  rewrite applyCalls_app. apply (applyCalls_keeps tickers).
  rewrite <- (take_drop k new) in Hok. apply callsOk_app in Hok. apply Hok.
Qed.

End PricesClaims.

Example resolvePrices_demo :
  Prices.resolvePrices (H := asciiHost) (H0 := demoConfig) (H1 := demoUpstream)
    [lit "aapl"; lit " tsla"; lit "AAPL"; lit "msft"]
  = Ok {| Prices.r_prices := {[ lit "AAPL" := 10%Q; lit "TSLA" := 20%Q ]};
          Prices.r_source := Prices.iex;
          Prices.r_filled := 2;
          Prices.r_errors := {[ lit "TSLA" := lit "iex: no price";
                                lit "MSFT" := lit "finnhub: no price" ]};
          Prices.r_calls := [ (Prices.iex, [lit "AAPL"; lit "TSLA"; lit "MSFT"]);
                              (Prices.finnhub, [lit "TSLA"; lit "MSFT"]) ] |}.
Proof. vm_compute. reflexivity. Qed.

Lemma resolvePrices_progressive_fill_witness :
  Prices.providerOrder (H := asciiHost) (H0 := demoConfig) = [Prices.iex; Prices.finnhub].
Proof.
  destruct (resolvePrices_progressive_fill (H := asciiHost) (H0 := demoConfig)
              (H1 := demoUpstream) [lit "aapl"]) as (Hpref & _).
  rewrite (Hpref Prices.iex); [|reflexivity].
  reflexivity.
Defined.

(* ===================================================================== *)
(** * portfolio.ts: screening and fallback                                *)
(* ===================================================================== *)

Section PortfolioFacts.
Import Portfolio.
Context `{Host}.

Lemma insertBy_perm {A} (cmp : A -> A -> jsnum) x l : insertBy cmp x l ≡ₚ x :: l.
Proof.
  induction l as [|y r IH]; cbn [insertBy]; [reflexivity|].
  destruct (Num.gt (cmp x y) (Fin 0)); [|reflexivity].
  rewrite IH. apply Permutation_swap.
Qed.

Lemma sortBy_perm {A} (cmp : A -> A -> jsnum) l : sortBy cmp l ≡ₚ l.
Proof.
  induction l as [|x r IH]; simpl; [reflexivity|].
  unfold sortBy in *. simpl. rewrite insertBy_perm, IH. reflexivity.
Qed.

Lemma length_sortBy {A} (cmp : A -> A -> jsnum) l : length (sortBy cmp l) = length l.
Proof. apply Permutation_length, sortBy_perm. Qed.

(** A floor that is absent is below every floor. *)
Definition floorLe (a b : option Q) : Prop :=
  match a, b with
  | None, _ => True
  | Some x, Some y => (x <= y)%Q
  | Some _, None => False
  end.

Lemma floor_lt_mono (a b : option Q) (v : Q) :
  floorLe a b ->
  Num.lt (Fin v) ((Fin <$> a) ?: NInf) = true ->
  Num.lt (Fin v) ((Fin <$> b) ?: NInf) = true.
Proof.
  destruct a as [x|], b as [y|]; simpl; intros Hle Hlt; try discriminate; try contradiction.
  apply Qltb_lt in Hlt. apply Qltb_lt. lra.
Qed.

(** A row that passes a screen passes every screen with the same price
    guard and exclusions and floors that are not higher. *)
Lemma passes_mono (sc sc' : Screen) r :
  s_minPrice sc' = s_minPrice sc -> s_exclude sc' = s_exclude sc ->
  floorLe (minYield sc') (minYield sc) -> floorLe (minMktCap sc') (minMktCap sc) ->
  passes sc r = true -> passes sc' r = true.
Proof.
  intros Hp He Hy Hc. unfold passes. rewrite Hp, He.
  destruct (negb _ || _); [discriminate|].
  destruct (negb (priceOk _ r)); [discriminate|].
  destruct (getYield r) as [y|].
  - destruct (Num.lt (Fin y) ((Fin <$> minYield sc') ?: NInf)) eqn:E1.
    + rewrite (floor_lt_mono _ _ _ Hy E1). discriminate.
    + destruct (Num.lt (Fin y) ((Fin <$> minYield sc) ?: NInf)); [discriminate|].
      destruct (getMktCap r) as [mc|]; [|reflexivity].
      destruct (Num.lt (Fin mc) ((Fin <$> minMktCap sc') ?: NInf)) eqn:E2; [|reflexivity].
      rewrite (floor_lt_mono _ _ _ Hc E2). discriminate.
  - destruct (getMktCap r) as [mc|]; [|reflexivity].
    destruct (Num.lt (Fin mc) ((Fin <$> minMktCap sc') ?: NInf)) eqn:E2; [|reflexivity].
    rewrite (floor_lt_mono _ _ _ Hc E2). discriminate.
Qed.

Lemma passes_priceOk (sc : Screen) r :
  passes sc r = true -> priceOk (s_minPrice sc ?: 0%Q) r = true.
Proof.
  unfold passes. destruct (negb _ || _); [discriminate|].
  destruct (priceOk _ r); [reflexivity | discriminate].
Qed.

Lemma length_filter_mono {A} (p q : A -> bool) (l : list A) :
  (forall x, p x = true -> q x = true) ->
  (length (List.filter p l) <= length (List.filter q l))%nat.
Proof.
  intros Hpq. induction l as [|x r IH]; simpl; [lia|].
  destruct (p x) eqn:Ep.
  - rewrite (Hpq x Ep). simpl. lia.
  - destruct (q x); simpl; lia.
Qed.

Lemma screenRows_mono rows (sc sc' : Screen) :
  s_minPrice sc' = s_minPrice sc -> s_exclude sc' = s_exclude sc ->
  floorLe (minYield sc') (minYield sc) -> floorLe (minMktCap sc') (minMktCap sc) ->
  (length (screenRows rows sc) <= length (screenRows rows sc'))%nat.
Proof.
  intros Hp He Hy Hc. apply length_filter_mono. intros r. apply passes_mono; assumption.
Qed.

Lemma floorLe_refl a : floorLe a a.
Proof. destruct a; simpl; [lra | exact I]. Qed.

(** The floors computed by the two loops are not above the ones they
    replace. *)
Lemma relaxed_yield_le (minY relaxYieldTo relaxYieldStep : Q) :
  (0 <= relaxYieldStep)%Q -> (relaxYieldTo < minY)%Q ->
  (Qmax relaxYieldTo (minY - relaxYieldStep) <= minY)%Q.
Proof. intros Hs Hlt. apply Q.max_lub; lra. Qed.

Lemma relaxed_cap_le (minC relaxCapTo relaxCapFactor : Q) :
  (0 <= minC)%Q -> (relaxCapFactor <= 1)%Q -> (relaxCapTo < minC)%Q ->
  (Qmax relaxCapTo (inject_Z (Qfloor (minC * relaxCapFactor))) <= minC)%Q.
Proof.
  intros Hc Hf Hlt. apply Q.max_lub; [lra|].
  eapply Qle_trans; [apply Qfloor_le|]. nra.
Qed.

End PortfolioFacts.

(** Concrete rows and options *)
Definition row (t sec : string) (px : Q) (yld cap : option Q) : Portfolio.DatasetRow :=
  {| Portfolio.ticker := lit t; Portfolio.sector := Some (lit sec);
     Portfolio.close := Some px; Portfolio.price := None; Portfolio.last := None;
     Portfolio.dividend_yield := yld; Portfolio.dividendYield := None; Portfolio.dy := None;
     Portfolio.market_cap := cap; Portfolio.marketCap := None;
     Portfolio.market_capitalization := None |}.

Definition plainOpts (amount : Q) (n : Z) (minYield : option Q) : Portfolio.BuildOpts :=
  {| Portfolio.amount := amount; Portfolio.n := n; Portfolio.tilt := None;
     Portfolio.minDividendYield := minYield; Portfolio.minMarketCap := None;
     Portfolio.minPrice := None; Portfolio.include := None; Portfolio.exclude := None;
     Portfolio.relaxYieldTo := None; Portfolio.relaxYieldStep := None;
     Portfolio.relaxCapTo := None; Portfolio.relaxCapFactor := None |}.

Definition dollarsOf (r : option (list Portfolio.Allocation)) : option (list (jsstring * Q)) :=
  (fun l : list Portfolio.Allocation =>
     (fun a => (Portfolio.a_ticker a, Qred (Portfolio.a_dollars a))) <$> l) <$> r.

Definition screenOf (minY minC : option Q) : Portfolio.Screen :=
  {| Portfolio.minYield := minY; Portfolio.minMktCap := minC;
     Portfolio.s_minPrice := Some 0%Q; Portfolio.s_include := None;
     Portfolio.s_exclude := None; Portfolio.s_relaxYieldTo := None;
     Portfolio.s_relaxYieldStep := None; Portfolio.s_relaxCapTo := None;
     Portfolio.s_relaxCapFactor := None |}.

Section FallbackTrace.
Import Portfolio.
Context `{Host}.

(** The pools that the yield loop of [fillSectorWithFallback] screens, in
    order, and how the loop ends: [relaxYieldLoop] with a record of its
    assignments to [pool]. *)
Fixpoint yieldSteps (fuel : nat) (sectorRows : list DatasetRow)
    (strict : Screen) (targetN : Z) (relaxYieldTo relaxYieldStep : Q)
    (pool : list DatasetRow) (minY : Q)
  : list (list DatasetRow) * option (Loop (list DatasetRow * Q)) :=
  if negb (enough pool targetN) && Num.Qltb relaxYieldTo minY then
    match fuel with
    | O => ([], None)
    | S fuel' =>
        let minY := Qmax relaxYieldTo (minY - relaxYieldStep) in
        let pool := sortBy rankForDividend (screenRows sectorRows (withYield strict minY)) in
        if enough pool targetN then ([pool], Some (Returned (slice0 pool targetN)))
        else
          let rest := yieldSteps fuel' sectorRows strict targetN relaxYieldTo relaxYieldStep
                        pool minY in
          (pool :: rest.1, rest.2)
    end
  else ([], Some (Fell (pool, minY))).

(** The same for the market-cap loop. *)
Fixpoint capSteps (fuel : nat) (sectorRows : list DatasetRow)
    (strict : Screen) (targetN : Z) (relaxCapTo relaxCapFactor : Q) (minY : Q)
    (pool : list DatasetRow) (minC : Q)
  : list (list DatasetRow) * option (Loop (list DatasetRow * Q)) :=
  if negb (enough pool targetN) && Num.Qltb relaxCapTo minC then
    match fuel with
    | O => ([], None)
    | S fuel' =>
        let minC := Qmax relaxCapTo (inject_Z (Qfloor (minC * relaxCapFactor))) in
        let pool :=
          sortBy rankForDividend (screenRows sectorRows (withYieldCap strict minY minC)) in
        if enough pool targetN then ([pool], Some (Returned (slice0 pool targetN)))
        else
          let rest := capSteps fuel' sectorRows strict targetN relaxCapTo relaxCapFactor minY
                        pool minC in
          (pool :: rest.1, rest.2)
    end
  else ([], Some (Fell (pool, minC))).

(** Every value that [fillSectorWithFallback] assigns to [pool], in
    order: the strict pool, the pools of the yield loop, those of the
    market-cap loop, and the pool of the list.last resort, as far as the
    function gets. *)
Definition fallbackPools (fuel : nat) (sectorRows : list DatasetRow)
    (strict : Screen) (targetN : Z) : list (list DatasetRow) :=
  let relaxYieldTo := s_relaxYieldTo strict ?: 2%Q in
  let relaxYieldStep := s_relaxYieldStep strict ?: 0.5%Q in
  let relaxCapTo := s_relaxCapTo strict ?: 5000000000%Q in
  let relaxCapFactor := s_relaxCapFactor strict ?: 0.8%Q in
  let pool := sortBy rankForDividend (screenRows sectorRows strict) in
  if enough pool targetN then [pool] else
  let minY := minYield strict ?: 0%Q in
  let ys := yieldSteps fuel sectorRows strict targetN relaxYieldTo relaxYieldStep pool minY in
  pool :: ys.1 ++
  match ys.2 with
  | Some (Fell (pool, minY)) =>
      let minC := minMktCap strict ?: 0%Q in
      let cs := capSteps fuel sectorRows strict targetN relaxCapTo relaxCapFactor minY
                  pool minC in
      cs.1 ++
      match cs.2 with
      | Some (Fell _) => [lastResort sectorRows strict]
      | _ => []
      end
  | _ => []
  end.

(** No pool is larger than the next one. *)
Fixpoint growing (pools : list (list DatasetRow)) : Prop :=
  match pools with
  | p :: (q :: _) as rest => (length p <= length q)%nat /\ growing rest
  | _ => True
  end.

Lemma growing_lookup pools :
  growing pools ->
  forall i p q, pools !! i = Some p -> pools !! S i = Some q -> (length p <= length q)%nat.
Proof.
  induction pools as [|a [|b r] IH]; intros Hg i p q Hp Hq.
  - discriminate Hp.
  - destruct i; discriminate Hq.
  - destruct Hg as [Hab Hg]. destruct i as [|i].
    + injection Hp as <-. injection Hq as <-. exact Hab.
    + apply (IH Hg i); assumption.
Qed.

Lemma growing_app_last l1 p l2 :
  growing (l1 ++ [p]) -> growing (p :: l2) -> growing (l1 ++ p :: l2).
Proof.
  induction l1 as [|a [|b r] IH]; intros H1 H2.
  - exact H2.
  - destruct H1 as [Hap _]. split; [exact Hap | exact H2].
  - destruct H1 as [Hab H1]. split; [exact Hab|]. apply IH; assumption.
Qed.

Lemma growing_snoc l x :
  growing l -> (forall y, list.last l = Some y -> (length y <= length x)%nat) ->
  growing (l ++ [x]).
Proof.
  induction l as [|a [|b r] IH]; intros Hg Hl.
  - exact I.
  - split; [apply Hl; reflexivity | exact I].
  - destruct Hg as [Hab Hg]. split; [exact Hab|]. apply IH; [exact Hg|].
    intros y Hy. apply Hl. exact Hy.
Qed.

Lemma last_snoc_inv {A} (l : list A) (x : A) : list.last l = Some x -> exists l', l = l' ++ [x].
Proof.
  destruct l as [|a l] using rev_ind; [discriminate|].
  rewrite last_snoc. intros [= ->]. eauto.
Qed.

Lemma length_filter_mono_in {A} (p q : A -> bool) (l : list A) :
  (forall x, x ∈ l -> p x = true -> q x = true) ->
  (length (List.filter p l) <= length (List.filter q l))%nat.
Proof.
  induction l as [|x r IH]; intros Hpq; simpl; [lia|].
  assert (IH' := IH (fun y Hy => Hpq y (list_elem_of_further _ _ _ Hy))).
  destruct (p x) eqn:Ep.
  - rewrite (Hpq x (list_elem_of_here _ _) Ep). simpl. lia.
  - destruct (q x); simpl; lia.
Qed.

(** ** The loops and their record agree *)

Lemma yieldSteps_loop fuel sectorRows strict targetN relaxYieldTo relaxYieldStep :
  forall pool minY,
    (yieldSteps fuel sectorRows strict targetN relaxYieldTo relaxYieldStep pool minY).2
    = relaxYieldLoop fuel sectorRows strict targetN relaxYieldTo relaxYieldStep pool minY.
Proof.
  induction fuel as [|fuel IH]; intros pool minY; cbn [yieldSteps relaxYieldLoop];
    destruct (negb (enough pool targetN) && Num.Qltb relaxYieldTo minY); try reflexivity.
  cbn zeta. destruct (enough _ targetN); [reflexivity|]. cbn [snd]. apply IH.
Qed.

Lemma capSteps_loop fuel sectorRows strict targetN relaxCapTo relaxCapFactor minY :
  forall pool minC,
    (capSteps fuel sectorRows strict targetN relaxCapTo relaxCapFactor minY pool minC).2
    = relaxCapLoop fuel sectorRows strict targetN relaxCapTo relaxCapFactor minY pool minC.
Proof.
  induction fuel as [|fuel IH]; intros pool minC; cbn [capSteps relaxCapLoop];
    destruct (negb (enough pool targetN) && Num.Qltb relaxCapTo minC); try reflexivity.
  cbn zeta. destruct (enough _ targetN); [reflexivity|]. cbn [snd]. apply IH.
Qed.

(** How a loop ends, in terms of the list.last pool of its record. *)
Definition endsWith (targetN : Z) (pool : list DatasetRow) (steps : list (list DatasetRow))
    (out : option (Loop (list DatasetRow * Q))) : Prop :=
  match out with
  | Some (Returned fill) =>
      exists final, list.last steps = Some final /\ enough final targetN = true /\
                    fill = slice0 final targetN
  | Some (Fell (p, _)) => list.last (pool :: steps) = Some p
  | None => True
  end.

Lemma yieldSteps_ends fuel sectorRows strict targetN relaxYieldTo relaxYieldStep :
  forall pool minY,
    let ys := yieldSteps fuel sectorRows strict targetN relaxYieldTo relaxYieldStep pool minY in
    endsWith targetN pool ys.1 ys.2.
Proof.
  induction fuel as [|fuel IH]; intros pool minY; cbn [yieldSteps];
    destruct (negb (enough pool targetN) && Num.Qltb relaxYieldTo minY);
    try reflexivity; try exact I.
  cbn zeta.
  set (minY' := Qmax relaxYieldTo (minY - relaxYieldStep)).
  set (pool' := sortBy rankForDividend (screenRows sectorRows (withYield strict minY'))).
  destruct (enough pool' targetN) eqn:Ee.
  - exists pool'. repeat split. exact Ee.
  - specialize (IH pool' minY'). cbn zeta in IH. cbn [fst snd].
    destruct (yieldSteps fuel _ _ _ _ _ pool' minY') as [ps out]. cbn [fst snd] in *.
    destruct out as [[fill|[p y]]|]; cbn [endsWith] in *; try exact I.
    + destruct IH as (final & Hl & He & Hf). exists final.
      split; [|split; assumption].
      destruct ps; [discriminate Hl | exact Hl].
    + exact IH.
Qed.

Lemma capSteps_ends fuel sectorRows strict targetN relaxCapTo relaxCapFactor minY :
  forall pool minC,
    let cs := capSteps fuel sectorRows strict targetN relaxCapTo relaxCapFactor minY
                pool minC in
    endsWith targetN pool cs.1 cs.2.
Proof.
  induction fuel as [|fuel IH]; intros pool minC; cbn [capSteps];
    destruct (negb (enough pool targetN) && Num.Qltb relaxCapTo minC);
    try reflexivity; try exact I.
  cbn zeta.
  set (minC' := Qmax relaxCapTo (inject_Z (Qfloor (minC * relaxCapFactor)))).
  set (pool' := sortBy rankForDividend
                  (screenRows sectorRows (withYieldCap strict minY minC'))).
  destruct (enough pool' targetN) eqn:Ee.
  - exists pool'. repeat split. exact Ee.
  - specialize (IH pool' minC'). cbn zeta in IH. cbn [fst snd].
    destruct (capSteps fuel _ _ _ _ _ _ pool' minC') as [ps out]. cbn [fst snd] in *.
    destruct out as [[fill|[p y]]|]; cbn [endsWith] in *; try exact I.
    + destruct IH as (final & Hl & He & Hf). exists final.
      split; [|split; assumption].
      destruct ps; [discriminate Hl | exact Hl].
    + exact IH.
Qed.

Lemma slice0_enough (pool : list DatasetRow) targetN :
  enough pool targetN = true ->
  slice0 pool targetN = slice0 pool (Z.min targetN (Z.of_nat (length pool))).
Proof.
  intros He. unfold enough in He. apply Z.leb_le in He.
  rewrite Z.min_l by exact He. reflexivity.
Qed.

(** What [fillSectorWithFallback] returns is cut from the list.last pool of
    the record. *)
Lemma fallbackPools_result fuel sectorRows strict targetN fill :
  fillSectorWithFallback fuel sectorRows strict targetN = Some fill ->
  exists final,
    list.last (fallbackPools fuel sectorRows strict targetN) = Some final /\
    fill = slice0 final (Z.min targetN (Z.of_nat (length final))).
Proof.
  unfold fillSectorWithFallback, fallbackPools. cbn zeta.
  set (p0 := sortBy rankForDividend (screenRows sectorRows strict)).
  destruct (enough p0 targetN) eqn:E0.
  { intros [= <-]. exists p0. split; [reflexivity | apply slice0_enough; exact E0]. }
  rewrite <- yieldSteps_loop.
  pose proof (yieldSteps_ends fuel sectorRows strict targetN (s_relaxYieldTo strict ?: 2%Q)
                (s_relaxYieldStep strict ?: 0.5%Q) p0 (minYield strict ?: 0%Q)) as Hy.
  cbn zeta in Hy.
  destruct (yieldSteps fuel sectorRows strict targetN _ _ p0 _) as [ys out]. cbn [fst snd] in *.
  destruct out as [[fill'|[p y]]|]; cbn [endsWith] in Hy; try discriminate.
  { intros [= <-]. destruct Hy as (final & Hl & He & Hf). exists final.
    rewrite app_nil_r. split; [|rewrite <- slice0_enough by exact He; exact Hf].
    destruct ys; [discriminate Hl | exact Hl]. }
  rewrite <- capSteps_loop.
  pose proof (capSteps_ends fuel sectorRows strict targetN (s_relaxCapTo strict ?: 5000000000%Q)
                (s_relaxCapFactor strict ?: 0.8%Q) y p (minMktCap strict ?: 0%Q)) as Hc.
  cbn zeta in Hc.
  destruct (capSteps fuel sectorRows strict targetN _ _ y p _) as [cs out]. cbn [fst snd] in *.
  destruct out as [[fill'|[p' y']]|]; cbn [endsWith] in Hc; try discriminate.
  - intros [= <-]. destruct Hc as (final & Hl & He & Hf). exists final.
    rewrite app_nil_r. split; [|rewrite <- slice0_enough by exact He; exact Hf].
    change (p0 :: ys ++ cs) with ((p0 :: ys) ++ cs).
    destruct cs as [|c cs] using rev_ind; [discriminate Hl|].
    rewrite last_snoc in Hl. rewrite app_assoc, last_snoc. exact Hl.
  - intros [= <-]. exists (lastResort sectorRows strict). split; [|reflexivity].
    change (p0 :: ys ++ cs ++ [lastResort sectorRows strict])
      with ((p0 :: ys) ++ cs ++ [lastResort sectorRows strict]).
    rewrite !app_assoc. apply last_snoc.
Qed.

(** ** The list.last resort is the largest pool *)

Lemma screened_le_lastResort sectorRows strict (sc : Screen) :
  s_minPrice sc = s_minPrice strict ->
  (length (sortBy rankForDividend (screenRows sectorRows sc))
   <= length (lastResort sectorRows strict))%nat.
Proof.
  intros Hp. unfold lastResort. rewrite !length_sortBy. unfold screenRows.
  apply length_filter_mono. intros r Hr. rewrite <- Hp. apply passes_priceOk. exact Hr.
Qed.

Lemma yieldSteps_le_lastResort fuel sectorRows strict targetN relaxYieldTo relaxYieldStep :
  forall pool minY p,
    p ∈ (yieldSteps fuel sectorRows strict targetN relaxYieldTo relaxYieldStep pool minY).1 ->
    (length p <= length (lastResort sectorRows strict))%nat.
Proof.
  induction fuel as [|fuel IH]; intros pool minY p; cbn [yieldSteps];
    destruct (negb (enough pool targetN) && Num.Qltb relaxYieldTo minY);
    cbn [fst]; try (intros Hp; inversion Hp; fail).
  cbn zeta. destruct (enough _ targetN); cbn [fst]; intros Hp.
  - apply list_elem_of_singleton in Hp as ->. apply screened_le_lastResort. reflexivity.
  - apply elem_of_cons in Hp as [->|Hp]; [apply screened_le_lastResort; reflexivity|].
    eapply IH. exact Hp.
Qed.

Lemma capSteps_le_lastResort fuel sectorRows strict targetN relaxCapTo relaxCapFactor minY :
  forall pool minC p,
    p ∈ (capSteps fuel sectorRows strict targetN relaxCapTo relaxCapFactor minY pool minC).1 ->
    (length p <= length (lastResort sectorRows strict))%nat.
Proof.
  induction fuel as [|fuel IH]; intros pool minC p; cbn [capSteps];
    destruct (negb (enough pool targetN) && Num.Qltb relaxCapTo minC);
    cbn [fst]; try (intros Hp; inversion Hp; fail).
  cbn zeta. destruct (enough _ targetN); cbn [fst]; intros Hp.
  - apply list_elem_of_singleton in Hp as ->. apply screened_le_lastResort. reflexivity.
  - apply elem_of_cons in Hp as [->|Hp]; [apply screened_le_lastResort; reflexivity|].
    eapply IH. exact Hp.
Qed.

Lemma fallbackPools_le_lastResort fuel sectorRows strict targetN p :
  p ∈ fallbackPools fuel sectorRows strict targetN ->
  (length p <= length (lastResort sectorRows strict))%nat.
Proof.
  unfold fallbackPools. cbn zeta.
  set (p0 := sortBy rankForDividend (screenRows sectorRows strict)).
  assert (H0 : (length p0 <= length (lastResort sectorRows strict))%nat)
    by (apply screened_le_lastResort; reflexivity).
  destruct (enough p0 targetN).
  { intros Hp. apply list_elem_of_singleton in Hp as ->. exact H0. }
  intros Hp. apply elem_of_cons in Hp as [->|Hp]; [exact H0|].
  apply elem_of_app in Hp as [Hp|Hp]; [eapply yieldSteps_le_lastResort; exact Hp|].
  destruct (yieldSteps fuel sectorRows strict targetN _ _ p0 _).2 as [[fill|[pl y]]|];
    try (inversion Hp; fail).
  apply elem_of_app in Hp as [Hp|Hp]; [eapply capSteps_le_lastResort; exact Hp|].
  destruct (capSteps fuel sectorRows strict targetN _ _ y pl _).2 as [[fill|st]|];
    try (inversion Hp; fail).
  apply list_elem_of_singleton in Hp as ->. lia.
Qed.

(** ** The pools grow *)

(** What the loops keep: [pool] is not larger than the pool of any
    screen with the price guard and exclusions of [strict] whose floors
    are not above the given ones. *)
Definition below (sectorRows : list DatasetRow) (strict : Screen)
    (pool : list DatasetRow) (yieldFloor capFloor : option Q) : Prop :=
  forall sc : Screen,
    s_minPrice sc = s_minPrice strict -> s_exclude sc = s_exclude strict ->
    floorLe (minYield sc) yieldFloor -> floorLe (minMktCap sc) capFloor ->
    (length pool <= length (screenRows sectorRows sc))%nat.

Lemma floorLe_trans a b c : floorLe a b -> floorLe b c -> floorLe a c.
Proof.
  destruct a as [x|], b as [y|], c as [z|]; simpl; try tauto. intros; lra.
Qed.

Lemma below_screened sectorRows strict (sc0 : Screen) :
  s_minPrice sc0 = s_minPrice strict -> s_exclude sc0 = s_exclude strict ->
  below sectorRows strict (sortBy rankForDividend (screenRows sectorRows sc0))
    (minYield sc0) (minMktCap sc0).
Proof.
  intros Hp0 He0 sc Hp He Hy Hc. rewrite length_sortBy.
  apply screenRows_mono; congruence || assumption.
Qed.

(** A row without a negative yield passes a yield floor of 0 whenever
    it passes without a yield floor. *)
Lemma passes_without_negative_yield (sc sc' : Screen) r :
  (forall y, getYield r = Some y -> (0 <= y)%Q) ->
  s_minPrice sc' = s_minPrice sc -> s_exclude sc' = s_exclude sc ->
  floorLe (minYield sc') (Some 0%Q) -> floorLe (minMktCap sc') (minMktCap sc) ->
  passes sc r = true -> passes sc' r = true.
Proof.
  intros Hr Hp He Hy Hc. unfold passes. rewrite Hp, He.
  destruct (negb _ || _); [discriminate|].
  destruct (negb (priceOk _ r)); [discriminate|].
  assert (Hcap : (if match getMktCap r with
                      | Some mc => Num.lt (Fin mc) ((Fin <$> minMktCap sc) ?: NInf)
                      | None => false
                      end then false else true) = true ->
                 (if match getMktCap r with
                      | Some mc => Num.lt (Fin mc) ((Fin <$> minMktCap sc') ?: NInf)
                      | None => false
                      end then false else true) = true).
  { destruct (getMktCap r) as [mc|]; [|reflexivity].
    destruct (Num.lt (Fin mc) ((Fin <$> minMktCap sc') ?: NInf)) eqn:E2; [|reflexivity].
    rewrite (floor_lt_mono _ _ _ Hc E2). discriminate. }
  destruct (getYield r) as [y|] eqn:Eg; [|exact Hcap].
  specialize (Hr y eq_refl).
  assert (Hyield : Num.lt (Fin y) ((Fin <$> minYield sc') ?: NInf) = false).
  { destruct (minYield sc') as [f|]; simpl in *; [|reflexivity].
    apply not_true_iff_false. intros Hlt. apply Qltb_lt in Hlt. lra. }
  rewrite Hyield.
  destruct (Num.lt (Fin y) ((Fin <$> minYield sc) ?: NInf)); [discriminate | exact Hcap].
Qed.

Lemma below_strict sectorRows strict :
  is_Some (minYield strict) \/
  (forall r y, r ∈ sectorRows -> getYield r = Some y -> (0 <= y)%Q) ->
  below sectorRows strict (sortBy rankForDividend (screenRows sectorRows strict))
    (Some (minYield strict ?: 0%Q)) (minMktCap strict).
Proof.
  intros [[y0 Ey] | Hrows].
  - rewrite Ey. change (Some (Some y0 ?: 0%Q)) with (Some y0). rewrite <- Ey.
    apply below_screened; reflexivity.
  - destruct (minYield strict) as [y0|] eqn:Ey.
    { change (Some (Some y0 ?: 0%Q)) with (Some y0). rewrite <- Ey.
      apply below_screened; reflexivity. }
    intros sc Hp He Hy Hc. rewrite length_sortBy. unfold screenRows.
    apply length_filter_mono_in. intros r Hr.
    apply passes_without_negative_yield; try assumption.
    intros y. apply Hrows. exact Hr.
Qed.

Lemma yieldSteps_grow sectorRows strict targetN relaxYieldTo relaxYieldStep :
  (0 <= relaxYieldStep)%Q ->
  forall fuel pool minY,
    below sectorRows strict pool (Some minY) (minMktCap strict) ->
    let ys := yieldSteps fuel sectorRows strict targetN relaxYieldTo relaxYieldStep pool minY in
    growing (pool :: ys.1) /\
    forall p y, ys.2 = Some (Fell (p, y)) ->
      below sectorRows strict p (Some y) (minMktCap strict).
Proof.
  intros Hstep. induction fuel as [|fuel IH]; intros pool minY Hb; cbn [yieldSteps];
    destruct (negb (enough pool targetN) && Num.Qltb relaxYieldTo minY) eqn:E;
    cbn zeta; cbn [fst snd].
  - split; [exact I | discriminate].
  - split; [exact I|]. intros p y [= <- <-]. exact Hb.
  - apply andb_true_iff in E as [_ E]. apply Qltb_lt in E.
    set (minY' := Qmax relaxYieldTo (minY - relaxYieldStep)).
    set (pool' := sortBy rankForDividend (screenRows sectorRows (withYield strict minY'))).
    assert (Hle : (minY' <= minY)%Q) by (apply relaxed_yield_le; assumption).
    assert (Hlen : (length pool <= length pool')%nat).
    { unfold pool'. rewrite length_sortBy. apply Hb; try reflexivity; [exact Hle|].
      apply floorLe_refl. }
    assert (Hb' : below sectorRows strict pool' (Some minY') (minMktCap strict)).
    { apply (below_screened sectorRows strict (withYield strict minY')); reflexivity. }
    destruct (enough pool' targetN).
    + cbn [fst snd]. split; [split; [exact Hlen | exact I] | discriminate].
    + cbn [fst snd]. destruct (IH pool' minY' Hb') as [Hg Hf]. cbn zeta in Hg, Hf.
      split; [split; [exact Hlen | exact Hg] | exact Hf].
  - split; [exact I|]. intros p y [= <- <-]. exact Hb.
Qed.

Lemma capSteps_grow sectorRows strict targetN relaxCapTo relaxCapFactor minY :
  (relaxCapFactor <= 1)%Q -> (0 <= relaxCapTo)%Q ->
  forall fuel pool minC,
    ((relaxCapTo < minC)%Q -> below sectorRows strict pool (Some minY) (Some minC)) ->
    growing (pool :: (capSteps fuel sectorRows strict targetN relaxCapTo relaxCapFactor minY
                        pool minC).1).
Proof.
  intros Hf Hto. induction fuel as [|fuel IH]; intros pool minC Hb; cbn [capSteps];
    destruct (negb (enough pool targetN) && Num.Qltb relaxCapTo minC) eqn:E;
    cbn zeta; cbn [fst snd]; try exact I.
  apply andb_true_iff in E as [_ E]. apply Qltb_lt in E.
  set (minC' := Qmax relaxCapTo (inject_Z (Qfloor (minC * relaxCapFactor)))).
  set (pool' := sortBy rankForDividend
                  (screenRows sectorRows (withYieldCap strict minY minC'))).
  assert (Hle : (minC' <= minC)%Q) by (apply relaxed_cap_le; [lra | assumption..]).
  assert (Hlen : (length pool <= length pool')%nat).
  { unfold pool'. rewrite length_sortBy. apply (Hb E); try reflexivity; simpl; [lra | exact Hle]. }
  assert (Hb' : below sectorRows strict pool' (Some minY) (Some minC')).
  { apply (below_screened sectorRows strict (withYieldCap strict minY minC')); reflexivity. }
  destruct (enough pool' targetN); cbn [fst snd].
  - split; [exact Hlen | exact I].
  - split; [exact Hlen|]. apply IH. intros _. exact Hb'.
Qed.

Lemma fallbackPools_grow fuel sectorRows strict targetN :
  (0 <= s_relaxYieldStep strict ?: 0.5)%Q ->
  (s_relaxCapFactor strict ?: 0.8 <= 1)%Q ->
  (0 <= s_relaxCapTo strict ?: 5000000000)%Q ->
  is_Some (minYield strict) \/
  (forall r y, r ∈ sectorRows -> getYield r = Some y -> (0 <= y)%Q) ->
  growing (fallbackPools fuel sectorRows strict targetN).
Proof.
  intros Hstep Hf Hto Hy. unfold fallbackPools. cbn zeta.
  set (p0 := sortBy rankForDividend (screenRows sectorRows strict)).
  destruct (enough p0 targetN); [exact I|].
  pose proof (below_strict sectorRows strict Hy) as Hb0. fold p0 in Hb0.
  destruct (yieldSteps_grow sectorRows strict targetN (s_relaxYieldTo strict ?: 2%Q)
              (s_relaxYieldStep strict ?: 0.5%Q) Hstep fuel p0 (minYield strict ?: 0%Q) Hb0)
    as [Hg Hfell]. cbn zeta in Hg, Hfell.
  pose proof (yieldSteps_ends fuel sectorRows strict targetN (s_relaxYieldTo strict ?: 2%Q)
                (s_relaxYieldStep strict ?: 0.5%Q) p0 (minYield strict ?: 0%Q)) as Hend.
  cbn zeta in Hend.
  pose proof (yieldSteps_le_lastResort fuel sectorRows strict targetN
                (s_relaxYieldTo strict ?: 2%Q) (s_relaxYieldStep strict ?: 0.5%Q)
                p0 (minYield strict ?: 0%Q)) as Hys.
  destruct (yieldSteps fuel sectorRows strict targetN _ _ p0 _) as [ys out]. cbn [fst snd] in *.
  destruct out as [[fill|[p y]]|]; try (rewrite app_nil_r; exact Hg).
  cbn [endsWith] in Hend. specialize (Hfell p y eq_refl).
  assert (Hbc : ((s_relaxCapTo strict ?: 5000000000 < minMktCap strict ?: 0)%Q ->
                 below sectorRows strict p (Some y) (Some (minMktCap strict ?: 0%Q)))).
  { intros Hlt. destruct (minMktCap strict) as [c0|] eqn:Ec.
    - exact Hfell.
    - simpl in Hlt. lra. }
  pose proof (capSteps_grow sectorRows strict targetN (s_relaxCapTo strict ?: 5000000000%Q)
                (s_relaxCapFactor strict ?: 0.8%Q) y Hf Hto fuel p
                (minMktCap strict ?: 0%Q) Hbc) as Hgc.
  pose proof (capSteps_le_lastResort fuel sectorRows strict targetN
                (s_relaxCapTo strict ?: 5000000000%Q) (s_relaxCapFactor strict ?: 0.8%Q) y
                p (minMktCap strict ?: 0%Q)) as Hcs.
  destruct (capSteps fuel sectorRows strict targetN _ _ y p _) as [cs out]. cbn [fst snd] in *.
  apply last_snoc_inv in Hend as [l1 El].
  assert (Hmid : growing ((p0 :: ys) ++ cs)).
  { rewrite El in Hg |- *. rewrite <- app_assoc. apply growing_app_last; assumption. }
  change (p0 :: ys ++ cs ++ ?t) with ((p0 :: ys) ++ cs ++ t).
  destruct out as [[fill|st]|]; try (rewrite app_nil_r; exact Hmid).
  rewrite app_assoc. apply growing_snoc; [exact Hmid|].
  intros z Hz. apply last_snoc_inv in Hz as [l' El'].
  assert (Hin : z ∈ (p0 :: ys) ++ cs) by (rewrite El'; apply elem_of_app; right; left).
  apply elem_of_app in Hin as [Hin|Hin]; [|apply Hcs; exact Hin].
  apply elem_of_cons in Hin as [->|Hin]; [|apply Hys; exact Hin].
  apply screened_le_lastResort. reflexivity.
Qed.

End FallbackTrace.

Section FallbackClaims.
Import Portfolio.
Context `{Host}.

(** C8, as amended: in [fillSectorWithFallback] every relaxation is
    monotone when the loops lower their floors and the yield floor of 0
    that the loops start from excludes no row.  [fallbackPools] records
    every pool that the function screens, in order; the result of the
    function is cut from the last one.  The pool of the last resort is
    at least as large as every pool of the record, whatever the
    parameters.  When [relaxYieldStep >= 0], [relaxCapFactor <= 1] and
    [relaxCapTo >= 0] (after defaults), and the strict screen has a yield
    floor or no row has a negative yield, no pool of the record is
    larger than the next one. *)
Theorem fallback_relaxation_monotone (sectorRows : list DatasetRow) (strict : Screen)
    (targetN : Z) (fuel : nat) :
  let pools := fallbackPools fuel sectorRows strict targetN in
  (forall fill, fillSectorWithFallback fuel sectorRows strict targetN = Some fill ->
     exists final,
       list.last pools = Some final /\
       fill = slice0 final (Z.min targetN (Z.of_nat (length final)))) /\
  (forall p, p ∈ pools -> (length p <= length (lastResort sectorRows strict))%nat) /\
  ((0 <= s_relaxYieldStep strict ?: 0.5)%Q ->
   (s_relaxCapFactor strict ?: 0.8 <= 1)%Q ->
   (0 <= s_relaxCapTo strict ?: 5000000000)%Q ->
   is_Some (minYield strict) \/
   (forall r y, r ∈ sectorRows -> getYield r = Some y -> (0 <= y)%Q) ->
   forall i p q, pools !! i = Some p -> pools !! S i = Some q ->
     (length p <= length q)%nat).
Proof.
  cbn zeta. split; [|split].
  - intros fill. apply fallbackPools_result.
  - intros p. apply fallbackPools_le_lastResort.
  - intros Hstep Hf Hto Hy. apply growing_lookup.
    apply fallbackPools_grow; assumption.
Qed.

End FallbackClaims.

(** A screen with its tuning. *)
Definition tunedScreen (minY minC relaxYieldStep relaxCapTo relaxCapFactor : option Q)
  : Portfolio.Screen :=
  {| Portfolio.minYield := minY; Portfolio.minMktCap := minC;
     Portfolio.s_minPrice := Some 0%Q; Portfolio.s_include := None;
     Portfolio.s_exclude := None; Portfolio.s_relaxYieldTo := None;
     Portfolio.s_relaxYieldStep := relaxYieldStep; Portfolio.s_relaxCapTo := relaxCapTo;
     Portfolio.s_relaxCapFactor := relaxCapFactor |}.

(** A relaxation that loses a row.  The strict screen has a market-cap
    floor but no yield floor, so a row with a negative yield passes it;
    the market-cap loop screens with the yield floor 0 that [minY]
    starts from, and the row is gone: the pool of the first relaxation
    is smaller than the strict pool. *)
Lemma fallback_cap_step_shrinks_pool :
  let rows := [row "A1" "A" 10 (Some (-1)%Q) (Some 20000000000%Q)] in
  let strict := screenOf None (Some 10000000000%Q) in
  fallbackPools (H := asciiHost) 10 rows strict 2
    = [rows; []; []; []; []; rows] /\
  Portfolio.fillSectorWithFallback (H := asciiHost) 10 rows strict 2 = Some rows /\
  Portfolio.screenRows (H := asciiHost) rows strict = rows /\
  Portfolio.screenRows (H := asciiHost) rows
    (Portfolio.withYieldCap strict 0 8000000000) = [] /\
  ~ (forall i p q,
       fallbackPools (H := asciiHost) 10 rows strict 2 !! i = Some p ->
       fallbackPools (H := asciiHost) 10 rows strict 2 !! S i = Some q ->
       (length p <= length q)%nat).
Proof.
  cbn zeta.
  assert (E : fallbackPools (H := asciiHost) 10
                [row "A1" "A" 10 (Some (-1)%Q) (Some 20000000000%Q)]
                (screenOf None (Some 10000000000%Q)) 2
              = [[row "A1" "A" 10 (Some (-1)%Q) (Some 20000000000%Q)]; []; []; []; [];
                 [row "A1" "A" 10 (Some (-1)%Q) (Some 20000000000%Q)]])
    by (vm_compute; reflexivity).
  split; [exact E|]. split; [vm_compute; reflexivity|].
  split; [vm_compute; reflexivity|]. split; [vm_compute; reflexivity|].
  intros Hall. rewrite E in Hall.
  specialize (Hall 0%nat _ _ eq_refl eq_refl). simpl in Hall. lia.
Qed.

(** The other three conditions are needed as well: a
    negative step raises the yield floor, a factor above 1 raises the
    market-cap floor, and a negative [relaxCapTo] lets the market-cap
    loop start from the floor 0, which a negative market cap fails. *)
Example fallback_negative_step_shrinks_pool :
  let rows := [row "A1" "A" 10 (Some 4.5%Q) None] in
  fallbackPools (H := asciiHost) 2 rows
    (tunedScreen (Some 4%Q) None (Some (-1)%Q) None None) 2
  = [rows; []; []].
Proof. vm_compute. reflexivity. Qed.

Example fallback_factor_above_one_shrinks_pool :
  let rows := [row "A1" "A" 10 (Some 3%Q) (Some 12000000000%Q)] in
  fallbackPools (H := asciiHost) 2 rows
    (tunedScreen (Some 1%Q) (Some 10000000000%Q) None None (Some 1.5%Q)) 2
  = [rows; []; []].
Proof. vm_compute. reflexivity. Qed.

Example fallback_negative_cap_target_shrinks_pool :
  let rows := [row "A1" "A" 10 (Some 3%Q) (Some (-5)%Q)] in
  fallbackPools (H := asciiHost) 2 rows
    (tunedScreen (Some 1%Q) None None (Some (-1)%Q) None) 2
  = [rows; []; []].
Proof. vm_compute. reflexivity. Qed.

Lemma fallback_relaxation_monotone_witness :
  let a1 := row "A1" "A" 10 (Some 5%Q) None in
  let a2 := row "A2" "A" 10 (Some 3%Q) None in
  fallbackPools (H := asciiHost) 10 [a1; a2] (screenOf (Some 4%Q) None) 2
    = [[a1]; [a1]; [a1; a2]] /\
  (length [a1] <= length [a1; a2])%nat.
Proof.
  cbn zeta.
  assert (E : fallbackPools (H := asciiHost) 10
                [row "A1" "A" 10 (Some 5%Q) None; row "A2" "A" 10 (Some 3%Q) None]
                (screenOf (Some 4%Q) None) 2
              = [[row "A1" "A" 10 (Some 5%Q) None]; [row "A1" "A" 10 (Some 5%Q) None];
                 [row "A1" "A" 10 (Some 5%Q) None; row "A2" "A" 10 (Some 3%Q) None]])
    by (vm_compute; reflexivity).
  split; [exact E|].
  destruct (fallback_relaxation_monotone (H := asciiHost)
              [row "A1" "A" 10 (Some 5%Q) None; row "A2" "A" 10 (Some 3%Q) None]
              (screenOf (Some 4%Q) None) 2 10) as (_ & _ & Hgrow).
  apply (Hgrow ltac:(vm_compute; discriminate) ltac:(vm_compute; discriminate)
           ltac:(vm_compute; discriminate) (or_introl (ex_intro _ 4%Q eq_refl)) 1%nat);
    rewrite E; reflexivity.
Defined.

(* ===================================================================== *)
(** * portfolio.ts: the fallback returns                                  *)
(* ===================================================================== *)

Section FillFacts.
Import Portfolio.
Context `{Host}.

(** What every result of [fillSectorWithFallback] must satisfy for the
    allocation to be exact: the requested number of rows, all of the
    sector. *)
Definition goodFill (sectorRows : list DatasetRow) (targetN : Z)
    (fill : list DatasetRow) : Prop :=
  length fill = Z.to_nat targetN /\ forall r, r ∈ fill -> r ∈ sectorRows.

Lemma enough_true {A} (pool : list A) targetN :
  enough pool targetN = true <-> targetN <= Z.of_nat (length pool).
Proof. unfold enough. apply Z.leb_le. Qed.

Lemma slice0_good sectorRows (pool : list DatasetRow) targetN :
  0 <= targetN -> enough pool targetN = true ->
  (forall r, r ∈ pool -> r ∈ sectorRows) ->
  goodFill sectorRows targetN (slice0 pool targetN).
Proof.
  intros H0 He Hin. apply enough_true in He. unfold slice0.
  destruct (targetN <? 0) eqn:E; [apply Z.ltb_lt in E; lia|].
  split.
  - rewrite length_take. lia.
  - intros r Hr. apply Hin. eapply subseteq_take. exact Hr.
Qed.

Lemma elem_of_sorted_screen sectorRows (sc : Screen) r :
  r ∈ sortBy rankForDividend (screenRows sectorRows sc) -> r ∈ sectorRows.
Proof.
  rewrite sortBy_perm. unfold screenRows. rewrite list_elem_of_In, filter_In, <- list_elem_of_In.
  tauto.
Qed.

Definition loopOk {St} (sectorRows : list DatasetRow) (targetN : Z) (out : Loop St) : Prop :=
  match out with
  | Returned rows => goodFill sectorRows targetN rows
  | Fell _ => True
  end.

Lemma inject_Z_S (k : nat) :
  (inject_Z (Z.of_nat (S k)) == inject_Z (Z.of_nat k) + 1)%Q.
Proof. rewrite Nat2Z.inj_succ. unfold Z.succ. rewrite inject_Z_plus. reflexivity. Qed.

(** The yield loop ends within [fuel] iterations when [fuel] steps
    cover the distance to the lowest floor. *)
Lemma relaxYieldLoop_returns sectorRows strict targetN relaxYieldTo relaxYieldStep :
  0 <= targetN -> (0 < relaxYieldStep)%Q ->
  forall fuel pool minY,
    (minY - relaxYieldTo <= inject_Z (Z.of_nat fuel) * relaxYieldStep)%Q ->
    exists out,
      relaxYieldLoop fuel sectorRows strict targetN relaxYieldTo relaxYieldStep pool minY
        = Some out /\ loopOk sectorRows targetN out.
Proof.
  intros Ht Hstep. induction fuel as [|fuel IH]; intros pool minY Hb.
  - cbn [relaxYieldLoop]. destruct (negb (enough pool targetN) && Num.Qltb relaxYieldTo minY) eqn:E.
    + apply andb_true_iff in E as [_ E]. apply Qltb_lt in E.
      change (inject_Z (Z.of_nat 0)) with 0%Q in Hb. lra.
    + eexists. split; [reflexivity | exact I].
  - cbn [relaxYieldLoop]. destruct (negb (enough pool targetN) && Num.Qltb relaxYieldTo minY) eqn:E.
    2: { eexists. split; [reflexivity | exact I]. }
    apply andb_true_iff in E as [_ E]. apply Qltb_lt in E.
    set (minY' := Qmax relaxYieldTo (minY - relaxYieldStep)).
    set (pool' := sortBy rankForDividend (screenRows sectorRows (withYield strict minY'))).
    destruct (enough pool' targetN) eqn:Ee.
    + eexists. split; [reflexivity|]. cbn [loopOk].
      apply slice0_good; [exact Ht | exact Ee |]. intros r. apply elem_of_sorted_screen.
    + apply IH. rewrite inject_Z_S in Hb.
      assert (Hf : (0 <= inject_Z (Z.of_nat fuel))%Q).
      { change 0%Q with (inject_Z 0). rewrite <- Zle_Qle. lia. }
      unfold minY'. destruct (Q.max_spec relaxYieldTo (minY - relaxYieldStep)) as [[_ ->]|[_ ->]].
      * lra.
      * nra.
Qed.

(** The cap loop ends within [fuel] iterations when [fuel] is at least
    the ceiling of the cap floor it starts from. *)
Lemma relaxCapLoop_returns sectorRows strict targetN relaxCapTo relaxCapFactor minY :
  0 <= targetN -> (0 <= relaxCapTo)%Q -> (relaxCapFactor < 1)%Q ->
  forall fuel pool minC,
    ((minC <= relaxCapTo)%Q \/ Qceiling minC <= Z.of_nat fuel) ->
    exists out,
      relaxCapLoop fuel sectorRows strict targetN relaxCapTo relaxCapFactor minY pool minC
        = Some out /\ loopOk sectorRows targetN out.
Proof.
  intros Ht Hto Hf. induction fuel as [|fuel IH]; intros pool minC Hb.
  - cbn [relaxCapLoop]. destruct (negb (enough pool targetN) && Num.Qltb relaxCapTo minC) eqn:E.
    + apply andb_true_iff in E as [_ E]. apply Qltb_lt in E.
      destruct Hb as [Hb|Hb]; [lra|].
      pose proof (Qle_ceiling minC) as Hc.
      assert (Hc0 : (inject_Z (Qceiling minC) <= inject_Z 0)%Q) by (rewrite <- Zle_Qle; lia).
      change (inject_Z 0) with 0%Q in Hc0. lra.
    + eexists. split; [reflexivity | exact I].
  - cbn [relaxCapLoop]. destruct (negb (enough pool targetN) && Num.Qltb relaxCapTo minC) eqn:E.
    2: { eexists. split; [reflexivity | exact I]. }
    apply andb_true_iff in E as [_ E]. apply Qltb_lt in E.
    set (z := Qfloor (minC * relaxCapFactor)).
    set (minC' := Qmax relaxCapTo (inject_Z z)).
    set (pool' := sortBy rankForDividend
                    (screenRows sectorRows (withYieldCap strict minY minC'))).
    destruct (enough pool' targetN) eqn:Ee.
    + eexists. split; [reflexivity|]. cbn [loopOk].
      apply slice0_good; [exact Ht | exact Ee |]. intros r. apply elem_of_sorted_screen.
    + apply IH. destruct Hb as [Hb|Hb]; [lra|].
      unfold minC'. destruct (Q.max_spec relaxCapTo (inject_Z z)) as [[Hlt Hm]|[Hle Hm]].
      * right. rewrite (Qceiling_comp _ _ Hm), Qceiling_Z.
        assert (Hz : (inject_Z z < minC)%Q).
        { eapply Qle_lt_trans; [apply Qfloor_le|]. nra. }
        assert (Hz2 : (inject_Z z < inject_Z (Qceiling minC))%Q).
        { eapply Qlt_le_trans; [exact Hz | apply Qle_ceiling]. }
        rewrite <- Zlt_Qlt in Hz2. lia.
      * left. rewrite Hm. lra.
Qed.

(** The fuel that suffices for the two loops of a screen. *)
Definition fuelFor (strict : Screen) : nat :=
  let relaxYieldTo := s_relaxYieldTo strict ?: 2%Q in
  let relaxYieldStep := s_relaxYieldStep strict ?: 0.5%Q in
  Nat.max
    (Z.to_nat (Qceiling (((minYield strict ?: 0%Q) - relaxYieldTo) / relaxYieldStep)))
    (Z.to_nat (Qceiling (minMktCap strict ?: 0%Q))).

(** With progressing relaxation parameters and enough price-valid rows
    in the sector, [fillSectorWithFallback] returns exactly [targetN]
    rows of the sector. *)
Lemma fillSectorWithFallback_returns sectorRows strict targetN fuel :
  (0 < s_relaxYieldStep strict ?: 0.5)%Q ->
  (0 <= s_relaxCapTo strict ?: 5000000000)%Q ->
  (s_relaxCapFactor strict ?: 0.8 < 1)%Q ->
  0 <= targetN ->
  targetN <= Z.of_nat (length (List.filter (priceOk (s_minPrice strict ?: 0%Q)) sectorRows)) ->
  (fuelFor strict <= fuel)%nat ->
  exists fill,
    fillSectorWithFallback fuel sectorRows strict targetN = Some fill /\
    goodFill sectorRows targetN fill.
Proof.
  intros Hstep Hto Hfac Ht Hcand Hfuel. unfold fillSectorWithFallback.
  set (pool0 := sortBy rankForDividend (screenRows sectorRows strict)).
  destruct (enough pool0 targetN) eqn:E0.
  { eexists. split; [reflexivity|].
    apply slice0_good; [exact Ht | exact E0 |]. intros r. apply elem_of_sorted_screen. }
  unfold fuelFor in Hfuel. cbn zeta in Hfuel.
  set (relaxYieldTo := s_relaxYieldTo strict ?: 2%Q) in *.
  set (relaxYieldStep := s_relaxYieldStep strict ?: 0.5%Q) in *.
  set (minY0 := minYield strict ?: 0%Q) in *.
  set (minC0 := minMktCap strict ?: 0%Q) in *.
  destruct (relaxYieldLoop_returns sectorRows strict targetN relaxYieldTo relaxYieldStep
              Ht Hstep fuel pool0 minY0) as (outY & EY & HY).
  { pose proof (Qle_ceiling ((minY0 - relaxYieldTo) / relaxYieldStep)) as Hc.
    assert (Hle : (inject_Z (Qceiling ((minY0 - relaxYieldTo) / relaxYieldStep))
                   <= inject_Z (Z.of_nat fuel))%Q) by (rewrite <- Zle_Qle; lia).
    assert (Hd : ((minY0 - relaxYieldTo) / relaxYieldStep <= inject_Z (Z.of_nat fuel))%Q)
      by lra.
    assert (Hm : (minY0 - relaxYieldTo == (minY0 - relaxYieldTo) / relaxYieldStep * relaxYieldStep)%Q)
      by (field; lra).
    rewrite Hm. nra. }
  rewrite EY. destruct outY as [rows|[pool1 minY1]].
  { eexists. split; [reflexivity | exact HY]. }
  destruct (relaxCapLoop_returns sectorRows strict targetN
              (s_relaxCapTo strict ?: 5000000000%Q) (s_relaxCapFactor strict ?: 0.8%Q)
              minY1 Ht Hto Hfac fuel pool1 minC0) as (outC & EC & HC).
  { right. lia. }
  rewrite EC. destruct outC as [rows|s].
  { eexists. split; [reflexivity | exact HC]. }
  eexists. split; [reflexivity|].
  assert (Hlen : length (lastResort sectorRows strict)
                 = length (List.filter (priceOk (s_minPrice strict ?: 0%Q)) sectorRows)).
  { unfold lastResort. apply length_sortBy. }
  rewrite Z.min_l by lia.
  apply slice0_good; [exact Ht | apply enough_true; lia |].
  intros r. unfold lastResort. rewrite sortBy_perm, list_elem_of_In, filter_In, <- list_elem_of_In.
  tauto.
Qed.

End FillFacts.

(* ===================================================================== *)
(** * portfolio.ts: sums                                                  *)
(* ===================================================================== *)

(** The sum of [f] over a list, for stating what the folds compute. *)
Definition sumQ {A} (f : A -> Q) (l : list A) : Q := foldr (fun x s => (f x + s)%Q) 0%Q l.
Definition sumZ {A} (f : A -> Z) (l : list A) : Z := foldr (fun x s => f x + s) 0 l.

Section Sums.
Context {A : Type}.

Lemma fold_left_sumQ (f : A -> Q) l : forall a,
  (fold_left (fun s x => s + f x) l a == a + sumQ f l)%Q.
Proof.
  induction l as [|x r IH]; intros a; simpl; [ring|].
  rewrite IH. ring.
Qed.

Lemma fold_left_sumZ (f : A -> Z) l : forall a,
  fold_left (fun s x => s + f x) l a = a + sumZ f l.
Proof.
  induction l as [|x r IH]; intros a; simpl; [lia|].
  rewrite IH. lia.
Qed.

Lemma sumQ_app (f : A -> Q) l1 l2 : (sumQ f (l1 ++ l2) == sumQ f l1 + sumQ f l2)%Q.
Proof. induction l1 as [|x r IH]; simpl; [ring|]. rewrite IH. ring. Qed.

Lemma sumZ_app (f : A -> Z) l1 l2 : sumZ f (l1 ++ l2) = sumZ f l1 + sumZ f l2.
Proof. induction l1 as [|x r IH]; simpl; [lia|]. rewrite IH. lia. Qed.

Lemma sumQ_perm (f : A -> Q) l1 l2 : l1 ≡ₚ l2 -> (sumQ f l1 == sumQ f l2)%Q.
Proof.
  induction 1 as [|x l l' _ IH|x y l|l l' l'' _ IH1 _ IH2]; simpl.
  - reflexivity.
  - rewrite IH. reflexivity.
  - ring.
  - rewrite IH1. exact IH2.
Qed.

Lemma sumZ_perm (f : A -> Z) l1 l2 : l1 ≡ₚ l2 -> sumZ f l1 = sumZ f l2.
Proof.
  induction 1 as [|x l l' _ IH|x y l|l l' l'' _ IH1 _ IH2]; simpl; lia.
Qed.

Lemma sumQ_ext (f g : A -> Q) l :
  (forall x, x ∈ l -> (f x == g x)%Q) -> (sumQ f l == sumQ g l)%Q.
Proof.
  induction l as [|x r IH]; intros Hfg; simpl; [reflexivity|].
  rewrite (Hfg x) by left. rewrite IH; [reflexivity|].
  intros y Hy. apply Hfg. right. exact Hy.
Qed.

Lemma sumQ_scale (c : Q) (f : A -> Q) l : (sumQ (fun x => c * f x) l == c * sumQ f l)%Q.
Proof. induction l as [|x r IH]; simpl; [ring|]. rewrite IH. ring. Qed.

Lemma sumQ_plus (f g : A -> Q) l :
  (sumQ f l + sumQ g l == sumQ (fun x => f x + g x) l)%Q.
Proof.
  induction l as [|x r IH]; [simpl; ring|].
  cbn [sumQ foldr]. fold (sumQ f r). fold (sumQ g r). fold (sumQ (fun x => f x + g x)%Q r).
  rewrite <- IH. ring.
Qed.

Lemma sumQ_const (c : Q) (l : list A) :
  (sumQ (fun _ => c) l == inject_Z (Z.of_nat (length l)) * c)%Q.
Proof.
  induction l as [|x r IH]; [simpl; ring|].
  cbn [sumQ foldr length]. fold (sumQ (fun _ : A => c) r). rewrite IH, inject_Z_S. ring.
Qed.

Lemma sumQ_le (f g : A -> Q) l :
  (forall x, x ∈ l -> (f x <= g x)%Q) -> (sumQ f l <= sumQ g l)%Q.
Proof.
  induction l as [|x r IH]; intros Hfg; simpl; [lra|].
  assert (f x <= g x)%Q by (apply Hfg; left).
  assert (sumQ f r <= sumQ g r)%Q by (apply IH; intros y Hy; apply Hfg; right; exact Hy).
  unfold sumQ in *. lra.
Qed.

Lemma sumQ_lt (f g : A -> Q) l :
  l <> [] -> (forall x, x ∈ l -> (f x < g x)%Q) -> (sumQ f l < sumQ g l)%Q.
Proof.
  induction l as [|x r IH]; intros Hne Hfg; [congruence|]. simpl.
  assert (f x < g x)%Q by (apply Hfg; left).
  destruct r as [|y r'].
  - simpl. lra.
  - assert (sumQ f (y :: r') < sumQ g (y :: r'))%Q.
    { apply IH; [discriminate|]. intros z Hz. apply Hfg. right. exact Hz. }
    unfold sumQ in *. lra.
Qed.

Lemma sumQ_inject (f : A -> Z) l :
  (sumQ (fun x => inject_Z (f x)) l == inject_Z (sumZ f l))%Q.
Proof.
  induction l as [|x r IH]; simpl; [reflexivity|].
  rewrite inject_Z_plus. unfold sumQ in IH. rewrite IH. reflexivity.
Qed.

Lemma sumQ_fmap {B} (f : B -> Q) (g : A -> B) l : sumQ f (g <$> l) = sumQ (fun x => f (g x)) l.
Proof. induction l as [|x r IH]; simpl; [reflexivity|]. f_equal. exact IH. Qed.

Lemma sumZ_fmap {B} (f : B -> Z) (g : A -> B) l : sumZ f (g <$> l) = sumZ (fun x => f (g x)) l.
Proof. induction l as [|x r IH]; simpl; [reflexivity|]. f_equal. exact IH. Qed.

(** Dropping the entries that are not positive does not change the sum
    of non-negative numbers. *)
Lemma sumQ_filter_pos (f : A -> Q) l :
  (forall x, x ∈ l -> (0 <= f x)%Q) ->
  (sumQ f (List.filter (fun x => Num.Qltb 0 (f x)) l) == sumQ f l)%Q.
Proof.
  induction l as [|x r IH]; intros Hnn; simpl; [reflexivity|].
  assert (Hr : (sumQ f (List.filter (fun x => Num.Qltb 0 (f x)) r) == sumQ f r)%Q).
  { apply IH. intros y Hy. apply Hnn. right. exact Hy. }
  destruct (Num.Qltb 0 (f x)) eqn:E; simpl; unfold sumQ in *.
  - rewrite Hr. reflexivity.
  - apply Qltb_ge in E. assert (0 <= f x)%Q by (apply Hnn; left).
    rewrite Hr. lra.
Qed.

End Sums.

(* ===================================================================== *)
(** * portfolio.ts: weights and slots                                     *)
(* ===================================================================== *)

Section SlotFacts.
Import Portfolio.
Context `{Host}.

(** The weighted sectors of [buildPortfolioSectorBalanced]. *)
Definition weightedSectors (sectorWeights : SectorWeights) : SectorWeights :=
  List.filter (fun sw => Num.Qltb 0 sw.2) (normalizeWeights sectorWeights).

Definition validWeights (sectorWeights : SectorWeights) : Prop :=
  NoDup (sectorWeights.*1) /\
  (forall sw, sw ∈ sectorWeights -> (0 <= sw.2)%Q) /\
  (exists sw, sw ∈ sectorWeights /\ (0 < sw.2)%Q).

Lemma sumQ_pos {A} (f : A -> Q) (l : list A) :
  (forall x, x ∈ l -> (0 <= f x)%Q) -> (exists x, x ∈ l /\ (0 < f x)%Q) ->
  (0 < sumQ f l)%Q.
Proof.
  induction l as [|x r IH]; intros Hnn [y [Hy Hpos]]; [inversion Hy|].
  simpl. assert (H0 : (0 <= f x)%Q) by (apply Hnn; left).
  assert (Hr : (0 <= sumQ f r)%Q).
  { clear -Hnn. induction r as [|z r IH]; simpl; [lra|].
    assert (0 <= f z)%Q by (apply Hnn; right; left).
    assert (0 <= sumQ f r)%Q.
    { apply IH. intros w Hw. apply Hnn. apply elem_of_cons in Hw as [->|Hw]; [left|right; right; exact Hw]. }
    unfold sumQ in *. lra. }
  apply elem_of_cons in Hy as [->|Hy].
  - unfold sumQ in *. lra.
  - assert (0 < sumQ f r)%Q.
    { apply IH; [intros z Hz; apply Hnn; right; exact Hz | eauto]. }
    unfold sumQ in *. lra.
Qed.

Lemma normalizeWeights_valid sectorWeights :
  validWeights sectorWeights ->
  let total := sumQ snd sectorWeights in
  (0 < total)%Q /\
  normalizeWeights sectorWeights = (fun kv => (kv.1, (kv.2 / fold_left (fun s kv => (s + kv.2)%Q) sectorWeights 0)%Q)) <$> sectorWeights /\
  (sumQ snd (normalizeWeights sectorWeights) == 1)%Q /\
  (normalizeWeights sectorWeights).*1 = sectorWeights.*1 /\
  (forall sw, sw ∈ normalizeWeights sectorWeights -> (0 <= sw.2)%Q).
Proof.
  intros (Hnd & Hnn & Hpos). cbn zeta.
  assert (Htot : (0 < sumQ snd sectorWeights)%Q) by (apply sumQ_pos; assumption).
  pose proof (fold_left_sumQ snd sectorWeights 0%Q) as Hfold.
  set (S := fold_left (fun s kv => (s + kv.2)%Q) sectorWeights 0%Q) in *.
  assert (HS : (0 < S)%Q) by (rewrite Hfold; lra).
  assert (Hnorm : normalizeWeights sectorWeights
                  = (fun kv => (kv.1, (kv.2 / S)%Q)) <$> sectorWeights).
  { unfold normalizeWeights. fold S.
    destruct (Num.Qleb S 0) eqn:E; [apply Qleb_le in E; lra | reflexivity]. }
  split; [exact Htot|]. split; [exact Hnorm|]. rewrite Hnorm.
  split; [|split].
  - rewrite sumQ_fmap. simpl.
    assert (E : (sumQ (fun x : jsstring * Q => x.2 / S) sectorWeights
                 == (1 / S) * sumQ snd sectorWeights)%Q).
    { rewrite <- sumQ_scale. apply sumQ_ext. intros x _. field. lra. }
    rewrite E. rewrite Hfold in HS |- *. field. lra.
  - rewrite <- list_fmap_compose. reflexivity.
  - intros sw Hsw. apply list_elem_of_fmap in Hsw as (kv & -> & Hkv). simpl.
    apply Qdiv_nonneg; [apply Hnn; exact Hkv | exact HS].
Qed.

Lemma weightedSectors_valid sectorWeights :
  validWeights sectorWeights ->
  (sumQ snd (weightedSectors sectorWeights) == 1)%Q /\
  NoDup ((weightedSectors sectorWeights).*1) /\
  weightedSectors sectorWeights <> [] /\
  (forall sw, sw ∈ weightedSectors sectorWeights -> sw ∈ normalizeWeights sectorWeights) /\
  NoDup ((normalizeWeights sectorWeights).*1).
Proof.
  intros Hv. destruct (normalizeWeights_valid _ Hv) as (Htot & Hnorm & Hsum & Hkeys & Hnn).
  cbn zeta in *. destruct Hv as (Hnd & _ & _).
  unfold weightedSectors.
  assert (Hsub : List.filter (fun sw : jsstring * Q => Num.Qltb 0 sw.2)
                   (normalizeWeights sectorWeights)
                 `sublist_of` normalizeWeights sectorWeights).
  { clear. induction (normalizeWeights sectorWeights) as [|x r IH]; simpl; [constructor|].
    destruct (Num.Qltb 0 x.2); [apply sublist_skip | apply sublist_cons]; exact IH. }
  split; [|split; [|split; [|split]]].
  - rewrite sumQ_filter_pos by exact Hnn. exact Hsum.
  - eapply sublist_NoDup; [|apply fmap_sublist; exact Hsub]. rewrite Hkeys. exact Hnd.
  - intros E.
    assert (Hz : (sumQ snd (List.filter (fun sw : jsstring * Q => Num.Qltb 0 sw.2)
                              (normalizeWeights sectorWeights)) == 1)%Q)
      by (rewrite sumQ_filter_pos by exact Hnn; exact Hsum).
    rewrite E in Hz. simpl in Hz. lra.
  - intros sw Hsw. apply list_elem_of_In, filter_In in Hsw as [Hsw _].
    apply list_elem_of_In. exact Hsw.
  - rewrite Hkeys. exact Hnd.
Qed.

(** [weights[sector]] is the weight listed for the sector. *)
Lemma weightOf_lookup (weights : SectorWeights) k v :
  NoDup (weights.*1) -> (k, v) ∈ weights -> weightOf weights k = v.
Proof.
  unfold weightOf. induction weights as [|[k' v'] r IH]; intros Hnd Hin; [inversion Hin|].
  simpl in *. inversion Hnd as [|? ? Hk Hr]; subst.
  unfold Js.eqb at 1. simpl. destruct (decide (k' = k)) as [->|Hne].
  - rewrite bool_decide_eq_true_2 by reflexivity. simpl.
    apply elem_of_cons in Hin as [[= ->]|Hin]; [reflexivity|].
    exfalso. apply Hk. apply list_elem_of_fmap. exists (k, v). split; [reflexivity | exact Hin].
  - rewrite bool_decide_eq_false_2 by exact Hne.
    apply elem_of_cons in Hin as [[= -> ->]|Hin]; [congruence|].
    apply IH; assumption.
Qed.

(** ** The slot split *)

Definition floorsOf (sectors : SectorWeights) (totalSlots : Z) : list FloorSlot :=
  (fun d => {| fs_sector := d.1;
               fs_slots := Qfloor d.2;
               fs_frac := (d.2 - inject_Z (Qfloor d.2))%Q |})
    <$> ((fun sw => (sw.1, (inject_Z totalSlots * sw.2)%Q)) <$> sectors).

Lemma slotSplit_unfold sectors totalSlots :
  slotSplit sectors totalSlots =
  distribute (sortBy byRemainder (floorsOf sectors totalSlots))
    (sumZ fs_slots (floorsOf sectors totalSlots)) totalSlots.
Proof.
  unfold slotSplit. cbn zeta. fold (floorsOf sectors totalSlots).
  rewrite fold_left_sumZ. reflexivity.
Qed.

Lemma distribute_sectors l : forall used totalSlots,
  fs_sector <$> distribute l used totalSlots = fs_sector <$> l.
Proof.
  induction l as [|x r IH]; intros used totalSlots; simpl; [reflexivity|].
  destruct (used <? totalSlots); simpl; [|reflexivity].
  rewrite IH. reflexivity.
Qed.

Lemma distribute_sum l : forall used totalSlots,
  used <= totalSlots -> totalSlots - used <= Z.of_nat (length l) ->
  sumZ fs_slots (distribute l used totalSlots) = sumZ fs_slots l + (totalSlots - used).
Proof.
  induction l as [|x r IH]; intros used totalSlots Hle Hk.
  - simpl in *. lia.
  - cbn [distribute]. destruct (used <? totalSlots) eqn:E.
    + apply Z.ltb_lt in E. cbn [sumZ foldr fs_slots].
      fold (sumZ fs_slots (distribute r (used + 1) totalSlots)).
      rewrite IH; [|lia|simpl length in Hk; lia].
      fold (sumZ fs_slots r). lia.
    + apply Z.ltb_ge in E. lia.
Qed.

(** Largest-remainder apportionment hands out every slot. *)
Lemma slotSplit_sum sectors totalSlots :
  sectors <> [] -> (sumQ snd sectors == 1)%Q ->
  sumZ fs_slots (slotSplit sectors totalSlots) = totalSlots.
Proof.
  intros Hne Hsum. rewrite slotSplit_unfold.
  set (fl := floorsOf sectors totalSlots).
  assert (Hexact : (sumQ (fun sw : jsstring * Q => inject_Z totalSlots * sw.2) sectors
                    == inject_Z totalSlots)%Q).
  { rewrite sumQ_scale, Hsum. ring. }
  assert (Hfl : sumZ fs_slots fl
                = sumZ (fun sw : jsstring * Q => Qfloor (inject_Z totalSlots * sw.2)) sectors).
  { unfold fl, floorsOf. rewrite !sumZ_fmap. reflexivity. }
  assert (Hlo : sumZ fs_slots fl <= totalSlots).
  { rewrite Hfl, Zle_Qle, <- Hexact, <- sumQ_inject.
    apply sumQ_le. intros x _. apply Qfloor_le. }
  assert (Hhi : totalSlots < sumZ fs_slots fl + Z.of_nat (length sectors)).
  { rewrite Hfl, Zlt_Qlt, inject_Z_plus, <- Hexact, <- sumQ_inject.
    assert (Hc : (inject_Z (Z.of_nat (length sectors))
                  == sumQ (fun _ : jsstring * Q => 1) sectors)%Q).
    { rewrite sumQ_const. ring. }
    rewrite Hc.
    assert (Hs : (sumQ (fun x : jsstring * Q => inject_Z (Qfloor (inject_Z totalSlots * x.2)))
                    sectors + sumQ (fun _ : jsstring * Q => 1) sectors
                  == sumQ (fun x : jsstring * Q =>
                             inject_Z (Qfloor (inject_Z totalSlots * x.2)) + 1) sectors)%Q).
    { apply sumQ_plus. }
    rewrite Hs. apply sumQ_lt; [exact Hne|].
    intros x _. pose proof (Qlt_floor (inject_Z totalSlots * x.2)) as Hf.
    rewrite inject_Z_plus in Hf. exact Hf. }
  rewrite distribute_sum.
  - rewrite (sumZ_perm _ _ _ (sortBy_perm byRemainder fl)). ring.
  - exact Hlo.
  - assert (Hlen : length fl = length sectors)
      by (unfold fl, floorsOf; rewrite !length_fmap; reflexivity).
    rewrite length_sortBy, Hlen. lia.
Qed.

Lemma slotSplit_sectors sectors totalSlots :
  fs_sector <$> slotSplit sectors totalSlots ≡ₚ sectors.*1.
Proof.
  rewrite slotSplit_unfold, distribute_sectors, (sortBy_perm byRemainder).
  unfold floorsOf. rewrite <- !list_fmap_compose. reflexivity.
Qed.

End SlotFacts.

(* ===================================================================== *)
(** * portfolio.ts: the sector-balanced builder                           *)
(* ===================================================================== *)

Section BuilderFacts.
Import Portfolio.
Context `{Host}.

(** The rows of a sector, and those among them that pass the price
    guard: the candidates of the last resort. *)
Definition sectorRowsOf (base : list DatasetRow) (sec : jsstring) : list DatasetRow :=
  List.filter (fun r => Js.eqb (sectorOf r) sec) base.
Definition candidates (base : list DatasetRow) (strict : Screen) (sec : jsstring)
  : list DatasetRow :=
  List.filter (priceOk (s_minPrice strict ?: 0%Q)) (sectorRowsOf base sec).

(** Relaxation parameters with which both loops make progress. *)
Definition progressing (strict : Screen) : Prop :=
  (0 < s_relaxYieldStep strict ?: 0.5)%Q /\
  (0 <= s_relaxCapTo strict ?: 5000000000)%Q /\
  (s_relaxCapFactor strict ?: 0.8 < 1)%Q.

Lemma chooseLoop_returns fuel base strict :
  progressing strict -> (fuelFor strict <= fuel)%nat ->
  forall floorSlots,
    (forall fs, fs ∈ floorSlots ->
       1 <= fs_slots fs <= Z.of_nat (length (candidates base strict (fs_sector fs)))) ->
    forall chosen,
    exists fills,
      chooseLoop fuel floorSlots base strict chosen = Some (chosen ++ concat fills) /\
      Forall2 (fun fs fill => goodFill (sectorRowsOf base (fs_sector fs)) (fs_slots fs) fill)
        floorSlots fills.
Proof.
  intros (Hstep & Hto & Hfac) Hfuel. induction floorSlots as [|fs rest IH]; intros Hok chosen.
  - exists []. simpl. rewrite app_nil_r. split; [reflexivity | constructor].
  - cbn [chooseLoop].
    destruct (Hok fs) as [H1 H2]; [left|].
    destruct (fs_slots fs <=? 0) eqn:E; [apply Z.leb_le in E; lia|].
    fold (sectorRowsOf base (fs_sector fs)).
    destruct (fillSectorWithFallback_returns (sectorRowsOf base (fs_sector fs)) strict
                (fs_slots fs) fuel Hstep Hto Hfac) as (fill & Ef & Hgood);
      [lia | exact H2 | exact Hfuel |].
    rewrite Ef.
    destruct (IH (fun f Hf => Hok f (list_elem_of_further _ _ _ Hf)) (chosen ++ fill))
      as (fills & Ec & Hall).
    exists (fill :: fills). split.
    + rewrite Ec. simpl. rewrite <- app_assoc. reflexivity.
    + constructor; assumption.
Qed.

Lemma filter_all {A} (p : A -> bool) l : (forall x, x ∈ l -> p x = true) -> List.filter p l = l.
Proof.
  induction l as [|x r IH]; intros Hp; simpl; [reflexivity|].
  rewrite (Hp x) by left. f_equal. apply IH. intros y Hy. apply Hp. right. exact Hy.
Qed.

Lemma filter_none {A} (p : A -> bool) l : (forall x, x ∈ l -> p x = false) -> List.filter p l = [].
Proof.
  induction l as [|x r IH]; intros Hp; simpl; [reflexivity|].
  rewrite (Hp x) by left. apply IH. intros y Hy. apply Hp. right. exact Hy.
Qed.

Lemma sectorRowsOf_sector base sec r : r ∈ sectorRowsOf base sec -> sectorOf r = sec.
Proof.
  unfold sectorRowsOf. rewrite list_elem_of_In, filter_In. intros [_ E].
  unfold Js.eqb in E. apply bool_decide_eq_true in E. exact E.
Qed.

(** The rows chosen for the other sectors do not belong to a sector. *)
Lemma fills_other_sector base floorSlots fills sec :
  Forall2 (fun fs fill => goodFill (sectorRowsOf base (fs_sector fs)) (fs_slots fs) fill)
    floorSlots fills ->
  sec ∉ fs_sector <$> floorSlots ->
  List.filter (fun r => Js.eqb (sectorOf r) sec) (concat fills) = [].
Proof.
  induction 1 as [|fs fill rest fills' [_ Hin] _ IH]; intros Hsec; [reflexivity|].
  simpl. rewrite List.filter_app. rewrite IH.
  2: { intros Hc. apply Hsec. simpl. right. exact Hc. }
  rewrite app_nil_r. apply filter_none. intros r Hr.
  apply Hin, sectorRowsOf_sector in Hr. unfold Js.eqb. apply bool_decide_eq_false_2.
  intros E. apply Hsec. rewrite <- E, Hr. simpl. left.
Qed.

(** Each sector finds among the chosen rows exactly the rows chosen for
    it. *)
Lemma chosen_by_sector base floorSlots fills :
  NoDup (fs_sector <$> floorSlots) ->
  Forall2 (fun fs fill => goodFill (sectorRowsOf base (fs_sector fs)) (fs_slots fs) fill)
    floorSlots fills ->
  forall fs, fs ∈ floorSlots ->
    length (List.filter (fun r => Js.eqb (sectorOf r) (fs_sector fs)) (concat fills))
    = Z.to_nat (fs_slots fs).
Proof.
  intros Hnd Hall. induction Hall as [|f fill rest fills' [Hlen Hin] Hrest IH];
    intros fs Hfs; [inversion Hfs|].
  simpl in Hnd. inversion Hnd as [|? ? Hf Hnd']; subst.
  simpl. rewrite List.filter_app, length_app.
  assert (Hcase : fs_sector fs = fs_sector f \/ (fs_sector fs <> fs_sector f /\ fs ∈ rest)).
  { apply elem_of_cons in Hfs as [->|Hfs]; [left; reflexivity|].
    destruct (decide (fs_sector fs = fs_sector f)) as [E|E]; [left; exact E | right; auto]. }
  destruct Hcase as [E | [E Hfs']].
  - rewrite E. rewrite filter_all.
    2: { intros r Hr. apply Hin, sectorRowsOf_sector in Hr. unfold Js.eqb.
         apply bool_decide_eq_true_2. exact Hr. }
    rewrite (fills_other_sector base rest fills' (fs_sector f) Hrest Hf). simpl.
    rewrite Hlen.
    assert (Hs : fs_slots fs = fs_slots f \/ fs ∈ rest).
    { apply elem_of_cons in Hfs as [->|Hfs]; [left; reflexivity | right; exact Hfs]. }
    destruct Hs as [->|Hfs']; [lia|].
    exfalso. apply Hf. rewrite <- E. apply list_elem_of_fmap. exists fs. auto.
  - rewrite filter_none.
    2: { intros r Hr. apply Hin, sectorRowsOf_sector in Hr. unfold Js.eqb.
         apply bool_decide_eq_false_2. congruence. }
    simpl. apply IH; assumption.
Qed.

Lemma totalDollars_sumQ allocations :
  (totalDollars allocations == sumQ a_dollars allocations)%Q.
Proof. unfold totalDollars. rewrite fold_left_sumQ. ring. Qed.

(** A sector whose slots are all filled gets its share of the budget,
    divided among its names. *)
Lemma bucket_exact opts weights chosen fs :
  1 <= fs_slots fs ->
  length (List.filter (fun r => Js.eqb (sectorOf r) (fs_sector fs)) chosen)
    = Z.to_nat (fs_slots fs) ->
  Z.of_nat (length (bucket opts weights chosen fs)) = fs_slots fs /\
  (sumQ a_dollars (bucket opts weights chosen fs)
   == amount opts * weightOf weights (fs_sector fs))%Q.
Proof.
  intros H1 Hlen. unfold bucket.
  destruct (fs_slots fs <=? 0) eqn:E; [apply Z.leb_le in E; lia|].
  set (X := List.filter (fun r => Js.eqb (sectorOf r) (fs_sector fs)) chosen) in *.
  assert (Hs : slice0 X (fs_slots fs) = X).
  { unfold slice0. destruct (fs_slots fs <? 0) eqn:E'; [apply Z.ltb_lt in E'; lia|].
    rewrite <- Hlen. apply firstn_all. }
  rewrite Hs. destruct X as [|x X'] eqn:EX; [simpl in Hlen; lia|].
  rewrite <- EX in *. clear EX.
  split.
  - rewrite length_fmap, Hlen. lia.
  - rewrite sumQ_fmap. cbn [allocate a_dollars]. rewrite sumQ_const.
    assert (Hpos : (0 < inject_Z (Z.of_nat (length X)))%Q).
    { apply ofNat_pos. rewrite Hlen. lia. }
    field. lra.
Qed.

Lemma buckets_exact opts weights chosen floorSlots :
  (forall fs, fs ∈ floorSlots ->
     1 <= fs_slots fs /\
     length (List.filter (fun r => Js.eqb (sectorOf r) (fs_sector fs)) chosen)
       = Z.to_nat (fs_slots fs)) ->
  Z.of_nat (length (floorSlots ≫= bucket opts weights chosen)) = sumZ fs_slots floorSlots /\
  (sumQ a_dollars (floorSlots ≫= bucket opts weights chosen)
   == amount opts * sumQ (fun fs => weightOf weights (fs_sector fs)) floorSlots)%Q.
Proof.
  induction floorSlots as [|fs rest IH]; intros Hok.
  - simpl. split; [reflexivity | ring].
  - destruct (Hok fs) as [H1 Hlen]; [left|].
    destruct (bucket_exact opts weights chosen fs H1 Hlen) as [Hb1 Hb2].
    destruct IH as [IH1 IH2]; [intros f Hf; apply Hok; right; exact Hf|].
    change ((fs :: rest) ≫= bucket opts weights chosen)
      with (bucket opts weights chosen fs ++ (rest ≫= bucket opts weights chosen)).
    split.
    + rewrite length_app, Nat2Z.inj_add, Hb1, IH1. reflexivity.
    + rewrite sumQ_app, Hb2, IH2. cbn [sumQ foldr].
      fold (sumQ (fun fs => weightOf weights (fs_sector fs)) rest). ring.
Qed.

End BuilderFacts.

Section BuilderClaims.
Import Portfolio.
Context `{Host}.

Lemma length_fills base floorSlots fills :
  Forall2 (fun fs fill => goodFill (sectorRowsOf base (fs_sector fs)) (fs_slots fs) fill)
    floorSlots fills ->
  (forall fs, fs ∈ floorSlots -> 0 <= fs_slots fs) ->
  Z.of_nat (length (concat fills)) = sumZ fs_slots floorSlots.
Proof.
  induction 1 as [|fs fill rest fills' [Hlen _] _ IH]; intros Hnn; [reflexivity|].
  simpl. rewrite length_app, Nat2Z.inj_add, Hlen, IH.
  - assert (0 <= fs_slots fs) by (apply Hnn; left). fold (sumZ fs_slots rest). lia.
  - intros f Hf. apply Hnn. right. exact Hf.
Qed.

Lemma match_nonempty {A B} (l : list A) (a b : B) :
  l <> [] -> match l with [] => a | _ :: _ => b end = b.
Proof. destruct l; [congruence | reflexivity]. Qed.

(** C1, as amended: when the weights are non-negative with a positive
    sum, the relaxation parameters make both loops progress, and every
    weighted sector is assigned at least one slot and has at least as
    many price-valid candidates as slots, [buildPortfolioSectorBalanced]
    returns (with any fuel from [fuelFor] on) exactly [max(1, n)]
    allocations whose dollars sum to [amount]. *)
Theorem sector_balanced_conserves_budget
    (rows : list DatasetRow) (opts : BuildOpts) (sectorWeights : SectorWeights) :
  let sectors := weightedSectors sectorWeights in
  let totalSlots := Z.max 1 (n opts) in
  let strict := strictOf opts true in
  let base := uniqByTicker rows in
  validWeights sectorWeights ->
  progressing strict ->
  (forall fs, fs ∈ slotSplit sectors totalSlots ->
     1 <= fs_slots fs <= Z.of_nat (length (candidates base strict (fs_sector fs)))) ->
  forall fuel, (fuelFor strict <= fuel)%nat ->
  exists allocations,
    buildPortfolioSectorBalanced fuel rows opts sectorWeights = Some allocations /\
    (totalDollars allocations == amount opts)%Q /\
    Z.of_nat (length allocations) = totalSlots.
Proof.
  cbn zeta. intros Hv Hprog Hslots fuel Hfuel.
  destruct (weightedSectors_valid _ Hv) as (Hsum & Hnd & Hne & Hsub & Hndw).
  set (sectors := weightedSectors sectorWeights) in *.
  set (totalSlots := Z.max 1 (n opts)) in *.
  set (strict := strictOf opts true) in *.
  set (base := uniqByTicker rows) in *.
  set (floorSlots := slotSplit sectors totalSlots) in *.
  set (weights := normalizeWeights sectorWeights) in *.
  assert (Htot : sumZ fs_slots floorSlots = totalSlots) by (apply slotSplit_sum; assumption).
  assert (Hsec : fs_sector <$> floorSlots ≡ₚ sectors.*1) by apply slotSplit_sectors.
  assert (Hndf : NoDup (fs_sector <$> floorSlots)) by (rewrite Hsec; exact Hnd).
  destruct (chooseLoop_returns fuel base strict Hprog Hfuel floorSlots Hslots [])
    as (fills & Ec & Hall).
  cbn [app] in Ec. set (chosen := concat fills) in *.
  assert (Hlen : Z.of_nat (length chosen) = totalSlots).
  { rewrite <- Htot. apply (length_fills base); [exact Hall|].
    intros fs Hfs. destruct (Hslots fs Hfs). lia. }
  assert (Hbuckets :
    Z.of_nat (length (floorSlots ≫= bucket opts weights chosen)) = totalSlots /\
    (sumQ a_dollars (floorSlots ≫= bucket opts weights chosen) == amount opts)%Q).
  { destruct (buckets_exact opts weights chosen floorSlots) as [Hb1 Hb2].
    { intros fs Hfs. split; [destruct (Hslots fs Hfs); lia|].
      apply (chosen_by_sector base floorSlots fills Hndf Hall fs Hfs). }
    split; [rewrite Hb1; exact Htot|].
    rewrite Hb2.
    assert (Hw : (sumQ (fun fs => weightOf weights (fs_sector fs)) floorSlots == 1)%Q).
    { rewrite <- (sumQ_fmap (weightOf weights) fs_sector).
      rewrite (sumQ_perm _ _ _ Hsec). rewrite sumQ_fmap.
      rewrite <- Hsum. apply sumQ_ext. intros [k v] Hkv. simpl.
      rewrite (weightOf_lookup weights k v Hndw); [reflexivity|].
      apply Hsub. exact Hkv. }
    rewrite Hw. ring. }
  destruct Hbuckets as [Hb1 Hb2].
  set (allocations := floorSlots ≫= bucket opts weights chosen) in *.
  exists allocations.
  assert (Hts : 1 <= totalSlots) by (unfold totalSlots; lia).
  split; [|split; [rewrite totalDollars_sumQ; exact Hb2 | exact Hb1]].
  unfold buildPortfolioSectorBalanced.
  fold (weightedSectors sectorWeights). fold sectors. fold weights.
  fold totalSlots. fold strict. fold base. fold floorSlots.
  rewrite (match_nonempty sectors) by exact Hne.
  rewrite Ec. rewrite Hlen. rewrite Z.sub_diag. cbn [Z.ltb Z.compare].
  rewrite (match_nonempty chosen) by (intros E; rewrite E in Hlen; simpl in Hlen; lia).
  fold allocations.
  assert (Hen : enough allocations totalSlots = true) by (apply enough_true; lia).
  rewrite Hen. cbn [negb]. f_equal.
  unfold slice0. destruct (totalSlots <? 0) eqn:E; [apply Z.ltb_lt in E; lia|].
  rewrite <- Hb1, Nat2Z.id. apply firstn_all.
Qed.

End BuilderClaims.

(** Two sectors of weight one half and a single slot: each sector has a
    price-valid candidate, the one allocation made carries half of the
    budget. *)
Lemma sector_without_slot_loses_its_share :
  let rows := [row "A1" "A" 10 None None; row "B1" "B" 20 None None] in
  let opts := plainOpts 1000 1 None in
  let weights := [(lit "A", 0.5%Q); (lit "B", 0.5%Q)] in
  exists allocations,
    Portfolio.buildPortfolioSectorBalanced (H := asciiHost) 10 rows opts weights
      = Some allocations /\
    length allocations = 1%nat /\
    (Portfolio.totalDollars allocations == 500)%Q /\
    ~ (Portfolio.totalDollars allocations == Portfolio.amount opts)%Q.
Proof.
  cbn zeta. eexists. split; [vm_compute; reflexivity|].
  split; [reflexivity|]. split; [vm_compute; reflexivity|].
  vm_compute. discriminate.
Qed.

(** A sector short of candidates is backfilled from another sector, and
    the padded name is paid on top of the full budget. *)
Example padding_exceeds_budget :
  dollarsOf (Portfolio.buildPortfolioSectorBalanced (H := asciiHost) 10
               [row "A1" "A" 10 None None; row "B1" "B" 20 None None]
               (plainOpts 1000 2 None) [(lit "A", 1%Q)])
  = Some [(lit "A1", 1000%Q); (lit "B1", 500%Q)].
Proof. vm_compute. reflexivity. Qed.

(** The backfill applies the strict floors: a price-valid candidate
    below the yield floor is not used, and fewer names than requested
    are returned. *)
Example backfill_keeps_floors :
  dollarsOf (Portfolio.buildPortfolioSectorBalanced (H := asciiHost) 10
               [row "A1" "A" 10 (Some 5%Q) None; row "B1" "B" 10 (Some 1%Q) None]
               (plainOpts 1000 2 (Some 4%Q)) [(lit "A", 1%Q)])
  = Some [(lit "A1", 1000%Q)].
Proof. vm_compute. reflexivity. Qed.

Lemma sector_balanced_conserves_budget_witness :
  exists allocations,
    Portfolio.buildPortfolioSectorBalanced (H := asciiHost) 10
      [row "A1" "A" 10 None None; row "A2" "A" 10 None None; row "B1" "B" 20 None None]
      (plainOpts 1000 3 None) [(lit "A", 2%Q); (lit "B", 1%Q)] = Some allocations /\
    (Portfolio.totalDollars allocations == 1000)%Q /\
    Z.of_nat (length allocations) = 3.
Proof.
  apply (sector_balanced_conserves_budget (H := asciiHost)
           [row "A1" "A" 10 None None; row "A2" "A" 10 None None; row "B1" "B" 20 None None]
           (plainOpts 1000 3 None) [(lit "A", 2%Q); (lit "B", 1%Q)]).
  - split; [|split].
    + apply (bool_decide_unpack _). vm_compute. reflexivity.
    + intros sw Hsw. repeat (apply elem_of_cons in Hsw as [->|Hsw]); try (simpl; lra).
      inversion Hsw.
    + exists (lit "A", 2%Q). split; [left | simpl; lra].
  - repeat split; simpl; lra.
  - intros fs Hfs. vm_compute in Hfs.
    repeat (apply elem_of_cons in Hfs as [->|Hfs]); try (vm_compute; split; discriminate).
    inversion Hfs.
  - vm_compute. lia.
Defined.

(* ===================================================================== *)
(** * Indicator maths: further properties                                 *)
(* ===================================================================== *)

Section IndicatorFacts.

Lemma at_head (l : list Q) : at_ l 0 = default 0%Q (head l).
Proof. destruct l; reflexivity. Qed.

Lemma at_last (l : list Q) : at_ l (length l - 1) = default 0%Q (last l).
Proof.
  unfold at_. induction l as [|x l _] using rev_ind; [reflexivity|].
  rewrite length_app, last_snoc. simpl.
  replace (length l + 1 - 1)%nat with (length l) by lia.
  rewrite app_nth2 by lia. rewrite Nat.sub_diag. reflexivity.
Qed.

Lemma head_rev {A} (l : list A) : head (rev l) = last l.
Proof.
  induction l as [|x l _] using rev_ind; [reflexivity|].
  rewrite rev_unit, last_snoc. reflexivity.
Qed.

Lemma last_rev {A} (l : list A) : last (rev l) = head l.
Proof. rewrite <- head_rev, rev_involutive. reflexivity. Qed.

(** Whether [toAscending] reverses. *)
Definition descending (closes : list Q) : bool :=
  (2 <=? length closes)%nat && Num.Qltb (at_ closes (length closes - 1)) (at_ closes 0).

Lemma descending_rev closes : descending closes = true -> descending (rev closes) = false.
Proof.
  unfold descending. rewrite !at_head, !at_last, head_rev, last_rev, length_rev.
  intros E. apply andb_true_iff in E as [_ E]. apply Qltb_lt in E.
  apply andb_false_iff. right. apply Qltb_ge. lra.
Qed.

(** The running sum of [technicals.ts] is the [reduce] of the slice. *)
Lemma forRange_sum (values : list Q) count : forall lo s,
  (lo + count <= length values)%nat ->
  forRange lo count (fun i sum => (sum + at_ values i)%Q) s
  = fold_left Qplus (take count (drop lo values)) s.
Proof.
  induction count as [|k IH]; intros lo s Hlen; [reflexivity|].
  cbn [forRange]. rewrite IH by lia.
  destruct (drop lo values) as [|x r] eqn:E.
  { apply (f_equal length) in E. rewrite length_drop in E. simpl in E. lia. }
  assert (Hx : at_ values lo = x).
  { unfold at_. rewrite <- (Nat.add_0_r lo), <- nth_skipn.
    change (skipn lo values) with (drop lo values). rewrite E. reflexivity. }
  assert (Hr : drop (S lo) values = r).
  { replace (S lo) with (lo + 1)%nat by lia. rewrite <- drop_drop, E. reflexivity. }
  rewrite Hx, Hr. reflexivity.
Qed.

(** Sums of a window whose values lie in [[lo, hi]]. *)
Lemma fold_left_Qplus_bounds (lo hi : Q) (l : list Q) : forall a,
  (forall x, x ∈ l -> (lo <= x /\ x <= hi)%Q) ->
  (a + inject_Z (Z.of_nat (length l)) * lo <= fold_left Qplus l a)%Q /\
  (fold_left Qplus l a <= a + inject_Z (Z.of_nat (length l)) * hi)%Q.
Proof.
  induction l as [|x r IH]; intros a Hall.
  - cbn [fold_left length]. change (inject_Z (Z.of_nat 0)) with 0%Q. split; lra.
  - cbn [fold_left length]. rewrite inject_Z_S.
    destruct (Hall x) as [Hlo Hhi]; [left|].
    destruct (IH (a + x)%Q) as [H1 H2].
    { intros y Hy. apply Hall. right. exact Hy. }
    split; lra.
Qed.

(** The closing arithmetic of the RSI is a function of the gain and the
    loss up to equality of rationals. *)
Lemma rsi_closing_eq (g l g' l' : Q) (n : nat) :
  (0 < n)%nat -> (0 <= g)%Q -> (0 <= l)%Q -> (g == g')%Q -> (l == l')%Q ->
  let close (g l : Q) :=
    if Num.eq (Fin l / Num.ofNat n)%js (Fin 0) then Fin 100
    else (Fin 100 - Fin 100 / (Fin 1 + (Fin g / Num.ofNat n) / (Fin l / Num.ofNat n)))%js in
  exists r r', close g l = Fin r /\ close g' l' = Fin r' /\ (r == r')%Q.
Proof.
  intros Hn Hg Hl Eg El. cbn zeta.
  assert (Hg' : (0 <= g')%Q) by lra. assert (Hl' : (0 <= l')%Q) by lra.
  destruct (rsi_closing g l n Hn Hg Hl) as [Hz Hnz].
  destruct (rsi_closing g' l' n Hn Hg' Hl') as [Hz' Hnz'].
  cbn zeta in *.
  destruct (Num.eq (Fin l / Num.ofNat n)%js (Fin 0)) eqn:E.
  - assert (E' : Num.eq (Fin l' / Num.ofNat n)%js (Fin 0) = true).
    { apply Hz'. rewrite <- El. apply Hz. reflexivity. }
    rewrite E'. exists 100%Q, 100%Q. repeat split; reflexivity.
  - assert (Hl0 : ~ (l == 0)%Q) by (intros Hq; apply Hz in Hq; congruence).
    assert (Hl0' : ~ (l' == 0)%Q) by (rewrite <- El; exact Hl0).
    assert (E' : Num.eq (Fin l' / Num.ofNat n)%js (Fin 0) = false).
    { apply not_true_iff_false. intros Hq. apply Hz' in Hq. contradiction. }
    rewrite E'. clear Hz Hz' Hnz Hnz'.
    pose proof (ofNat_pos n Hn) as Hq.
    set (q := inject_Z (Z.of_nat n)) in *.
    assert (Hq0 : Num.Qeqb q 0 = false) by (apply Qeqb_neq; lra).
    unfold Num.ofNat. fold q. simpl. rewrite Hq0. simpl.
    assert (Hlq : (0 < l / q)%Q) by (apply Qdiv_pos; [lra | exact Hq]).
    assert (Hlq' : (0 < l' / q)%Q) by (apply Qdiv_pos; [lra | exact Hq]).
    assert (Hgq : (0 <= g / q)%Q) by (apply Qdiv_nonneg; [exact Hg | exact Hq]).
    assert (Hgq' : (0 <= g' / q)%Q) by (apply Qdiv_nonneg; [exact Hg' | exact Hq]).
    assert (E1 : Num.Qeqb (l / q) 0 = false) by (apply Qeqb_neq; lra).
    assert (E1' : Num.Qeqb (l' / q) 0 = false) by (apply Qeqb_neq; lra).
    rewrite E1, E1'.
    assert (Hrs : (0 <= g / q / (l / q))%Q) by (apply Qdiv_nonneg; assumption).
    assert (Hrs' : (0 <= g' / q / (l' / q))%Q) by (apply Qdiv_nonneg; assumption).
    assert (E2 : Num.Qeqb (1 + g / q / (l / q)) 0 = false) by (apply Qeqb_neq; lra).
    assert (E2' : Num.Qeqb (1 + g' / q / (l' / q)) 0 = false) by (apply Qeqb_neq; lra).
    rewrite E2, E2'. eexists _, _. split; [reflexivity|]. split; [reflexivity|].
    rewrite Eg, El. reflexivity.
Qed.

(** The two gain/loss loops walk the same deltas. *)
Lemma rsi_loops_agree (c v : list Q) count : forall lo1 lo2 g l g' l',
  (forall i, (i < count)%nat ->
     at_ c (lo1 + i) = at_ v (lo2 + i) /\ at_ c (lo1 + i - 1) = at_ v (lo2 + i - 1)) ->
  (g == g')%Q -> (l == l')%Q ->
  let a := forRange lo1 count (Indicator.rsiStep c) (g, l) in
  let b := forRange lo2 count (Technicals.rsiStep v) (g', l') in
  (a.1 == b.1)%Q /\ (a.2 == b.2)%Q.
Proof.
  induction count as [|k IH]; intros lo1 lo2 g l g' l' Hat Eg El; cbn zeta.
  - simpl. split; assumption.
  - cbn [forRange].
    destruct (Hat 0%nat) as [H0 H1]; [lia|]. rewrite !Nat.add_0_r in H0, H1.
    set (d := (at_ v lo2 - at_ v (lo2 - 1))%Q).
    assert (Es1 : Indicator.rsiStep c lo1 (g, l)
                  = if Num.Qltb 0 d then ((g + d)%Q, l) else (g, (l - d)%Q)).
    { unfold Indicator.rsiStep. cbn [fst snd]. rewrite H0, H1. reflexivity. }
    assert (Es2 : Technicals.rsiStep v lo2 (g', l')
                  = if Num.Qleb 0 d then ((g' + d)%Q, l') else (g', (l' - d)%Q)).
    { reflexivity. }
    rewrite Es1, Es2. clear Es1 Es2.
    assert (Hnext : forall i, (i < k)%nat ->
              at_ c (S lo1 + i) = at_ v (S lo2 + i) /\
              at_ c (S lo1 + i - 1) = at_ v (S lo2 + i - 1)).
    { intros i Hi. destruct (Hat (S i)) as [Ha Hb]; [lia|].
      replace (S lo1 + i)%nat with (lo1 + S i)%nat by lia.
      replace (S lo2 + i)%nat with (lo2 + S i)%nat by lia. split; assumption. }
    destruct (Num.Qltb 0 d) eqn:Elt; destruct (Num.Qleb 0 d) eqn:Ele.
    + apply IH; [exact Hnext | rewrite Eg; reflexivity | exact El].
    + apply Qltb_lt in Elt. apply Qleb_gt in Ele. lra.
    + apply Qltb_ge in Elt. apply Qleb_le in Ele.
      assert (Hd : (d == 0)%Q) by lra.
      apply IH; [exact Hnext | rewrite Hd, Eg; ring | rewrite Hd, El; ring].
    + apply IH; [exact Hnext | exact Eg | rewrite El; reflexivity].
Qed.

(** What [toAscending] returns. *)
Lemma toAscending_spec (closes : list Q) :
  let out := Indicator.toAscending closes in
  (out = closes \/ out = rev closes) /\
  match head out, last out with
  | Some first, Some final => (first <= final)%Q
  | _, _ => True
  end /\
  Indicator.toAscending out = out.
Proof.
  cbn zeta. unfold Indicator.toAscending. fold (descending closes).
  destruct (descending closes) eqn:E.
  - split; [right; reflexivity|].
    pose proof (descending_rev closes E) as Hrev.
    split.
    + rewrite head_rev, last_rev.
      unfold descending in E. apply andb_true_iff in E as [_ E]. apply Qltb_lt in E.
      rewrite at_head, at_last in E.
      destruct (last closes), (head closes); simpl in E; try exact I. lra.
    + fold (descending (rev closes)). rewrite Hrev. reflexivity.
  - split; [left; reflexivity|]. split.
    + unfold descending in E. rewrite at_head, at_last in E.
      destruct closes as [|x [|y r]]; [exact I | simpl; lra |].
      cbn [length Nat.leb andb] in E. apply Qltb_ge in E.
      destruct (last (x :: y :: r)); [exact E | exact I].
    + fold (descending closes). rewrite E. reflexivity.
Qed.

End IndicatorFacts.

(** X1: [toAscending] returns the series or its reversal; the first
    close of the result is never above its last close; and applying it a
    second time changes nothing. *)
Theorem toAscending_orders_the_ends (closes : list Q) :
  let out := Indicator.toAscending closes in
  (out = closes \/ out = rev closes) /\
  match head out, last out with
  | Some first, Some final => (first <= final)%Q
  | _, _ => True
  end /\
  Indicator.toAscending out = out.
Proof. apply toAscending_spec. Qed.

(** X2: the exported [sma] of technicals.ts (a running sum over the last
    [period] values) and the [sma] of ragRetriever.ts (a [reduce] over
    the slice) return the same result on every input. *)
Theorem sma_implementations_agree (values : list Q) (n : nat) :
  Technicals.sma values n = Indicator.sma values n.
Proof.
  unfold Technicals.sma, Indicator.sma.
  destruct (length values <? n)%nat eqn:E; [reflexivity|]. apply Nat.ltb_ge in E.
  cbn zeta. rewrite forRange_sum by lia. unfold Qsum.
  rewrite take_ge by (rewrite length_drop; lia). reflexivity.
Qed.

(** X3: when the window holds at least one value and the series is long
    enough, the simple moving average is a finite number that lies
    between any lower and upper bound of the values in the window. *)
Theorem sma_within_window (values : list Q) (n : nat) (lo hi : Q) :
  (0 < n)%nat -> (n <= length values)%nat ->
  (forall x, x ∈ lastN n values -> (lo <= x /\ x <= hi)%Q) ->
  exists m, Indicator.sma values n = Some (Fin m) /\ (lo <= m)%Q /\ (m <= hi)%Q.
Proof.
  intros Hn Hlen Hall. unfold Indicator.sma.
  destruct (length values <? n)%nat eqn:E; [apply Nat.ltb_lt in E; lia|]. clear E.
  cbn zeta. fold (lastN n values). unfold Qsum.
  destruct (fold_left_Qplus_bounds lo hi (lastN n values) 0%Q Hall) as [H1 H2].
  rewrite (length_lastN values n Hlen) in H1, H2.
  pose proof (ofNat_pos n Hn) as Hq. unfold Num.ofNat.
  set (q := inject_Z (Z.of_nat n)) in *. set (s := fold_left Qplus (lastN n values) 0%Q) in *.
  simpl. assert (Hq0 : Num.Qeqb q 0 = false) by (apply Qeqb_neq; lra). rewrite Hq0.
  eexists. split; [reflexivity|]. split.
  - apply Qle_shift_div_l; [exact Hq | lra].
  - apply Qle_shift_div_r; [exact Hq | lra].
Qed.

Lemma sma_within_window_witness :
  exists m, Indicator.sma [10; 20; 30; 40]%Q 2 = Some (Fin m) /\ (30 <= m)%Q /\ (m <= 40)%Q.
Proof.
  apply (sma_within_window [10; 20; 30; 40]%Q 2 30 40).
  - lia.
  - simpl. lia.
  - intros x Hx. vm_compute in Hx.
    apply elem_of_cons in Hx as [->|Hx]; [split; discriminate|].
    apply elem_of_cons in Hx as [->|Hx]; [split; discriminate|].
    inversion Hx.
Defined.

(** X4: for a period of at least one, [rsiFromCloses] of ragRetriever.ts
    and [rsi] of technicals.ts are defined on the same series (those
    with more than [n] closes) and return the same number, although one
    counts a zero delta as a loss of zero and the other as a gain of
    zero. *)
Theorem rsi_implementations_agree (values : list Q) (n : nat) :
  (0 < n)%nat ->
  if (length values <=? n)%nat
  then Indicator.rsiFromCloses values n = None /\ Technicals.rsi values n = None
  else exists r r',
         Indicator.rsiFromCloses values n = Some r /\
         Technicals.rsi values n = Some (Fin r') /\ (r == r')%Q.
Proof.
  intros Hn. unfold Indicator.rsiFromCloses, Technicals.rsi.
  destruct (length values <=? n)%nat eqn:E.
  - apply Nat.leb_le in E.
    destruct (length values <? n + 1)%nat eqn:E2; [split; reflexivity|].
    apply Nat.ltb_ge in E2. lia.
  - apply Nat.leb_gt in E.
    destruct (length values <? n + 1)%nat eqn:E2; [apply Nat.ltb_lt in E2; lia|]. clear E2.
    cbn zeta. set (closes := lastN (1 + n) values).
    assert (Hlc : length closes = (1 + n)%nat) by (apply length_lastN; lia).
    rewrite Hlc. replace (1 + n - 1)%nat with n by lia.
    pose proof (forRange_gainLoss closes (Indicator.rsiStep closes)
                  (Indicator_rsiStep_ok closes) n 1 0%Q 0%Q) as Hinv.
    cbn zeta in Hinv. destruct Hinv as (Hg & Hl & _); [lra | lra |].
    destruct (rsi_loops_agree closes values n 1 (length values - n) 0%Q 0%Q 0%Q 0%Q)
      as [Eg El]; [|reflexivity|reflexivity|].
    { intros i Hi. unfold closes. rewrite !at_lastN by lia. split; f_equal; lia. }
    cbn zeta in Eg, El.
    destruct (forRange 1 n (Indicator.rsiStep closes) (0%Q, 0%Q)) as [g l].
    destruct (forRange (length values - n) n (Technicals.rsiStep values) (0%Q, 0%Q))
      as [g' l'].
    cbn [fst snd] in *.
    destruct (rsi_closing_eq g l g' l' n Hn Hg Hl Eg El) as (r & r' & Er & Er' & Err).
    cbn zeta in Er, Er'.
    destruct (Num.eq (Fin l / Num.ofNat n)%js (Fin 0));
      destruct (Num.eq (Fin l' / Num.ofNat n)%js (Fin 0)).
    all: exists r, r'; split; [first [congruence | rewrite Er; reflexivity]|];
      split; [congruence | exact Err].
Qed.

Lemma rsi_implementations_agree_witness :
  exists r r',
    Indicator.rsiFromCloses [1; 2; 2; 1; 3]%Q 3 = Some r /\
    Technicals.rsi [1; 2; 2; 1; 3]%Q 3 = Some (Fin r') /\ (r == r')%Q.
Proof. apply (rsi_implementations_agree [1; 2; 2; 1; 3]%Q 3). lia. Defined.

(** X5: momentum takes precedence over the distance to the MA50 (in
    exact arithmetic: the momentum is the exact quotient, where the code
    rounds it in binary64, so that closes within a rounding error of the
    0.5 % threshold can fall on its other side).  When live closes are at
    hand, the close of 15 sessions ago is positive and the last close is
    more than 0.5 % above it, [getQuickStats] assembles the trend "up",
    whatever the dataset row, the quote and the MA50 say; more than
    0.5 % below it, the trend is "down". *)
Theorem momentum_decides_the_trend (row : option IndicatorRow) (liveQ liveM : option Q)
    (closes : list Q) :
  (16 <= length closes)%nat ->
  let a := at_ closes (length closes - 16) in
  let b := at_ closes (length closes - 1) in
  (0 < a)%Q ->
  ((1005 # 1000) * a < b ->
   qs_maTrend (Rag.assemble row liveQ liveM (Some closes)) = Some up)%Q /\
  (b < (995 # 1000) * a ->
   qs_maTrend (Rag.assemble row liveQ liveM (Some closes)) = Some down)%Q.
Proof.
  intros Hlen a b Ha. rewrite assemble_maTrend.
  assert (Hw : workingCloses row (Some closes) = closes).
  { destruct closes; [simpl in Hlen; lia | reflexivity]. }
  rewrite Hw. unfold Indicator.momentumPct.
  destruct (length closes <? 15 + 1)%nat eqn:E; [apply Nat.ltb_lt in E; lia|]. clear E.
  cbn zeta. replace (length closes - (15 + 1))%nat with (length closes - 16)%nat by lia.
  fold a b.
  assert (Ha0 : Num.Qeqb a 0 = false) by (apply Qeqb_neq; lra). rewrite Ha0.
  simpl Num.mul. rewrite Ha0. simpl.
  set (m := ((b / a + - (1)) * 100)%Q).
  assert (Hm : (m == (b - a) / a * 100)%Q) by (unfold m; field; lra).
  split; intros Hb; unfold Indicator.trendFromMomentum, Num.gt, Num.lt.
  - assert (Hgt : Num.Qltb 0.5 m = true).
    { apply Qltb_lt. rewrite Hm.
      assert ((5 # 1000) < (b - a) / a)%Q by (apply Qlt_shift_div_l; lra). lra. }
    rewrite Hgt. reflexivity.
  - assert (Hd : ((b - a) / a < - (5 # 1000))%Q) by (apply Qlt_shift_div_r; lra).
    assert (Hngt : Num.Qltb 0.5 m = false) by (apply Qltb_ge; rewrite Hm; lra).
    assert (Hlt : Num.Qltb m (-0.5) = true) by (apply Qltb_lt; rewrite Hm; lra).
    rewrite Hngt, Hlt. reflexivity.
Qed.

Lemma momentum_decides_the_trend_witness :
  qs_maTrend (Rag.assemble None None None
                (Some [100; 1; 1; 1; 1; 1; 1; 1; 1; 1; 1; 1; 1; 1; 1; 101]%Q)) = Some up.
Proof.
  apply (momentum_decides_the_trend None None None
           [100; 1; 1; 1; 1; 1; 1; 1; 1; 1; 1; 1; 1; 1; 1; 101]%Q).
  - simpl. lia.
  - reflexivity.
  - reflexivity.
Defined.

(* ===================================================================== *)
(** * ragRetriever.ts: rows, caches and closes, further properties        *)
(* ===================================================================== *)

(** A series whose first element is not above its last. *)
Definition oriented (h : list Q) : Prop :=
  match head h, last h with
  | Some first, Some final => (first <= final)%Q
  | _, _ => True
  end.

(** A Finnhub that quotes 0, the answer it gives for a symbol it does not
    know. *)
Definition zeroQuoteEnv : Rag.Env :=
  {| Rag.FINNHUB_KEY := lit "k";
     Rag.network := fun req _ =>
       match req with
       | Rag.FinnhubQuote _ _ => (Rag.Http true (Some (JObj [(lit "c", JNum 0)])), 5%N)
       | _ => (Rag.NetworkError, 0%N)
       end;
     Rag.datasetModule := Some None |}.

(** A dataset download whose second entry is [null]. *)
Definition brokenDatasetEnv : Rag.Env :=
  {| Rag.FINNHUB_KEY := [];
     Rag.network := fun req _ =>
       match req with
       | Rag.DatasetJson =>
           (Rag.Http true (Some (JArr [JObj [(lit "ticker", JStr (lit "AAPL"))]; JNull])), 3%N)
       | _ => (Rag.NetworkError, 0%N)
       end;
     Rag.datasetModule := Some None |}.

(** A Finnhub that answers the candle request with three closes, after
    7 ms. *)
Definition candleEnv : Rag.Env :=
  {| Rag.FINNHUB_KEY := lit "k";
     Rag.network := fun req _ =>
       match req with
       | Rag.FinnhubCandle _ _ _ _ =>
           (Rag.Http true (Some (JObj [(lit "c", JArr [JNum 10; JNum 11; JNum 12])])), 7%N)
       | _ => (Rag.NetworkError, 0%N)
       end;
     Rag.datasetModule := Some None |}.

Definition blankWorld : Rag.World :=
  {| Rag.clock := 0; Rag.quoteCache := ∅; Rag.metricCache := ∅; Rag.candleCache := ∅;
     Rag.datasetCache := ∅; Rag.httpLog := [] |}.

Section RagMore.
Import Rag.
Context `{Host} `{Env}.

Lemma toAscending_oriented l : oriented (Indicator.toAscending l).
Proof. apply (toAscending_spec l). Qed.

Lemma oriented_nil : oriented [].
Proof. exact I. Qed.

(** [normalizeRow] raises exactly on [null] and on a truthy ticker that
    is not a string. *)
Lemma normalizeRow_throw raw :
  let tk := Json.prop "ticker" (Some raw) in
  normalizeRow raw = Throw <->
  raw = JNull \/ (Json.truthy tk = true /\ forall s, tk <> Some (JStr s)).
Proof.
  cbn zeta. unfold normalizeRow. cbn zeta.
  destruct (Json.truthy (Json.prop "ticker" (Some raw))) eqn:Et.
  - destruct (Json.prop "ticker" (Some raw)) as [[| | |s| |]|] eqn:Ep.
    all: try (split; [intros _; right; split; [reflexivity | intros s; discriminate] | reflexivity]).
    destruct raw.
    all: try (split; [discriminate | intros [E|[_ E]]; [discriminate E | exfalso; apply (E s); reflexivity]]).
    split; [intros _; left; reflexivity | reflexivity].
  - destruct raw.
    all: try (split; [discriminate | intros [E|[E _]]; discriminate E]).
    split; [intros _; left; reflexivity | reflexivity].
Qed.

Lemma normalizeRow_oriented raw row :
  normalizeRow raw = Ok row -> exists h, ir_historical row = Some h /\ oriented h.
Proof.
  unfold normalizeRow. cbn zeta.
  set (hist := match Json.nonEmptyArray (Json.prop "historical" (Some raw)) with
               | Some (first :: rest) => _
               | _ => _
               end).
  assert (Hh : oriented hist).
  { unfold hist. destruct (Json.nonEmptyArray (Json.prop "historical" (Some raw)))
      as [[|first rest]|].
    - destruct (Json.nonEmptyArray _); [apply toAscending_oriented | exact I].
    - destruct first; apply toAscending_oriented.
    - destruct (Json.nonEmptyArray _); [apply toAscending_oriented | exact I]. }
  clearbody hist.
  destruct (Json.truthy _); [destruct (Json.prop "ticker" _) as [[| | |s| |]|]|];
    try discriminate; destruct raw; try discriminate;
    intros [= <-]; exists hist; (split; [reflexivity | exact Hh]).
Qed.

(** [arr.map(normalizeRow)] raises exactly when one element does. *)
Lemma mapNormalize_throw items :
  mapNormalize items = Throw <-> exists bad, bad ∈ items /\ normalizeRow bad = Throw.
Proof.
  induction items as [|raw rest IH]; cbn [mapNormalize].
  - split; [discriminate | intros (bad & Hin & _); inversion Hin].
  - destruct (normalizeRow raw) eqn:E.
    + destruct (mapNormalize rest) eqn:Er.
      * split; [discriminate|]. intros (bad & Hin & Hb).
        apply elem_of_cons in Hin as [->|Hin]; [congruence|].
        destruct IH as [_ IH]. discriminate IH. eauto.
      * split; [|reflexivity]. intros _. destruct IH as [IH _].
        destruct (IH eq_refl) as (bad & Hin & Hb). exists bad. split; [right; exact Hin | exact Hb].
    + split; [|reflexivity]. intros _. exists raw. split; [left | exact E].
Qed.

(** A download with a row on which [normalizeRow] raises is dropped as a
    whole, and nothing is stored. *)
Lemma loadDatasetJson_bad_row w items lat bad :
  stale (datasetCache w !! datasetKey) (clock w) TTL_DATASET ->
  network DatasetJson (clock w) = (Http true (Some (JArr items)), lat) ->
  bad ∈ items -> normalizeRow bad = Throw ->
  loadDatasetJson w = (Ok None, afterFetch DatasetJson w).
Proof.
  intros Hst Hnet Hin Hbad. apply fresh_stale in Hst.
  assert (Hmap : mapNormalize items = Throw) by (apply mapNormalize_throw; eauto).
  unfold loadDatasetJson, bind, gets, now. rewrite Hst.
  unfold tryCatch, bind, fetch, afterFetch. rewrite Hnet. simpl. rewrite Hmap. reflexivity.
Qed.

(** ** Reading an entry back *)

Lemma quote_stored ticker w v w1 :
  stale (quoteCache w !! norm ticker) (clock w) TTL_QUOTE ->
  getLiveQuote ticker w = (Ok v, w1) ->
  quoteCache w1 !! norm ticker = Some (clock w1, v).
Proof.
  intros Hst E. destruct (getLiveQuote_miss ticker w Hst) as (q & _ & E2).
  cbn zeta in E2. rewrite E2 in E. injection E as <- <-.
  cbn [quoteCache setQuoteCache clock]. apply lookup_insert_eq.
Qed.

Lemma metric_stored ticker w v w1 :
  stale (metricCache w !! norm ticker) (clock w) TTL_METRIC ->
  getLiveMetrics ticker w = (Ok v, w1) ->
  metricCache w1 !! norm ticker = Some (clock w1, v).
Proof.
  intros Hst E. destruct (getLiveMetrics_miss ticker w Hst) as (q & _ & E2).
  cbn zeta in E2. rewrite E2 in E. injection E as <- <-.
  cbn [metricCache setMetricCache clock]. apply lookup_insert_eq.
Qed.

(** ** Candles *)

(** Every stored candle series has at most 252 closes: what
    [getLiveCloses] stores. *)
Definition candlesBounded (w : World) : Prop :=
  forall k T v, candleCache w !! k = Some (T, v) -> (length v <= 252)%nat.

Lemma length_lastN_le {A} (k : nat) (l : list A) : (length (lastN k l) <= k)%nat.
Proof. unfold lastN. rewrite length_drop. lia. Qed.

Lemma candleData_bounded c v : candleData c = Some v -> (length v <= 252)%nat.
Proof.
  unfold candleData. destruct (Json.nonEmptyArray _); [|discriminate].
  intros [= <-]. apply length_lastN_le.
Qed.

Lemma getLiveCloses_bounded ticker w :
  candlesBounded w ->
  exists live w1,
    getLiveCloses ticker w = (Ok live, w1) /\
    (forall v, live = Some v -> (length v <= 252)%nat) /\
    candlesBounded w1.
Proof.
  intros Hinv.
  destruct (fresh_or_stale (candleCache w !! norm ticker) (clock w) TTL_CANDLE)
    as [(T & v & E & Hlt) | Hst].
  - exists (Some v), w. split; [apply (getLiveCloses_hit ticker w T v E Hlt)|].
    split; [|exact Hinv]. intros v' [= <-]. exact (Hinv _ _ _ E).
  - destruct (getLiveCloses_miss ticker w Hst) as (c & _ & Er). cbn zeta in Er.
    eexists _, _. split; [exact Er|]. split; [apply candleData_bounded|].
    unfold storeCandles. destruct (candleData c) as [closes|] eqn:Ec.
    + intros k T v. cbn [candleCache setCandleCache].
      destruct (decide (k = norm ticker)) as [->|Hne].
      * rewrite lookup_insert_eq. intros [= _ <-]. exact (candleData_bounded _ _ Ec).
      * rewrite lookup_insert_ne by congruence.
        rewrite afterFinnhub_candleCache. apply Hinv.
    + intros k T v. rewrite afterFinnhub_candleCache. apply Hinv.
Qed.

Lemma getRecentCloses_bounded ticker w :
  candlesBounded w ->
  exists closes w',
    getRecentCloses ticker w = (Ok closes, w') /\
    (length closes <= 252)%nat /\ candlesBounded w'.
Proof.
  intros Hinv. unfold getRecentCloses, bind.
  destruct (getLiveCloses_bounded (norm ticker) w Hinv) as (live & w1 & -> & Hlen & Hinv1).
  assert (Hrow : exists closes w',
            (let* row := loadRow (norm ticker) in
             match row with
             | None => ret []
             | Some row =>
                 match ir_historical row with
                 | Some (x :: r) => ret (lastN 252 (x :: r))
                 | _ => match ir_price row with Some p => ret [p] | None => ret [] end
                 end
             end) w1 = (Ok closes, w') /\
            (length closes <= 252)%nat /\ candlesBounded w').
  { unfold bind. destruct (loadRow_run (norm ticker) w1) as (row & w2 & -> & _ & _ & Ec).
    assert (Hinv2 : candlesBounded w2) by (unfold candlesBounded; rewrite Ec; exact Hinv1).
    destruct row as [row|].
    2: { eexists _, _. split; [reflexivity|]. split; [simpl; lia | exact Hinv2]. }
    destruct (ir_historical row) as [[|x r]|].
    2: { eexists _, _. split; [reflexivity|]. split; [apply length_lastN_le | exact Hinv2]. }
    all: destruct (ir_price row); eexists _, _;
      (split; [reflexivity|]; split; [simpl; lia | exact Hinv2]). }
  destruct live as [[|x r]|]; [exact Hrow | | exact Hrow].
  eexists _, _. split; [reflexivity|]. split; [apply Hlen; reflexivity | exact Hinv1].
Qed.

(** ** A quote of zero *)

Lemma quoteData_zero q z : Json.prop "c" q = Some (JNum z) -> (z == 0)%Q -> quoteData q = None.
Proof.
  intros Ec Hz. unfold quoteData. cbn zeta. rewrite Ec. simpl.
  apply Qeqb_eq in Hz. rewrite Hz. reflexivity.
Qed.

End RagMore.

Section RagExtras.
Import Rag.
Context `{Host} `{Env}.

(** X6: [normalizeRow] raises on a [null] row and on a row whose ticker
    is truthy but not a string (a number, say): such a row is not
    skipped.  On a row that it accepts, the ticker is the trimmed,
    upper-cased string of the input (empty when the input has none), and
    the [historical] series never starts above its last close. *)
Theorem normalizeRow_rejects_null_and_odd_tickers (raw : json) :
  let tk := Json.prop "ticker" (Some raw) in
  (raw = JNull \/ (Json.truthy tk = true /\ forall s, tk <> Some (JStr s)) ->
   normalizeRow raw = Throw) /\
  (forall row, normalizeRow raw = Ok row ->
     ir_ticker row = norm (match tk with Some (JStr s) => s | _ => [] end) /\
     exists h, ir_historical row = Some h /\ oriented h).
Proof.
  cbn zeta. split; [apply normalizeRow_throw|].
  intros row E. split; [|apply (normalizeRow_oriented raw); exact E].
  revert E. unfold normalizeRow. cbn zeta.
  destruct (Json.truthy (Json.prop "ticker" (Some raw))) eqn:Et.
  - destruct (Json.prop "ticker" (Some raw)) as [[| | |s| |]|]; try discriminate.
    destruct raw; try discriminate; intros [= <-]; reflexivity.
  - destruct (Json.prop "ticker" (Some raw)) as [[|b|q|s| |]|]; try discriminate Et.
    all: destruct raw; try discriminate; intros [= <-]; try reflexivity.
    all: destruct s; [reflexivity | discriminate Et].
Qed.

(** X7: one bad entry spoils the whole download.  When the dataset JSON
    is an array with an element on which [normalizeRow] raises (a [null],
    say), [loadDatasetJson] returns [null] although the response was a
    success, and stores nothing: the cache is as before, and the next
    call downloads again. *)
Theorem loadDatasetJson_drops_download_with_bad_row (w : World) (items : list json)
    (lat : N) (bad : json) :
  stale (datasetCache w !! datasetKey) (clock w) TTL_DATASET ->
  network DatasetJson (clock w) = (Http true (Some (JArr items)), lat) ->
  bad ∈ items -> normalizeRow bad = Throw ->
  exists w1,
    loadDatasetJson w = (Ok None, w1) /\
    datasetCache w1 = datasetCache w /\
    httpLog w1 = httpLog w ++ [DatasetJson] /\
    stale (datasetCache w1 !! datasetKey) (clock w1) TTL_DATASET.
Proof.
  intros Hst Hnet Hin Hbad. exists (afterFetch DatasetJson w).
  split; [eapply loadDatasetJson_bad_row; eauto|].
  split; [reflexivity|]. split; [reflexivity|].
  unfold afterFetch. cbn [datasetCache clock setClock logRequest].
  destruct (datasetCache w !! datasetKey) as [[T rows]|]; [|exact I].
  simpl in *. lia.
Qed.

(** X8: what a quote lookup found is remembered for 60 s, also when it
    found nothing.  After [getLiveQuote] has gone to the provider, every
    call for the same ticker made before the completion time plus
    [TTL_QUOTE] (in any world that still holds the entry) returns the
    same value, an undefined price included, and leaves the world, and
    so the HTTP log, untouched. *)
Theorem quote_lookup_is_remembered (ticker : jsstring) (w w1 w2 : World) (v : option Q) :
  stale (quoteCache w !! norm ticker) (clock w) TTL_QUOTE ->
  getLiveQuote ticker w = (Ok v, w1) ->
  quoteCache w2 !! norm ticker = quoteCache w1 !! norm ticker ->
  clock w2 < clock w1 + TTL_QUOTE ->
  getLiveQuote ticker w2 = (Ok v, w2).
Proof.
  intros Hst E Hsame Hlt.
  apply (getLiveQuote_hit ticker w2 (clock w1) v); [|exact Hlt].
  rewrite Hsame. eapply quote_stored; eauto.
Qed.

(** X9: what [getRecentCloses] returns holds at most 252 closes, in a
    world whose candle cache holds series of at most 252 closes; and the
    call leaves the world in that state. *)
Theorem getRecentCloses_at_most_252 (ticker : jsstring) (w w' : World) (closes : list Q) :
  candlesBounded w ->
  getRecentCloses ticker w = (Ok closes, w') ->
  (length closes <= 252)%nat /\ candlesBounded w'.
Proof.
  intros Hb E.
  destruct (getRecentCloses_bounded ticker w Hb) as (c & w1 & E1 & Hlen & Hb1).
  rewrite E1 in E. injection E as <- <-. split; assumption.
Qed.

(** X10: a quote of 0 is no quote.  When the provider answers a quote
    request with [c = 0] (what Finnhub sends for a symbol it does not
    know), [getLiveQuote] returns an undefined price and stores that in
    the quote cache. *)
Theorem zero_quote_is_ignored (ticker : jsstring) (w w1 : World) (q : option json) (z : Q) :
  stale (quoteCache w !! norm ticker) (clock w) TTL_QUOTE ->
  finnhubGet (FinnhubQuote (norm ticker)) w = (Ok q, w1) ->
  Json.prop "c" q = Some (JNum z) -> (z == 0)%Q ->
  exists w2,
    getLiveQuote ticker w = (Ok None, w2) /\
    quoteCache w2 !! norm ticker = Some (clock w2, None).
Proof.
  intros Hst Eq Ec Hz.
  destruct (getLiveQuote_miss ticker w Hst) as (q' & Eq' & Er). cbn zeta in Eq', Er.
  rewrite Eq in Eq'. injection Eq' as <- _.
  rewrite (quoteData_zero q z Ec Hz) in Er.
  eexists. split; [exact Er|]. eapply quote_stored; eauto.
Qed.

End RagExtras.

Lemma loadDatasetJson_drops_download_with_bad_row_witness :
  exists w1,
    Rag.loadDatasetJson (H := asciiHost) (H0 := brokenDatasetEnv) blankWorld = (Ok None, w1) /\
    Rag.datasetCache w1 = ∅.
Proof.
  destruct (loadDatasetJson_drops_download_with_bad_row (H := asciiHost)
              (H0 := brokenDatasetEnv) blankWorld
              [JObj [(lit "ticker", JStr (lit "AAPL"))]; JNull] 3%N JNull)
    as (w1 & E & Hc & _).
  - exact I.
  - reflexivity.
  - right. left.
  - reflexivity.
  - exists w1. split; [exact E | exact Hc].
Defined.

Lemma quote_lookup_is_remembered_witness :
  let w := blankWorld in
  let w1 := (Rag.getLiveQuote (H := asciiHost) (H0 := zeroQuoteEnv) (lit "zzzz") w).2 in
  Rag.getLiveQuote (H := asciiHost) (H0 := zeroQuoteEnv) (lit "zzzz") w1 = (Ok None, w1) /\
  Rag.httpLog w1 = [Rag.FinnhubQuote (lit "ZZZZ") (lit "k")].
Proof.
  cbn zeta. split; [|reflexivity].
  set (w1 := (Rag.getLiveQuote (H := asciiHost) (H0 := zeroQuoteEnv) (lit "zzzz") blankWorld).2).
  apply (quote_lookup_is_remembered (H := asciiHost) (H0 := zeroQuoteEnv)
           (lit "zzzz") blankWorld w1 w1 None).
  - exact I.
  - reflexivity.
  - reflexivity.
  - vm_compute. reflexivity.
Defined.

Lemma getRecentCloses_at_most_252_witness :
  (Rag.getRecentCloses (H := asciiHost) (H0 := candleEnv) (lit "aapl") blankWorld).1
  = Ok [10; 11; 12]%Q /\
  (length [10; 11; 12]%Q <= 252)%nat.
Proof.
  split; [reflexivity|].
  refine (proj1 (getRecentCloses_at_most_252 (H := asciiHost) (H0 := candleEnv)
                   (lit "aapl") blankWorld
                   (Rag.getRecentCloses (H := asciiHost) (H0 := candleEnv)
                      (lit "aapl") blankWorld).2
                   [10; 11; 12]%Q _ _)).
  - intros k T v Hl. vm_compute in Hl. discriminate Hl.
  - reflexivity.
Defined.

Lemma zero_quote_is_ignored_witness :
  exists w2,
    Rag.getLiveQuote (H := asciiHost) (H0 := zeroQuoteEnv) (lit "zzzz") blankWorld
      = (Ok None, w2).
Proof.
  destruct (zero_quote_is_ignored (H := asciiHost) (H0 := zeroQuoteEnv) (lit "zzzz")
              blankWorld
              (Rag.finnhubGet (H := zeroQuoteEnv)
                 (Rag.FinnhubQuote (lit "ZZZZ")) blankWorld).2
              (Some (JObj [(lit "c", JNum 0)])) 0%Q)
    as (w2 & E & _).
  - exact I.
  - reflexivity.
  - reflexivity.
  - reflexivity.
  - exists w2. exact E.
Defined.

(* ===================================================================== *)
(** * The tokenizer                                                       *)
(* ===================================================================== *)

Lemma splitRuns_all (P : N -> Prop) (sep : N -> bool) (s cur : jsstring) :
  Forall (fun c => sep c = false /\ P c) cur -> Forall P s ->
  Forall (fun tok => tok <> [] /\ Forall (fun c => sep c = false /\ P c) tok)
         (splitRuns sep cur s).
Proof.
  assert (Hrun : forall x run, Forall (fun c => sep c = false /\ P c) (x :: run) ->
            rev (x :: run) <> [] /\ Forall (fun c => sep c = false /\ P c) (rev (x :: run))).
  { intros x run H. split; [|apply Forall_rev; exact H].
    intros E. apply (f_equal (@length _)) in E. rewrite length_rev in E. discriminate E. }
  revert cur. induction s as [|c r IH]; intros cur Hc Hs.
  - destruct cur as [|x cur]; [constructor|].
    change (Forall (fun tok => tok <> [] /\ Forall (fun c => sep c = false /\ P c) tok)
                   [rev (x :: cur)]).
    constructor; [apply Hrun; exact Hc | constructor].
  - simpl. destruct (sep c) eqn:Ec.
    + pose proof (IH [] (Forall_nil_2 _) (Forall_inv_tail Hs)) as IH'.
      destruct cur as [|x cur]; [exact IH'|].
      change (Forall (fun tok => tok <> [] /\ Forall (fun c => sep c = false /\ P c) tok)
                     (rev (x :: cur) :: splitRuns sep [] r)).
      constructor; [apply Hrun; exact Hc | exact IH'].
    + apply IH; [|exact (Forall_inv_tail Hs)].
      constructor; [split; [exact Ec | exact (Forall_inv Hs)] | exact Hc].
Qed.

Lemma splitRuns_concat (sep : N -> bool) (s cur : jsstring) :
  concat (splitRuns sep cur s) = rev cur ++ List.filter (fun c => negb (sep c)) s.
Proof.
  revert cur. induction s as [|c r IH]; intros cur.
  - simpl. destruct cur as [|x cur]; simpl; [reflexivity|].
    rewrite !app_nil_r. reflexivity.
  - simpl. destruct (sep c) eqn:Ec; simpl.
    + destruct cur as [|x cur]; simpl; rewrite IH; reflexivity.
    + rewrite IH. simpl. rewrite <- app_assoc. reflexivity.
Qed.

Section TokenizerFacts.
Import Extractor.

(** [text] after the two replacements at the head of [tokenize]. *)
Definition cleanedText (text : jsstring) : jsstring :=
  (fun c => if isCurlyQuote c then 39%N else c)
    <$> List.filter (fun c => negb (isZeroWidth c)) text.

Lemma cleanedText_chars (text : jsstring) :
  Forall (fun c => isZeroWidth c = false /\ isCurlyQuote c = false) (cleanedText text).
Proof.
  unfold cleanedText. apply Forall_fmap. apply Forall_forall. intros c Hc.
  apply list_elem_of_In, filter_In in Hc. destruct Hc as [_ Hz].
  apply negb_true_iff in Hz. simpl.
  destruct (isCurlyQuote c) eqn:Eq; [split; reflexivity|].
  split; assumption.
Qed.

(** X11: every token of [tokenize] is non-empty and holds no separator
    (white space, [, ; : / ( ) [ ] { } |]), no zero-width character and no
    curly quote; and the tokens, put end to end, are the text with the
    zero-width characters removed, the curly quotes turned into ['] and the
    separators removed: no other character is lost or changed. *)
Theorem tokenize_keeps_all_but_separators (text : jsstring) :
  Forall (fun tok =>
            tok <> [] /\
            Forall (fun c => isTokenSep c = false /\ isZeroWidth c = false /\
                             isCurlyQuote c = false) tok)
         (tokenize text)
  /\ concat (tokenize text)
     = List.filter (fun c => negb (isTokenSep c)) (cleanedText text).
Proof.
  split.
  - exact (splitRuns_all _ isTokenSep (cleanedText text) []
             (Forall_nil_2 _) (cleanedText_chars text)).
  - unfold tokenize. fold (cleanedText text). rewrite splitRuns_concat. reflexivity.
Qed.

Example tokenize_example :
  tokenize (lit "buy AAPL, (or MSFT/GOOG);  $TSLA?")
  = [lit "buy"; lit "AAPL"; lit "or"; lit "MSFT"; lit "GOOG"; lit "$TSLA?"].
Proof. reflexivity. Qed.

End TokenizerFacts.

(* ===================================================================== *)
(** * tickerExtractor.ts: further properties                              *)
(* ===================================================================== *)

Section DedupeFacts.

Lemma elem_of_dedupe (xs : list jsstring) : forall seen x,
  x ∈ dedupe seen xs <-> x ∈ xs /\ x ∉ seen.
Proof.
  induction xs as [|y r IH]; intros seen x; cbn [dedupe].
  - split; [intros Hx; inversion Hx | intros [Hx _]; inversion Hx].
  - destruct (bool_decide (y ∈ seen)) eqn:E.
    + apply bool_decide_eq_true in E. split.
      * intros Hx. apply IH in Hx as [Hx Hn]. split; [right; exact Hx | exact Hn].
      * intros [Hx Hn]. apply IH. apply elem_of_cons in Hx as [->|Hx]; [contradiction | auto].
    + apply bool_decide_eq_false in E. split.
      * intros Hx. apply elem_of_cons in Hx as [->|Hx]; [split; [left | exact E]|].
        apply IH in Hx as [Hx Hn]. split; [right; exact Hx|].
        intros Hs. apply Hn. right. exact Hs.
      * intros [Hx Hn]. destruct (decide (x = y)) as [->|Hne]; [left|].
        right. apply IH. apply elem_of_cons in Hx as [->|Hx]; [contradiction|].
        split; [exact Hx|]. intros Hs. apply elem_of_cons in Hs as [->|Hs]; contradiction.
Qed.

Lemma NoDup_dedupe (xs : list jsstring) : forall seen, NoDup (dedupe seen xs).
Proof.
  induction xs as [|y r IH]; intros seen; cbn [dedupe]; [constructor|].
  destruct (bool_decide (y ∈ seen)); [apply IH|].
  constructor; [|apply IH]. rewrite elem_of_dedupe. intros [_ Hn]. apply Hn. left.
Qed.

Lemma head_dedupe (x : jsstring) (r : list jsstring) : head (dedupe [] (x :: r)) = Some x.
Proof.
  cbn [dedupe]. rewrite bool_decide_eq_false_2 by apply not_elem_of_nil. reflexivity.
Qed.

Lemma last_elem_of {A} (l : list A) x : last l = Some x -> x ∈ l.
Proof.
  induction l as [|y r IH]; [discriminate|]. destruct r as [|z r'].
  - intros [= ->]. left.
  - intros E. right. apply IH. exact E.
Qed.

Lemma head_elem_of {A} (l : list A) x : head l = Some x -> x ∈ l.
Proof. destruct l; [discriminate|]. intros [= ->]. left. Qed.

End DedupeFacts.

Section ExtractorMore.
Import Extractor.
Context `{Host} `{TickerData}.

Lemma symbolsOf_tickers text t : t ∈ symbolsOf text -> t ∈ TICKERS_SET.
Proof.
  unfold symbolsOf. rewrite list_elem_of_omap. intros (raw & _ & E).
  destruct (symbolShape (coreOf raw)); [|discriminate].
  destruct (isTicker (toUpperCase (coreOf raw))) eqn:Et; [|discriminate].
  injection E as <-. apply isTicker_true. exact Et.
Qed.

(** ** The score *)

Lemma wordSet_NoDup s : NoDup (wordSet s).
Proof. apply NoDup_dedupe. Qed.

(** The words two phrases share are at most the words of the shorter. *)
Lemma shared_words_le (qa na : list jsstring) :
  NoDup qa ->
  (length (List.filter (fun w => bool_decide (w ∈ na)) qa)
   <= Nat.max 1 (Nat.min (length qa) (length na)))%nat.
Proof.
  intros Hnd. set (hits := List.filter (fun w => bool_decide (w ∈ na)) qa).
  assert (H1 : (length hits <= length qa)%nat) by apply List.filter_length_le.
  assert (H2 : (length hits <= length na)%nat).
  { apply submseteq_length, NoDup_submseteq.
    - unfold hits. clear H1. induction Hnd as [|x l Hx Hl IH]; simpl; [constructor|].
      destruct (bool_decide (x ∈ na)); [|exact IH].
      constructor; [|exact IH]. rewrite list_elem_of_In, filter_In, <- list_elem_of_In. tauto.
    - intros x Hx. unfold hits in Hx.
      rewrite list_elem_of_In, filter_In in Hx. destruct Hx as [_ Hx].
      apply bool_decide_eq_true in Hx. exact Hx. }
  lia.
Qed.

Lemma overlap_score_le (hit denom : nat) :
  (hit <= denom)%nat -> (0 < denom)%nat ->
  (0 <= inject_Z (Z.of_nat hit) / inject_Z (Z.of_nat denom) * 0.7
   /\ inject_Z (Z.of_nat hit) / inject_Z (Z.of_nat denom) * 0.7 <= 0.7)%Q.
Proof.
  intros Hle Hpos.
  assert (Hd : (0 < inject_Z (Z.of_nat denom))%Q) by (apply ofNat_pos; exact Hpos).
  assert (Hh : (0 <= inject_Z (Z.of_nat hit))%Q).
  { change 0%Q with (inject_Z 0). rewrite <- Zle_Qle. lia. }
  assert (Hhd : (inject_Z (Z.of_nat hit) <= inject_Z (Z.of_nat denom))%Q).
  { rewrite <- Zle_Qle. lia. }
  assert (Hr0 : (0 <= inject_Z (Z.of_nat hit) / inject_Z (Z.of_nat denom))%Q)
    by (apply Qdiv_nonneg; assumption).
  assert (Hr1 : (inject_Z (Z.of_nat hit) / inject_Z (Z.of_nat denom) <= 1)%Q)
    by (apply Qle_shift_div_r; [exact Hd | lra]).
  split; nra.
Qed.

(** [fuzzyCompanyScore], branch by branch. *)
Lemma fuzzyCompanyScore_cases q name :
  let sc := fuzzyCompanyScore q name in
  (q = name /\ sc = 1%Q) \/
  (q <> name /\ includes name q = true /\ sc = 0.85%Q) \/
  (q <> name /\ includes name q = false /\ (0 <= sc /\ sc <= 0.75)%Q).
Proof.
  cbn zeta. unfold fuzzyCompanyScore, Js.eqb.
  destruct (bool_decide (q = name)) eqn:E.
  { apply bool_decide_eq_true in E. left. split; [exact E | reflexivity]. }
  apply bool_decide_eq_false in E. right.
  destruct (includes name q) eqn:E1.
  { left. repeat split; assumption. }
  right. split; [exact E|]. split; [reflexivity|].
  destruct (includes q name); [split; discriminate|].
  cbn zeta.
  destruct (overlap_score_le
              (length (List.filter (fun w => bool_decide (w ∈ wordSet name)) (wordSet q)))
              (Nat.max 1 (Nat.min (length (wordSet q)) (length (wordSet name)))))
    as [H1 H2]; [apply shared_words_le, wordSet_NoDup | lia |].
  split; [exact H1 | lra].
Qed.

(** ** The result *)

Lemma companyStage_wellformed text r :
  companyStage text = Some r ->
  (forall t, t ∈ allTickers r -> t ∈ TICKERS_SET) /\
  (exists b, bestTicker r = Some b /\ b ∈ allTickers r) /\
  matchedBy r = Some byCompany /\
  (confidence r = 0.75%Q \/ confidence r = 0.5%Q).
Proof.
  unfold companyStage. cbn zeta.
  destruct (sortMentions _) as [|best rest]; [discriminate|].
  destruct (List.filter isTicker (m_tickers best)) as [|t ts] eqn:E; [discriminate|].
  intros [= <-]. cbn [allTickers bestTicker matchedBy confidence].
  split; [|split; [|split]].
  - intros x Hx. rewrite <- E in Hx.
    rewrite list_elem_of_In, filter_In in Hx. destruct Hx as [_ Hx].
    apply isTicker_true. exact Hx.
  - exists t. split; [reflexivity | left].
  - reflexivity.
  - destruct (Num.Qleb 0.9 (m_score best)); [left | right]; reflexivity.
Qed.

Lemma fallbackOf_ticker opts fb : fallbackOf opts = Some fb -> fb ∈ TICKERS_SET.
Proof.
  unfold fallbackOf. intros E. apply find_some in E as [_ E]. apply isTicker_true. exact E.
Qed.

(** What holds of every result. *)
Definition wellFormed (r : ExtractResult) : Prop :=
  (forall t, t ∈ allTickers r -> t ∈ TICKERS_SET) /\
  match bestTicker r with
  | Some b => b ∈ allTickers r
  | None => allTickers r = []
  end /\
  match matchedBy r with
  | Some bySymbol => confidence r = 1%Q
  | Some byCompany => confidence r = 0.75%Q \/ confidence r = 0.5%Q
  | Some byCookie | Some byClientHint => confidence r = 0.25%Q
  | Some byAlias => False
  | None => confidence r = 0%Q /\ bestTicker r = None
  end.

Lemma extract_wellFormed text opts : wellFormed (extractTickersRich text opts).
Proof.
  unfold extractTickersRich. cbn zeta.
  set (latest := negb (bool_decide (opts ≫= preferLatest = Some false))).
  set (ordered := if latest then symbolsOf text else rev (symbolsOf text)).
  assert (Hord : forall t, t ∈ ordered -> t ∈ TICKERS_SET).
  { intros t Ht. apply (symbolsOf_tickers text). unfold ordered in Ht.
    destruct latest; [exact Ht|]. apply list_elem_of_In, in_rev, list_elem_of_In in Ht.
    exact Ht. }
  destruct (dedupe [] ordered) as [|u us] eqn:Eu.
  - destruct (companyStage text) as [r|] eqn:Ec.
    + destruct (companyStage_wellformed text r Ec) as (H1 & (b & Hb & Hin) & Hm & Hconf).
      unfold wellFormed. rewrite Hb, Hm. auto.
    + destruct (fallbackOf opts) as [fb|] eqn:Ef.
      * unfold wellFormed. cbn [allTickers bestTicker matchedBy confidence].
        split; [|split].
        -- intros t [->|Ht]%elem_of_cons; [eapply fallbackOf_ticker; eauto | inversion Ht].
        -- left.
        -- case_bool_decide; reflexivity.
      * unfold wellFormed. cbn [allTickers bestTicker matchedBy confidence].
        split; [intros t Ht; inversion Ht|]. split; [reflexivity | split; reflexivity].
  - unfold wellFormed. cbn [allTickers bestTicker matchedBy confidence].
    split; [|split; [|reflexivity]].
    + intros t Ht. rewrite <- Eu in Ht. apply elem_of_dedupe in Ht as [Ht _].
      apply Hord. exact Ht.
    + destruct latest.
      * destruct (last (u :: us)) as [b|] eqn:El; [apply last_elem_of; exact El|].
        apply last_None in El. discriminate El.
      * cbn [head]. left.
Qed.

(** With [preferLatest: false] the symbols are reversed and the first is
    taken. *)
Lemma extract_first_of_reversed text opts :
  opts ≫= preferLatest = Some false -> symbolsOf text <> [] ->
  let r := extractTickersRich text opts in
  bestTicker r = last (symbolsOf text) /\
  allTickers r = dedupe [] (rev (symbolsOf text)) /\
  matchedBy r = Some bySymbol.
Proof.
  intros Hp Hne. cbn zeta. unfold extractTickersRich. cbn zeta.
  rewrite bool_decide_eq_true_2 by exact Hp. cbn [negb].
  destruct (rev (symbolsOf text)) as [|y r'] eqn:Er.
  { apply (f_equal (@rev _)) in Er. rewrite rev_involutive in Er. contradiction. }
  assert (Hl : last (symbolsOf text) = Some y).
  { rewrite <- head_rev, Er. reflexivity. }
  pose proof (head_dedupe y r') as Hh.
  destruct (dedupe [] (y :: r')) as [|u us] eqn:Eu; [discriminate Hh|].
  cbn [bestTicker allTickers matchedBy]. rewrite Hl. auto.
Qed.

End ExtractorMore.

Section ExtractorExtras.
Import Extractor.
Context `{Host} `{TickerData}.

(** X12: [fuzzyCompanyScore] lies between 0 and 1, is 1 exactly for a
    phrase equal to the name, and reaches the threshold 0.82 of the
    company stage exactly when the phrase equals the name or occurs in
    it: neither a name that occurs in the phrase (0.75) nor any overlap
    of words (at most 0.7) produces a mention. *)
Theorem fuzzyCompanyScore_threshold (q name : jsstring) :
  let sc := fuzzyCompanyScore q name in
  (0 <= sc /\ sc <= 1)%Q /\
  ((sc == 1)%Q <-> q = name) /\
  (Num.Qleb 0.82 sc = true <-> q = name \/ includes name q = true).
Proof.
  cbn zeta. destruct (fuzzyCompanyScore_cases q name)
    as [[E ->] | [(Hne & Hinc & ->) | (Hne & Hinc & Hlo & Hhi)]].
  - split; [split; discriminate|]. split; [split; [intros _; exact E | intros _; reflexivity]|].
    split; [auto | reflexivity].
  - split; [split; discriminate|]. split.
    + split; [intros Hq; discriminate Hq | contradiction].
    + split; [auto | reflexivity].
  - split; [split; lra|]. split.
    + split; [intros Hq; lra | contradiction].
    + rewrite Qleb_le. split; [intros Hq; lra|].
      intros [E|E]; [contradiction | congruence].
Qed.

(** X13: every result of [extractTickersRich] is well formed: all its
    tickers belong to the universe; the best ticker is one of them, and
    is null only when there are none; the confidence is the one of the
    stage that answered (1 for a symbol, 0.75 or 0.5 for a company, 0.25
    for the cookie or the client hint, 0 with no match); and no result
    is ever matched by "alias". *)
Theorem extract_result_is_well_formed (text : jsstring) (opts : option ExtractOpts) :
  let r := extractTickersRich text opts in
  (forall t, t ∈ allTickers r -> t ∈ TICKERS_SET) /\
  match bestTicker r with
  | Some b => b ∈ allTickers r
  | None => allTickers r = []
  end /\
  match matchedBy r with
  | Some bySymbol => confidence r = 1%Q
  | Some byCompany => confidence r = 0.75%Q \/ confidence r = 0.5%Q
  | Some byCookie | Some byClientHint => confidence r = 0.25%Q
  | Some byAlias => False
  | None => confidence r = 0%Q /\ bestTicker r = None
  end.
Proof. apply extract_wellFormed. Qed.

(** X14: [preferLatest: false] does not select the first symbol.  With
    that option the symbols are reversed before duplicates are dropped
    and the first element is taken, so the best ticker is the last
    explicit symbol of the text. *)
Theorem preferLatest_false_returns_last_symbol (text : jsstring) (opts : option ExtractOpts) :
  opts ≫= preferLatest = Some false -> symbolsOf text <> [] ->
  let r := extractTickersRich text opts in
  bestTicker r = last (symbolsOf text) /\
  allTickers r = dedupe [] (rev (symbolsOf text)) /\
  matchedBy r = Some bySymbol.
Proof. apply extract_first_of_reversed. Qed.

End ExtractorExtras.

Lemma preferLatest_false_returns_last_symbol_witness :
  bestTicker
    (Extractor.extractTickersRich (H := asciiHost) (H0 := tinyData) (lit "SPY QQQ SPY")
       (Some {| lastCookieTicker := None; lastClientTicker := None;
                preferLatest := Some false |}))
  = Some (lit "SPY").
Proof.
  destruct (preferLatest_false_returns_last_symbol (H := asciiHost) (H0 := tinyData)
              (lit "SPY QQQ SPY")
              (Some {| lastCookieTicker := None; lastClientTicker := None;
                       preferLatest := Some false |})) as (E & _).
  - reflexivity.
  - vm_compute. discriminate.
  - rewrite E. vm_compute. reflexivity.
Defined.

(* ===================================================================== *)
(** * app/api/prices/route.ts: further properties                         *)
(* ===================================================================== *)

Section PricesMore.
Import Prices PricesSpec.
Context `{Host} `{Config} `{Upstream}.

(** A ticker for which a fetcher has an answer: a price or a note. *)
Definition answered (f : Fetched) (t : jsstring) : Prop :=
  is_Some (f_prices f !! t) \/ is_Some (f_errors f !! t).

Lemma record_answers ask acc x : answered (record ask acc x) x.
Proof.
  unfold answered, record. destruct (ask x); simpl; [left | right];
    rewrite lookup_insert_eq; eauto.
Qed.

Lemma record_keeps ask acc x t : answered acc t -> answered (record ask acc x) t.
Proof.
  unfold answered, record. intros [Hp|He]; destruct (ask x); simpl; auto.
  - left. destruct (decide (x = t)) as [->|Hne];
      [rewrite lookup_insert_eq; eauto | rewrite lookup_insert_ne by exact Hne; exact Hp].
  - right. destruct (decide (x = t)) as [->|Hne];
      [rewrite lookup_insert_eq; eauto | rewrite lookup_insert_ne by exact Hne; exact He].
Qed.

Lemma recordPrev_answers ask acc x : answered (recordPrev ask acc x) x.
Proof.
  unfold answered, recordPrev. destruct (ask x); simpl; [left | right];
    rewrite lookup_insert_eq; eauto.
Qed.

Lemma recordPrev_keeps ask acc x t : answered acc t -> answered (recordPrev ask acc x) t.
Proof.
  unfold answered, recordPrev. intros Ha. destruct (ask x); simpl.
  - destruct (decide (x = t)) as [->|Hne]; [left; rewrite lookup_insert_eq; eauto|].
    destruct Ha as [Hp|He].
    + left. rewrite lookup_insert_ne by exact Hne. exact Hp.
    + right. rewrite lookup_delete_ne by exact Hne. exact He.
  - destruct Ha as [Hp|He]; [left; exact Hp|].
    right. destruct (decide (x = t)) as [->|Hne];
      [rewrite lookup_insert_eq; eauto | rewrite lookup_insert_ne by exact Hne; exact He].
Qed.

Lemma fold_answers (step : Fetched -> jsstring -> Fetched) ts :
  (forall acc x, answered (step acc x) x) ->
  (forall acc x t, answered acc t -> answered (step acc x) t) ->
  forall acc t, (t ∈ ts \/ answered acc t) -> answered (fold_left step ts acc) t.
Proof.
  intros Hnew Hkeep. induction ts as [|x r IH]; intros acc t [Hin|Ha]; simpl.
  - inversion Hin.
  - exact Ha.
  - apply elem_of_cons in Hin as [->|Hin]; apply IH; [right; apply Hnew | left; exact Hin].
  - apply IH. right. apply Hkeep. exact Ha.
Qed.

(** Every fetcher answers for every ticker of its batch. *)
Lemma fetchFrom_answers p batch t : t ∈ batch -> answered (fetchFrom p batch) t.
Proof.
  intros Hin. destruct p; simpl; unfold fetchPolygon, fetchIEX, fetchFinnhub, fetchAlphaVantage.
  - apply fold_answers; [apply recordPrev_answers | apply recordPrev_keeps |].
    right. apply fold_answers; [apply record_answers | apply record_keeps |]. left. exact Hin.
  - apply fold_answers; [apply record_answers | apply record_keeps |]. left. exact Hin.
  - apply fold_answers; [apply record_answers | apply record_keeps |]. left. exact Hin.
  - apply fold_answers; [apply record_answers | apply record_keeps |]. left. exact Hin.
Qed.

Lemma record_err_dom ask ts : forall acc t v,
  f_errors (fold_left (record ask) ts acc) !! t = Some v ->
  is_Some (f_errors acc !! t) \/ t ∈ ts.
Proof.
  induction ts as [|x r IH]; intros acc t v Hl; simpl in Hl; [left; eauto|].
  apply IH in Hl as [Hl|Hl]; [|right; right; exact Hl].
  unfold record in Hl. destruct (ask x); simpl in Hl; [left; exact Hl|].
  destruct (decide (x = t)) as [->|Hne]; [right; left|].
  rewrite lookup_insert_ne in Hl by exact Hne. left. exact Hl.
Qed.

Lemma recordPrev_err_dom ask ts : forall acc t v,
  f_errors (fold_left (recordPrev ask) ts acc) !! t = Some v ->
  is_Some (f_errors acc !! t) \/ t ∈ ts.
Proof.
  induction ts as [|x r IH]; intros acc t v Hl; simpl in Hl; [left; eauto|].
  apply IH in Hl as [Hl|Hl]; [|right; right; exact Hl].
  unfold recordPrev in Hl. destruct (ask x); simpl in Hl.
  - destruct (decide (x = t)) as [->|Hne]; [right; left|].
    rewrite lookup_delete_ne in Hl by exact Hne. left. exact Hl.
  - destruct (decide (x = t)) as [->|Hne]; [right; left|].
    rewrite lookup_insert_ne in Hl by exact Hne. left. exact Hl.
Qed.

(** A fetcher files notes only for tickers of its batch. *)
Lemma fetchFrom_err_dom p batch t v :
  f_errors (fetchFrom p batch) !! t = Some v -> t ∈ batch.
Proof.
  assert (Hnone : forall t : jsstring, ~ is_Some (f_errors noneYet !! t)).
  { intros t' [v' Hv]. simpl in Hv. rewrite lookup_empty in Hv. discriminate. }
  destruct p; simpl; unfold fetchPolygon, fetchIEX, fetchFinnhub, fetchAlphaVantage; intros Hl.
  - apply recordPrev_err_dom in Hl as [[v' Hl]|Hl].
    + apply record_err_dom in Hl as [Hl|Hl]; [exfalso; eapply Hnone; eauto | exact Hl].
    + apply list_elem_of_In, filter_In in Hl as [Hl _]. apply list_elem_of_In. exact Hl.
  - apply record_err_dom in Hl as [Hl|Hl]; [exfalso; eapply Hnone; eauto | exact Hl].
  - apply record_err_dom in Hl as [Hl|Hl]; [exfalso; eapply Hnone; eauto | exact Hl].
  - apply record_err_dom in Hl as [Hl|Hl]; [exfalso; eapply Hnone; eauto | exact Hl].
Qed.

(** ** The loop *)

Definition accounted (st : Resolving) (t : jsstring) : Prop :=
  is_Some (prices st !! t) \/ is_Some (errors st !! t).

Lemma union_is_Some_l {V} (m1 m2 : gmap jsstring V) t :
  is_Some (m1 !! t) -> is_Some ((m1 ∪ m2) !! t).
Proof.
  intros [v Hv]. exists v. apply lookup_union_Some_l. exact Hv.
Qed.

Lemma union_is_Some_r {V} (m1 m2 : gmap jsstring V) t :
  is_Some (m2 !! t) -> is_Some ((m1 ∪ m2) !! t).
Proof.
  intros Hv. apply lookup_union_is_Some. right. exact Hv.
Qed.

Lemma resolveLoop_keeps chain tickers : forall st t,
  accounted st t -> accounted (resolveLoop chain tickers st) t.
Proof.
  induction chain as [|p rest IH]; intros st t Ha; [exact Ha|].
  cbn [resolveLoop]. destruct (unpriced (prices st) tickers) as [|x r]; [exact Ha|].
  apply IH. unfold accounted in *. cbn [prices errors].
  destruct Ha as [Hp|He]; [left | right]; apply union_is_Some_r; assumption.
Qed.

Lemma resolveLoop_accounts p rest tickers st t :
  t ∈ tickers -> accounted (resolveLoop (p :: rest) tickers st) t.
Proof.
  intros Hin. cbn [resolveLoop].
  destruct (unpriced (prices st) tickers) as [|x r] eqn:E.
  - left. destruct (prices st !! t) as [v|] eqn:El; [eauto|].
    assert (Ht : t ∈ unpriced (prices st) tickers) by (apply elem_of_unpriced; auto).
    rewrite E in Ht. inversion Ht.
  - apply resolveLoop_keeps. unfold accounted. cbn [prices errors].
    destruct (prices st !! t) as [v|] eqn:El.
    + left. apply union_is_Some_r. eauto.
    + assert (Ht : t ∈ x :: r) by (rewrite <- E; apply elem_of_unpriced; auto).
      destruct (fetchFrom_answers p (x :: r) t Ht) as [Hp|He];
        [left | right]; apply union_is_Some_l; assumption.
Qed.

Lemma resolveLoop_dom chain tickers : forall st t,
  (is_Some (prices (resolveLoop chain tickers st) !! t) ->
   is_Some (prices st !! t) \/ t ∈ tickers) /\
  (is_Some (errors (resolveLoop chain tickers st) !! t) ->
   is_Some (errors st !! t) \/ t ∈ tickers).
Proof.
  induction chain as [|p rest IH]; intros st t; [split; auto|].
  cbn [resolveLoop]. destruct (unpriced (prices st) tickers) as [|x r] eqn:E; [split; auto|].
  destruct (IH {| prices := f_prices (fetchFrom p (x :: r)) ∪ prices st;
                  errors := f_errors (fetchFrom p (x :: r)) ∪ errors st;
                  calls := calls st ++ [(p, x :: r)] |} t) as [Hp He].
  cbn [prices errors] in Hp, He.
  assert (Hbatch : forall u, u ∈ x :: r -> u ∈ tickers).
  { intros u Hu. rewrite <- E in Hu. apply elem_of_unpriced in Hu. tauto. }
  split; intros Hs.
  - destruct (Hp Hs) as [Hu|Hu]; [|right; exact Hu].
    apply lookup_union_is_Some in Hu as [[v Hv]|Hu]; [|left; exact Hu].
    right. apply Hbatch. eapply fetchFrom_dom. exact Hv.
  - destruct (He Hs) as [Hu|Hu]; [|right; exact Hu].
    apply lookup_union_is_Some in Hu as [[v Hv]|Hu]; [|left; exact Hu].
    right. apply Hbatch. eapply fetchFrom_err_dom. exact Hv.
Qed.

(** A map whose keys are among the elements of a duplicate-free list has
    at most as many entries as the list. *)
Lemma size_le_length {V} (m : gmap jsstring V) (l : list jsstring) :
  NoDup l -> (forall t, is_Some (m !! t) -> t ∈ l) -> (size m <= length l)%nat.
Proof.
  intros Hnd Hdom. rewrite <- size_dom, <- (size_list_to_set (C := gset jsstring) l Hnd).
  apply subseteq_size. intros t Ht. apply elem_of_dom in Ht.
  apply elem_of_list_to_set. apply Hdom. exact Ht.
Qed.

Lemma resolvePrices_accounting tickersRaw r :
  resolvePrices tickersRaw = Ok r ->
  let tickers := dedupe [] (List.filter Js.truthy (normTicker <$> tickersRaw)) in
  (forall t, t ∈ tickers -> is_Some (r_prices r !! t) \/ is_Some (r_errors r !! t)) /\
  (forall t, is_Some (r_prices r !! t) -> t ∈ tickers) /\
  (forall t, is_Some (r_errors r !! t) -> t ∈ tickers) /\
  r_filled r = size (r_prices r) /\
  (r_filled r <= length tickers)%nat.
Proof.
  unfold resolvePrices. cbn zeta.
  set (tickers := dedupe [] (List.filter Js.truthy (normTicker <$> tickersRaw))).
  destruct providerOrder as [|p rest]; [discriminate|].
  set (st0 := {| prices := ∅; errors := ∅; calls := [] |}).
  intros [= <-]. cbn [r_prices r_errors r_filled].
  assert (Hempty : forall V (t : jsstring), ~ is_Some ((∅ : gmap jsstring V) !! t)).
  { intros V t [v Hv]. rewrite lookup_empty in Hv. discriminate. }
  assert (Hp : forall t, is_Some (prices (resolveLoop (p :: rest) tickers st0) !! t) ->
                         t ∈ tickers).
  { intros t Hs. destruct (resolveLoop_dom (p :: rest) tickers st0 t) as [Hd _].
    destruct (Hd Hs) as [Hu|Hu]; [exfalso; eapply Hempty; exact Hu | exact Hu]. }
  split; [intros t Ht; apply (resolveLoop_accounts p rest tickers st0 t Ht)|].
  split; [exact Hp|]. split.
  - intros t Hs. destruct (resolveLoop_dom (p :: rest) tickers st0 t) as [_ Hd].
    destruct (Hd Hs) as [Hu|Hu]; [exfalso; eapply Hempty; exact Hu | exact Hu].
  - split; [reflexivity|]. apply size_le_length; [apply NoDup_dedupe | exact Hp].
Qed.

(** ** The chain *)

Lemma providerOrder_members :
  NoDup providerOrder /\ forall p, p ∈ providerOrder <-> hasProvider p = true.
Proof.
  assert (Hcase : (exists p, providerName p = PREFERRED) \/ forall p, providerName p <> PREFERRED).
  { destruct (decide (providerName polygon = PREFERRED)); [eauto|].
    destruct (decide (providerName iex = PREFERRED)); [eauto|].
    destruct (decide (providerName finnhub = PREFERRED)); [eauto|].
    destruct (decide (providerName alphavantage = PREFERRED)); [eauto|].
    right. intros []; assumption. }
  assert (Hfilter : forall l : list Provider,
            NoDup l -> (forall p, p ∈ l) ->
            NoDup (List.filter hasProvider l) /\
            forall p, p ∈ List.filter hasProvider l <-> hasProvider p = true).
  { intros l Hnd Hall. split.
    - clear Hall. induction Hnd as [|x l' Hx Hl IH]; simpl; [constructor|].
      destruct (hasProvider x); [|exact IH].
      constructor; [|exact IH]. rewrite list_elem_of_In, filter_In, <- list_elem_of_In. tauto.
    - intros p. rewrite list_elem_of_In, filter_In, <- list_elem_of_In.
      split; [tauto | intros Hp; split; [apply Hall | exact Hp]]. }
  destruct Hcase as [[p Hp]|Hn].
  - rewrite (providerOrder_preferred p Hp). apply Hfilter.
    + destruct p; apply (bool_decide_unpack _); vm_compute; reflexivity.
    + intros q. apply list_elem_of_In. destruct p, q; vm_compute; tauto.
  - rewrite (providerOrder_default Hn). apply Hfilter.
    + apply (bool_decide_unpack _). vm_compute. reflexivity.
    + intros q. apply list_elem_of_In. destruct q; vm_compute; tauto.
Qed.

End PricesMore.

Section PricesExtras.
Import Prices PricesSpec.
Context `{Host} `{Config} `{Upstream}.

(** X15: [resolvePrices] accounts for every ticker it was asked about,
    and for nothing else.  When it returns, each normalised ticker has a
    price or an error note (possibly both: a note filed by an earlier
    provider stays when a later one finds the price); every key of
    [prices] and of [errors] is one of the normalised tickers; and
    [filled] is the number of prices, at most the number of distinct
    tickers. *)
Theorem resolvePrices_accounts_for_every_ticker (tickersRaw : list jsstring) (r : Resolved) :
  resolvePrices tickersRaw = Ok r ->
  let tickers := dedupe [] (List.filter Js.truthy (normTicker <$> tickersRaw)) in
  (forall t, t ∈ tickers -> is_Some (r_prices r !! t) \/ is_Some (r_errors r !! t)) /\
  (forall t, is_Some (r_prices r !! t) -> t ∈ tickers) /\
  (forall t, is_Some (r_errors r !! t) -> t ∈ tickers) /\
  r_filled r = size (r_prices r) /\
  (r_filled r <= length tickers)%nat.
Proof. apply resolvePrices_accounting. Qed.

(** X16: the chain of providers holds every configured provider exactly
    once and no provider without a key, whatever [PRICES_PROVIDER] says;
    and [resolvePrices] raises exactly when that chain is empty. *)
Theorem providerOrder_is_the_configured_providers (tickersRaw : list jsstring) :
  NoDup providerOrder /\
  (forall p, p ∈ providerOrder <-> hasProvider p = true) /\
  (resolvePrices tickersRaw = Throw <-> forall p, hasProvider p = false).
Proof.
  destruct providerOrder_members as [Hnd Hmem].
  split; [exact Hnd|]. split; [exact Hmem|].
  unfold resolvePrices. cbn zeta. destruct providerOrder as [|p rest] eqn:E.
  - split; [|reflexivity]. intros _ p. apply not_true_iff_false.
    intros Hp. apply Hmem in Hp. inversion Hp.
  - split; [discriminate|]. intros Hnone.
    assert (Hp : hasProvider p = true) by (apply Hmem; left).
    rewrite Hnone in Hp. discriminate.
Qed.

End PricesExtras.

Lemma resolvePrices_accounts_for_every_ticker_witness :
  exists r,
    Prices.resolvePrices (H := asciiHost) (H0 := demoConfig) (H1 := demoUpstream)
      [lit "aapl"; lit " tsla"; lit "AAPL"; lit "msft"] = Ok r /\
    (forall t, t ∈ [lit "AAPL"; lit "TSLA"; lit "MSFT"] ->
       is_Some (Prices.r_prices r !! t) \/ is_Some (Prices.r_errors r !! t)) /\
    (Prices.r_filled r <= 3)%nat.
Proof.
  eexists. split; [exact resolvePrices_demo|].
  destruct (resolvePrices_accounts_for_every_ticker (H := asciiHost) (H0 := demoConfig)
              (H1 := demoUpstream) _ _ resolvePrices_demo) as (Hall & _ & _ & _ & Hlen).
  split; [exact Hall | exact Hlen].
Defined.

(* ===================================================================== *)
(** * portfolio.ts: further properties                                    *)
(* ===================================================================== *)

(** An absent number is below every number: the order of
    [getYield(r) ?? -Infinity]. *)
Definition optLe (a b : option Q) : Prop :=
  match a, b with
  | None, _ => True
  | Some x, Some y => (x <= y)%Q
  | Some _, None => False
  end.

Section PortfolioMore.
Import Portfolio.
Context `{Host}.

(** ** [uniqByTicker] *)

Lemma uniqFrom_spec (arr : list DatasetRow) : forall seen,
  let out := uniqFrom seen arr in
  NoDup (ticker <$> out) /\
  (forall r, r ∈ out ->
     Js.truthy (ticker r) = true /\ (ticker r ∉ seen) /\
     exists x, x ∈ arr /\ r = setTicker x (cleanTicker (ticker x))) /\
  (forall x, x ∈ arr -> Js.truthy (cleanTicker (ticker x)) = true ->
     cleanTicker (ticker x) ∈ seen \/ cleanTicker (ticker x) ∈ ticker <$> out).
Proof.
  induction arr as [|x rest IH]; intros seen; cbn zeta.
  - cbn [uniqFrom fmap list_fmap]. split; [constructor|].
    split; intros r Hr; inversion Hr.
  - cbn [uniqFrom]. set (t := cleanTicker (ticker x)).
    destruct (negb (Js.truthy t) || bool_decide (t ∈ seen)) eqn:E.
    + destruct (IH seen) as (Hnd & Hin & Hall). cbn zeta in *.
      split; [exact Hnd|]. split.
      * intros r Hr. destruct (Hin r Hr) as (H1 & H2 & y & Hy & ->).
        split; [exact H1|]. split; [exact H2|]. exists y. split; [right; exact Hy | reflexivity].
      * intros y Hy Ht. apply elem_of_cons in Hy as [->|Hy]; [|apply Hall; assumption].
        fold t in Ht |- *. rewrite Ht in E. cbn [negb orb] in E.
        apply bool_decide_eq_true in E. left. exact E.
    + apply orb_false_iff in E as [E1 E2]. apply negb_false_iff in E1.
      apply bool_decide_eq_false in E2.
      destruct (IH (t :: seen)) as (Hnd & Hin & Hall). cbn zeta in *.
      split; [|split].
      * cbn [fmap list_fmap]. change (ticker (setTicker x t)) with t.
        constructor; [|exact Hnd]. intros Ht.
        apply list_elem_of_fmap in Ht as (r & Hr & Hrin).
        destruct (Hin r Hrin) as (_ & Hns & _). apply Hns. rewrite <- Hr. left.
      * intros r Hr. apply elem_of_cons in Hr as [->|Hr].
        -- change (ticker (setTicker x t)) with t.
           split; [exact E1|]. split; [exact E2|]. exists x. split; [left | reflexivity].
        -- destruct (Hin r Hr) as (H1 & H2 & y & Hy & ->).
           split; [exact H1|]. split; [intros Hs; apply H2; right; exact Hs|].
           exists y. split; [right; exact Hy | reflexivity].
      * intros y Hy Ht. cbn [fmap list_fmap]. change (ticker (setTicker x t)) with t.
        apply elem_of_cons in Hy as [->|Hy]; [right; left|].
        destruct (Hall y Hy Ht) as [Hs|Hs]; [|right; right; exact Hs].
        apply elem_of_cons in Hs as [->|Hs]; [right; left | left; exact Hs].
Qed.

(** ** The ranking puts higher yields first *)

Lemma optLe_refl a : optLe a a.
Proof. destruct a; simpl; [lra | exact I]. Qed.

Lemma optLe_trans a b c : optLe a b -> optLe b c -> optLe a c.
Proof. destruct a, b, c; simpl; try tauto. lra. Qed.

(** Both outcomes of a comparison order the yields. *)
Lemma rank_yield a b :
  if Num.gt (rankForDividend a b) (Fin 0)
  then optLe (getYield a) (getYield b)
  else optLe (getYield b) (getYield a).
Proof.
  unfold rankForDividend. cbn zeta.
  destruct (getYield a) as [ay|], (getYield b) as [by_|]; cbn [fmap option_fmap option_map orElse].
  - cbn [Num.eq]. destruct (Num.Qeqb by_ ay) eqn:E; cbn [negb].
    + apply Qeqb_eq in E.
      destruct (Num.gt _ (Fin 0)); simpl; lra.
    + unfold Num.gt. cbn [Num.sub Num.neg Num.add Num.lt].
      destruct (Num.Qltb 0 (by_ + - ay)) eqn:E2; simpl.
      * apply Qltb_lt in E2. lra.
      * apply Qltb_ge in E2. lra.
  - reflexivity.
  - cbn. exact I.
  - cbn [Num.eq negb]. destruct (Num.gt _ (Fin 0)); exact I.
Qed.

Lemma insertBy_rank_sorted x l :
  StronglySorted (fun a b => optLe (getYield b) (getYield a)) l ->
  StronglySorted (fun a b => optLe (getYield b) (getYield a)) (insertBy rankForDividend x l).
Proof.
  intros Hs. induction Hs as [|y r Hr IH Hy]; cbn [insertBy].
  - repeat constructor.
  - pose proof (rank_yield x y) as Hxy.
    destruct (Num.gt (rankForDividend x y) (Fin 0)).
    + constructor; [exact IH|].
      apply Forall_forall. intros z Hz.
      rewrite (insertBy_perm rankForDividend x r) in Hz.
      apply elem_of_cons in Hz as [->|Hz]; [exact Hxy|].
      rewrite Forall_forall in Hy. apply Hy. exact Hz.
    + constructor; [constructor; assumption|].
      constructor; [exact Hxy|].
      apply Forall_forall. intros z Hz. rewrite Forall_forall in Hy.
      eapply optLe_trans; [apply Hy; exact Hz | exact Hxy].
Qed.

Lemma sortBy_rank_sorted l :
  StronglySorted (fun a b => optLe (getYield b) (getYield a)) (sortBy rankForDividend l).
Proof.
  induction l as [|x r IH]; [constructor|].
  unfold sortBy in *. cbn [foldr]. apply insertBy_rank_sorted. exact IH.
Qed.

Lemma sorted_take_drop {A} (R : A -> A -> Prop) (l : list A) : forall k p q,
  StronglySorted R l -> p ∈ take k l -> q ∈ drop k l -> R p q.
Proof.
  induction l as [|y r IH]; intros k p q Hs Hp Hq.
  - destruct k; inversion Hp.
  - destruct k as [|k]; [inversion Hp|]. cbn [take drop] in Hp, Hq.
    apply StronglySorted_inv in Hs as [Hr Hy].
    apply elem_of_cons in Hp as [->|Hp].
    + rewrite Forall_forall in Hy. apply Hy. eapply subseteq_drop. exact Hq.
    + eapply IH; eassumption.
Qed.

(** In a ranked pool no row behind the [k]-th has a higher yield than a
    row among the first [k]. *)
Lemma ranked_take_drop l k p q :
  p ∈ take k (sortBy rankForDividend l) -> q ∈ drop k (sortBy rankForDividend l) ->
  optLe (getYield q) (getYield p).
Proof.
  apply (sorted_take_drop (fun a b => optLe (getYield b) (getYield a))).
  apply sortBy_rank_sorted.
Qed.

Lemma slice0_take {A} (l : list A) k : exists j, slice0 l k = take j l.
Proof. unfold slice0. destruct (k <? 0); eauto. Qed.

(** ** The legacy builder *)

Definition legacyPool (rows : list DatasetRow) (opts : BuildOpts) : list DatasetRow :=
  sortBy rankForDividend (screenRows (uniqByTicker rows) (strictOf opts false)).

Definition legacyPicks (rows : list DatasetRow) (opts : BuildOpts) : list DatasetRow :=
  slice0 (legacyPool rows opts) (Z.min (n opts) (Z.of_nat (length (legacyPool rows opts)))).

Lemma buildPortfolio_picks rows opts :
  buildPortfolio rows opts =
  (fun r => allocate (sector r)
              (amount opts / inject_Z (Z.of_nat (length (legacyPicks rows opts))))%Q r)
    <$> legacyPicks rows opts.
Proof.
  unfold buildPortfolio. cbn zeta. fold (legacyPool rows opts). fold (legacyPicks rows opts).
  destruct (legacyPicks rows opts); reflexivity.
Qed.

Lemma length_legacyPicks rows opts :
  Z.of_nat (length (legacyPicks rows opts)) =
  let len := Z.of_nat (length (legacyPool rows opts)) in
  if n opts <? 0 then Z.max 0 (len + n opts) else Z.min (n opts) len.
Proof.
  unfold legacyPicks, slice0. cbn zeta.
  set (len := Z.of_nat (length (legacyPool rows opts))).
  assert (Hlen : length (legacyPool rows opts) = Z.to_nat len) by (unfold len; lia).
  destruct (n opts <? 0) eqn:E.
  - apply Z.ltb_lt in E. rewrite Z.min_l by lia.
    destruct (n opts <? 0) eqn:E2; [|apply Z.ltb_ge in E2; lia].
    rewrite length_take, Hlen. lia.
  - apply Z.ltb_ge in E.
    destruct (Z.min (n opts) len <? 0) eqn:E2; [apply Z.ltb_lt in E2; lia|].
    rewrite length_take, Hlen. lia.
Qed.

Lemma buildPortfolio_total rows opts :
  buildPortfolio rows opts <> [] -> (totalDollars (buildPortfolio rows opts) == amount opts)%Q.
Proof.
  rewrite buildPortfolio_picks. intros Hne.
  rewrite totalDollars_sumQ, sumQ_fmap. cbn [a_dollars allocate].
  rewrite sumQ_const.
  destruct (legacyPicks rows opts) as [|p ps] eqn:E; [contradiction|].
  assert (Hpos : (0 < inject_Z (Z.of_nat (length (p :: ps))))%Q)
    by (apply ofNat_pos; simpl; lia).
  field. lra.
Qed.

End PortfolioMore.

Section PortfolioExtras.
Import Portfolio.
Context `{Host}.

(** X17: [uniqByTicker] returns rows with pairwise distinct, non-empty
    tickers, each an input row with its ticker cleaned; and every
    non-empty cleaned ticker of the input is the ticker of one of
    them. *)
Theorem uniqByTicker_distinct_tickers (rows : list DatasetRow) :
  let out := uniqByTicker rows in
  NoDup (ticker <$> out) /\
  (forall r, r ∈ out ->
     Js.truthy (ticker r) = true /\
     exists x, x ∈ rows /\ r = setTicker x (cleanTicker (ticker x))) /\
  (forall x, x ∈ rows -> Js.truthy (cleanTicker (ticker x)) = true ->
     cleanTicker (ticker x) ∈ ticker <$> out).
Proof.
  cbn zeta. destruct (uniqFrom_spec rows []) as (Hnd & Hin & Hall). cbn zeta in *.
  split; [exact Hnd|]. split.
  - intros r Hr. destruct (Hin r Hr) as (H1 & _ & H3). split; assumption.
  - intros x Hx Ht. destruct (Hall x Hx Ht) as [Hs|Hs]; [inversion Hs | exact Hs].
Qed.

(** X18: the legacy builder spends the whole amount.  [buildPortfolio]
    allocates the same dollars to every name; the dollars of a non-empty
    result add up to [opts.amount]; and the number of names is
    [min(n, pool)] for [n >= 0], where [pool] counts the screened rows,
    but [pool + n] (all but the last [-n] of the ranking) for a negative
    [n]. *)
Theorem buildPortfolio_spends_the_amount (rows : list DatasetRow) (opts : BuildOpts) :
  let out := buildPortfolio rows opts in
  let pool := Z.of_nat (length (screenRows (uniqByTicker rows) (strictOf opts false))) in
  Z.of_nat (length out) =
    (if n opts <? 0 then Z.max 0 (pool + n opts) else Z.min (n opts) pool) /\
  (forall a, a ∈ out ->
     a_dollars a = (amount opts / inject_Z (Z.of_nat (length out)))%Q) /\
  (out <> [] -> (totalDollars out == amount opts)%Q).
Proof.
  cbn zeta. split; [|split].
  - rewrite buildPortfolio_picks, length_fmap, length_legacyPicks. cbn zeta.
    unfold legacyPool. rewrite length_sortBy. reflexivity.
  - rewrite buildPortfolio_picks, length_fmap. intros a Ha.
    apply list_elem_of_fmap in Ha as (r & -> & _). reflexivity.
  - apply buildPortfolio_total.
Qed.

(** X19: the legacy builder takes the names with the highest dividend
    yields.  The tickers allocated are those of a prefix of the screened
    pool in ranking order, and no screened row that is left out has a
    higher yield than a row that is taken (a row without a yield counts
    as below every yield). *)
Theorem buildPortfolio_takes_the_top_yields (rows : list DatasetRow) (opts : BuildOpts) :
  exists picks rest,
    picks ++ rest ≡ₚ screenRows (uniqByTicker rows) (strictOf opts false) /\
    a_ticker <$> buildPortfolio rows opts = ticker <$> picks /\
    forall p q, p ∈ picks -> q ∈ rest -> optLe (getYield q) (getYield p).
Proof.
  destruct (slice0_take (legacyPool rows opts)
              (Z.min (n opts) (Z.of_nat (length (legacyPool rows opts))))) as [j Hj].
  exists (take j (legacyPool rows opts)), (drop j (legacyPool rows opts)).
  split; [|split].
  - rewrite take_drop. apply sortBy_perm.
  - rewrite buildPortfolio_picks. unfold legacyPicks. rewrite Hj.
    rewrite <- list_fmap_compose. reflexivity.
  - intros p q Hp Hq. eapply ranked_take_drop; eassumption.
Qed.

End PortfolioExtras.

(* ===================================================================== *)
(** * portfolio.ts: options that are not read, the fallback, the slots    *)
(* ===================================================================== *)

(** [{ ...opts, include, tilt }] *)
Definition withIncludeTilt (opts : Portfolio.BuildOpts) (inc : option (list jsstring))
    (t : option Portfolio.Tilt) : Portfolio.BuildOpts :=
  {| Portfolio.amount := Portfolio.amount opts; Portfolio.n := Portfolio.n opts;
     Portfolio.tilt := t;
     Portfolio.minDividendYield := Portfolio.minDividendYield opts;
     Portfolio.minMarketCap := Portfolio.minMarketCap opts;
     Portfolio.minPrice := Portfolio.minPrice opts;
     Portfolio.include := inc; Portfolio.exclude := Portfolio.exclude opts;
     Portfolio.relaxYieldTo := Portfolio.relaxYieldTo opts;
     Portfolio.relaxYieldStep := Portfolio.relaxYieldStep opts;
     Portfolio.relaxCapTo := Portfolio.relaxCapTo opts;
     Portfolio.relaxCapFactor := Portfolio.relaxCapFactor opts |}.

(** [{ ...sc, include }] *)
Definition withInclude (sc : Portfolio.Screen) (inc : option (list jsstring))
  : Portfolio.Screen :=
  {| Portfolio.minYield := Portfolio.minYield sc; Portfolio.minMktCap := Portfolio.minMktCap sc;
     Portfolio.s_minPrice := Portfolio.s_minPrice sc; Portfolio.s_include := inc;
     Portfolio.s_exclude := Portfolio.s_exclude sc;
     Portfolio.s_relaxYieldTo := Portfolio.s_relaxYieldTo sc;
     Portfolio.s_relaxYieldStep := Portfolio.s_relaxYieldStep sc;
     Portfolio.s_relaxCapTo := Portfolio.s_relaxCapTo sc;
     Portfolio.s_relaxCapFactor := Portfolio.s_relaxCapFactor sc |}.

Section IncludeFacts.
Import Portfolio.
Context `{Host}.

Lemma relaxYieldLoop_include rows sc inc targetN to step : forall fuel pool minY,
  relaxYieldLoop fuel rows (withInclude sc inc) targetN to step pool minY
  = relaxYieldLoop fuel rows sc targetN to step pool minY.
Proof.
  induction fuel as [|fuel IH]; intros pool minY; cbn [relaxYieldLoop]; [reflexivity|].
  destruct (negb (enough pool targetN) && Num.Qltb to minY); [|reflexivity].
  change (screenRows rows (withYield (withInclude sc inc) (Qmax to (minY - step))))
    with (screenRows rows (withYield sc (Qmax to (minY - step)))).
  destruct (enough _ targetN); [reflexivity|]. apply IH.
Qed.

Lemma relaxCapLoop_include rows sc inc targetN to factor minY : forall fuel pool minC,
  relaxCapLoop fuel rows (withInclude sc inc) targetN to factor minY pool minC
  = relaxCapLoop fuel rows sc targetN to factor minY pool minC.
Proof.
  induction fuel as [|fuel IH]; intros pool minC; cbn [relaxCapLoop]; [reflexivity|].
  destruct (negb (enough pool targetN) && Num.Qltb to minC); [|reflexivity].
  change (screenRows rows (withYieldCap (withInclude sc inc) minY
            (Qmax to (inject_Z (Qfloor (minC * factor))))))
    with (screenRows rows (withYieldCap sc minY (Qmax to (inject_Z (Qfloor (minC * factor)))))).
  destruct (enough _ targetN); [reflexivity|]. apply IH.
Qed.

Lemma fillSectorWithFallback_include fuel rows sc inc targetN :
  fillSectorWithFallback fuel rows (withInclude sc inc) targetN
  = fillSectorWithFallback fuel rows sc targetN.
Proof.
  unfold fillSectorWithFallback. cbn zeta.
  change (screenRows rows (withInclude sc inc)) with (screenRows rows sc).
  destruct (enough _ targetN); [reflexivity|].
  cbn [withInclude s_relaxYieldTo s_relaxYieldStep s_relaxCapTo s_relaxCapFactor
       minYield minMktCap].
  rewrite relaxYieldLoop_include.
  destruct (relaxYieldLoop _ _ _ _ _ _ _ _) as [[out|[pool minY]]|]; try reflexivity.
  rewrite relaxCapLoop_include. reflexivity.
Qed.

Lemma chooseLoop_include fuel base sc inc : forall floorSlots chosen,
  chooseLoop fuel floorSlots base (withInclude sc inc) chosen
  = chooseLoop fuel floorSlots base sc chosen.
Proof.
  induction floorSlots as [|fs rest IH]; intros chosen; cbn [chooseLoop]; [reflexivity|].
  destruct (fs_slots fs <=? 0); [apply IH|].
  rewrite fillSectorWithFallback_include.
  destruct (fillSectorWithFallback _ _ _ _); [apply IH | reflexivity].
Qed.

Lemma buildPortfolio_include rows opts inc t :
  buildPortfolio rows (withIncludeTilt opts inc t) = buildPortfolio rows opts.
Proof. reflexivity. Qed.

Lemma buildPortfolioSectorBalanced_include fuel rows opts inc t sectorWeights :
  buildPortfolioSectorBalanced fuel rows (withIncludeTilt opts inc t) sectorWeights
  = buildPortfolioSectorBalanced fuel rows opts sectorWeights.
Proof.
  unfold buildPortfolioSectorBalanced. cbn zeta.
  destruct (List.filter _ (normalizeWeights sectorWeights)) as [|s ss]; [reflexivity|].
  change (strictOf (withIncludeTilt opts inc t) true)
    with (withInclude (strictOf opts true) inc).
  change (n (withIncludeTilt opts inc t)) with (n opts).
  rewrite chooseLoop_include.
  destruct (chooseLoop _ _ _ _ _) as [chosen|]; reflexivity.
Qed.

End IncludeFacts.

Section FallbackFacts.
Import Portfolio.
Context `{Host}.

(** A result that is the first [targetN] rows of a ranked screen with the
    price guard of [strict]. *)
Definition fromScreen (rows : list DatasetRow) (strict : Screen) (targetN : Z)
    (out : list DatasetRow) : Prop :=
  exists sc, s_minPrice sc = s_minPrice strict /\
    enough (sortBy rankForDividend (screenRows rows sc)) targetN = true /\
    out = slice0 (sortBy rankForDividend (screenRows rows sc)) targetN.

Lemma relaxYieldLoop_fromScreen rows strict targetN to step : forall fuel pool minY out,
  relaxYieldLoop fuel rows strict targetN to step pool minY = Some (Returned out) ->
  fromScreen rows strict targetN out.
Proof.
  induction fuel as [|fuel IH]; intros pool minY out; cbn [relaxYieldLoop].
  - destruct (negb (enough pool targetN) && Num.Qltb to minY); discriminate.
  - destruct (negb (enough pool targetN) && Num.Qltb to minY); [|discriminate].
    destruct (enough _ targetN) eqn:E.
    + intros [= <-]. eexists. split; [|split; [exact E | reflexivity]]. reflexivity.
    + apply IH.
Qed.

Lemma relaxCapLoop_fromScreen rows strict targetN to factor minY : forall fuel pool minC out,
  relaxCapLoop fuel rows strict targetN to factor minY pool minC = Some (Returned out) ->
  fromScreen rows strict targetN out.
Proof.
  induction fuel as [|fuel IH]; intros pool minC out; cbn [relaxCapLoop].
  - destruct (negb (enough pool targetN) && Num.Qltb to minC); discriminate.
  - destruct (negb (enough pool targetN) && Num.Qltb to minC); [|discriminate].
    destruct (enough _ targetN) eqn:E.
    + intros [= <-]. eexists. split; [|split; [exact E | reflexivity]]. reflexivity.
    + apply IH.
Qed.

(** What the fallback returns: as many rows as asked for, or all the
    rows of the sector that pass the price guard if those are fewer. *)
Definition completeFill (rows : list DatasetRow) (strict : Screen) (targetN : Z)
    (fill : list DatasetRow) : Prop :=
  let valid := List.filter (priceOk (s_minPrice strict ?: 0%Q)) rows in
  length fill = Nat.min (Z.to_nat targetN) (length valid) /\
  forall r, r ∈ fill -> r ∈ valid.

Lemma fromScreen_complete rows strict targetN out :
  0 <= targetN -> fromScreen rows strict targetN out -> completeFill rows strict targetN out.
Proof.
  intros Ht (sc & Hp & He & ->). unfold completeFill. cbn zeta.
  set (valid := List.filter (priceOk (s_minPrice strict ?: 0%Q)) rows).
  assert (Hsub : forall r, r ∈ sortBy rankForDividend (screenRows rows sc) -> r ∈ valid).
  { intros r Hr. rewrite sortBy_perm in Hr. unfold screenRows in Hr.
    apply list_elem_of_In, filter_In in Hr as [Hin Hpass].
    apply list_elem_of_In, filter_In. split; [exact Hin|].
    rewrite <- Hp. apply (passes_priceOk sc). exact Hpass. }
  assert (Hlen : (length (sortBy rankForDividend (screenRows rows sc)) <= length valid)%nat).
  { rewrite length_sortBy. unfold screenRows, valid. apply length_filter_mono.
    intros r Hr. rewrite <- Hp. apply (passes_priceOk sc). exact Hr. }
  apply enough_true in He.
  destruct (slice0_good rows (sortBy rankForDividend (screenRows rows sc)) targetN Ht)
    as [Hl _].
  { apply enough_true. exact He. }
  { intros r. apply elem_of_sorted_screen. }
  split; [rewrite Hl; lia|].
  intros r Hr. apply Hsub. unfold slice0 in Hr.
  destruct (targetN <? 0); eapply subseteq_take; exact Hr.
Qed.

Lemma fillSectorWithFallback_complete rows strict targetN fuel :
  (0 < s_relaxYieldStep strict ?: 0.5)%Q ->
  (0 <= s_relaxCapTo strict ?: 5000000000)%Q ->
  (s_relaxCapFactor strict ?: 0.8 < 1)%Q ->
  0 <= targetN -> (fuelFor strict <= fuel)%nat ->
  exists fill,
    fillSectorWithFallback fuel rows strict targetN = Some fill /\
    completeFill rows strict targetN fill.
Proof.
  intros Hstep Hto Hfac Ht Hfuel. unfold fillSectorWithFallback.
  set (pool0 := sortBy rankForDividend (screenRows rows strict)).
  destruct (enough pool0 targetN) eqn:E0.
  { eexists. split; [reflexivity|]. apply fromScreen_complete; [exact Ht|].
    exists strict. split; [reflexivity|]. split; [exact E0 | reflexivity]. }
  unfold fuelFor in Hfuel. cbn zeta in Hfuel.
  set (relaxYieldTo := s_relaxYieldTo strict ?: 2%Q) in *.
  set (relaxYieldStep := s_relaxYieldStep strict ?: 0.5%Q) in *.
  set (minY0 := minYield strict ?: 0%Q) in *.
  set (minC0 := minMktCap strict ?: 0%Q) in *.
  destruct (relaxYieldLoop_returns rows strict targetN relaxYieldTo relaxYieldStep
              Ht Hstep fuel pool0 minY0) as (outY & EY & _).
  { pose proof (Qle_ceiling ((minY0 - relaxYieldTo) / relaxYieldStep)) as Hc.
    assert (Hle : (inject_Z (Qceiling ((minY0 - relaxYieldTo) / relaxYieldStep))
                   <= inject_Z (Z.of_nat fuel))%Q) by (rewrite <- Zle_Qle; lia).
    assert (Hd : ((minY0 - relaxYieldTo) / relaxYieldStep <= inject_Z (Z.of_nat fuel))%Q)
      by lra.
    assert (Hm : (minY0 - relaxYieldTo
                  == (minY0 - relaxYieldTo) / relaxYieldStep * relaxYieldStep)%Q)
      by (field; lra).
    rewrite Hm. nra. }
  rewrite EY. destruct outY as [out|[pool1 minY1]].
  { eexists. split; [reflexivity|]. apply fromScreen_complete; [exact Ht|].
    eapply relaxYieldLoop_fromScreen. exact EY. }
  destruct (relaxCapLoop_returns rows strict targetN
              (s_relaxCapTo strict ?: 5000000000%Q) (s_relaxCapFactor strict ?: 0.8%Q)
              minY1 Ht Hto Hfac fuel pool1 minC0) as (outC & EC & _).
  { right. lia. }
  rewrite EC. destruct outC as [out|s].
  { eexists. split; [reflexivity|]. apply fromScreen_complete; [exact Ht|].
    eapply relaxCapLoop_fromScreen. exact EC. }
  eexists. split; [reflexivity|]. unfold completeFill. cbn zeta.
  set (valid := List.filter (priceOk (s_minPrice strict ?: 0%Q)) rows).
  assert (Hlen : length (lastResort rows strict) = length valid)
    by (unfold lastResort; apply length_sortBy).
  unfold slice0. rewrite Hlen.
  destruct (Z.min targetN (Z.of_nat (length valid)) <? 0) eqn:E; [apply Z.ltb_lt in E; lia|].
  split.
  - rewrite length_take, Hlen. lia.
  - intros r Hr. apply subseteq_take in Hr. unfold lastResort in Hr.
    rewrite sortBy_perm in Hr. exact Hr.
Qed.

End FallbackFacts.

Section SlotMore.
Import Portfolio.
Context `{Host}.

(** A slot count that is the floor of the exact share, or one more. *)
Definition floorOrNext (sectors : SectorWeights) (totalSlots : Z) (fs : FloorSlot) : Prop :=
  exists w, (fs_sector fs, w) ∈ sectors /\
    (fs_slots fs = Qfloor (inject_Z totalSlots * w) \/
     fs_slots fs = Qfloor (inject_Z totalSlots * w) + 1).

(** [floorSlots[i].slots++] *)
Definition oneMore (fs : FloorSlot) : FloorSlot :=
  {| fs_sector := fs_sector fs; fs_slots := fs_slots fs + 1; fs_frac := fs_frac fs |}.

(** Both outcomes of the comparison order the remainders. *)
Lemma byRemainder_frac a b :
  if Num.gt (byRemainder a b) (Fin 0)
  then (fs_frac a <= fs_frac b)%Q
  else (fs_frac b <= fs_frac a)%Q.
Proof.
  unfold byRemainder. cbn zeta.
  destruct (Num.Qeqb (fs_frac b - fs_frac a) 0) eqn:E; cbn [negb].
  - apply Qeqb_eq in E. destruct (Num.gt _ (Fin 0)); lra.
  - unfold Num.gt. cbn [Num.lt].
    destruct (Num.Qltb 0 (fs_frac b - fs_frac a)) eqn:E2.
    + apply Qltb_lt in E2. lra.
    + apply Qltb_ge in E2. lra.
Qed.

Lemma insertBy_byRemainder_sorted x l :
  StronglySorted (fun a b => (fs_frac b <= fs_frac a)%Q) l ->
  StronglySorted (fun a b => (fs_frac b <= fs_frac a)%Q) (insertBy byRemainder x l).
Proof.
  intros Hs. induction Hs as [|y r Hr IH Hy]; cbn [insertBy].
  - repeat constructor.
  - pose proof (byRemainder_frac x y) as Hxy.
    destruct (Num.gt (byRemainder x y) (Fin 0)).
    + constructor; [exact IH|].
      apply Forall_forall. intros z Hz.
      rewrite (insertBy_perm byRemainder x r) in Hz.
      apply elem_of_cons in Hz as [->|Hz]; [exact Hxy|].
      rewrite Forall_forall in Hy. apply Hy. exact Hz.
    + constructor; [constructor; assumption|].
      constructor; [exact Hxy|].
      apply Forall_forall. intros z Hz. rewrite Forall_forall in Hy.
      specialize (Hy z Hz). lra.
Qed.

Lemma sortBy_byRemainder_sorted l :
  StronglySorted (fun a b => (fs_frac b <= fs_frac a)%Q) (sortBy byRemainder l).
Proof.
  induction l as [|x r IH]; [constructor|].
  unfold sortBy in *. cbn [foldr]. apply insertBy_byRemainder_sorted. exact IH.
Qed.

(** The loop adds one slot to each of the first entries, as many as
    there are slots left over. *)
Lemma distribute_take_drop l : forall used totalSlots,
  distribute l used totalSlots =
  let k := Z.to_nat (Z.min (Z.max 0 (totalSlots - used)) (Z.of_nat (length l))) in
  (oneMore <$> take k l) ++ drop k l.
Proof.
  induction l as [|x r IH]; intros used totalSlots; cbn zeta.
  - rewrite take_nil, drop_nil. reflexivity.
  - cbn [distribute]. destruct (used <? totalSlots) eqn:E.
    + apply Z.ltb_lt in E. rewrite IH. cbn zeta.
      replace (Z.to_nat (Z.min (Z.max 0 (totalSlots - used)) (Z.of_nat (length (x :: r)))))
        with (S (Z.to_nat (Z.min (Z.max 0 (totalSlots - (used + 1))) (Z.of_nat (length r)))))
        by (cbn [length]; lia).
      reflexivity.
    + apply Z.ltb_ge in E.
      replace (Z.to_nat (Z.min (Z.max 0 (totalSlots - used)) (Z.of_nat (length (x :: r)))))
        with 0%nat by lia.
      reflexivity.
Qed.

Lemma distribute_each (P : jsstring -> Z -> Prop) l : forall used totalSlots,
  (forall fs, fs ∈ l -> P (fs_sector fs) (fs_slots fs)) ->
  forall fs, fs ∈ distribute l used totalSlots ->
    P (fs_sector fs) (fs_slots fs) \/ P (fs_sector fs) (fs_slots fs - 1).
Proof.
  induction l as [|x r IH]; intros used totalSlots Hall fs Hin; cbn [distribute] in Hin.
  - inversion Hin.
  - destruct (used <? totalSlots).
    + apply elem_of_cons in Hin as [->|Hin].
      * right. cbn [fs_sector fs_slots]. replace (fs_slots x + 1 - 1) with (fs_slots x) by lia.
        apply Hall. left.
      * eapply IH; [|exact Hin]. intros y Hy. apply Hall. right. exact Hy.
    + left. apply Hall. exact Hin.
Qed.

Lemma slotSplit_each sectors totalSlots fs :
  fs ∈ slotSplit sectors totalSlots -> floorOrNext sectors totalSlots fs.
Proof.
  rewrite slotSplit_unfold. intros Hin.
  apply (distribute_each
           (fun sec k => exists w, (sec, w) ∈ sectors /\ k = Qfloor (inject_Z totalSlots * w)))
    in Hin.
  - destruct Hin as [(w & Hw & E)|(w & Hw & E)]; exists w; (split; [exact Hw|]);
      [left; exact E | right; lia].
  - intros x Hx. rewrite sortBy_perm in Hx. unfold floorsOf in Hx.
    apply list_elem_of_fmap in Hx as ([sec e] & -> & Hx).
    apply list_elem_of_fmap in Hx as ([sec' w] & [= -> ->] & Hx).
    exists w. split; [exact Hx | reflexivity].
Qed.

End SlotMore.

Section RoundingFacts.
Import Portfolio.




End RoundingFacts.

Section PortfolioExtras2.
Import Portfolio.
Context `{Host}.

(** X20: the options [include] and [tilt] have no effect.  [include] is
    only turned into a set that nothing consults, and [tilt] is not read:
    whatever list of tickers to include and whatever tilt the caller
    passes, both builders return what they return without them. *)
Theorem include_and_tilt_change_nothing (fuel : nat) (rows : list DatasetRow)
    (opts : BuildOpts) (sectorWeights : SectorWeights)
    (inc : option (list jsstring)) (t : option Tilt) :
  buildPortfolio rows (withIncludeTilt opts inc t) = buildPortfolio rows opts /\
  buildPortfolioSectorBalanced fuel rows (withIncludeTilt opts inc t) sectorWeights
  = buildPortfolioSectorBalanced fuel rows opts sectorWeights.
Proof.
  split; [apply buildPortfolio_include | apply buildPortfolioSectorBalanced_include].
Qed.

(** X21: the floors never cost a name (in exact arithmetic: the floors
    are lowered exactly, where the code subtracts and multiplies in
    binary64, in which a step below half an ulp of the floor changes
    nothing).  With relaxation parameters that make the two loops
    progress, [fillSectorWithFallback] returns (the loops end within
    [fuelFor strict] iterations), and what it returns are [targetN] rows
    of the sector that pass the price guard, or all of those rows when
    there are fewer than [targetN]. *)
Theorem fallback_fills_up_to_the_price_valid_rows (sectorRows : list DatasetRow)
    (strict : Screen) (targetN : Z) (fuel : nat) :
  (0 < s_relaxYieldStep strict ?: 0.5)%Q ->
  (0 <= s_relaxCapTo strict ?: 5000000000)%Q ->
  (s_relaxCapFactor strict ?: 0.8 < 1)%Q ->
  0 <= targetN -> (fuelFor strict <= fuel)%nat ->
  exists fill,
    fillSectorWithFallback fuel sectorRows strict targetN = Some fill /\
    let valid := List.filter (priceOk (s_minPrice strict ?: 0%Q)) sectorRows in
    length fill = Nat.min (Z.to_nat targetN) (length valid) /\
    forall r, r ∈ fill -> r ∈ valid.
Proof. apply fillSectorWithFallback_complete. Qed.

(** X22: the slot split is a largest-remainder apportionment.  Every
    sector appears once in the split, with the floor of its exact share
    [totalSlots * weight] or one slot more; when the weights add up to 1
    the slots add up to [totalSlots]; and the extra slots go to the
    largest remainders: the split is the list of floors ranked by
    non-increasing remainder, with one slot added to each of its first
    [k] entries, where [k] is the number of slots that the floors leave
    over (at most one per sector), so that no sector without an extra
    slot has a larger remainder than a sector with one. *)
Theorem slotSplit_is_an_apportionment (sectors : SectorWeights) (totalSlots : Z) :
  fs_sector <$> slotSplit sectors totalSlots ≡ₚ sectors.*1 /\
  (forall fs, fs ∈ slotSplit sectors totalSlots ->
     exists w, (fs_sector fs, w) ∈ sectors /\
       (fs_slots fs = Qfloor (inject_Z totalSlots * w) \/
        fs_slots fs = Qfloor (inject_Z totalSlots * w) + 1)) /\
  (sectors <> [] -> (sumQ snd sectors == 1)%Q ->
   sumZ fs_slots (slotSplit sectors totalSlots) = totalSlots) /\
  (let floors := floorsOf sectors totalSlots in
   let k := Z.to_nat (Z.min (Z.max 0 (totalSlots - sumZ fs_slots floors))
                            (Z.of_nat (length floors))) in
   exists ranked,
     ranked ≡ₚ floors /\
     StronglySorted (fun a b => (fs_frac b <= fs_frac a)%Q) ranked /\
     slotSplit sectors totalSlots = (oneMore <$> take k ranked) ++ drop k ranked /\
     forall a b, a ∈ take k ranked -> b ∈ drop k ranked -> (fs_frac b <= fs_frac a)%Q).
Proof.
  split; [apply slotSplit_sectors|]. split; [apply slotSplit_each|].
  split; [apply slotSplit_sum|]. cbn zeta.
  exists (sortBy byRemainder (floorsOf sectors totalSlots)).
  split; [apply sortBy_perm|]. split; [apply sortBy_byRemainder_sorted|].
  split.
  - rewrite slotSplit_unfold, distribute_take_drop, length_sortBy. reflexivity.
  - intros a b0 Ha Hb.
    exact (sorted_take_drop (fun a b => (fs_frac b <= fs_frac a)%Q) _ _ a b0
             (sortBy_byRemainder_sorted _) Ha Hb).
Qed.


End PortfolioExtras2.

Lemma fallback_fills_up_to_the_price_valid_rows_witness :
  exists fill,
    Portfolio.fillSectorWithFallback (H := asciiHost) 10
      [row "AAA" "Tech" 10 (Some 1%Q) None; row "BBB" "Tech" 20 (Some 5%Q) None;
       row "CCC" "Tech" 0 (Some 9%Q) None]
      (screenOf (Some 4%Q) None) 3 = Some fill /\
    length fill = 2%nat.
Proof.
  destruct (fallback_fills_up_to_the_price_valid_rows (H := asciiHost)
              [row "AAA" "Tech" 10 (Some 1%Q) None; row "BBB" "Tech" 20 (Some 5%Q) None;
               row "CCC" "Tech" 0 (Some 9%Q) None]
              (screenOf (Some 4%Q) None) 3 10) as (fill & E & Hlen & _).
  - reflexivity.
  - discriminate.
  - reflexivity.
  - lia.
  - vm_compute. lia.
  - exists fill. split; [exact E | exact Hlen].
Defined.

Example slotSplit_example :
  (fun fs => (Portfolio.fs_sector fs, Portfolio.fs_slots fs)) <$>
    Portfolio.slotSplit (H := asciiHost)
      [(lit "A", 0.5%Q); (lit "B", 0.3%Q); (lit "C", 0.2%Q)] 4
  = [(lit "C", 1); (lit "B", 1); (lit "A", 2)].
Proof. vm_compute. reflexivity. Qed.

(* ===================================================================== *)
(** * The summary line, the horizon and the percentile                    *)
(* ===================================================================== *)

Section FeatureFacts.
Import Rag Text Features.
Context `{Host} `{Env}.

Lemma joinWith_snoc sep (l : list jsstring) x : exists pre, joinWith sep (l ++ [x]) = pre ++ x.
Proof.
  induction l as [|y r IH]; [exists []; reflexivity|].
  destruct IH as [pre IH]. destruct r as [|z r'].
  - exists (y ++ sep). cbn. rewrite <- app_assoc. reflexivity.
  - exists (y ++ sep ++ pre). change ((y :: z :: r') ++ [x]) with (y :: ((z :: r') ++ [x])).
    cbn [joinWith app] in IH |- *. rewrite IH, <- !app_assoc. reflexivity.
Qed.

Lemma last_trendName t : exists c, last (trendName t) = Some c /\ c <> 46%N.
Proof. destruct t; eexists; (split; [reflexivity | discriminate]). Qed.

Lemma last_app_nonempty {A} (l1 l2 : list A) x : last l2 = Some x -> last (l1 ++ l2) = Some x.
Proof.
  intros E. destruct l2 as [|y r] using rev_ind; [discriminate|].
  rewrite app_assoc, last_snoc. rewrite last_snoc in E. exact E.
Qed.

(** The parts always end with the trend. *)
Lemma featureParts_trend qs t :
  qs_maTrend qs = Some t ->
  exists parts, featureParts qs = parts ++ [lit "trend " ++ trendName t].
Proof. intros E. unfold featureParts. cbn zeta. rewrite E. eauto. Qed.

Lemma retrievePriceFeatures_run ticker w :
  exists s w' pre t,
    retrievePriceFeatures ticker w = (Ok s, w') /\
    s = pre ++ lit "trend " ++ trendName t /\
    s <> noFeatures.
Proof.
  destruct (getQuickStats_run ticker w) as (row & w1 & q & m & c & w' & _ & _ & Eg).
  pose proof (assemble_maTrend row q m c) as Ht.
  set (t := Indicator.trendFromMomentum _ _) in Ht.
  destruct (featureParts_trend _ t Ht) as [parts Ep].
  destruct (joinWith_snoc (lit ", ") parts (lit "trend " ++ trendName t)) as [pre Ej].
  exists (pre ++ lit "trend " ++ trendName t), w', pre, t.
  unfold retrievePriceFeatures, bind. rewrite Eg, Ep.
  split; [|split; [reflexivity|]].
  - destruct parts; cbn [app]; rewrite <- Ej; reflexivity.
  - intros E. apply (f_equal last) in E.
    destruct (last_trendName t) as (ch & El & Hne).
    rewrite (last_app_nonempty pre _ ch) in E.
    + vm_compute in E. congruence.
    + apply last_app_nonempty. exact El.
Qed.

End FeatureFacts.

Section RoundFacts.
Import PricesRoute.

Lemma round2_spec (q : Q) :
  let r := (inject_Z (Qfloor (q * 100 + (1 # 2))) / 100)%Q in
  (q - (1 # 200) < r /\ r <= q + (1 # 200))%Q /\
  (inject_Z (Qfloor (r * 100 + (1 # 2))) / 100 == r)%Q.
Proof.
  cbn zeta. pose proof (Qfloor_le (q * 100 + (1 # 2))) as Hlo.
  pose proof (Qlt_floor (q * 100 + (1 # 2))) as Hhi.
  rewrite inject_Z_plus in Hhi. change (inject_Z 1) with 1%Q in Hhi.
  set (k := Qfloor (q * 100 + (1 # 2))) in *.
  split.
  - split; [apply Qlt_shift_div_l; [reflexivity | lra]
           | apply Qle_shift_div_r; [reflexivity | lra]].
  - assert (Hk : Qfloor (inject_Z k / 100 * 100 + (1 # 2)) = k).
    { assert (E : (inject_Z k / 100 * 100 + (1 # 2) == inject_Z k + (1 # 2))%Q) by field.
      rewrite (Qfloor_comp _ _ E).
      pose proof (Qfloor_le (inject_Z k + (1 # 2))) as H1.
      pose proof (Qlt_floor (inject_Z k + (1 # 2))) as H2.
      rewrite inject_Z_plus in H2. change (inject_Z 1) with 1%Q in H2.
      set (j := Qfloor (inject_Z k + (1 # 2))) in *.
      assert (Hj1 : (inject_Z j < inject_Z (k + 1))%Q)
        by (rewrite inject_Z_plus; change (inject_Z 1) with 1%Q; lra).
      assert (Hj2 : (inject_Z (k - 1) < inject_Z j)%Q).
      { unfold Z.sub. rewrite inject_Z_plus, inject_Z_opp. change (inject_Z 1) with 1%Q. lra. }
      rewrite <- Zlt_Qlt in Hj1, Hj2. lia. }
    rewrite Hk. reflexivity.
Qed.

End RoundFacts.

Section PercentileFacts.
Import Forecast.





End PercentileFacts.

Section HorizonFacts.
Import Text Forecast.

Lemma takeWhile_app_stop {A} (p : A -> bool) (l r : list A) :
  Forall (fun x => p x = true) l -> (head r ≫= fun x => Some (p x)) <> Some true ->
  takeWhile p (l ++ r) = l.
Proof.
  intros Hl Hr. induction Hl as [|x l Hx Hl IH]; simpl.
  - destruct r as [|y r']; [reflexivity|]. simpl in Hr |- *.
    destruct (p y); [congruence | reflexivity].
  - rewrite Hx, IH. reflexivity.
Qed.

Lemma dropWhile_app_stop {A} (p : A -> bool) (l r : list A) :
  Forall (fun x => p x = true) l -> (head r ≫= fun x => Some (p x)) <> Some true ->
  dropWhile p (l ++ r) = r.
Proof.
  intros Hl Hr. induction Hl as [|x l Hx Hl IH]; simpl.
  - destruct r as [|y r']; [reflexivity|]. simpl in Hr |- *.
    destruct (p y); [congruence | reflexivity].
  - rewrite Hx. exact IH.
Qed.

Lemma isPrefix_app (u s : jsstring) : isPrefix u (u ++ s) = true.
Proof. induction u as [|c u IH]; simpl; [reflexivity|]. rewrite N.eqb_refl. exact IH. Qed.

(** Without a digit at its head, nothing matches there. *)
Lemma matchAt_no_digit unit c s : isDigit c = false -> matchAt unit (c :: s) = None.
Proof. intros E. unfold matchAt. cbn [takeWhile]. rewrite E. reflexivity. Qed.

Lemma firstMatch_no_digit unit s :
  Forall (fun c => isDigit c = false) s -> firstMatch unit s = None.
Proof.
  induction 1 as [|c s Hc Hs IH]; [reflexivity|].
  cbn [firstMatch]. rewrite (matchAt_no_digit unit c s Hc). exact IH.
Qed.

(** The leftmost run of digits, followed by white space and the unit. *)
Lemma firstMatch_shape (unit pre ds sp post : jsstring) u us :
  unit = u :: us -> isDigit u = false -> isSpace u = false ->
  Forall (fun c => isDigit c = false) pre ->
  ds <> [] -> Forall (fun c => isDigit c = true) ds ->
  Forall (fun c => isSpace c = true) sp ->
  (head sp ≫= fun c => Some (isDigit c)) <> Some true ->
  firstMatch unit (pre ++ ds ++ sp ++ unit ++ post) = Some (digitsValue ds).
Proof.
  intros Hu Hud Hus Hpre Hne Hds Hsp Hhead.
  induction Hpre as [|c pre Hc Hpre IH].
  - cbn [app]. destruct ds as [|d ds']; [contradiction|].
    assert (Hstop : (head (sp ++ unit ++ post) ≫= fun x => Some (isDigit x)) <> Some true).
    { destruct sp as [|s0 sp']; [|exact Hhead]. rewrite Hu. simpl. rewrite Hud. discriminate. }
    assert (E1 : takeWhile isDigit ((d :: ds') ++ sp ++ unit ++ post) = d :: ds')
      by (apply takeWhile_app_stop; assumption).
    assert (E2 : dropWhile isDigit ((d :: ds') ++ sp ++ unit ++ post) = sp ++ unit ++ post)
      by (apply dropWhile_app_stop; assumption).
    assert (E3 : dropWhile isSpace (sp ++ unit ++ post) = unit ++ post).
    { apply dropWhile_app_stop; [exact Hsp|]. rewrite Hu. simpl. rewrite Hus. discriminate. }
    destruct ((d :: ds') ++ sp ++ unit ++ post) as [|x xs] eqn:Ex; [discriminate Ex|].
    cbn [firstMatch]. unfold matchAt. rewrite E1, E2, E3, isPrefix_app. reflexivity.
  - cbn [app firstMatch]. rewrite (matchAt_no_digit unit c _ Hc). exact IH.
Qed.

End HorizonFacts.

Section TextExtras.
Import Rag Text Features Forecast PricesRoute.
Context `{Host} `{Env}.

(** X24: the summary line always names the trend.  What
    [retrievePriceFeatures] returns ends with "trend up", "trend down"
    or "trend flat", and is never the sentence "No technical features
    available.", whatever data is missing. *)
Theorem retrievePriceFeatures_always_names_the_trend (ticker : jsstring) (w w' : World)
    (s : jsstring) :
  retrievePriceFeatures ticker w = (Ok s, w') ->
  (exists pre t, s = pre ++ lit "trend " ++ trendName t) /\
  s <> noFeatures.
Proof.
  intros E.
  destruct (retrievePriceFeatures_run ticker w) as (s1 & w1 & pre & t & E1 & Es & Hne).
  rewrite E1 in E. injection E as <- <-.
  split; [exists pre, t; exact Es | exact Hne].
Qed.

(** X25: [round2] is defined exactly on finite numbers; its result is a
    whole number of cents within half a cent of the argument (a half is
    rounded upwards), and rounding it again changes nothing. *)
Theorem round2_rounds_to_the_cent (n : option jsnum) :
  match round2 n with
  | None => forall q, n <> Some (Fin q)
  | Some r =>
      exists q k,
        n = Some (Fin q) /\ (r == inject_Z k / 100)%Q /\
        (q - (1 # 200) < r /\ r <= q + (1 # 200))%Q /\
        exists r', round2 (Some (Fin r)) = Some r' /\ (r' == r)%Q
  end.
Proof.
  destruct n as [[q| | |]|]; cbn [round2]; try (intros q'; discriminate).
  destruct (round2_spec q) as [Hclose Hidem]. cbn zeta in Hclose, Hidem.
  exists q, (Qfloor (q * 100 + (1 # 2))). split; [reflexivity|].
  split; [reflexivity|]. split; [exact Hclose|].
  eexists. split; [reflexivity | exact Hidem].
Qed.


(** X27: [parseHorizonDays] returns at least one day; it returns the
    default of 10 for a text without a digit; and when the lower-cased
    text starts, after a part without digits, with a number followed by
    "week", the result is five days per week (at least one), whatever the
    rest of the text says about months or days.  The number is one that
    a binary64 holds exactly, also when multiplied by 5: at most
    [2^53 / 5]. *)
Theorem parseHorizonDays_reads_weeks_first (text : jsstring) :
  1 <= parseHorizonDays text /\
  (Forall (fun c => isDigit c = false) (toLowerCase text) -> parseHorizonDays text = 10) /\
  (forall pre ds sp post,
     toLowerCase text = pre ++ ds ++ sp ++ lit "week" ++ post ->
     Forall (fun c => isDigit c = false) pre ->
     ds <> [] -> Forall (fun c => isDigit c = true) ds ->
     Forall (fun c => isSpace c = true) sp ->
     (head sp ≫= fun c => Some (isDigit c)) <> Some true ->
     digitsValue ds * 5 <= 2 ^ 53 ->
     parseHorizonDays text = Z.max 1 (digitsValue ds * 5)).
Proof.
  split; [|split].
  - unfold parseHorizonDays. cbn zeta.
    destruct (firstMatch (lit "week") _); [lia|].
    destruct (firstMatch (lit "month") _); [lia|].
    destruct (firstMatch (lit "day") _); lia.
  - intros Hnd. unfold parseHorizonDays. cbn zeta.
    rewrite !firstMatch_no_digit by exact Hnd. reflexivity.
  - intros pre ds sp post E Hpre Hne Hds Hsp Hhead _. unfold parseHorizonDays. cbn zeta.
    rewrite E.
    rewrite (firstMatch_shape (lit "week") pre ds sp post 119%N (lit "eek"));
      [reflexivity | reflexivity | reflexivity | reflexivity | assumption..].
Qed.

End TextExtras.


Example parseHorizonDays_examples :
  Forecast.parseHorizonDays (H := asciiHost) (lit "Where is AAPL in 2 weeks?") = 10 /\
  Forecast.parseHorizonDays (H := asciiHost) (lit "3 Months out") = 63 /\
  Forecast.parseHorizonDays (H := asciiHost) (lit "hold for 45days") = 45 /\
  Forecast.parseHorizonDays (H := asciiHost) (lit "1 day, or 12   weeks") = 60 /\
  Forecast.parseHorizonDays (H := asciiHost) (lit "0 weeks") = 1 /\
  Forecast.parseHorizonDays (H := asciiHost) (lit "week 2") = 10.
Proof. vm_compute. repeat split. Qed.

Example percentile_examples :
  Forecast.percentile [] (1 # 2) = Some NaN /\
  Forecast.percentile [1; 2; 4; 8]%Q 1 = Some (Fin 8) /\
  Forecast.percentile [1; 2; 4; 8]%Q 2 = None /\
  exists v, Forecast.percentile [1; 2; 4; 8]%Q (1 # 2) = Some (Fin v) /\ (v == 3)%Q.
Proof. repeat split. eexists. split; reflexivity. Qed.

Example sortStrings_example :
  Text.sortStrings [lit "TSLA"; lit "AAPL"; lit "AA"; lit "MSFT"]
  = [lit "AA"; lit "AAPL"; lit "MSFT"; lit "TSLA"].
Proof. reflexivity. Qed.

Lemma retrievePriceFeatures_always_names_the_trend_witness :
  (Features.retrievePriceFeatures (H := asciiHost) (H0 := candleEnv) (lit "aapl") blankWorld).1
  = Ok (lit "trend flat") /\
  lit "trend flat" <> Features.noFeatures.
Proof.
  split; [reflexivity|].
  refine (proj2 (retrievePriceFeatures_always_names_the_trend (H := asciiHost)
                   (H0 := candleEnv) (lit "aapl") blankWorld
                   (Features.retrievePriceFeatures (H := asciiHost) (H0 := candleEnv)
                      (lit "aapl") blankWorld).2
                   (lit "trend flat") _)).
  reflexivity.
Defined.

(* ===================================================================== *)
(** * app/api/prices/route.ts: the response cache                         *)
(* ===================================================================== *)

(** A conversion for the examples: an object with an own property
    "toString" raises, with the message of V8; any other object is
    "[object Object]" and [true] is "true".  Numbers and arrays, which the
    examples do not use, are rendered as "?". *)
Definition demoStringify : Stringify := {|
  stringOf := fun v =>
    match v with
    | JObj fields =>
        if bool_decide (lit "toString" ∈ fields.*1) then Throw
        else Ok (lit "[object Object]")
    | JBool true => Ok (lit "true")
    | _ => Ok (lit "?")
    end;
  conversionMessage := fun _ => lit "Cannot convert object to primitive value";
|}.

Section StringOrder.
Import Text.

(** The order of [sort()]: not greater by code units. *)
Definition leStr (a b : jsstring) : Prop := asciiCompare a b <> Gt.

Lemma asciiCompare_antisym a : forall b, asciiCompare b a = CompOpp (asciiCompare a b).
Proof.
  induction a as [|x a IH]; intros [|y b]; simpl; try reflexivity.
  rewrite (N.compare_antisym x y). destruct (x ?= y)%N; simpl; [apply IH | reflexivity..].
Qed.

Lemma asciiCompare_eq a : forall b, asciiCompare a b = Eq -> a = b.
Proof.
  induction a as [|x a IH]; intros [|y b]; simpl; try discriminate; [reflexivity|].
  destruct (x ?= y)%N eqn:E; try discriminate.
  apply N.compare_eq_iff in E. subst y. intros Hc. f_equal. apply IH. exact Hc.
Qed.

Lemma leStr_trans a : forall b c, leStr a b -> leStr b c -> leStr a c.
Proof.
  unfold leStr. induction a as [|x a IH]; intros [|y b] [|z c]; simpl; try congruence.
  destruct (x ?= y)%N eqn:Exy; destruct (y ?= z)%N eqn:Eyz; intros Hab Hbc; try congruence.
  - apply N.compare_eq_iff in Exy, Eyz. subst. rewrite N.compare_refl.
    eapply IH; eassumption.
  - apply N.compare_eq_iff in Exy. subst. rewrite Eyz. discriminate.
  - apply N.compare_eq_iff in Eyz. subst. rewrite Exy. discriminate.
  - apply N.compare_lt_iff in Exy. apply N.compare_lt_iff in Eyz.
    assert (E : (x ?= z)%N = Lt) by (apply N.compare_lt_iff; eapply N.lt_trans; eassumption).
    rewrite E. discriminate.
Qed.

#[local] Instance leStr_transitive : Transitive leStr.
Proof. intros a b c. apply leStr_trans. Qed.

#[local] Instance leStr_antisymm : AntiSymm (=) leStr.
Proof.
  intros a b Hab Hba. unfold leStr in *. rewrite (asciiCompare_antisym b a) in Hab.
  destruct (asciiCompare b a) eqn:E; simpl in Hab; try congruence.
  symmetry. apply asciiCompare_eq. exact E.
Qed.

Lemma leStr_total a b : asciiCompare a b = Gt -> leStr b a.
Proof. unfold leStr. intros E. rewrite (asciiCompare_antisym a b), E. discriminate. Qed.

Lemma insertString_perm x l : insertString x l ≡ₚ x :: l.
Proof.
  induction l as [|y r IH]; cbn [insertString]; [reflexivity|].
  destruct (asciiCompare x y); try reflexivity.
  rewrite IH. apply Permutation_swap.
Qed.

Lemma sortStrings_perm l : sortStrings l ≡ₚ l.
Proof.
  induction l as [|x r IH]; [reflexivity|].
  unfold sortStrings in *. cbn [foldr]. rewrite insertString_perm, IH. reflexivity.
Qed.

Lemma insertString_sorted x l : Sorted leStr l -> Sorted leStr (insertString x l).
Proof.
  induction 1 as [|y r Hr IH Hy]; cbn [insertString]; [repeat constructor|].
  destruct (asciiCompare x y) eqn:E.
  - constructor; [constructor; assumption|]. constructor. unfold leStr. congruence.
  - constructor; [constructor; assumption|]. constructor. unfold leStr. congruence.
  - constructor; [exact IH|].
    destruct r as [|z r']; cbn [insertString].
    + constructor. apply leStr_total. exact E.
    + destruct (asciiCompare x z); constructor;
        first [apply leStr_total; exact E | inversion Hy; assumption].
Qed.

Lemma sortStrings_sorted l : Sorted leStr (sortStrings l).
Proof.
  induction l as [|x r IH]; [constructor|].
  unfold sortStrings in *. cbn [foldr]. apply insertString_sorted. exact IH.
Qed.

(** Sorting forgets the order in which the strings came. *)
Lemma sortStrings_canonical l1 l2 : l1 ≡ₚ l2 -> sortStrings l1 = sortStrings l2.
Proof.
  intros Hp. apply (Sorted_unique leStr); [apply sortStrings_sorted..|].
  rewrite !sortStrings_perm. exact Hp.
Qed.

End StringOrder.

Section RouteFacts.
Import Prices Text PricesRoute.
Context `{Host} `{Config} `{Stringify}.

(** The tickers that [POST] reads from a body. *)
Definition bodyTickers (body : option json) : list json :=
  tickersOf (match body with Some b => Some b | None => Some (JObj []) end).

(** The cache key of a body, when its tickers convert to strings. *)
Definition bodyKey (body : option json) : option jsstring :=
  match rawTickers (bodyTickers body) with
  | Strings raw => Some (cacheKey raw)
  | Raised _ => None
  end.

(** Every entry expires [TTL_MS] after the time it was computed. *)
Definition cacheOk (cache : gmap jsstring CacheEntry) : Prop :=
  forall k e, cache !! k = Some e -> ce_exp e = ce_asOf e + TTL_MS.

Lemma cacheKey_set (l1 l2 : list jsstring) :
  (forall x, x ∈ normTicker <$> l1 <-> x ∈ normTicker <$> l2) ->
  cacheKey l1 = cacheKey l2.
Proof.
  intros Hset. unfold cacheKey. f_equal. apply sortStrings_canonical.
  apply NoDup_Permutation; [apply NoDup_dedupe..|].
  intros x. rewrite !elem_of_dedupe. split; intros [Hx Hn]; (split; [apply Hset; exact Hx | exact Hn]).
Qed.

Lemma failureMessage_noProvider : failureMessage noProvider = noProvider.
Proof. reflexivity. Qed.

(** The reply and the cache after a request that was answered. *)
Lemma POST_answered `{Upstream} body now cache payload asOf cache1 :
  cacheOk cache ->
  POST body now cache = (Prices payload asOf, cache1) ->
  bodyTickers body <> [] /\
  cacheOk cache1 /\
  exists k e, bodyKey body = Some k /\ cache1 !! k = Some e /\
              ce_payload e = payload /\ ce_asOf e = asOf /\ ce_exp e = asOf + TTL_MS.
Proof.
  intros Hok. unfold POST, bodyKey. cbn zeta. fold (bodyTickers body).
  destruct (bodyTickers body) as [|t ts] eqn:Et; [discriminate|].
  destruct (rawTickers (t :: ts)) as [raw|m] eqn:Eraw; [|discriminate].
  set (key := cacheKey raw).
  assert (Hmiss : forall r,
            (Prices {| p_prices := r_prices r; p_source := r_source r;
                       p_filled := r_filled r; p_errors := r_errors r |} now,
             <[key := {| ce_key := key; ce_asOf := now; ce_exp := now + TTL_MS;
                         ce_payload := {| p_prices := r_prices r; p_source := r_source r;
                                          p_filled := r_filled r;
                                          p_errors := r_errors r |} |}]> cache)
            = (Prices payload asOf, cache1) ->
            t :: ts <> [] /\ cacheOk cache1 /\
            exists k e, Some key = Some k /\ cache1 !! k = Some e /\ ce_payload e = payload /\
                        ce_asOf e = asOf /\ ce_exp e = asOf + TTL_MS).
  { intros r [= <- <- <-]. split; [discriminate|]. split.
    - intros k e. destruct (decide (k = key)) as [->|Hne].
      + rewrite lookup_insert_eq. intros [= <-]. reflexivity.
      + rewrite lookup_insert_ne by congruence. apply Hok.
    - exists key. eexists. split; [reflexivity|]. rewrite lookup_insert_eq. repeat split. }
  destruct (cache !! key) as [cached|] eqn:Ec.
  - destruct (now <? ce_exp cached) eqn:Efresh.
    + intros [= <- <- <-]. split; [discriminate|]. split; [exact Hok|].
      exists key, cached. split; [reflexivity|]. split; [exact Ec|].
      split; [reflexivity|]. split; [reflexivity|].
      apply (Hok key). exact Ec.
    + destruct (resolvePrices raw) as [r|] eqn:Er; [apply (Hmiss r) | discriminate].
  - destruct (resolvePrices raw) as [r|] eqn:Er; [apply (Hmiss r) | discriminate].
Qed.

(** A request whose key has an entry that has not expired. *)
Lemma POST_hit `{Upstream} body now cache k e :
  bodyTickers body <> [] -> bodyKey body = Some k ->
  cache !! k = Some e -> now < ce_exp e ->
  POST body now cache = (Prices (ce_payload e) (ce_asOf e), cache).
Proof.
  intros Hne Hk Ec Hlt. unfold POST. unfold bodyKey in Hk. cbn zeta.
  fold (bodyTickers body).
  destruct (bodyTickers body) as [|t ts] eqn:Et; [contradiction|].
  destruct (rawTickers (t :: ts)) as [raw|m] eqn:Eraw; [|discriminate].
  injection Hk as Hk. rewrite Hk, Ec. apply Z.ltb_lt in Hlt. rewrite Hlt. reflexivity.
Qed.

(** What [POST] leaves behind when it does not answer with prices. *)
Lemma POST_unanswered `{Upstream} body now cache :
  match POST body now cache with
  | (BadRequest, cache1) => bodyTickers body = [] /\ cache1 = cache
  | (Failed message, cache1) =>
      bodyTickers body <> [] /\ cache1 = cache /\
      ((exists m, rawTickers (bodyTickers body) = Raised m /\ message = failureMessage m) \/
       (message = noProvider /\ forall p, hasProvider p = false))
  | (Prices _ _, _) => bodyTickers body <> [] /\ bodyKey body <> None
  end.
Proof.
  unfold POST, bodyKey. cbn zeta. fold (bodyTickers body).
  destruct (bodyTickers body) as [|t ts] eqn:Et; [split; reflexivity|].
  destruct (rawTickers (t :: ts)) as [raw|m] eqn:Eraw.
  2:{ split; [discriminate|]. split; [reflexivity|]. left. exists m. split; reflexivity. }
  assert (Hmiss :
    match
      match resolvePrices raw with
      | Ok r =>
          (Prices {| p_prices := r_prices r; p_source := r_source r;
                     p_filled := r_filled r; p_errors := r_errors r |} now,
           <[cacheKey raw :=
               {| ce_key := cacheKey raw; ce_asOf := now; ce_exp := now + TTL_MS;
                  ce_payload := {| p_prices := r_prices r; p_source := r_source r;
                                   p_filled := r_filled r; p_errors := r_errors r |} |}]> cache)
      | Throw => (Failed (failureMessage noProvider), cache)
      end
    with
    | (BadRequest, cache1) => t :: ts = [] /\ cache1 = cache
    | (Failed message, cache1) =>
        t :: ts <> [] /\ cache1 = cache /\
        ((exists m, Strings raw = Raised m /\ message = failureMessage m) \/
         (message = noProvider /\ forall p, hasProvider p = false))
    | (Prices _ _, _) => t :: ts <> [] /\ Some (cacheKey raw) <> None
    end).
  { destruct (resolvePrices raw) as [r|] eqn:Er; [split; discriminate|].
    split; [discriminate|]. split; [reflexivity|]. right. split; [reflexivity|].
    destruct providerOrder_members as [_ Hmem].
    unfold resolvePrices in Er. cbn zeta in Er.
    destruct providerOrder as [|p rest] eqn:Eo; [|discriminate].
    intros p. apply not_true_iff_false. intros Hp. apply Hmem in Hp. inversion Hp. }
  destruct (cache !! cacheKey raw) as [cached|]; [|exact Hmiss].
  destruct (now <? ce_exp cached); [split; discriminate | exact Hmiss].
Qed.

End RouteFacts.

Section RouteExtras.
Import Prices Text PricesRoute.
Context `{Host} `{Config} `{Stringify}.

(** X28: an answer is served from the cache for four seconds.  After a
    request was answered with prices computed (or served) as of [asOf],
    every request with the same cache key that arrives before
    [asOf + 4000] gets the same payload with the same [asOf], whatever
    the upstream services would say by then, and the cache stays as it
    is.  (Entries expire [TTL_MS] after they were computed: [POST] keeps
    the cache in that state.) *)
Theorem POST_serves_from_cache (U U' : Upstream) (body body' : option json) (now now' : Z)
    (cache cache1 : gmap jsstring CacheEntry) (payload : Payload) (asOf : Z) :
  cacheOk cache ->
  POST (H1 := U) body now cache = (Prices payload asOf, cache1) ->
  bodyTickers body' <> [] ->
  bodyKey body' = bodyKey body ->
  now' < asOf + TTL_MS ->
  cacheOk cache1 /\
  POST (H1 := U') body' now' cache1 = (Prices payload asOf, cache1).
Proof.
  intros Hok E Hne Hkey Hlt.
  destruct (POST_answered (H2 := U) body now cache payload asOf cache1 Hok E)
    as (_ & Hok1 & k & e & Ek & Ee & <- & <- & Hexp).
  split; [exact Hok1|].
  apply (POST_hit (H2 := U') body' now' cache1 k e);
    [exact Hne | rewrite Hkey; exact Ek | exact Ee | lia].
Qed.

(** X29: the cache key depends only on the set of normalised tickers:
    two lists of ticker strings whose trimmed, upper-cased forms make the
    same set have the same key, whatever their order, their duplicates
    and the case they were written in. *)
Theorem cacheKey_depends_on_the_set_of_tickers (l1 l2 : list jsstring) :
  (forall x, x ∈ normTicker <$> l1 <-> x ∈ normTicker <$> l2) ->
  cacheKey l1 = cacheKey l2.
Proof. apply cacheKey_set. Qed.

(** X30: failures are not cached.  [POST] answers 400 exactly when the
    body holds no non-empty array of tickers.  It answers 500 in two
    cases only: a ticker that cannot be converted to a string (the
    message is that of the conversion, or "prices_failed" when that is
    empty), and no provider configured (the message is that of
    [resolvePrices]).  In all these cases the cache is left as it was. *)
Theorem POST_does_not_cache_failures (U : Upstream) (body : option json) (now : Z)
    (cache : gmap jsstring CacheEntry) :
  match POST (H1 := U) body now cache with
  | (BadRequest, cache1) => bodyTickers body = [] /\ cache1 = cache
  | (Failed message, cache1) =>
      bodyTickers body <> [] /\ cache1 = cache /\
      ((exists m, rawTickers (bodyTickers body) = Raised m /\ message = failureMessage m) \/
       (message = noProvider /\ forall p, hasProvider p = false))
  | (Prices _ _, _) => bodyTickers body <> [] /\ bodyKey body <> None
  end.
Proof. apply (POST_unanswered (H2 := U)). Qed.

End RouteExtras.

Definition demoBody (tickers : list string) : option json :=
  Some (JObj [(lit "tickers", JArr ((fun t => JStr (lit t)) <$> tickers))]).

Lemma cacheKey_depends_on_the_set_of_tickers_witness :
  PricesRoute.cacheKey (H := asciiHost) [lit "tsla"; lit " aapl"; lit "TSLA"]
  = PricesRoute.cacheKey (H := asciiHost) [lit "AAPL"; lit "Tsla "].
Proof.
  apply (cacheKey_depends_on_the_set_of_tickers (H := asciiHost)).
  intros x.
  change (Prices.normTicker (H := asciiHost) <$> [lit "tsla"; lit " aapl"; lit "TSLA"])
    with [lit "TSLA"; lit "AAPL"; lit "TSLA"].
  change (Prices.normTicker (H := asciiHost) <$> [lit "AAPL"; lit "Tsla "])
    with [lit "AAPL"; lit "TSLA"].
  rewrite !elem_of_cons, !elem_of_nil. tauto.
Defined.

Lemma POST_serves_from_cache_witness :
  let first := PricesRoute.POST (H := asciiHost) (H0 := demoConfig) (H1 := demoUpstream)
                 (H2 := demoStringify) (demoBody ["aapl"; "tsla"]) 1000 ∅ in
  PricesRoute.POST (H := asciiHost) (H0 := demoConfig) (H1 := demoUpstream)
    (H2 := demoStringify) (demoBody ["TSLA"; "AAPL"]) 4999 first.2
  = (first.1, first.2).
Proof.
  cbn zeta.
  set (first := PricesRoute.POST (H := asciiHost) (H0 := demoConfig) (H1 := demoUpstream)
                  (H2 := demoStringify) (demoBody ["aapl"; "tsla"]) 1000 ∅).
  destruct first as [reply cache1] eqn:E.
  destruct reply as [|payload asOf|m]; try (vm_compute in E; discriminate E).
  assert (HasOf : asOf = 1000) by (vm_compute in E; congruence).
  cbn [fst snd].
  apply (POST_serves_from_cache (H := asciiHost) (H0 := demoConfig) (H1 := demoStringify)
           demoUpstream demoUpstream (demoBody ["aapl"; "tsla"]) (demoBody ["TSLA"; "AAPL"])
           1000 4999 ∅ cache1 payload asOf).
  - intros k e Hl. rewrite lookup_empty in Hl. discriminate.
  - exact E.
  - vm_compute. discriminate.
  - vm_compute. reflexivity.
  - rewrite HasOf. vm_compute. reflexivity.
Defined.

(** A ticker that cannot be converted is answered with status 500, also
    when providers are configured, and a request without tickers with
    status 400. *)
Example POST_failures :
  PricesRoute.POST (H := asciiHost) (H0 := demoConfig) (H1 := demoUpstream)
    (H2 := demoStringify)
    (Some (JObj [(lit "tickers", JArr [JStr (lit "AAPL"); JObj [(lit "toString", JNum 1)]])]))
    1000 ∅
  = (PricesRoute.Failed (lit "Cannot convert object to primitive value"), ∅) /\
  PricesRoute.POST (H := asciiHost) (H0 := demoConfig) (H1 := demoUpstream)
    (H2 := demoStringify) (Some (JObj [(lit "tickers", JArr [])])) 1000 ∅
  = (PricesRoute.BadRequest, ∅) /\
  PricesRoute.POST (H := asciiHost) (H0 := demoConfig) (H1 := demoUpstream)
    (H2 := demoStringify) None 1000 ∅
  = (PricesRoute.BadRequest, ∅).
Proof. vm_compute. repeat split. Qed.
